(** * flt-html: the FLT to HTML renderer (src/main.js), embedded in Rocq

    The renderer walks the line stream of an FLT document once and
    mutates a DOM tree through a handful of DOM primitives.  The DOM
    is embedded as a tree of elements labelled with object identities;
    the render context of [toHTMLDOM] is a record threaded through a
    state-and-exception monad whose exceptional outcome keeps the
    state reached when the exception was thrown. *)

From Stdlib Require Import List String Ascii Bool Arith ZArith Lia Permutation.
From Stdlib Require Import DecimalString DecimalNat.
Import ListNotations.
Local Open Scope string_scope.
Local Open Scope nat_scope.

Set Implicit Arguments.
#[local] Set Warnings "-register-all,-notation-for-abbreviation".

(** ** DOM trees *)

Module Dom.

(** A JavaScript object reference to an element. *)
Notation ref := nat (only parsing).

(** The per-element data the renderer reads or writes: the identity of
    the object, its tag, its attributes in insertion order, its class
    list, and the expando property [fltColumns] set on tables. *)
Record elem : Type := mkElem {
  eid : ref;
  tag : string;
  attrs : list (string * string);
  classes : list string;
  fltColumns : option Z
}.

Inductive node : Type :=
| Element (e : elem) (children : list node)
| TextNode (data : string)
| CommentNode (data : string).

Definition newElem (i : ref) (tg : string) : elem :=
  mkElem i tg [] [] None.

Definition leaf (i : ref) (tg : string) : node := Element (newElem i tg) [].

Definition childNodes (n : node) : list node :=
  match n with Element _ cs => cs | _ => [] end.

Definition asElem (n : node) : option elem :=
  match n with Element e _ => Some e | _ => None end.

Definition hasId (i : ref) (n : node) : bool :=
  match n with Element e _ => eid e =? i | _ => false end.

Definition hasTag (tg : string) (n : node) : bool :=
  match n with Element e _ => String.eqb (tag e) tg | _ => false end.

Section FindMap.
Context {A B : Type} (f : A -> option B).
Fixpoint findMap (l : list A) : option B :=
match l with
| [] => None
| x :: r => match f x with Some y => Some y | None => findMap r end
end.
End FindMap.

(** Identities of all the elements of a tree, in document order. *)
Fixpoint ids (n : node) : list ref :=
  match n with
  | Element e cs => eid e :: flat_map ids cs
  | _ => []
  end.

(** The element with identity [i], searched in document order. *)
Fixpoint getNode (i : ref) (n : node) : option node :=
  match n with
  | Element e cs => if eid e =? i then Some n else findMap (getNode i) cs
  | _ => None
  end.

Definition hasNode (i : ref) (n : node) : bool :=
  match getNode i n with Some _ => true | None => false end.

(** Replace the element with identity [i] by [f] of its data and
    children. *)
Fixpoint updateNode (i : ref) (f : elem -> list node -> node) (n : node) : node :=
  match n with
  | Element e cs =>
      let cs' := map (updateNode i f) cs in
      if eid e =? i then f e cs' else Element e cs'
  | _ => n
  end.

(** Replace the data of the element with identity [i], keeping its
    children. *)
Definition updElem (i : ref) (g : elem -> elem) : node -> node :=
  updateNode i (fun e cs => Element (g e) cs).

(** [parent.appendChild(child)] *)
Definition appendChildT (parent : ref) (child : node) : node -> node :=
  updateNode parent (fun e cs => Element e (cs ++ [child])).

(** [el.setAttribute(k, v)]: replaces the value in place when the
    attribute exists, appends it otherwise. *)
Fixpoint setAttr (k v : string) (l : list (string * string)) : list (string * string) :=
  match l with
  | [] => [(k, v)]
  | (k', v') :: r => if String.eqb k' k then (k, v) :: r else (k', v') :: setAttr k v r
  end.

Definition getAttr (k : string) (l : list (string * string)) : option string :=
  findMap (fun kv => if String.eqb (fst kv) k then Some (snd kv) else None) l.

Definition withAttr (k v : string) (e : elem) : elem :=
  mkElem (eid e) (tag e) (setAttr k v (attrs e)) (classes e) (fltColumns e).

Definition setAttributeT (i : ref) (k v : string) : node -> node :=
  updElem i (withAttr k v).

(** [el.classList.add(c)] *)
Definition addClass (c : string) (l : list string) : list string :=
  if existsb (String.eqb c) l then l else l ++ [c].

Definition withClass (c : string) (e : elem) : elem :=
  mkElem (eid e) (tag e) (attrs e) (addClass c (classes e)) (fltColumns e).

Definition classListAddT (i : ref) (c : string) : node -> node :=
  updElem i (withClass c).

(** [el.textContent = s]: all children are replaced by one text node,
    or by nothing when [s] is empty. *)
Definition setTextContentT (i : ref) (s : string) : node -> node :=
  updateNode i (fun e _ =>
    Element e (if String.eqb s "" then [] else [TextNode s])).

(** [table.fltColumns = z] *)
Definition withColumns (z : Z) (e : elem) : elem :=
  mkElem (eid e) (tag e) (attrs e) (classes e) (Some z).

Definition setFltColumnsT (i : ref) (z : Z) : node -> node :=
  updElem i (withColumns z).

(** [el.parentNode.removeChild(el)] *)
Fixpoint removeNodeT (i : ref) (n : node) : node :=
  match n with
  | Element e cs =>
      Element e (filter (fun c => negb (hasId i c)) (map (removeNodeT i) cs))
  | _ => n
  end.

(** [el.insertAdjacentElement("beforeBegin", new)] *)
Definition insertBeforeL (i : ref) (new : node) (cs : list node) : list node :=
  flat_map (fun c => if hasId i c then [new; c] else [c]) cs.

Fixpoint insertBeforeT (i : ref) (new : node) (n : node) : node :=
  match n with
  | Element e cs => Element e (insertBeforeL i new (map (insertBeforeT i new) cs))
  | _ => n
  end.

(** The chain of elements from the root of [n] down to the element
    with identity [i], both included. *)
Fixpoint pathTo (i : ref) (n : node) : option (list elem) :=
  match n with
  | Element e cs =>
      if eid e =? i then Some [e]
      else match findMap (pathTo i) cs with
           | Some p => Some (e :: p)
           | None => None
           end
  | _ => None
  end.

(** ** Selectors

    The renderer uses selector groups whose members are either a type
    selector or a type selector with [:last-of-type]. *)
Inductive simpleSel : Type :=
| SelTag (tg : string)
| SelLastOfType (tg : string).

Definition selector := list simpleSel.

Definition sameType (c : node) (d : node) : bool :=
  match c, d with
  | Element e _, Element e' _ => String.eqb (tag e) (tag e')
  | _, _ => false
  end.

(** The descendants of a node in document order, each with the flag
    "no later sibling has the same tag". *)
Fixpoint descendants (n : node) : list (node * bool) :=
  match n with
  | Element _ cs =>
      (fix go (l : list node) : list (node * bool) :=
         match l with
         | [] => []
         | c :: r => (c, negb (existsb (sameType c) r)) :: descendants c ++ go r
         end) cs
  | _ => []
  end.

Definition matchesSimple (e : elem) (last : bool) (s : simpleSel) : bool :=
  match s with
  | SelTag tg => String.eqb (tag e) tg
  | SelLastOfType tg => String.eqb (tag e) tg && last
  end.

Definition matchesSel (sel : selector) (nl : node * bool) : option elem :=
  match fst nl with
  | Element e _ => if existsb (matchesSimple e (snd nl)) sel then Some e else None
  | _ => None
  end.

Fixpoint selectAll (sel : selector) (l : list (node * bool)) : list elem :=
  match l with
  | [] => []
  | nl :: r =>
      match matchesSel sel nl with
      | Some e => e :: selectAll sel r
      | None => selectAll sel r
      end
  end.

(** [n.querySelectorAll(sel)], as a static list in document order. *)
Definition querySelectorAllN (sel : selector) (n : node) : list elem :=
  selectAll sel (descendants n).

(** [n.lastElementChild] *)
Definition lastElementChildN (n : node) : option elem :=
  findMap asElem (rev (childNodes n)).

(** [el.closest(sel)] for a group of type selectors, on the chain of
    ancestors of [el]. *)
Definition closestP (tags : list string) (p : list elem) : option elem :=
  find (fun e => existsb (String.eqb (tag e)) tags) (rev p).

End Dom.

(** ** The state-and-exception monad *)

Module Monad.

(** The exception kinds the renderer can end with: [FLTError] is the
    renderer's own error class; [RangeError] and [TypeError] are the
    JavaScript runtime's; [DOMException] is the DOM's, with its code
    name.  [Detached] marks a DOM operation on an
    element that is not in the document, which this embedding does not
    track. *)
Inductive error : Type :=
| FLTError (msg : string)
| RangeError (msg : string)
| TypeError (msg : string)
| DOMException (code : string)
| Detached.

(** A computation either returns or throws; both keep the state, since
    mutations made before a [throw] are not undone. *)
Inductive outcome (S A : Type) : Type :=
| Return (a : A) (s : S)
| Throw (e : error) (s : S).

Arguments Return {S A} a s.
Arguments Throw {S A} e s.

Definition SE (S A : Type) : Type := S -> outcome S A.

Definition ret {S A} (a : A) : SE S A := fun s => Return a s.

Definition bind {S A B} (m : SE S A) (k : A -> SE S B) : SE S B :=
  fun s => match m s with
           | Return a s' => k a s'
           | Throw e s' => Throw e s'
           end.

Definition throw {S A} (e : error) : SE S A := fun s => Throw e s.

Definition gets {S A} (f : S -> A) : SE S A := fun s => Return (f s) s.

Definition modify {S} (f : S -> S) : SE S unit := fun s => Return tt (f s).

Definition finalState {S A} (o : outcome S A) : S :=
  match o with Return _ s => s | Throw _ s => s end.

Definition when {S} (b : bool) (m : SE S unit) : SE S unit :=
  if b then m else ret tt.

(** [l.forEach(f)] *)
Fixpoint forEach {S A} (l : list A) (f : A -> SE S unit) : SE S unit :=
  match l with
  | [] => ret tt
  | x :: r => bind (f x) (fun _ => forEach r f)
  end.

End Monad.

Import Dom Monad.

Declare Scope se_scope.
Delimit Scope se_scope with se.
Notation "x <- m ;; k" := (bind m (fun x => k))
  (at level 61, m at next level, right associativity) : se_scope.
Notation "m ;; k" := (bind m (fun _ => k))
  (at level 61, right associativity) : se_scope.
Local Open Scope se_scope.

(** ** DOM primitives on the document *)

(** The document and the supply of object identities. *)
Record domState : Type := mkDom {
  doc : node;
  nextId : ref
}.

Definition D (A : Type) : Type := SE domState A.

(** [createHTMLDocument()]: an [html] element holding an empty [head]
    and an empty [body]. *)
Definition htmlId : ref := 0.
Definition headId : ref := 1.
Definition bodyId : ref := 2.

Definition createHTMLDocument : domState :=
  mkDom (Element (newElem htmlId "html") [leaf headId "head"; leaf bodyId "body"]) 3.

Definition withNode {A} (i : ref) (k : node -> D A) : D A :=
  fun d => match getNode i (doc d) with
           | Some n => k n d
           | None => Throw Detached d
           end.

Definition mutate (i : ref) (f : node -> node) : D unit :=
  fun d => if hasNode i (doc d)
           then Return tt (mkDom (f (doc d)) (nextId d))
           else Throw Detached d.

(** [parent.appendChild(document.createElement(tg))], returning the new
    element. *)
Definition createAppend (parent : ref) (tg : string) : D ref :=
  fun d => if hasNode parent (doc d)
           then Return (nextId d)
                  (mkDom (appendChildT parent (leaf (nextId d) tg) (doc d)) (S (nextId d)))
           else Throw Detached d.

(** [parent.appendChild(document.createTextNode(s))] *)
Definition appendText (parent : ref) (s : string) : D unit :=
  mutate parent (appendChildT parent (TextNode s)).

(** [parent.appendChild(document.createComment(s))] *)
Definition appendComment (parent : ref) (s : string) : D unit :=
  mutate parent (appendChildT parent (CommentNode s)).

(** [el.insertAdjacentElement("beforeBegin", document.createElement(tg))] *)
Definition insertBeforeBegin (i : ref) (tg : string) : D ref :=
  fun d => if hasNode i (doc d)
           then Return (nextId d)
                  (mkDom (insertBeforeT i (leaf (nextId d) tg) (doc d)) (S (nextId d)))
           else Throw Detached d.

Definition setAttribute (i : ref) (k v : string) : D unit :=
  mutate i (setAttributeT i k v).

(** The tokens of a class list: [classList.add] throws a
    [DOMException] with the code [SYNTAX_ERR] on the empty string and
    with the code [INVALID_CHARACTER_ERR] on a string that holds ASCII
    white space (tab, line feed, form feed, carriage return, space). *)
Definition isSpace (c : ascii) : bool :=
  existsb (Ascii.eqb c) ["009"; "010"; "012"; "013"; " "]%char.

Fixpoint hasSpace (s : string) : bool :=
  match s with
  | EmptyString => false
  | String c r => isSpace c || hasSpace r
  end.

Definition tokenError (c : string) : option error :=
  if String.eqb c "" then Some (DOMException "SYNTAX_ERR")
  else if hasSpace c then Some (DOMException "INVALID_CHARACTER_ERR")
  else None.

(** [el.classList.add(c)] *)
Definition classListAdd (i : ref) (c : string) : D unit :=
  match tokenError c with
  | Some e => throw e
  | None => mutate i (classListAddT i c)
  end.

(** [el.classList.add(...cs)]: the error of the first token that is
    not valid is thrown before any class is added. *)
Definition classListAddAll (i : ref) (cs : list string) : D unit :=
  match findMap tokenError cs with
  | Some e => throw e
  | None => mutate i (updElem i (fun e => fold_left (fun e0 c => withClass c e0) cs e))
  end.

Definition setTextContent (i : ref) (s : string) : D unit :=
  mutate i (setTextContentT i s).

Definition setFltColumns (i : ref) (z : Z) : D unit :=
  mutate i (setFltColumnsT i z).

(** [el.parentNode.removeChild(el)] *)
Definition removeFromParent (i : ref) : D unit :=
  mutate i (removeNodeT i).

Definition lastElementChild (i : ref) : D (option elem) :=
  withNode i (fun n => ret (lastElementChildN n)).

Definition hasChildNodes (i : ref) : D bool :=
  withNode i (fun n => ret (match childNodes n with [] => false | _ :: _ => true end)).

Definition querySelectorAll (i : ref) (sel : selector) : D (list elem) :=
  withNode i (fun n => ret (querySelectorAllN sel n)).

(** [el.querySelector(sel)]: the first match in document order. *)
Definition querySelector (i : ref) (sel : selector) : D (option elem) :=
  withNode i (fun n => ret (hd_error (querySelectorAllN sel n))).

(** [document.querySelectorAll(sel)]: the root element is itself a
    candidate, and has no sibling. *)
Definition documentQuerySelectorAll (sel : selector) : D (list elem) :=
  fun d => Return (selectAll sel ((doc d, true) :: descendants (doc d))) d.

Definition closest (i : ref) (tags : list string) : D (option elem) :=
  fun d => match pathTo i (doc d) with
           | Some p => Return (closestP tags p) d
           | None => Throw Detached d
           end.

(** [a.contains(b)]: [b] is [a] or one of its descendants. *)
Definition contains (a b : ref) : D bool :=
  withNode a (fun n => ret (hasNode b n)).

(** [el.parentElement] *)
Definition parentElement (i : ref) : D (option elem) :=
  fun d => match pathTo i (doc d) with
           | Some p => Return (hd_error (tl (rev p))) d
           | None => Throw Detached d
           end.

(** ** FLT lines, as the renderer reads them *)

Inductive lineKind : Type :=
| T_SECTION | T_PARAGRAPH | T_HINT | T_LINK | T_ANCHOR
| T_BLOB | T_IMAGE | T_TABLE | T_DESTINATION.

Inductive destination : Type := D_BODY | D_NOTE | D_CELL | D_HEAD.

Inductive alignment : Type := ALIGN_LEFT | ALIGN_CENTER | ALIGN_RIGHT.

(** A typed line.  [content] is the string payload of HINT, LINK,
    ANCHOR and IMAGE lines ([None] for [null]); [columns] is the
    numeric [content] of a TABLE line. *)
Record TypeLine : Type := mkTypeLine {
  lineType : lineKind;
  content : option string;
  columns : Z;
  align : option alignment;
  break : bool;
  destinationOf : destination;
  header : bool;
  mediaType : string;
  data : string;
  tReset : bool
}.

Record TextLine : Type := mkTextLine {
  text : string;
  italic : bool;
  bold : bool;
  underline : bool;
  strikeout : bool;
  mono : bool;
  supertext : bool;
  subtext : bool;
  xReset : bool
}.

(** A line of the document: typed, text, or a metadata line, which the
    render loop skips after honouring its reset flag. *)
Inductive line : Type :=
| Typed (l : TypeLine)
| Texted (l : TextLine)
| Meta (mReset : bool).

Definition lineReset (l : line) : bool :=
  match l with
  | Typed t => tReset t
  | Texted t => xReset t
  | Meta r => r
  end.

(** The host document: feature flag, Dublin Core lookup and lines. *)
Record Document : Type := mkDocument {
  DCMETA : bool;
  getDC : string -> list string;
  lines : list line
}.

(** ** Constants of the module *)

Definition style : string := "
    .underline { text-decoration: underline; }
    .strikeout { text-decoration: line-through; }
    .monospace { font-family: monospace; }
    .align-left { text-align: left; }
    .align-center { text-align: center; }
    .align-right { text-align: right; }
    a.to-note { vertical-align: super; font-size: 0.5em; }
".

Definition alignClasses (a : alignment) : string :=
  match a with
  | ALIGN_LEFT => "align-left"
  | ALIGN_CENTER => "align-center"
  | ALIGN_RIGHT => "align-right"
  end.

(** ** JavaScript conversions *)

(** Truthiness of a value that is [null] or a string. *)
Definition truthy (o : option string) : bool :=
  match o with
  | Some s => negb (String.eqb s "")
  | None => false
  end.

(** [String(v)] for a value that is [null] or a string. *)
Definition toString (o : option string) : string :=
  match o with Some s => s | None => "null" end.

(** The decimal rendering of a number in a template literal. *)
Definition showNat (n : nat) : string := NilEmpty.string_of_uint (Nat.to_uint n).

(** [l.join(sep)] *)
Definition join (sep : string) (l : list string) : string := String.concat sep l.

(** [s.split(/\n/u)] *)
Definition isNewline (c : ascii) : bool := Ascii.eqb c "010"%char.

Fixpoint split (s : string) : list string :=
  match s with
  | EmptyString => [""]
  | String c r =>
      if isNewline c then "" :: split r
      else match split r with
           | h :: t => String c h :: t
           | [] => [String c ""]
           end
  end.

(** [[...l].slice(-1)[0]]: the last member, [undefined] when empty. *)
Fixpoint lastOf {A} (l : list A) : option A :=
  match l with
  | [] => None
  | x :: r => match r with [] => Some x | _ :: _ => lastOf r end
  end.

(** ** The render context *)

Record ctx : Type := mkCtx {
  dom : domState;
  noteIndex : nat;
  link : option ref;
  hint : option string;
  blob : option (string * string);
  sect : ref;
  dest : destination
}.

Definition M (A : Type) : Type := SE ctx A.

Definition setDom (d : domState) (c : ctx) : ctx :=
  mkCtx d (noteIndex c) (link c) (hint c) (blob c) (sect c) (dest c).
Definition setNoteIndex (n : nat) (c : ctx) : ctx :=
  mkCtx (dom c) n (link c) (hint c) (blob c) (sect c) (dest c).
Definition setLink (l : option ref) (c : ctx) : ctx :=
  mkCtx (dom c) (noteIndex c) l (hint c) (blob c) (sect c) (dest c).
Definition setHint (h : option string) (c : ctx) : ctx :=
  mkCtx (dom c) (noteIndex c) (link c) h (blob c) (sect c) (dest c).
Definition setBlob (b : option (string * string)) (c : ctx) : ctx :=
  mkCtx (dom c) (noteIndex c) (link c) (hint c) b (sect c) (dest c).
Definition setSect (s : ref) (c : ctx) : ctx :=
  mkCtx (dom c) (noteIndex c) (link c) (hint c) (blob c) s (dest c).
Definition setDest (d : destination) (c : ctx) : ctx :=
  mkCtx (dom c) (noteIndex c) (link c) (hint c) (blob c) (sect c) d.

(** Run a DOM primitive on the document of the context. *)
Definition liftD {A} (m : D A) : M A :=
  fun c => match m (dom c) with
           | Return a d => Return a (setDom d c)
           | Throw e d => Throw e (setDom d c)
           end.

(** [reset()] *)
Definition reset : M unit :=
  modify (setLink None) ;; modify (setHint None).

(** [destEl()]: the current destination element, for the values of
    [dest] and [sect] it reads.  With a closed [destination] type the
    [default] branch of the source is never taken.  Where the source
    returns [undefined] and every caller dereferences it at once, the
    [TypeError] is raised here. *)
Definition destElD (d : destination) (s : ref) : D ref :=
  match d with
  | D_BODY =>
      p <- lastElementChild s ;;
      match p with
      | Some e => if String.eqb (tag e) "p" then ret (eid e)
                  else createAppend s "p"
      | None => createAppend s "p"
      end
  | D_NOTE =>
      notes <- querySelectorAll s [SelTag "aside"; SelTag "notAnElement"] ;;
      match lastOf notes with
      | None => throw (TypeError "note is undefined")
      | Some note =>
          ps <- querySelectorAll (eid note) [SelTag "p"; SelTag "notAnElement"] ;;
          match lastOf ps with
          | None => throw (TypeError "destination is undefined")
          | Some p => ret (eid p)
          end
      end
  | D_CELL =>
      cells <- querySelectorAll s [SelTag "th"; SelTag "td"] ;;
      match lastOf cells with
      | None => throw (TypeError "cell is undefined")
      | Some cell =>
          conts <- querySelectorAll (eid cell) [SelTag "aside"; SelTag "p"] ;;
          match lastOf conts with
          | None => ret (eid cell)
          | Some cont => ret (eid cont)
          end
      end
  | D_HEAD =>
      h <- lastElementChild s ;;
      match h with
      | Some e => if String.eqb (tag e) "h2" then ret (eid e)
                  else createAppend s "h2"
      | None => createAppend s "h2"
      end
  end.

Definition destEl : M ref :=
  d <- gets dest ;;
  s <- gets sect ;;
  liftD (destElD d s).

(** [if (line.align in alignClasses) el.classList.add(alignClasses[line.align])] *)
Definition applyAlign (el : ref) (a : option alignment) : M unit :=
  match a with
  | Some al => liftD (classListAdd el (alignClasses al))
  | None => ret tt
  end.

(** [if (hint) el.setAttribute("title", hint), (hint = null)] *)
Definition applyHint (el : ref) : M unit :=
  h <- gets hint ;;
  if truthy h
  then liftD (setAttribute el "title" (toString h)) ;; modify (setHint None)
  else ret tt.

(** ** Handlers of the typed lines *)

Definition sectionTags : list string := ["aside"; "td"; "th"; "section"].

Definition handleSection (l : TypeLine) : M unit :=
  modify (setLink None) ;;
  modify (setDest D_BODY) ;;
  old <- gets sect ;;
  filled <- liftD (hasChildNodes old) ;;
  when (negb filled) (liftD (removeFromParent old)) ;;
  s <- liftD (createAppend bodyId "section") ;;
  modify (setSect s) ;;
  applyAlign s (align l) ;;
  if break l
  then
    par <- liftD (parentElement s) ;;
    match par with
    | None => throw (TypeError "parentElement is null")
    | Some b =>
        first <- liftD (querySelector (eid b) [SelTag "section"]) ;;
        match first with
        | Some f =>
            if eid f =? s then ret tt
            else (liftD (insertBeforeBegin s "hr") ;; ret tt)
        | None => liftD (insertBeforeBegin s "hr") ;; ret tt
        end
    end
  else ret tt.

Definition handleParagraph (l : TypeLine) : M unit :=
  modify (setLink None) ;;
  d <- destEl ;;
  cont <- liftD (closest d sectionTags) ;;
  match cont with
  | None => throw (TypeError "cont is null")
  | Some c =>
      p <- liftD (createAppend (eid c) "p") ;;
      applyAlign p (align l)
  end.

Definition handleHint (l : TypeLine) : M unit :=
  modify (setHint (content l)).

Definition handleLink (l : TypeLine) : M unit :=
  d <- destEl ;;
  a <- liftD (createAppend d "a") ;;
  modify (setLink (Some a)) ;;
  liftD (setAttribute a "href" (toString (content l))) ;;
  applyHint a.

Definition handleAnchor (l : TypeLine) : M unit :=
  d <- destEl ;;
  a <- liftD (createAppend d "a") ;;
  liftD (setAttribute a "name" (toString (content l))).

Definition handleBlob (l : TypeLine) : M unit :=
  modify (setBlob (Some (mediaType l, data l))).

Definition handleImage (l : TypeLine) : M unit :=
  d <- destEl ;;
  img <- liftD (createAppend d "img") ;;
  (if truthy (content l)
   then liftD (setAttribute img "src" (toString (content l)))
   else
     b <- gets blob ;;
     match b with
     | None => throw (FLTError "No image content available")
     | Some (ty, da) =>
         liftD (setAttribute img "src" ("data:" ++ ty ++ ";base64," ++ da))
     end) ;;
  applyHint img.

Definition handleTable (l : TypeLine) : M unit :=
  s <- gets sect ;;
  table <- liftD (createAppend s "table") ;;
  liftD (setFltColumns table (columns l)).

(** [!(BigInt(cellCount) % BigInt(table.fltColumns))]: the BigInt
    remainder truncates towards zero and throws on a zero divisor. *)
Definition cellCountIsMultiple (cellCount : nat) (cols : option Z) : M bool :=
  match cols with
  | None => throw (TypeError "Cannot convert undefined to a BigInt")
  | Some c =>
      if (c =? 0)%Z then throw (RangeError "Division by zero")
      else ret (Z.rem (Z.of_nat cellCount) c =? 0)%Z
  end.

Definition enterNote : M unit :=
  d <- destEl ;;
  n <- gets noteIndex ;;
  a <- liftD (createAppend d "a") ;;
  liftD (setAttribute a "name" ("flt-note-return-" ++ showNat n)) ;;
  liftD (setAttribute a "href" ("#flt-note-" ++ showNat n)) ;;
  liftD (classListAdd a "to-note") ;;
  liftD (setTextContent a (showNat n)) ;;
  s <- gets sect ;;
  note <- liftD (createAppend s "aside") ;;
  b <- liftD (createAppend note "a") ;;
  liftD (setAttribute b "name" ("flt-note-" ++ showNat n)) ;;
  liftD (setAttribute b "href" ("#flt-note-return-" ++ showNat n)) ;;
  liftD (classListAdd b "from-note") ;;
  modify (setNoteIndex (S n)) ;;
  liftD (createAppend note "p") ;;
  ret tt.

Definition enterCell (l : TypeLine) : M unit :=
  s <- gets sect ;;
  table <- liftD (querySelector s [SelLastOfType "table"]) ;;
  match table with
  | None => throw (FLTError "Cannot set destination to D_CELL when no table is defined")
  | Some t =>
      cells <- liftD (querySelectorAll (eid t) [SelTag "th"; SelTag "td"]) ;;
      row <- liftD (querySelector (eid t) [SelLastOfType "tr"]) ;;
      r <- match row with
           | None => liftD (createAppend (eid t) "tr")
           | Some r0 =>
               z <- cellCountIsMultiple (List.length cells) (fltColumns t) ;;
               if z then liftD (createAppend (eid t) "tr") else ret (eid r0)
           end ;;
      liftD (createAppend r (if header l then "th" else "td")) ;;
      ret tt
  end.

Definition enterHead : M unit :=
  s <- liftD (createAppend bodyId "section") ;;
  modify (setSect s).

Definition handleDestination (l : TypeLine) : M unit :=
  modify (setLink None) ;;
  match destinationOf l with
  | D_NOTE => enterNote
  | D_CELL => enterCell l
  | D_HEAD => enterHead
  | D_BODY => ret tt
  end ;;
  modify (setDest (destinationOf l)).

Definition handleTyped (l : TypeLine) : M unit :=
  match lineType l with
  | T_SECTION => handleSection l
  | T_PARAGRAPH => handleParagraph l
  | T_HINT => handleHint l
  | T_LINK => handleLink l
  | T_ANCHOR => handleAnchor l
  | T_BLOB => handleBlob l
  | T_IMAGE => handleImage l
  | T_TABLE => handleTable l
  | T_DESTINATION => handleDestination l
  end.

(** ** The text lines *)

(** [if (flag) out = out.appendChild(document.createElement(tg))] *)
Definition wrapIf (flag : bool) (tg : string) (out : ref) : M ref :=
  if flag then liftD (createAppend out tg) else ret out.

(** The combined [span] of underline, strikeout and monospace. *)
Definition wrapSpan (l : TextLine) (out : ref) : M ref :=
  if underline l || strikeout l || mono l
  then
    sp <- liftD (createAppend out "span") ;;
    when (underline l) (liftD (classListAdd sp "underline")) ;;
    when (strikeout l) (liftD (classListAdd sp "strikeout")) ;;
    when (mono l) (liftD (classListAdd sp "monospace")) ;;
    ret sp
  else ret out.

(** The element the text of the line goes into: the destination, or
    the open link when the destination contains it, under the wrappers
    of the line's flags. *)
Definition textOut (l : TextLine) : M ref :=
  out <- destEl ;;
  lk <- gets link ;;
  out <- match lk with
         | Some a =>
             inside <- liftD (contains out a) ;;
             ret (if inside then a else out)
         | None => ret out
         end ;;
  out <- wrapIf (italic l) "em" out ;;
  out <- wrapIf (bold l) "strong" out ;;
  out <- wrapSpan l out ;;
  out <- wrapIf (supertext l) "sup" out ;;
  wrapIf (subtext l) "sub" out.

(** The [do ... while (fragments.length)] loop, entered with the first
    fragment shifted off. *)
Fixpoint emitFragments (out : ref) (first : string) (rest : list string) : M unit :=
  liftD (appendText out first) ;;
  match rest with
  | [] => ret tt
  | f :: r => liftD (createAppend out "br") ;; emitFragments out f r
  end.

Definition handleText (l : TextLine) : M unit :=
  out <- textOut l ;;
  match split (text l) with
  | f :: r => emitFragments out f r
  | [] => emitFragments out "undefined" []
  end.

(** ** The render loop *)

Definition step (l : line) : M unit :=
  when (lineReset l) reset ;;
  match l with
  | Typed t => handleTyped t
  | Texted t => handleText t
  | Meta _ => ret tt
  end.

Definition renderLines (ls : list line) : M unit := forEach ls step.

(** The cleanup pass over the static list of sections and paragraphs. *)
Definition cleanup : D unit :=
  els <- documentQuerySelectorAll [SelTag "section"; SelTag "p"] ;;
  forEach els (fun el =>
    filled <- hasChildNodes (eid el) ;;
    when (negb filled) (removeFromParent (eid el))).

(** ** Metadata *)

(** [og(term, value)] *)
Definition og (term value : string) : D unit :=
  el <- createAppend headId "meta" ;;
  setAttribute el "property" ("og:" ++ term) ;;
  setAttribute el "content" value.

(** The term table of [applyMetadata], in the order [for ... in]
    visits it: Dublin Core term, OpenGraph name, merge flag. *)
Record termEntry : Type := mkTerm {
  dcTerm : string;
  ogName : string;
  merge : bool
}.

Definition terms : list termEntry :=
  [ mkTerm "title" "title" true;
    mkTerm "description" "description" true;
    mkTerm "creator" "article:author" false;
    mkTerm "subject" "article:tag" false;
    mkTerm "date" "article:published_time" false ].

(** Truthiness of an array: every array is truthy, the empty one
    included. *)
Definition truthyArray (l : list string) : bool := true.

Definition nonEmpty (s : string) : bool := negb (String.eqb s "").

Definition applyTerm (this : Document) (t : termEntry) : D unit :=
  let value := getDC this (dcTerm t) in
  if negb (truthyArray value) then ret tt
  else
    let value := if merge t then [join ", " value] else value in
    forEach value (fun v => og (ogName t) v).

Definition applyMetadata (this : Document) : D unit :=
  if negb (DCMETA this) then ret tt
  else
    let title := join ", " (getDC this "title") in
    when (nonEmpty title)
      (titleEl <- createAppend headId "title" ;; setTextContent titleEl title) ;;
    og "type" "article" ;;
    forEach terms (applyTerm this).

(** ** [toHTMLDOM] *)

Record Options : Type := mkOptions {
  bodyOnly : bool;
  insertHeading : bool;
  bodyClass : list string;
  stylesheet : list string
}.

(** The caller's options: a field is [None] when the caller's object
    has no such own property. *)
Record UserOptions : Type := mkUserOptions {
  userBodyOnly : option bool;
  userInsertHeading : option bool;
  userBodyClass : option (list string);
  userStylesheet : option (list string)
}.

Definition orDefault {A} (o : option A) (d : A) : A :=
  match o with Some a => a | None => d end.

Definition mergeOptions (u : UserOptions) : Options :=
  mkOptions (orDefault (userBodyOnly u) false)
            (orDefault (userInsertHeading u) true)
            (orDefault (userBodyClass u) [])
            (orDefault (userStylesheet u) []).

Definition noOptions : UserOptions := mkUserOptions None None None None.

(** [l.length] as a condition. *)
Definition hasItems {A} (l : list A) : bool :=
  match l with [] => false | _ :: _ => true end.

(** Everything [toHTMLDOM] does before the render loop; the result is
    the first section.  The body classes are added in one call of
    [classList.add], made when there is one at least; it throws when
    one of them is no valid class token. *)
Definition setup (this : Document) (options : Options) : D ref :=
  setAttribute htmlId "xmlns" "http://www.w3.org/1999/xhtml" ;;
  metaEl <- createAppend headId "meta" ;;
  setAttribute metaEl "http-equiv" "Content-Type" ;;
  setAttribute metaEl "content" "text/html; charset=utf-8" ;;
  when (DCMETA this)
    (forEach (getDC this "date") (fun s => appendComment headId (" Date: " ++ s ++ " ")) ;;
     forEach (getDC this "source") (fun s => appendComment headId (" Source: " ++ s ++ " "))) ;;
  styleEl <- createAppend headId "style" ;;
  setTextContent styleEl style ;;
  forEach (stylesheet options) (fun url =>
    el <- createAppend headId "link" ;;
    setAttribute el "rel" "stylesheet" ;;
    setAttribute el "type" "text/css" ;;
    setAttribute el "href" url) ;;
  applyMetadata this ;;
  when (hasItems (bodyClass options)) (classListAddAll bodyId (bodyClass options)) ;;
  when (insertHeading options && DCMETA this)
    (let title := join ", " (getDC this "title") in
     when (nonEmpty title)
       (h1 <- createAppend bodyId "h1" ;;
        setAttribute h1 "id" "title" ;;
        setTextContent h1 title)) ;;
  createAppend bodyId "section".

(** The render context at the start of the loop. *)
Definition initCtx (d : domState) (s : ref) : ctx :=
  mkCtx d 1 None None None s D_BODY.

(** The render loop followed by the cleanup pass. *)
Definition render (ls : list line) : M unit :=
  renderLines ls ;; liftD cleanup.

Definition toHTMLDOM (this : Document) (userOptions : UserOptions) : outcome domState node :=
  match setup this (mergeOptions userOptions) createHTMLDocument with
  | Throw e d => Throw e d
  | Return s d =>
      match render (lines this) (initCtx d s) with
      | Return _ c => Return (doc (dom c)) (dom c)
      | Throw e c => Throw e (dom c)
      end
  end.

(** ** Test lines *)

Definition typed (k : lineKind) : TypeLine :=
  mkTypeLine k None 0 None false D_BODY false "" "" false.

Definition SECTION : line := Typed (typed T_SECTION).
Definition PARAGRAPH : line := Typed (typed T_PARAGRAPH).
Definition TABLE (c : Z) : line :=
  Typed (mkTypeLine T_TABLE None c None false D_BODY false "" "" false).
Definition DESTINATION (d : destination) (h : bool) : line :=
  Typed (mkTypeLine T_DESTINATION None 0 None false d h "" "" false).
Definition IMAGE (src : option string) : line :=
  Typed (mkTypeLine T_IMAGE src 0 None false D_BODY false "" "" false).
Definition BLOB (ty da : string) : line :=
  Typed (mkTypeLine T_BLOB None 0 None false D_BODY false ty da false).
Definition plain (s : string) : TextLine :=
  mkTextLine s false false false false false false false false.
Definition TEXT (s : string) : line := Texted (plain s).

Definition emptyDocument (ls : list line) : Document :=
  mkDocument false (fun _ => []) ls.

(** A document with two notes, the second entered after the text
    returned to the body. *)
Definition notesDocument : Document :=
  emptyDocument
    [TEXT "a"; DESTINATION D_NOTE false; TEXT "n"; DESTINATION D_BODY false;
     TEXT "b"; DESTINATION D_NOTE false; TEXT "m"].

(** ** Well-formedness of the document state *)

(** Every identity in the document was handed out by the supply. *)
Definition fresh (d : domState) : Prop :=
  Forall (fun i => i < nextId d) (ids (doc d)).

Definition freshb (d : domState) : bool :=
  forallb (fun i => i <? nextId d) (ids (doc d)).

(** Induction on trees, with the property available for every child. *)
Section NodeInd.
Variable P : node -> Prop.
Hypothesis HE : forall e cs, Forall P cs -> P (Element e cs).
Hypothesis HT : forall s, P (TextNode s).
Hypothesis HC : forall s, P (CommentNode s).

Fixpoint node_ind' (n : node) : P n :=
match n with
| Element e cs =>
HE e ((fix go (l : list node) : Forall P l :=
       match l with
       | [] => Forall_nil P
       | c :: r => Forall_cons c (node_ind' c) (go r)
       end) cs)
| TextNode s => HT s
| CommentNode s => HC s
end.
End NodeInd.

(** The context in which the handler of a line runs: the reset flag
    is honoured first. *)
Definition afterReset (l : line) (c : ctx) : ctx :=
  if lineReset l then setHint None (setLink None c) else c.

(** A context to run single lines in: the context at the start of the
    loop for a document without metadata and with default options. *)
Definition startCtx : ctx :=
  match setup (emptyDocument []) (mergeOptions noOptions) createHTMLDocument with
  | Return s d => initCtx d s
  | Throw _ d => initCtx d bodyId
  end.

(** ** Observations on documents *)

(** All the elements of a tree, in document order. *)
Fixpoint elems (n : node) : list elem :=
  match n with
  | Element e cs => e :: flat_map elems cs
  | _ => []
  end.

Definition hasClass (c : string) (e : elem) : bool :=
  existsb (String.eqb c) (classes e).

Definition isTag (tg : string) (e : elem) : bool := String.eqb (tag e) tg.

(** The [src] attribute of every [img] element, in document order. *)
Definition imageSources (n : node) : list (option string) :=
  map (fun e => getAttr "src" (attrs e)) (filter (isTag "img") (elems n)).

(** The [(property, content)] pairs of the [meta] elements that carry a
    [property] attribute, in document order. *)
Definition metaProperties (n : node) : list (string * option string) :=
  flat_map (fun e =>
              match getAttr "property" (attrs e) with
              | Some p => [(p, getAttr "content" (attrs e))]
              | None => []
              end)
           (filter (isTag "meta") (elems n)).

(** A computation leaves a component of the state alone, whether it
    returns or throws. *)
Definition keeps {S A X} (f : S -> X) (m : SE S A) : Prop :=
  forall s, f (finalState (m s)) = f s.

Definition isBlobLine (l : line) : bool :=
  match l with
  | Typed t => match lineType t with T_BLOB => true | _ => false end
  | _ => false
  end.

Definition isDestinationLine (l : line) : bool :=
  match l with
  | Typed t => match lineType t with T_DESTINATION => true | _ => false end
  | _ => false
  end.

Definition isSectionLine (l : line) : bool :=
  match l with
  | Typed t => match lineType t with T_SECTION => true | _ => false end
  | _ => false
  end.

(** A DESTINATION line that enters a note. *)
Definition entersNote (l : line) : bool :=
  match l with
  | Typed t =>
      match lineType t, destinationOf t with
      | T_DESTINATION, D_NOTE => true
      | _, _ => false
      end
  | _ => false
  end.

(** Appending several children at once: the net effect of successive
    [appendChild] calls on one parent. *)
Definition appendChildrenT (parent : ref) (ns : list node) : node -> node :=
  updateNode parent (fun e cs => Element e (cs ++ ns)).

(** ** The inline formatter, as the specification words it *)

(** A wrapping element: its tag and the classes added to it. *)
Definition wrapper : Type := (string * list string)%type.

(** The class list after [classList.add] of each class in turn. *)
Definition classList (cls : list string) : list string :=
  fold_left (fun acc c => addClass c acc) cls [].

(** The wrappers of a text line in the fixed order: italic, bold, the
    combined style wrapper, superscript, subscript, each only if its
    flag is set. *)
Definition wrappers (l : TextLine) : list wrapper :=
  (if italic l then [("em", [])] else []) ++
  (if bold l then [("strong", [])] else []) ++
  (if underline l || strikeout l || mono l
   then [("span", ((if underline l then ["underline"] else []) ++
                   (if strikeout l then ["strikeout"] else []) ++
                   (if mono l then ["monospace"] else []))%list)]
   else []) ++
  (if supertext l then [("sup", [])] else []) ++
  (if subtext l then [("sub", [])] else []).

(** The wrappers nested each inside the previous one, around [inner];
    the elements take the identities [i], [i + 1], ... *)
Fixpoint nest (ws : list wrapper) (i : ref) (inner : list node) : list node :=
  match ws with
  | [] => inner
  | w :: r => [Element (mkElem i (fst w) [] (classList (snd w)) None) (nest r (S i) inner)]
  end.

(** The element that receives the content of the innermost wrapper. *)
Definition innermost (ws : list wrapper) (out i : ref) : ref :=
  match ws with
  | [] => out
  | _ :: _ => i + List.length ws - 1
  end.

(** The text fragments separated by line breaks. *)
Fixpoint fragmentNodes (first : string) (rest : list string) (i : ref) : list node :=
  TextNode first ::
  match rest with
  | [] => []
  | f :: r => leaf i "br" :: fragmentNodes f r (S i)
  end.

Definition fragmentsOf (s : string) (i : ref) : list node :=
  match split s with
  | f :: r => fragmentNodes f r i
  | [] => fragmentNodes "undefined" [] i
  end.

(** The insertion point of a text line: the open link when the
    destination element contains it, the destination element
    otherwise. *)
Definition insertionPoint (lk : option ref) (d : ref) (t : node) : ref :=
  match lk with
  | Some a =>
      match getNode d t with
      | Some n => if hasNode a n then a else d
      | None => d
      end
  | None => d
  end.

(** A function from the element to wrap to the innermost wrapper
    behaves as the list of wrappers [ws]. *)
Definition wrapsAs (m : ref -> M ref) (ws : list wrapper) : Prop :=
  forall out c,
    fresh (dom c) -> hasNode out (doc (dom c)) = true ->
    m out c =
    Return (innermost ws out (nextId (dom c)))
      (setDom (mkDom (appendChildrenT out (nest ws (nextId (dom c)) []) (doc (dom c)))
                     (nextId (dom c) + List.length ws)) c).

(** The descendants of a list of siblings, as [descendants] computes
    them for the children of an element. *)
Fixpoint descendantsL (l : list node) : list (node * bool) :=
  match l with
  | [] => []
  | c :: r => (c, negb (existsb (sameType c) r)) :: descendants c ++ descendantsL r
  end.

Definition selTag (s : simpleSel) : string :=
  match s with SelTag tg => tg | SelLastOfType tg => tg end.

Definition isSelTag (s : simpleSel) : bool :=
  match s with SelTag _ => true | SelLastOfType _ => false end.

(** The elements among a list of nodes. *)
Definition elemsOf (l : list node) : list elem :=
  flat_map (fun n => match n with Element e _ => [e] | _ => [] end) l.

Fixpoint distinct (l : list nat) : bool :=
  match l with
  | [] => true
  | a :: r => negb (existsb (Nat.eqb a) r) && distinct r
  end.

(** ** Table layout *)

Definition structuralTags : list string := ["table"; "tr"; "th"; "td"].

Definition structural (e : elem) : bool :=
  existsb (String.eqb (tag e)) structuralTags.

(** A subtree without table, row or cell elements. *)
Definition inert (n : node) : Prop :=
  Forall (fun e => structural e = false) (elems n).

Definition isCell (n : node) : bool := hasTag "th" n || hasTag "td" n.

(** The number of cells of each row of a table: its [tr] children,
    and their [th] and [td] children. *)
Definition rowSizes (T : node) : list nat :=
  map (fun r => List.length (filter isCell (childNodes r)))
      (filter (hasTag "tr") (childNodes T)).

(** The row sizes the specification gives for [K] cells in [C]
    columns: full rows, then the remainder if there is one. *)
Definition layout (K C : nat) : list nat :=
  (repeat C (K / C) ++ (if K mod C =? 0 then [] else [K mod C]))%list.

Definition cellOK (n : node) : Prop :=
  exists ce content,
    n = Element ce content /\ (tag ce = "th" \/ tag ce = "td") /\ Forall inert content.

Definition rowOK (n : node) : Prop :=
  exists re cells, n = Element re cells /\ tag re = "tr" /\ Forall cellOK cells.

Definition noNestedTables (S : node) : bool :=
  forallb (fun x => match querySelectorAllN [SelLastOfType "table"] x with
                    | [] => true
                    | _ :: _ => false
                    end)
          (childNodes S).

Definition cellsSel : selector := [SelTag "th"; SelTag "td"].

(** The state of the render loop after a table with [C] columns was
    declared as element [t0] of the current section and [j] cells were
    entered. *)
Definition tableInv (t0 : ref) (C j : nat) (c : ctx) : Prop :=
  fresh (dom c) /\
  NoDup (ids (doc (dom c))) /\
  exists se cs te rows,
    getNode (sect c) (doc (dom c)) = Some (Element se (cs ++ [Element te rows])) /\
    eid te = t0 /\ tag te = "table" /\ fltColumns te = Some (Z.of_nat C) /\
    noNestedTables (Element se cs) = true /\
    Forall rowOK rows /\
    map (fun r => List.length (childNodes r)) rows = layout j C.

Definition isCellDirective (l : TypeLine) : Prop :=
  lineType l = T_DESTINATION /\ destinationOf l = D_CELL.

(** The number of line breaks a text produces. *)
Definition breakCount (s : string) : nat :=
  match split s with
  | _ :: r => List.length r
  | [] => 0
  end.

(** ** Footnote anchors *)

(** An anchor element carrying one of the two footnote classes. *)
Definition isNoteAnchor (e : elem) : bool :=
  isTag "a" e && (hasClass "to-note" e || hasClass "from-note" e).

Definition hasNoteClass (cls : string) (e : elem) : bool :=
  isTag "a" e && hasClass cls e.

(** The anchors of a footnote class, in document order. *)
Definition noteAnchors (cls : string) (t : node) : list elem :=
  filter (hasNoteClass cls) (elems t).

(** The name and the target of an anchor. *)
Definition anchorInfo (e : elem) : option string * option string :=
  (getAttr "name" (attrs e), getAttr "href" (attrs e)).

Definition forwardAnchor (n : nat) : option string * option string :=
  (Some ("flt-note-return-" ++ showNat n), Some ("#flt-note-" ++ showNat n)).

Definition backAnchor (n : nat) : option string * option string :=
  (Some ("flt-note-" ++ showNat n), Some ("#flt-note-return-" ++ showNat n)).

(** ** Hoare triples for computations that return *)

Definition hoare {S A} (P : S -> Prop) (m : SE S A) (Q : A -> S -> Prop) : Prop :=
  forall s, P s -> match m s with Return a s' => Q a s' | Throw _ _ => True end.

(** An invariant kept by a computation, with a fact about its result. *)
Definition tri {S A} (I : S -> Prop) (m : SE S A) (phi : A -> Prop) : Prop :=
  hoare I m (fun a s => I s /\ phi a).

Definition always {A} : A -> Prop := fun _ => True.

(** The document part of the invariant of the lines that enter no
    note: identities are distinct and were handed out; the elements
    created since [n0], and the current section [s], are no note
    anchors; the note anchors are [L1] and [L2]. *)
Definition quietD (n0 s : nat) (L1 L2 : list elem) (d : domState) : Prop :=
  NoDup (ids (doc d)) /\ fresh d /\ n0 <= nextId d /\
  (forall e, In e (elems (doc d)) -> n0 <= eid e \/ eid e = s -> isNoteAnchor e = false) /\
  noteAnchors "to-note" (doc d) = L1 /\ noteAnchors "from-note" (doc d) = L2.

Definition quiet (n0 : nat) (L1 L2 : list elem) (c : ctx) : Prop :=
  quietD n0 (sect c) L1 L2 (dom c).

(** ** Footnotes *)

(** The forward anchor of note [n], created with identity [k], and the
    note itself: an [aside] holding the back anchor and a paragraph. *)
Definition forwardElem (k n : nat) : elem :=
  mkElem k "a"
    [("name", "flt-note-return-" ++ showNat n); ("href", "#flt-note-" ++ showNat n)]
    ["to-note"] None.

Definition backElem (k n : nat) : elem :=
  mkElem k "a"
    [("name", "flt-note-" ++ showNat n); ("href", "#flt-note-return-" ++ showNat n)]
    ["from-note"] None.

Definition forwardNode (k n : nat) : node :=
  Element (forwardElem k n)
    (if String.eqb (showNat n) "" then [] else [TextNode (showNat n)]).

Definition noteBlock (k n : nat) : node :=
  Element (newElem k "aside") [Element (backElem (S k) n) []; leaf (S (S k)) "p"].

(** The number of lines that enter a note. *)
Definition notesEntered (ls : list line) : nat := List.length (filter entersNote ls).

(** The forward and the back anchors of a tree are those of the notes
    1 to [N], one of each per note. *)
Definition numbered (N : nat) (t : node) : Prop :=
  Permutation (map anchorInfo (noteAnchors "to-note" t)) (map forwardAnchor (seq 1 N)) /\
  Permutation (map anchorInfo (noteAnchors "from-note" t)) (map backAnchor (seq 1 N)).

(** The name of one anchor is the target of the other. *)
Definition mirrored (a b : option string * option string) : Prop :=
  exists x y, a = (Some x, Some ("#" ++ y)) /\ b = (Some y, Some ("#" ++ x)).

(** The invariant of the render loop for the footnotes. *)
Definition notesInv (c : ctx) : Prop :=
  NoDup (ids (doc (dom c))) /\ fresh (dom c) /\
  (forall e, In e (elems (doc (dom c))) -> eid e = sect c -> isNoteAnchor e = false) /\
  1 <= noteIndex c /\
  numbered (noteIndex c - 1) (doc (dom c)).

(** The documents of the set-up phase: identities are distinct and
    were handed out, and no element is an anchor. *)
Definition plainD (d : domState) : Prop :=
  NoDup (ids (doc d)) /\ fresh d /\
  (forall e, In e (elems (doc d)) -> isTag "a" e = false).

(** ** The cleanup pass *)

(** The elements the cleanup pass selects. *)
Definition isSelected (e : elem) : bool :=
  String.eqb (tag e) "section" || String.eqb (tag e) "p".

(** The element is in the tree and has no child node. *)
Definition childless (t : node) (e : elem) : bool :=
  match getNode (eid e) t with
  | Some n => match childNodes n with [] => true | _ :: _ => false end
  | None => false
  end.

(** No section and no paragraph of the tree is without child nodes. *)
Definition noEmpty (t : node) : bool :=
  forallb (fun e => negb (isSelected e && childless t e)) (elems t).

Definition rootTag (t : node) : option string :=
  match t with Element e _ => Some (tag e) | _ => None end.

(** The documents of the cleanup pass on the tree [t0]: the elements
    are elements of [t0], and the note anchors are those of [t0]. *)
Definition settled (t0 : node) (d : domState) : Prop :=
  NoDup (ids (doc d)) /\
  (forall e, In e (elems (doc d)) -> In e (elems t0)) /\
  noteAnchors "to-note" (doc d) = noteAnchors "to-note" t0 /\
  noteAnchors "from-note" (doc d) = noteAnchors "from-note" t0.

(** ** Sections and the body destination *)

Definition noDestination (ls : list line) : bool :=
  forallb (fun l => negb (isDestinationLine l)) ls.

(** The line's text went under the element [s]: the subtree of [s],
    to which the destination paragraph was added when it had none, has
    received the wrappers and the fragments of the line at a place
    inside it. *)
Definition attachedUnder (s : ref) (l : TextLine) (c1 c2 : ctx) : Prop :=
  exists S0 S1 out k,
    getNode s (doc (dom c1)) = Some S0 /\
    (S1 = S0 \/ exists p, S1 = appendChildrenT s [leaf p "p"] S0) /\
    hasNode out S1 = true /\
    getNode s (doc (dom c2)) =
    Some (appendChildrenT out
            (nest (wrappers l) k (fragmentsOf (text l) (k + List.length (wrappers l))))
            S1).

(** The line opened a section: the current section is the element
    created by the line, a [section] of the new document. *)
Definition opensSection (c1 c2 : ctx) : Prop :=
  sect c2 = nextId (dom c1) /\
  hasNode (sect c2) (doc (dom c1)) = false /\
  exists e, In e (elems (doc (dom c2))) /\ eid e = sect c2 /\ tag e = "section".

(** What a line other than a DESTINATION line does to the current
    section. *)
Definition sectionEffect (l : line) (c1 c2 : ctx) : Prop :=
  match l with
  | Typed t =>
      match lineType t with
      | T_SECTION => opensSection c1 c2
      | _ => sect c2 = sect c1
      end
  | Texted t => sect c2 = sect c1 /\ attachedUnder (sect c1) t c1 c2
  | Meta _ => sect c2 = sect c1
  end.

(** The document holds a [section] with identity [k]. *)
Definition hasSection (k : ref) (d : domState) : Prop :=
  exists e, In e (elems (doc d)) /\ eid e = k /\ tag e = "section".

Definition rootOf (d : domState) : option string := rootTag (doc d).

(** A document of three lines: text, a new section, text. *)
Definition bodyDocument : Document :=
  emptyDocument [TEXT "a"; SECTION; TEXT "b"].

(** A document whose only line starts a paragraph. *)
Definition paragraphDocument : Document := emptyDocument [PARAGRAPH].

(** * Facts about DOM trees *)


(** ** Text fragments read back *)

Definition lineFeed : string := String "010"%char EmptyString.

(** The text a list of nodes shows: the text nodes, with a line feed
    for every [br] element. *)
Fixpoint shownText (ns : list node) : string :=
  match ns with
  | [] => ""
  | TextNode s :: r => s ++ shownText r
  | Element e _ :: r => (if String.eqb (tag e) "br" then lineFeed else "") ++ shownText r
  | CommentNode _ :: r => shownText r
  end.

(** The strings of the text nodes of a list of nodes. *)
Fixpoint textNodes (ns : list node) : list string :=
  match ns with
  | [] => []
  | TextNode s :: r => s :: textNodes r
  | _ :: r => textNodes r
  end.

Fixpoint hasLineFeed (s : string) : bool :=
  match s with
  | EmptyString => false
  | String c r => isNewline c || hasLineFeed r
  end.

Fixpoint countLineFeeds (s : string) : nat :=
  match s with
  | EmptyString => 0
  | String c r => (if isNewline c then 1 else 0) + countLineFeeds r
  end.

(** ** Links, anchors and images *)

(** The element after a pending tooltip was applied to it, and what is
    left of the tooltip. *)
Definition titled (h : option string) (e : elem) : elem :=
  if truthy h then withAttr "title" (toString h) e else e.

Definition spent (h : option string) : option string :=
  if truthy h then None else h.

Definition LINK (href : option string) : line :=
  Typed (mkTypeLine T_LINK href 0 None false D_BODY false "" "" false).
Definition ANCHOR (name : option string) : line :=
  Typed (mkTypeLine T_ANCHOR name 0 None false D_BODY false "" "" false).
Definition HINT (h : option string) : line :=
  Typed (mkTypeLine T_HINT h 0 None false D_BODY false "" "" false).

(** The [title] attribute a pending tooltip gives. *)
Definition titleOf (h : option string) : option string :=
  if truthy h then Some (toString h) else None.

(** ** The pending link and tooltip *)

Definition isLinkLine (l : line) : bool :=
  match l with
  | Typed t => match lineType t with T_LINK => true | _ => false end
  | _ => false
  end.

(** The lines that close the open link: SECTION, PARAGRAPH and
    DESTINATION lines, and every line with the reset flag. *)
Definition closesLink (l : line) : bool :=
  match l with
  | Typed t =>
      match lineType t with
      | T_SECTION | T_PARAGRAPH | T_DESTINATION => true
      | _ => tReset t
      end
  | Texted t => xReset t
  | Meta r => r
  end.

(** The lines that use the pending tooltip. *)
Definition usesHint (l : line) : bool :=
  match l with
  | Typed t => match lineType t with T_LINK | T_IMAGE => true | _ => false end
  | _ => false
  end.

(** The pending tooltip after a line that does not use it. *)
Definition hintAfter (l : line) (h : option string) : option string :=
  match l with
  | Typed t =>
      match lineType t with
      | T_HINT => content t
      | _ => if tReset t then None else h
      end
  | Texted t => if xReset t then None else h
  | Meta r => if r then None else h
  end.

(** ** Well-formed states of the render loop *)

(** The subtrees of a tree, in document order. *)
Fixpoint subtrees (n : node) : list node :=
  match n with
  | Element e cs => n :: flat_map subtrees cs
  | _ => []
  end.

(** A note holds a paragraph. *)
Definition okAside (n : node) : Prop :=
  match n with
  | Element e cs =>
      tag e = "aside" -> exists p, In p (flat_map elems cs) /\ tag p = "p"
  | _ => True
  end.

(** No element has the tag of the selector that matches nothing, and
    every table has its column count. *)
Definition okElem (e : elem) : Prop :=
  tag e <> "notAnElement" /\ (tag e = "table" -> fltColumns e <> None).

Definition docOK (d : domState) : Prop :=
  NoDup (ids (doc d)) /\ fresh d /\ hasNode bodyId (doc d) = true /\
  Forall okAside (subtrees (doc d)) /\ Forall okElem (elems (doc d)).

(** The current section is a [section] of the document, and holds a
    note when the destination is the note, a cell when it is the cell. *)
Definition sectOK (dst : destination) (s : ref) (t : node) : Prop :=
  s <> bodyId /\
  exists se cs,
    getNode s t = Some (Element se cs) /\ tag se = "section" /\
    (dst = D_NOTE -> exists a, In a (flat_map elems cs) /\ tag a = "aside") /\
    (dst = D_CELL ->
     exists x, In x (flat_map elems cs) /\ (tag x = "th" \/ tag x = "td")).

Definition safeInv (c : ctx) : Prop :=
  docOK (dom c) /\ sectOK (dest c) (sect c) (doc (dom c)).

(** ** The errors of a conversion *)

Definition noImage : error := FLTError "No image content available".
Definition noTable : error :=
  FLTError "Cannot set destination to D_CELL when no table is defined".
Definition zeroColumns : error := RangeError "Division by zero".

(** The errors a line can end in. *)
Definition mayThrow (l : line) (e : error) : Prop :=
  match l with
  | Typed t =>
      match lineType t with
      | T_IMAGE => truthy (content t) = false /\ e = noImage
      | T_DESTINATION => destinationOf t = D_CELL /\ (e = noTable \/ e = zeroColumns)
      | _ => False
      end
  | _ => False
  end.

(** A line that cannot throw: every line but an IMAGE line without
    inline content and a DESTINATION line for a cell. *)
Definition cannotThrow (l : line) : bool :=
  match l with
  | Typed t =>
      match lineType t with
      | T_IMAGE => truthy (content t)
      | T_DESTINATION =>
          match destinationOf t with D_CELL => false | _ => true end
      | _ => true
      end
  | _ => true
  end.

(** An element that is no note, no table, and not the element of the
    selector that matches nothing. *)
Definition plainTag (e : elem) : bool :=
  negb (existsb (String.eqb (tag e)) ["aside"; "notAnElement"; "table"]).

(** A line run in a context: the context it leaves is well formed, and
    an error it ends in is one of the errors of that kind of line. *)
Definition lineSafe (l : line) (c : ctx) : Prop :=
  match step l c with
  | Return _ c' => safeInv c'
  | Throw e _ => mayThrow l e
  end.

(** The element after [if (line.align in alignClasses)
    el.classList.add(alignClasses[line.align])]. *)
Definition aligned (a : option alignment) (e : elem) : elem :=
  match a with
  | Some al => withClass (alignClasses al) e
  | None => e
  end.

(** ** SECTION lines *)

(** The tree after [if (!sect.hasChildNodes())
    sect.parentNode.removeChild(sect)]. *)
Definition withoutEmpty (s : ref) (t : node) : node :=
  match getNode s t with
  | Some n => match childNodes n with [] => removeNodeT s t | _ :: _ => t end
  | None => t
  end.

(** The body holds a section. *)
Definition holdsSection (t : node) : bool :=
  match getNode bodyId t with
  | Some b =>
      match querySelectorAllN [SelTag "section"] b with [] => false | _ :: _ => true end
  | None => false
  end.

(** The line gets a rule before its section: it has the break flag,
    and its section is not the first of the body. *)
Definition ruled (l : TypeLine) (t : node) : bool := break l && holdsSection t.

(** ** Computations that return *)

(** From a state with [P] the computation returns, with [Q] of its
    result and its state. *)
Definition returns {S A} (P : S -> Prop) (m : SE S A) (Q : A -> S -> Prop) : Prop :=
  forall s, P s -> exists a s', m s = Return a s' /\ Q a s'.

(** From a state with [P] the computation returns with [Q] of its
    result and its state, or throws an error with [E]. *)
Definition endsIn {S A} (P : S -> Prop) (m : SE S A) (Q : A -> S -> Prop)
           (E : error -> Prop) : Prop :=
  forall s, P s -> match m s with Return a s' => Q a s' | Throw e _ => E e end.

(** The element [a] of the document has no child node. *)
Definition leafAt (a : ref) (d : domState) : Prop :=
  exists e, getNode a (doc d) = Some (Element e []).

(** The documents of the set-up phase: the three elements of the empty
    document are there, and no element is a note or a table. *)
Definition headOK (d : domState) : Prop :=
  NoDup (ids (doc d)) /\ fresh d /\
  hasNode htmlId (doc d) = true /\ hasNode headId (doc d) = true /\
  hasNode bodyId (doc d) = true /\
  forallb plainTag (elems (doc d)) = true.

(** ** The states of the render loop *)

(** The context of the render loop after the lines [ls], for a document
    and the caller's options; [None] when a line threw. *)
Definition stateAfter (this : Document) (u : UserOptions) (ls : list line) : option ctx :=
  match setup this (mergeOptions u) createHTMLDocument with
  | Return s d =>
      match renderLines ls (initCtx d s) with
      | Return _ c => Some c
      | Throw _ _ => None
      end
  | Throw _ _ => None
  end.

(** A document with an image that has no content. *)
Definition imageDocument : Document := emptyDocument [TEXT "a"; IMAGE None].

(** ** What the set-up phase appends to the head *)

(** The computation appends to the head the nodes [mk k], [k] being
    the next identity; their elements take the identities from [k]
    on. *)
Definition headAppends (m : D unit) (mk : ref -> list node) : Prop :=
  forall d, fresh d -> hasNode headId (doc d) = true ->
    m d = Return tt
            (mkDom (appendChildrenT headId (mk (nextId d)) (doc d))
                   (nextId d + List.length (flat_map ids (mk (nextId d))))) /\
    flat_map ids (mk (nextId d)) =
      seq (nextId d) (List.length (flat_map ids (mk (nextId d)))).

(** The nodes of a sequence of such computations. *)
Fixpoint seqNodes (mks : list (ref -> list node)) (k : ref) : list node :=
  match mks with
  | [] => []
  | mk :: r => mk k ++ seqNodes r (k + List.length (flat_map ids (mk k)))
  end.

(** The [meta] element of an OpenGraph property. *)
Definition ogNode (term value : string) (k : ref) : list node :=
  [Element (mkElem k "meta" [("property", "og:" ++ term); ("content", value)] [] None) []].

(** The values of a term of the table: the values of the Dublin Core
    term, merged into one when the term says so. *)
Definition termValues (this : Document) (t : termEntry) : list string :=
  if merge t then [join ", " (getDC this (dcTerm t))] else getDC this (dcTerm t).

(** The OpenGraph properties of a document, in the order of their
    elements. *)
Definition ogPairs (this : Document) : list (string * string) :=
  ("type", "article") ::
  flat_map (fun t => map (fun v => (ogName t, v)) (termValues this t)) terms.

(** The [title] element. *)
Definition titleNodes (this : Document) (k : ref) : list node :=
  if nonEmpty (join ", " (getDC this "title"))
  then [Element (newElem k "title") [TextNode (join ", " (getDC this "title"))]]
  else [].

(** Everything [applyMetadata] appends to the head. *)
Definition metadataNodes (this : Document) : ref -> list node :=
  seqNodes (titleNodes this :: map (fun p => ogNode (fst p) (snd p)) (ogPairs this)).

(** A document with two creators and no other metadata. *)
Definition authorsDocument : Document :=
  mkDocument true (fun t => if String.eqb t "creator" then ["A"; "B"] else []) [].

(** ** The tree of the set-up phase *)

(** The [meta] element of the content type. *)
Definition contentTypeNode (k : ref) : list node :=
  [Element (mkElem k "meta"
              [("http-equiv", "Content-Type"); ("content", "text/html; charset=utf-8")]
              [] None) []].

(** The comments of the dates and the sources. *)
Definition commentNodes (this : Document) (k : ref) : list node :=
  if DCMETA this
  then map (fun s => CommentNode (" Date: " ++ s ++ " ")) (getDC this "date") ++
       map (fun s => CommentNode (" Source: " ++ s ++ " ")) (getDC this "source")
  else [].

Definition styleNode (k : ref) : list node :=
  [Element (newElem k "style") [TextNode style]].

(** The [link] element of an external stylesheet. *)
Definition linkNode (url : string) (k : ref) : list node :=
  [Element (mkElem k "link"
              [("rel", "stylesheet"); ("type", "text/css"); ("href", url)] [] None) []].

Definition metadataOf (this : Document) (k : ref) : list node :=
  if DCMETA this then metadataNodes this k else [].

(** The children of the head, in order. *)
Definition headNodes (this : Document) (options : Options) : ref -> list node :=
  seqNodes ([contentTypeNode; commentNodes this; styleNode] ++
            map linkNode (stylesheet options) ++ [metadataOf this]).

(** The body element with the classes of the options. *)
Definition bodyElem (options : Options) : elem :=
  fold_left (fun e c => withClass c e) (bodyClass options) (newElem bodyId "body").

(** The heading of the document title. *)
Definition headingNodes (this : Document) (options : Options) (k : ref) : list node :=
  if insertHeading options && DCMETA this
  then if nonEmpty (join ", " (getDC this "title"))
       then [Element (withAttr "id" "title" (newElem k "h1"))
               [TextNode (join ", " (getDC this "title"))]]
       else []
  else [].

(** The first identity after the head was filled. *)
Definition afterHead (this : Document) (options : Options) : ref :=
  3 + List.length (flat_map ids (headNodes this options 3)).

(** The identity of the first section. *)
Definition firstSection (this : Document) (options : Options) : ref :=
  afterHead this options +
  List.length (flat_map ids (headingNodes this options (afterHead this options))).

(** The document the render loop starts with. *)
Definition setupTree (this : Document) (options : Options) : node :=
  Element (withAttr "xmlns" "http://www.w3.org/1999/xhtml" (newElem htmlId "html"))
    [Element (newElem headId "head") (headNodes this options 3);
     Element (bodyElem options)
       (headingNodes this options (afterHead this options) ++
        [leaf (firstSection this options) "section"])].

(** The empty document with its namespace attribute. *)
Definition startTree : node :=
  Element (withAttr "xmlns" "http://www.w3.org/1999/xhtml" (newElem htmlId "html"))
    [leaf headId "head"; leaf bodyId "body"].

(** The document after the head was filled, with the body untouched. *)
Definition headTree (this : Document) (options : Options) : node :=
  Element (withAttr "xmlns" "http://www.w3.org/1999/xhtml" (newElem htmlId "html"))
    [Element (newElem headId "head") (headNodes this options 3); leaf bodyId "body"].

(** The part of the set-up phase that fills the head, and the part
    that prepares the body. *)
Definition headPhase (this : Document) (options : Options) : D unit :=
  (metaEl <- createAppend headId "meta" ;;
   setAttribute metaEl "http-equiv" "Content-Type" ;;
   setAttribute metaEl "content" "text/html; charset=utf-8") ;;
  when (DCMETA this)
    (forEach (getDC this "date") (fun s => appendComment headId (" Date: " ++ s ++ " ")) ;;
     forEach (getDC this "source") (fun s => appendComment headId (" Source: " ++ s ++ " "))) ;;
  (styleEl <- createAppend headId "style" ;; setTextContent styleEl style) ;;
  forEach (stylesheet options) (fun url =>
    el <- createAppend headId "link" ;;
    setAttribute el "rel" "stylesheet" ;;
    setAttribute el "type" "text/css" ;;
    setAttribute el "href" url) ;;
  applyMetadata this.

Definition heading (this : Document) (options : Options) : D unit :=
  when (insertHeading options && DCMETA this)
    (let title := join ", " (getDC this "title") in
     when (nonEmpty title)
       (h1 <- createAppend bodyId "h1" ;;
        setAttribute h1 "id" "title" ;;
        setTextContent h1 title)).

Definition bodyPhase (this : Document) (options : Options) : D ref :=
  when (hasItems (bodyClass options)) (classListAddAll bodyId (bodyClass options)) ;;
  heading this options ;;
  createAppend bodyId "section".

(** ** The section opened last *)

Definition noSection (ls : list line) : bool :=
  forallb (fun l => negb (isSectionLine l)) ls.

(** The element [k] is the section opened last when the lines [pre]
    have run from the context [init]: the section of [init] when [pre]
    holds no SECTION line, and otherwise the [section] element that the
    last SECTION line of [pre] created. *)
Definition openedLast (pre : list line) (init : ctx) (k : ref) : Prop :=
  (noSection pre = true /\ k = sect init) \/
  (exists p1 t p2 c0 c0',
     pre = (p1 ++ Typed t :: p2)%list /\ lineType t = T_SECTION /\ noSection p2 = true /\
     renderLines p1 init = Return tt c0 /\ step (Typed t) c0 = Return tt c0' /\
     opensSection c0 c0' /\ k = sect c0').

(** ** Cells among other lines *)

(** A line that may stand between the cells of a table: every line but
    a TABLE line, a SECTION line and a DESTINATION line for the
    heading. *)
Definition betweenCells (l : line) : bool :=
  match l with
  | Typed t =>
      match lineType t with
      | T_TABLE | T_SECTION => false
      | T_DESTINATION => match destinationOf t with D_HEAD => false | _ => true end
      | _ => true
      end
  | _ => true
  end.

(** A DESTINATION line for a cell. *)
Definition isCellLine (l : line) : bool :=
  match l with
  | Typed t =>
      match lineType t, destinationOf t with
      | T_DESTINATION, D_CELL => true
      | _, _ => false
      end
  | _ => false
  end.

Definition cellLines (ls : list line) : nat := List.length (filter isCellLine ls).

(** The element [p] is neither the table [t0] nor one of its rows. *)
Definition offSpine (t0 p : ref) (t : node) : Prop :=
  p <> t0 /\
  forall T r, getNode t0 t = Some T -> In r (childNodes T) -> hasId p r = false.

(** The table [t0] with [C] columns is a child of the section [s] and
    the last table among its children, no table lies deeper in the
    children before it, and its rows hold [j] cells, laid out as the
    specification says. *)
Definition tableAt (t0 : ref) (C j : nat) (s : ref) (t : node) : Prop :=
  exists se cs te rows post,
    getNode s t = Some (Element se (cs ++ Element te rows :: post)) /\
    eid te = t0 /\ tag te = "table" /\ fltColumns te = Some (Z.of_nat C) /\
    noNestedTables (Element se cs) = true /\
    Forall (fun x => hasTag "table" x = false) post /\
    Forall rowOK rows /\
    map (fun r => List.length (childNodes r)) rows = layout j C.

(** The tags of a destination element: it is no table, no row and no
    section. *)
Definition destTag (tg : string) : Prop :=
  tg <> "table" /\ tg <> "tr" /\ tg <> "section".

(** A table of two columns whose cells hold text, a link, a paragraph,
    a note and an image. *)
Definition cellsDocument : list line :=
  [DESTINATION D_CELL true; TEXT "A"; LINK (Some "u"); TEXT "x"; PARAGRAPH;
   DESTINATION D_NOTE false; TEXT "n"; DESTINATION D_CELL false; IMAGE (Some "i");
   DESTINATION D_BODY false; TEXT "b"; DESTINATION D_CELL false; TEXT "C"].

(** No table lies below a child of the element [s]. *)
Definition flatSection (s : ref) (t : node) : Prop :=
  forall Sec, getNode s t = Some Sec -> noNestedTables Sec = true.

Unset Implicit Arguments.




Lemma findMap_app {A B} (f : A -> option B) l1 l2 :
  findMap f (l1 ++ l2) =
  match findMap f l1 with Some y => Some y | None => findMap f l2 end.
Proof.
  induction l1 as [|x l1 IH]; simpl; [reflexivity|].
  destruct (f x); [reflexivity | exact IH].
Qed.

Lemma findMap_map {A B C} (f : B -> option C) (g : A -> B) l :
  findMap f (map g l) = findMap (fun x => f (g x)) l.
Proof.
  induction l as [|x l IH]; simpl; [reflexivity|].
  destruct (f (g x)); [reflexivity | exact IH].
Qed.

Lemma findMap_ext {A B} (f g : A -> option B) l :
  Forall (fun x => f x = g x) l -> findMap f l = findMap g l.
Proof.
  induction 1 as [|x l Hx _ IH]; simpl; [reflexivity|].
  rewrite Hx, IH. reflexivity.
Qed.

Lemma findMap_None {A B} (f : A -> option B) l :
  findMap f l = None <-> Forall (fun x => f x = None) l.
Proof.
  induction l as [|x l IH]; simpl.
  - split; [constructor | reflexivity].
  - destruct (f x) eqn:E.
    + split; [discriminate | intros H; inversion H; congruence].
    + rewrite IH. split; [intros; constructor; assumption | intros H; inversion H; assumption].
Qed.

Lemma findMap_Some {A B} (f : A -> option B) l y :
  findMap f l = Some y -> exists x, In x l /\ f x = Some y.
Proof.
  induction l as [|x l IH]; simpl; [discriminate|].
  destruct (f x) eqn:E.
  - intros H; inversion H; subst. exists x; auto.
  - intros H. destruct (IH H) as [x' [Hin Hx]]. exists x'; auto.
Qed.

(** *** Identities and lookup *)

Lemma getNode_None i n : getNode i n = None <-> ~ In i (ids n).
Proof.
  induction n as [e cs IH| |] using node_ind'; simpl; try tauto.
  destruct (Nat.eqb_spec (eid e) i) as [E|E].
  - split; [discriminate | intros H; exfalso; apply H; auto].
  - rewrite findMap_None. split.
    + intros H [H1|H1]; [contradiction|].
      apply in_flat_map in H1. destruct H1 as [c [Hc Hi]].
      rewrite Forall_forall in IH, H.
      apply (IH c Hc) in Hi; auto.
    + intros H. rewrite Forall_forall in *. intros c Hc.
      apply IH; [assumption|]. intros Hi. apply H. right.
      apply in_flat_map. exists c; auto.
Qed.

Lemma hasNode_In i n : hasNode i n = true <-> In i (ids n).
Proof.
  unfold hasNode. destruct (getNode i n) eqn:E.
  - split; [intros _ | reflexivity].
    destruct (in_dec Nat.eq_dec i (ids n)) as [H|H]; [assumption|].
    apply getNode_None in H. congruence.
  - apply getNode_None in E. split; [discriminate | contradiction].
Qed.

Lemma hasNode_false i n : hasNode i n = false <-> ~ In i (ids n).
Proof.
  rewrite <- hasNode_In. destruct (hasNode i n); split; congruence.
Qed.

Lemma getNode_shape i n m :
  getNode i n = Some m -> exists e cs, m = Element e cs /\ eid e = i.
Proof.
  induction n as [e cs IH| |] using node_ind'; simpl; try discriminate.
  destruct (Nat.eqb_spec (eid e) i) as [E|E].
  - intros H; inversion H; subst. eauto.
  - intros H. apply findMap_Some in H. destruct H as [c [Hc Hm]].
    rewrite Forall_forall in IH. eauto.
Qed.

Lemma getNode_root e cs : getNode (eid e) (Element e cs) = Some (Element e cs).
Proof. simpl. rewrite Nat.eqb_refl. reflexivity. Qed.

(** The identities of a subtree are identities of the tree. *)
Lemma getNode_ids i n m j :
  getNode i n = Some m -> In j (ids m) -> In j (ids n).
Proof.
  induction n as [e cs IH| |] using node_ind'; simpl; try discriminate.
  destruct (Nat.eqb_spec (eid e) i) as [E|E].
  - intros H; inversion H; subst. simpl. auto.
  - intros H Hj. apply findMap_Some in H. destruct H as [c [Hc Hm]].
    right. apply in_flat_map. exists c. split; [assumption|].
    rewrite Forall_forall in IH. eauto.
Qed.

Lemma getNode_trans i j n m k :
  getNode i n = Some m -> getNode j m = Some k -> hasNode j n = true.
Proof.
  intros H1 H2. apply hasNode_In. eapply getNode_ids; [eassumption|].
  apply hasNode_In. unfold hasNode. rewrite H2. reflexivity.
Qed.

(** *** Updates *)

Lemma map_id_Forall {A} (f : A -> A) l :
  Forall (fun x => f x = x) l -> map f l = l.
Proof. induction 1; simpl; congruence. Qed.

Lemma updateNode_notin i f n : ~ In i (ids n) -> updateNode i f n = n.
Proof.
  induction n as [e cs IH| |] using node_ind'; simpl; try reflexivity.
  intros H. destruct (Nat.eqb_spec (eid e) i) as [E|E]; [tauto|].
  f_equal. apply map_id_Forall. rewrite Forall_forall in *.
  intros c Hc. apply IH; [assumption|]. intros Hi. apply H. right.
  apply in_flat_map. exists c; auto.
Qed.

(** Updates of the data of an element that keep its identity. *)
Lemma updElem_Element i g e cs :
  updElem i g (Element e cs) =
  Element (if eid e =? i then g e else e) (map (updElem i g) cs).
Proof. unfold updElem. simpl. destruct (eid e =? i); reflexivity. Qed.

Section ElemUpdate.
Variable g : elem -> elem.
Hypothesis g_id : forall e, eid (g e) = eid e.

Lemma ids_updElem i n : ids (updElem i g n) = ids n.
Proof.
induction n as [e cs IH| |] using node_ind'; try reflexivity.
rewrite updElem_Element. simpl.
assert (flat_map ids (map (updElem i g) cs) = flat_map ids cs) as H.
{ induction IH as [|c r Hc _ IHr]; simpl; [reflexivity|]. rewrite Hc, IHr. reflexivity. }
rewrite H. destruct (eid e =? i); rewrite ?g_id; reflexivity.
Qed.

Lemma getNode_updElem i j n :
getNode j (updElem i g n) = option_map (updElem i g) (getNode j n).
Proof.
induction n as [e cs IH| |] using node_ind'; try reflexivity.
rewrite updElem_Element. simpl.
assert (findMap (getNode j) (map (updElem i g) cs)
  = option_map (updElem i g) (findMap (getNode j) cs)) as H.
{ induction IH as [|c r Hc _ IHr]; simpl; [reflexivity|]. rewrite Hc.
destruct (getNode j c); simpl; [reflexivity | exact IHr]. }
assert (eid (if eid e =? i then g e else e) = eid e) as Hid.
{ destruct (eid e =? i); [apply g_id | reflexivity]. }
rewrite Hid. destruct (eid e =? j); [|exact H].
simpl. rewrite updElem_Element. reflexivity.
Qed.

Lemma hasNode_updElem i j n : hasNode j (updElem i g n) = hasNode j n.
Proof.
unfold hasNode. rewrite getNode_updElem. destruct (getNode j n); reflexivity.
Qed.
End ElemUpdate.

(** *** Appending a child *)

Lemma appendChildT_Element p n e cs :
  appendChildT p n (Element e cs) =
  Element e (map (appendChildT p n) cs ++ (if eid e =? p then [n] else [])).
Proof.
  unfold appendChildT. simpl. destruct (eid e =? p); [reflexivity|].
  rewrite app_nil_r. reflexivity.
Qed.

Lemma appendChildT_notin p n t : ~ In p (ids t) -> appendChildT p n t = t.
Proof. apply updateNode_notin. Qed.

Lemma flat_map_ids_map_incl (f : node -> node) (Q : ref -> Prop) cs :
  Forall (fun c => forall j, In j (ids (f c)) -> In j (ids c) \/ Q j) cs ->
  forall j, In j (flat_map ids (map f cs)) -> In j (flat_map ids cs) \/ Q j.
Proof.
  induction 1 as [|c r Hc _ IH]; simpl; intros j Hj; [tauto|].
  apply in_app_or in Hj. destruct Hj as [Hj|Hj].
  - destruct (Hc j Hj); [left; apply in_or_app; auto | auto].
  - destruct (IH j Hj); [left; apply in_or_app; auto | auto].
Qed.

Lemma ids_appendChildT_inv p n t j :
  In j (ids (appendChildT p n t)) -> In j (ids t) \/ In j (ids n).
Proof.
  revert j. induction t as [e cs IH| |] using node_ind'; intros j; try (simpl; tauto).
  rewrite appendChildT_Element. simpl. rewrite flat_map_app.
  intros [H|H]; [auto|]. apply in_app_or in H. destruct H as [H|H].
  - destruct (flat_map_ids_map_incl _ (fun j => In j (ids n)) _ IH j H); auto.
  - destruct (eid e =? p); simpl in H; [|tauto].
    rewrite app_nil_r in H. auto.
Qed.

Lemma ids_appendChildT_old p n t j :
  In j (ids t) -> In j (ids (appendChildT p n t)).
Proof.
  revert j. induction t as [e cs IH| |] using node_ind'; intros j; try (simpl; tauto).
  rewrite appendChildT_Element. simpl. rewrite flat_map_app.
  intros [H|H]; [auto|]. right. apply in_or_app. left.
  apply in_flat_map in H. destruct H as [c [Hc Hj]].
  apply in_flat_map. exists (appendChildT p n c). split.
  - apply in_map. assumption.
  - rewrite Forall_forall in IH. auto.
Qed.

Lemma ids_appendChildT_new p n t j :
  In p (ids t) -> In j (ids n) -> In j (ids (appendChildT p n t)).
Proof.
  induction t as [e cs IH| |] using node_ind'; try (simpl; tauto).
  rewrite appendChildT_Element. simpl. rewrite flat_map_app.
  intros [H|H] Hj.
  - subst. rewrite Nat.eqb_refl. right. apply in_or_app. right.
    simpl. rewrite app_nil_r. assumption.
  - right. apply in_or_app. left.
    apply in_flat_map in H. destruct H as [c [Hc Hp]].
    apply in_flat_map. exists (appendChildT p n c). split.
    + apply in_map. assumption.
    + rewrite Forall_forall in IH. auto.
Qed.

Lemma hasNode_appendChildT_old p n t j :
  hasNode j t = true -> hasNode j (appendChildT p n t) = true.
Proof. rewrite !hasNode_In. apply ids_appendChildT_old. Qed.

Lemma hasNode_appendChildT_new p i tg t :
  hasNode p t = true -> hasNode i (appendChildT p (leaf i tg) t) = true.
Proof.
  rewrite !hasNode_In. intros H. apply ids_appendChildT_new; [assumption|].
  simpl. auto.
Qed.

Lemma hasNode_Element p e cs :
  hasNode p (Element e cs) = (eid e =? p) || existsb (hasNode p) cs.
Proof.
  unfold hasNode at 1. simpl. destruct (eid e =? p); [reflexivity|]. simpl.
  induction cs as [|c r IHr]; simpl; [reflexivity|].
  unfold hasNode at 1. destruct (getNode p c); [reflexivity | exact IHr].
Qed.

Lemma getNode_Element j e cs :
  getNode j (Element e cs) =
  if eid e =? j then Some (Element e cs) else findMap (getNode j) cs.
Proof. reflexivity. Qed.

(** Lookup after an append: an element of the old tree is found where
    it was, with the append applied below it. *)
Lemma getNode_appendChildT_old p n t j :
  getNode j n = None ->
  getNode j (appendChildT p n t) = option_map (appendChildT p n) (getNode j t).
Proof.
  intros Hn. induction t as [e cs IH| |] using node_ind'; try reflexivity.
  rewrite appendChildT_Element, !getNode_Element.
  destruct (eid e =? j) eqn:Ej.
  - simpl. rewrite appendChildT_Element. reflexivity.
  - rewrite findMap_app.
    assert (findMap (getNode j) (map (appendChildT p n) cs) =
            option_map (appendChildT p n) (findMap (getNode j) cs)) as H.
    { induction IH as [|c r Hc _ IHr]; simpl; [reflexivity|].
      rewrite Hc. destruct (getNode j c); [reflexivity | exact IHr]. }
    rewrite H. destruct (findMap (getNode j) cs); [reflexivity|].
    simpl. destruct (eid e =? p); simpl; rewrite ?Hn; reflexivity.
Qed.

(** An element that is not in the old tree is found in the appended
    child. *)
Lemma getNode_appendChildT_new p n t j :
  getNode j t = None ->
  getNode j (appendChildT p n t) = if hasNode p t then getNode j n else None.
Proof.
  induction t as [e cs IH| |] using node_ind'; try reflexivity.
  rewrite appendChildT_Element, !getNode_Element, hasNode_Element.
  destruct (eid e =? j) eqn:Ej; [discriminate|]. intros Hj.
  rewrite findMap_app.
  assert (findMap (getNode j) (map (appendChildT p n) cs) =
          if existsb (hasNode p) cs then getNode j n else None) as H.
  { apply findMap_None in Hj.
    induction IH as [|c r Hc _ IHr]; simpl; [reflexivity|].
    inversion Hj as [|? ? Hjc Hjr]; subst.
    rewrite (Hc Hjc). destruct (hasNode p c); simpl.
    - destruct (getNode j n) eqn:Hn; [reflexivity|]. rewrite (IHr Hjr).
      destruct (existsb (hasNode p) r); reflexivity.
    - exact (IHr Hjr). }
  rewrite H. destruct (existsb (hasNode p) cs).
  - rewrite orb_true_r. destruct (getNode j n) eqn:Hn; [reflexivity|].
    destruct (eid e =? p); simpl; rewrite ?Hn; reflexivity.
  - rewrite orb_false_r. destruct (eid e =? p); simpl; [|reflexivity].
    destruct (getNode j n); reflexivity.
Qed.

(** With distinct identities, the append adds the identities of the
    child and nothing else. *)
Lemma NoDup_app_inv {A} (l1 l2 : list A) :
  NoDup (l1 ++ l2) -> NoDup l1 /\ NoDup l2 /\ (forall x, In x l1 -> ~ In x l2).
Proof.
  induction l1 as [|a l1 IH]; simpl; intros H.
  - repeat split; [constructor | assumption | tauto].
  - inversion H as [|? ? Ha Hr]; subst. destruct (IH Hr) as [H1 [H2 H3]].
    repeat split; [constructor; [|assumption] | assumption |].
    + intros Hin. apply Ha. apply in_or_app. auto.
    + intros x [Hx|Hx] Hx2; [subst; apply Ha; apply in_or_app; auto | eapply H3; eauto].
Qed.

Lemma ids_appendChildT_perm p n t :
  NoDup (ids t) -> In p (ids t) ->
  Permutation (ids (appendChildT p n t)) (ids t ++ ids n).
Proof.
  induction t as [e cs IH| |] using node_ind'; try (simpl; tauto).
  intros Hnd Hp. rewrite appendChildT_Element. simpl. rewrite flat_map_app.
  simpl in Hnd. inversion Hnd as [|? ? He Hcs]; subst.
  apply perm_skip.
  destruct (Nat.eqb_spec (eid e) p) as [E|E].
  - subst p. rewrite (map_id_Forall (appendChildT (eid e) n)).
    + simpl. rewrite app_nil_r. reflexivity.
    + rewrite Forall_forall. intros c Hc. apply appendChildT_notin.
      intros Hi. apply He. apply in_flat_map. exists c; auto.
  - simpl. rewrite app_nil_r. destruct Hp as [Hp|Hp]; [contradiction|].
    clear He Hnd E. induction IH as [|c r Hc _ IHr]; simpl in *; [contradiction|].
    apply NoDup_app_inv in Hcs. destruct Hcs as [N1 [N2 N3]].
    apply in_app_or in Hp. destruct Hp as [Hp|Hp].
    + rewrite (map_id_Forall (appendChildT p n) r).
      * rewrite (Hc N1 Hp). rewrite <- !app_assoc. apply Permutation_app_head.
        apply Permutation_app_comm.
      * rewrite Forall_forall. intros c' Hc'. apply appendChildT_notin.
        intros Hi. apply (N3 p Hp). apply in_flat_map. exists c'; auto.
    + rewrite (appendChildT_notin p n c).
      * rewrite (IHr Hp N2). rewrite app_assoc. reflexivity.
      * intros Hi. apply (N3 p Hi Hp).
Qed.
(** *** Queries return elements of the tree *)

Lemma lastOf_In {A} (l : list A) x : lastOf l = Some x -> In x l.
Proof.
  induction l as [|a l IH]; simpl; [discriminate|].
  destruct l as [|b l]; [intros H; inversion H; auto | auto].
Qed.

Lemma descendants_ids n e cs b :
  In (Element e cs, b) (descendants n) -> In (eid e) (ids n).
Proof.
  induction n as [e0 cs0 IH| |] using node_ind'; simpl; try tauto.
  intros H. right.
  induction IH as [|c r Hc _ IHr]; simpl in *; [tauto|].
  apply in_or_app. destruct H as [H|H].
  - inversion H; subst. left. simpl. auto.
  - apply in_app_or in H. destruct H as [H|H]; [left; auto | right; auto].
Qed.

Lemma selectAll_In sel l e :
  In e (selectAll sel l) -> exists cs b, In (Element e cs, b) l.
Proof.
  induction l as [|[n b] l IH]; simpl; [tauto|].
  unfold matchesSel. simpl. destruct n as [e0 cs0| |].
  - destruct (existsb (matchesSimple e0 b) sel).
    + intros [H|H]; [subst; eauto|]. destruct (IH H) as [cs [b' H']]. eauto.
    + intros H. destruct (IH H) as [cs [b' H']]. eauto.
  - intros H. destruct (IH H) as [cs [b' H']]. eauto.
  - intros H. destruct (IH H) as [cs [b' H']]. eauto.
Qed.

Lemma querySelectorAllN_ids sel n e :
  In e (querySelectorAllN sel n) -> In (eid e) (ids n).
Proof.
  intros H. apply selectAll_In in H. destruct H as [cs [b H]].
  eapply descendants_ids; eassumption.
Qed.

Lemma lastElementChildN_ids n e :
  lastElementChildN n = Some e -> In (eid e) (ids n).
Proof.
  unfold lastElementChildN. intros H. apply findMap_Some in H.
  destruct H as [c [Hc He]]. apply in_rev in Hc.
  destruct n as [e0 cs| |]; simpl in *; try tauto.
  right. apply in_flat_map. exists c. split; [assumption|].
  destruct c; simpl in *; try discriminate. inversion He; subst. auto.
Qed.

(** *** Freshness *)

Lemma freshb_spec d : freshb d = true <-> fresh d.
Proof.
  unfold freshb, fresh. rewrite forallb_forall, Forall_forall.
  split; intros H i Hi; [apply Nat.ltb_lt | apply Nat.ltb_lt]; auto.
Qed.

Lemma fresh_nextId d : fresh d -> getNode (nextId d) (doc d) = None.
Proof.
  intros H. apply getNode_None. intros Hin.
  unfold fresh in H. rewrite Forall_forall in H. apply H in Hin. lia.
Qed.

Lemma fresh_lt d i : fresh d -> hasNode i (doc d) = true -> i < nextId d.
Proof.
  intros H Hi. apply hasNode_In in Hi. unfold fresh in H.
  rewrite Forall_forall in H. auto.
Qed.

Lemma fresh_append d p tg :
  fresh d -> fresh (mkDom (appendChildT p (leaf (nextId d) tg) (doc d)) (S (nextId d))).
Proof.
  unfold fresh. rewrite !Forall_forall. simpl. intros H i Hi.
  apply ids_appendChildT_inv in Hi. destruct Hi as [Hi|Hi].
  - apply H in Hi. lia.
  - simpl in Hi. destruct Hi as [Hi|[]]. lia.
Qed.

(** *** The destination resolver *)

Ltac inv_outcome H :=
  repeat match type of H with
         | context [match ?x with _ => _ end] =>
             let E := fresh "E" in destruct x eqn:E; try discriminate H
         | context [if ?x then _ else _] =>
             let E := fresh "E" in destruct x eqn:E; try discriminate H
         end.

Lemma destElD_spec dst s d r d1 :
  destElD dst s d = Return r d1 ->
  hasNode r (doc d1) = true /\ nextId d <= nextId d1 /\ (fresh d -> fresh d1).
Proof.
  destruct dst; unfold destElD, lastElementChild, querySelectorAll, withNode,
    createAppend, bind, ret, throw; intros H; cbv beta in H.
  - destruct (getNode s (doc d)) as [n|] eqn:Hs; [|discriminate].
    assert (hasNode s (doc d) = true) as Hh by (unfold hasNode; rewrite Hs; reflexivity).
    destruct (lastElementChildN n) as [e|] eqn:Hl.
    + destruct (tag e =? "p")%string.
      * inversion H; subst. split; [|auto].
        apply hasNode_In. eapply getNode_ids; [eassumption|].
        apply lastElementChildN_ids; assumption.
      * rewrite Hh in H. inversion H; subst. simpl. split; [|split; [lia | apply fresh_append]].
        apply hasNode_appendChildT_new; assumption.
    + rewrite Hh in H. inversion H; subst. simpl. split; [|split; [lia | apply fresh_append]].
      apply hasNode_appendChildT_new; assumption.
  - destruct (getNode s (doc d)) as [n|] eqn:Hs; [|discriminate].
    destruct (lastOf _) as [note|] eqn:Hn in H; [|discriminate].
    destruct (getNode (eid note) (doc d)) as [m|] eqn:Hm; [|discriminate].
    destruct (lastOf _) as [p|] eqn:Hp in H; [|discriminate].
    inversion H; subst. split; [|auto].
    apply hasNode_In. eapply getNode_ids; [exact Hm|].
    apply lastOf_In in Hp. eapply querySelectorAllN_ids; eassumption.
  - destruct (getNode s (doc d)) as [n|] eqn:Hs; [|discriminate].
    destruct (lastOf _) as [cell|] eqn:Hn in H; [|discriminate].
    destruct (getNode (eid cell) (doc d)) as [m|] eqn:Hm; [|discriminate].
    destruct (lastOf _) as [p|] eqn:Hp in H.
    + inversion H; subst. split; [|auto].
      apply hasNode_In. eapply getNode_ids; [exact Hm|].
      apply lastOf_In in Hp. eapply querySelectorAllN_ids; eassumption.
    + inversion H; subst. split; [|auto]. unfold hasNode. rewrite Hm. reflexivity.
  - destruct (getNode s (doc d)) as [n|] eqn:Hs; [|discriminate].
    assert (hasNode s (doc d) = true) as Hh by (unfold hasNode; rewrite Hs; reflexivity).
    destruct (lastElementChildN n) as [e|] eqn:Hl.
    + destruct (tag e =? "h2")%string.
      * inversion H; subst. split; [|auto].
        apply hasNode_In. eapply getNode_ids; [eassumption|].
        apply lastElementChildN_ids; assumption.
      * rewrite Hh in H. inversion H; subst. simpl. split; [|split; [lia | apply fresh_append]].
        apply hasNode_appendChildT_new; assumption.
    + rewrite Hh in H. inversion H; subst. simpl. split; [|split; [lia | apply fresh_append]].
      apply hasNode_appendChildT_new; assumption.
Qed.

(** *** Appending several children *)

Lemma appendChildT_children p n : appendChildT p n = appendChildrenT p [n].
Proof. reflexivity. Qed.

Lemma appendChildrenT_Element p ns e cs :
  appendChildrenT p ns (Element e cs) =
  Element e (map (appendChildrenT p ns) cs ++ (if eid e =? p then ns else [])).
Proof.
  unfold appendChildrenT. simpl. destruct (eid e =? p); [reflexivity|].
  rewrite app_nil_r. reflexivity.
Qed.

Lemma appendChildrenT_nil p t : appendChildrenT p [] t = t.
Proof.
  induction t as [e cs IH| |] using node_ind'; try reflexivity.
  rewrite appendChildrenT_Element. rewrite (map_id_Forall _ _ IH).
  destruct (eid e =? p); rewrite app_nil_r; reflexivity.
Qed.

Lemma map_ext_Forall {A B} (f g : A -> B) l :
  Forall (fun x => f x = g x) l -> map f l = map g l.
Proof. induction 1; simpl; congruence. Qed.

(** An update of an element that is not in the tree moves into the
    children being appended. *)
Lemma updateNode_append_comm i f p ns t :
  ~ In i (ids t) ->
  updateNode i f (appendChildrenT p ns t) = appendChildrenT p (map (updateNode i f) ns) t.
Proof.
  induction t as [e cs IH| |] using node_ind'; try reflexivity.
  intros Hi. rewrite !appendChildrenT_Element. simpl in Hi.
  assert (eid e <> i) as Hne by tauto.
  simpl. destruct (Nat.eqb_spec (eid e) i) as [E|_]; [contradiction|].
  f_equal. rewrite map_app, map_map. f_equal.
  - apply map_ext_Forall. rewrite Forall_forall in *. intros c Hc.
    apply IH; [assumption|]. intros Hin. apply Hi. right.
    apply in_flat_map. exists c; auto.
  - destruct (eid e =? p); reflexivity.
Qed.

Lemma map_updateNode_notin i f ns :
  ~ In i (flat_map ids ns) -> map (updateNode i f) ns = ns.
Proof.
  intros H. apply map_id_Forall. rewrite Forall_forall. intros c Hc.
  apply updateNode_notin. intros Hin. apply H. apply in_flat_map. exists c; auto.
Qed.

(** Two appends to the same parent are one append. *)
Lemma appendChildrenT_twice p ns1 ns2 t :
  ~ In p (flat_map ids ns1) ->
  appendChildrenT p ns2 (appendChildrenT p ns1 t) = appendChildrenT p (ns1 ++ ns2) t.
Proof.
  intros Hp. induction t as [e cs IH| |] using node_ind'; try reflexivity.
  rewrite !appendChildrenT_Element. rewrite map_app, map_map.
  f_equal. rewrite <- app_assoc. f_equal.
  - apply map_ext_Forall. exact IH.
  - destruct (eid e =? p).
    + unfold appendChildrenT at 1. rewrite map_updateNode_notin by assumption. reflexivity.
    + reflexivity.
Qed.

Lemma ids_appendChildrenT_inv p ns t j :
  In j (ids (appendChildrenT p ns t)) -> In j (ids t) \/ In j (flat_map ids ns).
Proof.
  revert j. induction t as [e cs IH| |] using node_ind'; intros j; try (simpl; tauto).
  rewrite appendChildrenT_Element. simpl. rewrite flat_map_app.
  intros [H|H]; [auto|]. apply in_app_or in H. destruct H as [H|H].
  - destruct (flat_map_ids_map_incl _ (fun j => In j (flat_map ids ns)) _ IH j H); auto.
  - destruct (eid e =? p); simpl in H; [auto | tauto].
Qed.

Lemma ids_appendChildrenT_old p ns t j :
  In j (ids t) -> In j (ids (appendChildrenT p ns t)).
Proof.
  revert j. induction t as [e cs IH| |] using node_ind'; intros j; try (simpl; tauto).
  rewrite appendChildrenT_Element. simpl. rewrite flat_map_app.
  intros [H|H]; [auto|]. right. apply in_or_app. left.
  apply in_flat_map in H. destruct H as [c [Hc Hj]].
  apply in_flat_map. exists (appendChildrenT p ns c). split.
  - apply in_map. assumption.
  - rewrite Forall_forall in IH. auto.
Qed.

Lemma ids_appendChildrenT_new p ns t j :
  In p (ids t) -> In j (flat_map ids ns) -> In j (ids (appendChildrenT p ns t)).
Proof.
  induction t as [e cs IH| |] using node_ind'; try (simpl; tauto).
  rewrite appendChildrenT_Element. simpl. rewrite flat_map_app.
  intros [H|H] Hj.
  - subst. rewrite Nat.eqb_refl. right. apply in_or_app. right. assumption.
  - right. apply in_or_app. left.
    apply in_flat_map in H. destruct H as [c [Hc Hp]].
    apply in_flat_map. exists (appendChildrenT p ns c). split.
    + apply in_map. assumption.
    + rewrite Forall_forall in IH. auto.
Qed.

(** *** Nested wrappers *)

Lemma ids_nest ws i j :
  In j (flat_map ids (nest ws i [])) <-> i <= j < i + List.length ws.
Proof.
  revert i. induction ws as [|w ws IH]; intros i; simpl.
  - split; [tauto | lia].
  - rewrite app_nil_r. specialize (IH (S i)). simpl. split.
    + intros [H|H]; [lia|]. apply IH in H. lia.
    + intros H. destruct (Nat.eq_dec i j); [auto|]. right. apply IH. lia.
Qed.

Lemma nest_app ws1 ws2 i inner :
  nest (ws1 ++ ws2) i inner = nest ws1 i (nest ws2 (i + List.length ws1) inner).
Proof.
  revert i. induction ws1 as [|w ws1 IH]; intros i; simpl.
  - rewrite Nat.add_0_r. reflexivity.
  - rewrite IH. replace (i + S (List.length ws1)) with (S i + List.length ws1) by lia.
    reflexivity.
Qed.

(** Appending to the innermost wrapper fills the nest. *)
Lemma nest_fill ws i X :
  ws <> [] ->
  map (appendChildrenT (i + List.length ws - 1) X) (nest ws i []) = nest ws i X.
Proof.
  revert i. induction ws as [|w ws IH]; intros i Hne; [congruence|].
  destruct ws as [|w' ws].
  - simpl. unfold appendChildrenT. simpl.
    replace (i + 1 - 1) with i by lia. rewrite Nat.eqb_refl. reflexivity.
  - assert (i + List.length (w :: w' :: ws) - 1 = S i + List.length (w' :: ws) - 1) as E
        by (simpl; lia).
    rewrite E.
    change (nest (w :: w' :: ws) i [])
      with [Element (mkElem i (fst w) [] (classList (snd w)) None) (nest (w' :: ws) (S i) [])].
    change (nest (w :: w' :: ws) i X)
      with [Element (mkElem i (fst w) [] (classList (snd w)) None) (nest (w' :: ws) (S i) X)].
    cbn [map]. rewrite appendChildrenT_Element. cbn [eid].
    rewrite IH by discriminate.
    destruct (Nat.eqb_spec i (S i + List.length (w' :: ws) - 1)) as [E'|E'];
      [simpl in E'; lia|].
    rewrite app_nil_r. reflexivity.
Qed.

Lemma fresh_appendChildren d p ns k :
  fresh d ->
  (forall j, In j (flat_map ids ns) -> j < nextId d + k) ->
  fresh (mkDom (appendChildrenT p ns (doc d)) (nextId d + k)).
Proof.
  unfold fresh. rewrite !Forall_forall. simpl. intros H Hns i Hi.
  apply ids_appendChildrenT_inv in Hi. destruct Hi as [Hi|Hi].
  - apply H in Hi. lia.
  - apply Hns. assumption.
Qed.

(** *** Lookup and identities after appending children *)

Lemma getNode_appendChildrenT_old p ns t j :
  findMap (getNode j) ns = None ->
  getNode j (appendChildrenT p ns t) = option_map (appendChildrenT p ns) (getNode j t).
Proof.
  intros Hn. induction t as [e cs IH| |] using node_ind'; try reflexivity.
  rewrite appendChildrenT_Element, !getNode_Element.
  destruct (eid e =? j) eqn:Ej.
  - simpl. rewrite appendChildrenT_Element. reflexivity.
  - rewrite findMap_app.
    assert (findMap (getNode j) (map (appendChildrenT p ns) cs) =
            option_map (appendChildrenT p ns) (findMap (getNode j) cs)) as H.
    { induction IH as [|c r Hc _ IHr]; simpl; [reflexivity|].
      rewrite Hc. destruct (getNode j c); [reflexivity | exact IHr]. }
    rewrite H. destruct (findMap (getNode j) cs); [reflexivity|].
    simpl. destruct (eid e =? p); simpl; rewrite ?Hn; reflexivity.
Qed.

Lemma findMap_getNode_notin j ns :
  ~ In j (flat_map ids ns) -> findMap (getNode j) ns = None.
Proof.
  intros H. apply findMap_None. rewrite Forall_forall. intros c Hc.
  apply getNode_None. intros Hin. apply H. apply in_flat_map. exists c; auto.
Qed.

Lemma ids_appendChildrenT_perm p ns t :
  NoDup (ids t) -> In p (ids t) ->
  Permutation (ids (appendChildrenT p ns t)) (ids t ++ flat_map ids ns).
Proof.
  induction t as [e cs IH| |] using node_ind'; try (simpl; tauto).
  intros Hnd Hp. rewrite appendChildrenT_Element. simpl. rewrite flat_map_app.
  simpl in Hnd. inversion Hnd as [|? ? He Hcs]; subst.
  apply perm_skip.
  destruct (Nat.eqb_spec (eid e) p) as [E|E].
  - subst p. rewrite (map_id_Forall (appendChildrenT (eid e) ns)); [reflexivity|].
    rewrite Forall_forall. intros c Hc. apply updateNode_notin.
    intros Hi. apply He. apply in_flat_map. exists c; auto.
  - simpl. rewrite app_nil_r. destruct Hp as [Hp|Hp]; [contradiction|].
    clear He Hnd E. induction IH as [|c r Hc _ IHr]; simpl in *; [contradiction|].
    apply NoDup_app_inv in Hcs. destruct Hcs as [N1 [N2 N3]].
    apply in_app_or in Hp. destruct Hp as [Hp|Hp].
    + rewrite (map_id_Forall (appendChildrenT p ns) r).
      * rewrite (Hc N1 Hp). rewrite <- !app_assoc. apply Permutation_app_head.
        apply Permutation_app_comm.
      * rewrite Forall_forall. intros c' Hc'. apply updateNode_notin.
        intros Hi. apply (N3 p Hp). apply in_flat_map. exists c'; auto.
    + assert (appendChildrenT p ns c = c) as Ec.
      { apply updateNode_notin. intros Hi. apply (N3 p Hi Hp). }
      rewrite Ec. rewrite (IHr Hp N2). rewrite app_assoc. reflexivity.
Qed.

Lemma NoDup_app_intro {A} (l1 l2 : list A) :
  NoDup l1 -> NoDup l2 -> (forall x, In x l1 -> ~ In x l2) -> NoDup (l1 ++ l2).
Proof.
  induction l1 as [|a l1 IH]; simpl; intros H1 H2 H3; [assumption|].
  inversion H1 as [|? ? Ha Hr]; subst. constructor.
  - intros Hin. apply in_app_or in Hin. destruct Hin as [Hin|Hin]; [contradiction|].
    apply (H3 a); auto.
  - apply IH; auto.
Qed.

(** Appending children with new, distinct identities keeps the
    identities of the document distinct. *)
Lemma NoDup_appendChildrenT p ns d k :
  NoDup (ids (doc d)) -> fresh d -> hasNode p (doc d) = true ->
  NoDup (flat_map ids ns) ->
  (forall j, In j (flat_map ids ns) -> nextId d <= j < nextId d + k) ->
  NoDup (ids (appendChildrenT p ns (doc d))).
Proof.
  intros Hnd Hf Hp Hns Hr. apply hasNode_In in Hp.
  eapply Permutation_NoDup.
  - apply Permutation_sym. apply ids_appendChildrenT_perm; assumption.
  - apply NoDup_app_intro; [assumption | assumption |].
    intros x Hx Hx'. apply Hr in Hx'. unfold fresh in Hf.
    rewrite Forall_forall in Hf. apply Hf in Hx. lia.
Qed.

(** *** Subtrees of a tree with distinct identities *)

Lemma getNode_NoDup i t n :
  getNode i t = Some n -> NoDup (ids t) -> NoDup (ids n).
Proof.
  induction t as [e cs IH| |] using node_ind'; simpl; try discriminate.
  destruct (eid e =? i).
  - intros H; inversion H; subst. auto.
  - intros H Hnd. inversion Hnd as [|? ? _ Hcs]; subst. clear Hnd.
    revert H Hcs. induction IH as [|c r Hc _ IHr]; simpl; intros H Hcs; [discriminate|].
    apply NoDup_app_inv in Hcs. destruct Hcs as [N1 [N2 _]].
    destruct (getNode i c) eqn:E.
    + inversion H; subst. apply Hc; [reflexivity | assumption].
    + apply IHr; assumption.
Qed.

(** With distinct identities, lookup in a subtree is lookup in the
    tree. *)
Lemma getNode_inside s t S j n :
  NoDup (ids t) -> getNode s t = Some S -> getNode j S = Some n ->
  getNode j t = Some n.
Proof.
  induction t as [e cs IH| |] using node_ind'; try discriminate.
  intros Hnd HS Hj. rewrite getNode_Element in *.
  destruct (Nat.eqb_spec (eid e) s) as [Es|Es].
  - inversion HS; subst. rewrite getNode_Element in Hj. exact Hj.
  - simpl in Hnd. inversion Hnd as [|? ? He Hcs]; subst.
    assert (In j (flat_map ids cs)) as Hin.
    { apply findMap_Some in HS. destruct HS as [c [Hc HcS]].
      apply in_flat_map. exists c. split; [assumption|].
      eapply getNode_ids; [eassumption|].
      apply hasNode_In. unfold hasNode. rewrite Hj. reflexivity. }
    destruct (Nat.eqb_spec (eid e) j) as [Ej|Ej]; [subst; contradiction|].
    clear He Hnd Hin. revert HS Hcs.
    induction IH as [|c r Hc _ IHr]; simpl; intros HS Hcs; [discriminate|].
    apply NoDup_app_inv in Hcs. destruct Hcs as [N1 [N2 N3]].
    destruct (getNode s c) as [S'|] eqn:E.
    + inversion HS; subst. rewrite (Hc N1 eq_refl Hj). reflexivity.
    + destruct (getNode j c) as [n'|] eqn:E'.
      * exfalso. apply findMap_Some in HS. destruct HS as [c' [Hc' HcS]].
        apply (N3 j).
        -- apply hasNode_In. unfold hasNode. rewrite E'. reflexivity.
        -- apply in_flat_map. exists c'. split; [assumption|].
           eapply getNode_ids; [eassumption|].
           apply hasNode_In. unfold hasNode. rewrite Hj. reflexivity.
      * apply IHr; assumption.
Qed.

(** With distinct identities, an update below the last child only
    touches the last child, and an update of the root only the root. *)
Lemma updateNode_last_child i f e l x :
  NoDup (ids (Element e (l ++ [x]))) -> In i (ids x) ->
  updateNode i f (Element e (l ++ [x])) = Element e (l ++ [updateNode i f x]).
Proof.
  intros Hnd Hi. simpl in Hnd. inversion Hnd as [|? ? He Hcs]; subst.
  rewrite flat_map_app in *. simpl in *. rewrite app_nil_r in *.
  apply NoDup_app_inv in Hcs. destruct Hcs as [_ [_ N3]].
  simpl. destruct (Nat.eqb_spec (eid e) i) as [E|E].
  - exfalso. apply He. apply in_or_app. right. subst. assumption.
  - rewrite map_app. simpl. rewrite map_updateNode_notin; [reflexivity|].
    intros Hin. apply (N3 i Hin Hi).
Qed.

Lemma updateNode_root f e cs :
  NoDup (ids (Element e cs)) ->
  updateNode (eid e) f (Element e cs) = f e cs.
Proof.
  intros Hnd. simpl in Hnd. inversion Hnd as [|? ? He _]; subst.
  simpl. rewrite Nat.eqb_refl. rewrite map_updateNode_notin by assumption.
  reflexivity.
Qed.

(** *** Queries on explicit trees *)

Lemma descendants_Element e cs : descendants (Element e cs) = descendantsL cs.
Proof. induction cs as [|c r IH]; simpl in *; [reflexivity | rewrite IH; reflexivity]. Qed.

Lemma selectAll_app sel l1 l2 :
  selectAll sel (l1 ++ l2) = (selectAll sel l1 ++ selectAll sel l2)%list.
Proof.
  induction l1 as [|x l1 IH]; simpl; [reflexivity|].
  destruct (matchesSel sel x); simpl; rewrite IH; reflexivity.
Qed.

Lemma matchesSel_tags sel n b1 b2 :
  forallb isSelTag sel = true -> matchesSel sel (n, b1) = matchesSel sel (n, b2).
Proof.
  intros H. unfold matchesSel. simpl. destruct n as [e cs| |]; try reflexivity.
  assert (existsb (matchesSimple e b1) sel = existsb (matchesSimple e b2) sel) as E.
  { induction sel as [|s sel IH]; simpl in *; [reflexivity|].
    apply andb_true_iff in H. destruct H as [Hs Hsel].
    rewrite (IH Hsel). destruct s; [reflexivity | discriminate]. }
  rewrite E. reflexivity.
Qed.

Lemma selectTags_descendantsL_app sel l1 l2 :
  forallb isSelTag sel = true ->
  selectAll sel (descendantsL (l1 ++ l2)) =
  (selectAll sel (descendantsL l1) ++ selectAll sel (descendantsL l2))%list.
Proof.
  intros H. induction l1 as [|c r IH]; simpl; [reflexivity|].
  rewrite (matchesSel_tags sel c _ (negb (existsb (sameType c) r)) H).
  rewrite !selectAll_app, IH.
  destruct (matchesSel sel (c, negb (existsb (sameType c) r))); simpl;
    rewrite <- ?app_assoc; reflexivity.
Qed.

Lemma descendants_elems n e cs b :
  In (Element e cs, b) (descendants n) -> In e (elems n).
Proof.
  induction n as [e0 cs0 IH| |] using node_ind'; simpl; try tauto.
  intros H. right.
  induction IH as [|c r Hc _ IHr]; simpl in *; [tauto|].
  apply in_or_app. destruct H as [H|H].
  - inversion H; subst. left. simpl. auto.
  - apply in_app_or in H. destruct H as [H|H]; [left; auto | right; auto].
Qed.

Lemma selectAll_tag sel l e :
  In e (selectAll sel l) -> existsb (fun s => String.eqb (tag e) (selTag s)) sel = true.
Proof.
  induction l as [|[n b] l IH]; simpl; [tauto|].
  unfold matchesSel. simpl. destruct n as [e0 cs0| |]; auto.
  destruct (existsb (matchesSimple e0 b) sel) eqn:E; auto.
  intros [H|H]; [subst|auto].
  apply existsb_exists in E. destruct E as [s [Hs Hm]].
  apply existsb_exists. exists s. split; [assumption|].
  destruct s; simpl in *; [assumption|].
  apply andb_true_iff in Hm. tauto.
Qed.

(** An inert subtree has no match for a selector on structural tags. *)
Lemma inert_select sel n :
  forallb (fun s => existsb (String.eqb (selTag s)) structuralTags) sel = true ->
  inert n -> querySelectorAllN sel n = [].
Proof.
  intros Hsel Hn. unfold querySelectorAllN.
  destruct (selectAll sel (descendants n)) as [|e r] eqn:E; [reflexivity|].
  exfalso.
  assert (In e (selectAll sel (descendants n))) as Hin by (rewrite E; simpl; auto).
  pose proof (selectAll_tag _ _ _ Hin) as Ht.
  apply selectAll_In in Hin. destruct Hin as [cs [b Hin]].
  apply descendants_elems in Hin.
  unfold inert in Hn. rewrite Forall_forall in Hn. specialize (Hn e Hin).
  apply existsb_exists in Ht. destruct Ht as [s [Hs Hts]].
  rewrite forallb_forall in Hsel. specialize (Hsel s Hs).
  apply String.eqb_eq in Hts. unfold structural in Hn. rewrite Hts in Hn. congruence.
Qed.

(** With a later sibling of the same tag, the elements of a list of
    siblings are not last of their type; only matches nested in them
    remain. *)
Lemma select_lastOfType_snoc tg l e cs :
  tag e = tg ->
  Forall (fun x => querySelectorAllN [SelLastOfType tg] x = []) l ->
  selectAll [SelLastOfType tg] (descendantsL (l ++ [Element e cs])) =
  e :: querySelectorAllN [SelLastOfType tg] (Element e cs).
Proof.
  intros He Hl. induction Hl as [|c r Hc _ IH]; simpl.
  - unfold matchesSel. simpl. rewrite He, String.eqb_refl. simpl.
    rewrite app_nil_r. reflexivity.
  - rewrite selectAll_app. unfold querySelectorAllN in Hc. rewrite Hc. simpl.
    rewrite IH. unfold matchesSel. simpl. destruct c as [ec ccs| |]; try reflexivity.
    simpl. destruct (String.eqb (tag ec) tg) eqn:Et; [|reflexivity].
    rewrite existsb_app. simpl. apply String.eqb_eq in Et.
    rewrite Et, He, String.eqb_refl. rewrite orb_true_r. reflexivity.
Qed.

(** *** Queries on a table of regular rows *)

Lemma cellOK_inert_select sel c :
  forallb (fun s => existsb (String.eqb (selTag s)) structuralTags) sel = true ->
  cellOK c -> selectAll sel (descendants c) = [].
Proof.
  intros Hsel [ce [content [-> [_ Hin]]]]. rewrite descendants_Element.
  induction Hin as [|x r Hx _ IH]; simpl; [reflexivity|].
  rewrite selectAll_app, IH.
  pose proof (inert_select sel x Hsel Hx) as Hq. unfold querySelectorAllN in Hq.
  rewrite Hq. simpl.
  unfold matchesSel. simpl. destruct x as [ex xcs| |]; try reflexivity.
  destruct (existsb (matchesSimple ex (negb (existsb (sameType (Element ex xcs)) r))) sel)
    eqn:E; [|reflexivity].
  exfalso. apply existsb_exists in E. destruct E as [s [Hs Hm]].
  rewrite forallb_forall in Hsel. specialize (Hsel s Hs).
  unfold inert in Hx. simpl in Hx. inversion Hx as [|? ? Hex _]; subst.
  unfold structural in Hex.
  assert (tag ex = selTag s) as Ht.
  { destruct s; simpl in Hm; [apply String.eqb_eq; assumption|].
    apply andb_true_iff in Hm. apply String.eqb_eq. tauto. }
  rewrite Ht in Hex. congruence.
Qed.

Lemma cells_of_cells cells :
  Forall cellOK cells ->
  selectAll cellsSel (descendantsL cells) = elemsOf cells.
Proof.
  induction 1 as [|c r Hc _ IH]; simpl; [reflexivity|].
  rewrite selectAll_app, IH, (cellOK_inert_select cellsSel c eq_refl Hc).
  destruct Hc as [ce [content [-> [Ht _]]]].
  unfold matchesSel. simpl. destruct Ht as [-> | ->]; reflexivity.
Qed.

Lemma cells_of_rows rows :
  Forall rowOK rows ->
  selectAll cellsSel (descendantsL rows) = flat_map (fun r => elemsOf (childNodes r)) rows.
Proof.
  induction 1 as [|x r Hx _ IH]; simpl; [reflexivity|].
  destruct Hx as [re [cells [-> [Ht Hc]]]].
  rewrite selectAll_app, IH, descendants_Element, (cells_of_cells cells Hc).
  unfold matchesSel. simpl. rewrite Ht. reflexivity.
Qed.

Lemma elemsOf_cells_length cells :
  Forall cellOK cells -> List.length (elemsOf cells) = List.length cells.
Proof.
  induction 1 as [|c r Hc _ IH]; simpl; [reflexivity|].
  destruct Hc as [ce [content [-> _]]]. simpl. rewrite IH. reflexivity.
Qed.

Lemma cells_count rows :
  Forall rowOK rows ->
  List.length (flat_map (fun r => elemsOf (childNodes r)) rows) =
  list_sum (map (fun r => List.length (childNodes r)) rows).
Proof.
  induction 1 as [|x r Hx _ IH]; simpl; [reflexivity|].
  destruct Hx as [re [cells [-> [_ Hc]]]]. simpl.
  rewrite length_app, IH, (elemsOf_cells_length cells Hc). reflexivity.
Qed.

Lemma rowOK_no_row r :
  rowOK r -> querySelectorAllN [SelLastOfType "tr"] r = [].
Proof.
  intros [re [cells [-> [_ Hc]]]]. unfold querySelectorAllN.
  rewrite descendants_Element.
  induction Hc as [|c cs Hc _ IH]; simpl; [reflexivity|].
  rewrite selectAll_app, IH, (cellOK_inert_select [SelLastOfType "tr"] c eq_refl Hc).
  destruct Hc as [ce [content [-> [Ht _]]]].
  unfold matchesSel. simpl. destruct Ht as [-> | ->]; reflexivity.
Qed.

Lemma rowsOK_no_table rows :
  Forall rowOK rows -> selectAll [SelLastOfType "table"] (descendantsL rows) = [].
Proof.
  induction 1 as [|x r Hx _ IH]; simpl; [reflexivity|].
  destruct Hx as [re [cells [-> [Ht Hc]]]].
  rewrite selectAll_app, IH, descendants_Element.
  assert (selectAll [SelLastOfType "table"] (descendantsL cells) = []) as E.
  { clear IH. induction Hc as [|c cs Hc _ IHc]; simpl; [reflexivity|].
    rewrite selectAll_app, IHc,
      (cellOK_inert_select [SelLastOfType "table"] c eq_refl Hc).
    destruct Hc as [ce [content [-> [Htc _]]]].
    unfold matchesSel. simpl. destruct Htc as [-> | ->]; reflexivity. }
  rewrite E. unfold matchesSel. simpl. rewrite Ht. reflexivity.
Qed.

(** *** The layout of [K] cells in [C] columns *)

Lemma layout_zero C : 1 <= C -> layout 0 C = [].
Proof.
  intros H. unfold layout. rewrite Nat.Div0.div_0_l, Nat.Div0.mod_0_l. reflexivity.
Qed.

Lemma layout_sum K C : 1 <= C -> list_sum (layout K C) = K.
Proof.
  intros H. unfold layout. rewrite list_sum_app.
  assert (list_sum (repeat C (K / C)) = C * (K / C)) as E.
  { induction (K / C) as [|q IH]; simpl; [lia | rewrite IH; lia]. }
  rewrite E. pose proof (Nat.div_mod_eq K C) as Hdm.
  destruct (Nat.eqb_spec (K mod C) 0); simpl; lia.
Qed.

Lemma repeat_snoc {A} (x : A) n : repeat x (S n) = (repeat x n ++ [x])%list.
Proof. induction n as [|n IH]; simpl in *; [reflexivity | rewrite <- IH; reflexivity]. Qed.

Lemma div_mod_succ K C :
  1 <= C ->
  (S K mod C = 0 /\ S K / C = S (K / C) /\ S (K mod C) = C) \/
  (S K mod C = S (K mod C) /\ S K / C = K / C /\ S (K mod C) < C).
Proof.
  intros H. pose proof (Nat.div_mod_eq K C) as E.
  pose proof (Nat.mod_upper_bound K C ltac:(lia)) as B.
  destruct (Nat.eq_dec (S (K mod C)) C) as [Hc|Hc].
  - left. assert (S K = C * S (K / C) + 0) as E' by lia.
    split; [|split; [|assumption]].
    + rewrite E'. rewrite Nat.Div0.add_mod, Nat.mul_comm, Nat.Div0.mod_mul.
      rewrite Nat.Div0.mod_0_l. simpl. apply Nat.Div0.mod_0_l.
    + symmetry. apply (Nat.div_unique (S K) C (S (K / C)) 0); lia.
  - right. assert (S K = C * (K / C) + S (K mod C)) as E' by lia.
    split; [|split; [|lia]].
    + symmetry. apply (Nat.mod_unique (S K) C (K / C) (S (K mod C))); lia.
    + symmetry. apply (Nat.div_unique (S K) C (K / C) (S (K mod C))); lia.
Qed.

(** A cell entered when the count is a multiple of [C] opens a row. *)
Lemma layout_succ_new K C :
  1 <= C -> K mod C = 0 -> layout (S K) C = (layout K C ++ [1])%list.
Proof.
  intros H Hm. unfold layout. rewrite Hm. simpl. rewrite app_nil_r.
  destruct (div_mod_succ K C H) as [[E1 [E2 E3]]|[E1 [E2 E3]]].
  - rewrite E1, E2. simpl Nat.eqb. cbv iota. rewrite app_nil_r.
    rewrite repeat_snoc. f_equal. f_equal. lia.
  - rewrite E1, E2, Hm. reflexivity.
Qed.

(** Any other cell goes to the last row. *)
Lemma layout_succ_same K C l x :
  1 <= C -> K mod C <> 0 -> layout K C = (l ++ [x])%list ->
  layout (S K) C = (l ++ [S x])%list.
Proof.
  intros H Hm. unfold layout.
  destruct (Nat.eqb_spec (K mod C) 0) as [E|_]; [contradiction|].
  intros Hl. apply app_inj_tail in Hl. destruct Hl as [Hl Hx]. subst.
  destruct (div_mod_succ K C H) as [[E1 [E2 E3]]|[E1 [E2 E3]]].
  - rewrite E1, E2. simpl Nat.eqb. cbv iota. rewrite app_nil_r.
    rewrite repeat_snoc. f_equal. f_equal. lia.
  - rewrite E1, E2. reflexivity.
Qed.

Lemma layout_nil K C : 1 <= C -> layout K C = [] -> K = 0.
Proof.
  intros H E. pose proof (layout_sum K C H) as Hs. rewrite E in Hs. simpl in Hs. lia.
Qed.

(** The layout has [ceil (K / C)] rows, all of [C] cells but possibly
    the last, which has [K mod C] cells, or [C] when [C] divides [K]. *)
Lemma layout_spec K C :
  1 <= C -> 1 <= K ->
  List.length (layout K C) = (K + C - 1) / C /\
  (forall i, i + 1 < List.length (layout K C) -> nth i (layout K C) 0 = C) /\
  last (layout K C) 0 = (if K mod C =? 0 then C else K mod C).
Proof.
  intros HC HK. unfold layout.
  pose proof (Nat.div_mod_eq K C) as E.
  pose proof (Nat.mod_upper_bound K C ltac:(lia)) as B.
  destruct (Nat.eqb_spec (K mod C) 0) as [Hm|Hm].
  - rewrite app_nil_r, repeat_length. split; [|split].
    + apply (Nat.div_unique (K + C - 1) C (K / C) (C - 1)); [lia|].
      rewrite Hm in E. lia.
    + intros i Hi. apply nth_repeat_lt. lia.
    + assert (K / C <> 0) as Hq by (intros Hq; rewrite Hq, Hm in E; lia).
      destruct (K / C) as [|q]; [congruence|]. rewrite repeat_snoc.
      apply last_last.
  - rewrite length_app, repeat_length. simpl. split; [|split].
    + apply (Nat.div_unique (K + C - 1) C (K / C + 1) (K mod C - 1)); lia.
    + intros i Hi. rewrite app_nth1 by (rewrite repeat_length; lia).
      apply nth_repeat_lt. lia.
    + apply last_last.
Qed.

Lemma distinct_NoDup l : distinct l = true -> NoDup l.
Proof.
  induction l as [|a l IH]; simpl; intros H; [constructor|].
  apply andb_true_iff in H. destruct H as [Ha Hl]. constructor; [|auto].
  intros Hin. apply negb_true_iff in Ha.
  assert (existsb (Nat.eqb a) l = true) as E.
  { apply existsb_exists. exists a. split; [assumption | apply Nat.eqb_refl]. }
  congruence.
Qed.

(** *** The subtree a text line appends *)

Lemma lastOf_snoc {A} (l : list A) x : lastOf (l ++ [x]) = Some x.
Proof.
  induction l as [|a l IH]; simpl; [reflexivity|].
  destruct (l ++ [x])%list eqn:E; [destruct l; discriminate | exact IH].
Qed.

Lemma lastOf_app {A} (l1 l2 : list A) : l2 <> [] -> lastOf (l1 ++ l2) = lastOf l2.
Proof.
  intros H. destruct (@exists_last _ l2 H) as [l' [x ->]].
  rewrite app_assoc, !lastOf_snoc. reflexivity.
Qed.

Lemma ids_nest_inner ws i inner :
  flat_map ids (nest ws i inner) = (seq i (List.length ws) ++ flat_map ids inner)%list.
Proof.
  revert i. induction ws as [|w ws IH]; intros i; simpl; [reflexivity|].
  rewrite app_nil_r, IH. reflexivity.
Qed.

Lemma ids_fragmentNodes rest : forall first k,
  flat_map ids (fragmentNodes first rest k) = seq k (List.length rest).
Proof.
  induction rest as [|f r IH]; intros first k; simpl; [reflexivity|].
  rewrite IH. reflexivity.
Qed.

Lemma ids_text_subtree l i :
  flat_map ids (nest (wrappers l) i (fragmentsOf (text l) (i + List.length (wrappers l))))
  = seq i (List.length (wrappers l) + breakCount (text l)).
Proof.
  rewrite ids_nest_inner, seq_app. f_equal.
  unfold fragmentsOf, breakCount. destruct (split (text l)); apply ids_fragmentNodes.
Qed.

Lemma elems_appendChildrenT_inv p ns t e :
  In e (elems (appendChildrenT p ns t)) -> In e (elems t) \/ In e (flat_map elems ns).
Proof.
  revert e. induction t as [e0 cs IH| |] using node_ind'; intros e; try (simpl; tauto).
  rewrite appendChildrenT_Element. simpl. rewrite flat_map_app.
  intros [H|H]; [auto|]. apply in_app_or in H. destruct H as [H|H].
  - assert (In e (flat_map elems cs) \/ In e (flat_map elems ns)) as H'; [|tauto].
    clear -IH H. induction IH as [|c r Hc _ IHr]; simpl in *; [tauto|].
    apply in_app_or in H. destruct H as [H|H].
    + destruct (Hc e H); [left; apply in_or_app; auto | auto].
    + destruct (IHr H); [left; apply in_or_app; auto | auto].
  - destruct (eid e0 =? p); simpl in H; [auto | tauto].
Qed.

Lemma inert_appendChildrenT p ns t :
  inert t -> Forall inert ns -> inert (appendChildrenT p ns t).
Proof.
  unfold inert. rewrite !Forall_forall. intros Ht Hns e He.
  apply elems_appendChildrenT_inv in He. destruct He as [He|He]; [auto|].
  apply in_flat_map in He. destruct He as [x [Hx He]].
  specialize (Hns x Hx). rewrite Forall_forall in Hns. auto.
Qed.

Lemma inert_nest ws i inner :
  Forall (fun w => existsb (String.eqb (fst w)) structuralTags = false) ws ->
  Forall inert inner -> Forall inert (nest ws i inner).
Proof.
  intros Hws Hinner. revert i. induction Hws as [|w ws Hw _ IH]; intros i; simpl;
    [assumption|].
  constructor; [|constructor]. unfold inert. simpl. constructor.
  - unfold structural. simpl. exact Hw.
  - specialize (IH (S i)). rewrite Forall_forall in *. intros e He.
    apply in_flat_map in He. destruct He as [x [Hx He]].
    specialize (IH x Hx). unfold inert in IH. rewrite Forall_forall in IH. auto.
Qed.

Lemma wrappers_inert l :
  Forall (fun w => existsb (String.eqb (fst w)) structuralTags = false) (wrappers l).
Proof.
  unfold wrappers.
  destruct (italic l), (bold l), (underline l || strikeout l || mono l),
    (supertext l), (subtext l); simpl; repeat constructor.
Qed.

Lemma inert_fragmentNodes rest : forall first k, Forall inert (fragmentNodes first rest k).
Proof.
  induction rest as [|f r IH]; intros first k; simpl.
  - constructor; [constructor | constructor].
  - constructor; [constructor|]. constructor; [|apply IH].
    unfold inert, leaf. simpl. constructor; [reflexivity | constructor].
Qed.

Lemma inert_text_subtree l i k :
  Forall inert (nest (wrappers l) i (fragmentsOf (text l) k)).
Proof.
  apply inert_nest; [apply wrappers_inert|].
  unfold fragmentsOf. destruct (split (text l)); apply inert_fragmentNodes.
Qed.

(** *** The elements of a document under the DOM primitives *)

Lemma ids_elems t : ids t = map eid (elems t).
Proof.
  induction t as [e cs IH| |] using node_ind'; simpl; try reflexivity.
  f_equal. induction IH as [|c r Hc _ IHr]; simpl; [reflexivity|].
  rewrite map_app, Hc, IHr. reflexivity.
Qed.

Lemma elems_ids t e : In e (elems t) -> In (eid e) (ids t).
Proof. rewrite ids_elems. apply in_map. Qed.

Lemma flat_map_map_elems (f : node -> node) (h : elem -> elem) cs :
  Forall (fun c => elems (f c) = map h (elems c)) cs ->
  flat_map elems (map f cs) = map h (flat_map elems cs).
Proof.
  induction 1 as [|c r Hc _ IH]; simpl; [reflexivity|].
  rewrite map_app, Hc, IH. reflexivity.
Qed.

Lemma elems_updElem i g t :
  (forall e, eid (g e) = eid e) ->
  elems (updElem i g t) = map (fun e => if eid e =? i then g e else e) (elems t).
Proof.
  intros Hg. induction t as [e cs IH| |] using node_ind'; try reflexivity.
  rewrite updElem_Element. simpl.
  rewrite (flat_map_map_elems _ (fun e => if eid e =? i then g e else e) cs IH).
  reflexivity.
Qed.

Lemma filter_flat_map_elems (q : elem -> bool) (f : node -> node) cs :
  Forall (fun c => filter q (elems (f c)) = filter q (elems c)) cs ->
  filter q (flat_map elems (map f cs)) = filter q (flat_map elems cs).
Proof.
  induction 1 as [|c r Hc _ IH]; simpl; [reflexivity|].
  rewrite !filter_app, Hc, IH. reflexivity.
Qed.

Lemma filter_none {A} (q : A -> bool) l :
  (forall x, In x l -> q x = false) -> filter q l = [].
Proof.
  induction l as [|a l IH]; simpl; intros H; [reflexivity|].
  rewrite (H a) by auto. apply IH. auto.
Qed.

(** Appending children none of whose elements satisfies [q] leaves
    the elements satisfying [q] as they were. *)
Lemma filter_elems_appendChildrenT (q : elem -> bool) p ns t :
  (forall e, In e (flat_map elems ns) -> q e = false) ->
  filter q (elems (appendChildrenT p ns t)) = filter q (elems t).
Proof.
  intros Hns. induction t as [e cs IH| |] using node_ind'; try reflexivity.
  rewrite appendChildrenT_Element. simpl. rewrite flat_map_app, filter_app.
  rewrite (filter_flat_map_elems q _ cs IH).
  assert (filter q (flat_map elems (if eid e =? p then ns else [])) = []) as E.
  { destruct (eid e =? p); [apply filter_none; assumption | reflexivity]. }
  rewrite E, app_nil_r. reflexivity.
Qed.

Lemma elems_appendChildrenT_perm p ns t :
  NoDup (ids t) -> In p (ids t) ->
  Permutation (elems (appendChildrenT p ns t)) (elems t ++ flat_map elems ns).
Proof.
  induction t as [e cs IH| |] using node_ind'; try (simpl; tauto).
  intros Hnd Hp. rewrite appendChildrenT_Element. simpl. rewrite flat_map_app.
  simpl in Hnd. inversion Hnd as [|? ? He Hcs]; subst.
  apply perm_skip.
  destruct (Nat.eqb_spec (eid e) p) as [E|E].
  - subst p. rewrite (map_id_Forall (appendChildrenT (eid e) ns)); [reflexivity|].
    rewrite Forall_forall. intros c Hc. apply updateNode_notin.
    intros Hi. apply He. apply in_flat_map. exists c; auto.
  - simpl. rewrite app_nil_r. destruct Hp as [Hp|Hp]; [contradiction|].
    clear He Hnd E. induction IH as [|c r Hc _ IHr]; simpl in *; [contradiction|].
    apply NoDup_app_inv in Hcs. destruct Hcs as [N1 [N2 N3]].
    apply in_app_or in Hp. destruct Hp as [Hp|Hp].
    + rewrite (map_id_Forall (appendChildrenT p ns) r).
      * rewrite (Hc N1 Hp). rewrite <- !app_assoc. apply Permutation_app_head.
        apply Permutation_app_comm.
      * rewrite Forall_forall. intros c' Hc'. apply updateNode_notin.
        intros Hi. apply (N3 p Hp). apply in_flat_map. exists c'; auto.
    + assert (appendChildrenT p ns c = c) as Ec.
      { apply updateNode_notin. intros Hi. apply (N3 p Hi Hp). }
      rewrite Ec. rewrite (IHr Hp N2). rewrite app_assoc. reflexivity.
Qed.

(** *** Removing a node *)

Lemma removeNodeT_Element i e cs :
  removeNodeT i (Element e cs) =
  Element e (filter (fun c => negb (hasId i c)) (map (removeNodeT i) cs)).
Proof. reflexivity. Qed.

Lemma hasId_removeNodeT i j c : hasId i (removeNodeT j c) = hasId i c.
Proof. destruct c; reflexivity. Qed.

Lemma elems_removeNodeT_incl i t e :
  In e (elems (removeNodeT i t)) -> In e (elems t).
Proof.
  revert e. induction t as [e0 cs IH| |] using node_ind'; intros e; try (simpl; tauto).
  rewrite removeNodeT_Element. simpl. intros [H|H]; [auto|]. right.
  apply in_flat_map in H. destruct H as [c' [Hc' He]].
  apply filter_In in Hc'. destruct Hc' as [Hc' _].
  apply in_map_iff in Hc'. destruct Hc' as [c [<- Hc]].
  apply in_flat_map. exists c. split; [assumption|].
  rewrite Forall_forall in IH. auto.
Qed.

Lemma count_ids_removeNodeT i t x :
  count_occ Nat.eq_dec (ids (removeNodeT i t)) x <= count_occ Nat.eq_dec (ids t) x.
Proof.
  induction t as [e cs IH| |] using node_ind'; try (simpl; lia).
  rewrite removeNodeT_Element.
  assert (count_occ Nat.eq_dec
            (flat_map ids (filter (fun c => negb (hasId i c)) (map (removeNodeT i) cs))) x
          <= count_occ Nat.eq_dec (flat_map ids cs) x) as H.
  { induction IH as [|c r Hc _ IHr]; [simpl; lia|].
    cbn [map filter flat_map].
    cbv beta in Hc.
    destruct (negb (hasId i (removeNodeT i c))); cbn [flat_map];
      rewrite ?count_occ_app.
    - apply Nat.add_le_mono; assumption.
    - eapply Nat.le_trans; [exact IHr | apply Nat.le_add_l]. }
  cbn [ids]. destruct (Nat.eq_dec (eid e) x) as [E|E];
    [rewrite !(count_occ_cons_eq _ _ E); apply le_n_S; exact H
    | rewrite !(count_occ_cons_neq _ _ E); exact H].
Qed.

Lemma NoDup_removeNodeT i t : NoDup (ids t) -> NoDup (ids (removeNodeT i t)).
Proof.
  rewrite !(NoDup_count_occ Nat.eq_dec). intros H x.
  eapply Nat.le_trans; [apply count_ids_removeNodeT | apply H].
Qed.

(** Removing a childless element that does not satisfy [q] leaves the
    elements satisfying [q] as they were. *)
Lemma filter_elems_removeNodeT (q : elem -> bool) i t :
  NoDup (ids t) ->
  (forall n, getNode i t = Some n -> childNodes n = []) ->
  (forall e, In e (elems t) -> eid e = i -> q e = false) ->
  filter q (elems (removeNodeT i t)) = filter q (elems t).
Proof.
  induction t as [e cs IH| |] using node_ind'; try reflexivity.
  intros Hnd Hleaf Hq. rewrite removeNodeT_Element. simpl.
  assert (filter q (flat_map elems
            (filter (fun c => negb (hasId i c)) (map (removeNodeT i) cs)))
          = filter q (flat_map elems cs)) as H; [|rewrite H; reflexivity].
  destruct (Nat.eqb_spec (eid e) i) as [E|E].
  { specialize (Hleaf (Element e cs)). rewrite getNode_Element in Hleaf.
    rewrite <- E, Nat.eqb_refl in Hleaf. specialize (Hleaf eq_refl).
    simpl in Hleaf. subst cs. reflexivity. }
  simpl in Hnd. inversion Hnd as [|? ? _ Hcs]; subst.
  assert (forall n, findMap (getNode i) cs = Some n -> childNodes n = []) as Hleaf'.
  { intros n Hn. apply Hleaf. rewrite getNode_Element.
    destruct (Nat.eqb_spec (eid e) i); [contradiction | assumption]. }
  assert (forall e', In e' (flat_map elems cs) -> eid e' = i -> q e' = false) as Hq'.
  { intros e' He'. apply Hq. simpl. auto. }
  clear Hleaf Hq Hnd E.
  induction IH as [|c r Hc _ IHr]; simpl; [reflexivity|].
  simpl in Hcs. apply NoDup_app_inv in Hcs. destruct Hcs as [N1 [N2 N3]].
  rewrite hasId_removeNodeT.
  assert (filter q (flat_map elems
            (filter (fun c0 => negb (hasId i c0)) (map (removeNodeT i) r)))
          = filter q (flat_map elems r)) as Hr.
  { apply IHr; [assumption| |].
    - intros n Hn. apply Hleaf'. simpl.
      destruct (getNode i c) as [m|] eqn:Em; [|assumption].
      exfalso. apply findMap_Some in Hn. destruct Hn as [c' [Hc' Hn]].
      apply (N3 i).
      + apply hasNode_In. unfold hasNode. rewrite Em. reflexivity.
      + apply in_flat_map. exists c'. split; [assumption|].
        apply hasNode_In. unfold hasNode. rewrite Hn. reflexivity.
    - intros e' He'. apply Hq'. simpl. apply in_or_app. auto. }
  destruct (hasId i c) eqn:Ei; simpl.
  - rewrite Hr, filter_app.
    destruct c as [ec ccs| |]; simpl in Ei; try discriminate.
    apply Nat.eqb_eq in Ei.
    assert (ccs = []) as ->.
    { specialize (Hleaf' (Element ec ccs)). simpl in Hleaf'.
      rewrite Ei, Nat.eqb_refl in Hleaf'. apply Hleaf'. reflexivity. }
    simpl. rewrite (Hq' ec) by (simpl; auto). reflexivity.
  - rewrite !filter_app, Hr. f_equal. apply Hc; [assumption| |].
    + intros n Hn. apply Hleaf'. simpl. rewrite Hn. reflexivity.
    + intros e' He'. apply Hq'. simpl. apply in_or_app. auto.
Qed.

(** *** Inserting an element before another *)

Lemma insertBeforeT_Element i new e cs :
  insertBeforeT i new (Element e cs) =
  Element e (insertBeforeL i new (map (insertBeforeT i new) cs)).
Proof. reflexivity. Qed.

Lemma hasId_insertBeforeT i j new c : hasId i (insertBeforeT j new c) = hasId i c.
Proof. destruct c; reflexivity. Qed.

Lemma elems_insertBeforeL i new cs :
  flat_map elems (insertBeforeL i new cs) =
  flat_map (fun c => ((if hasId i c then elems new else []) ++ elems c)%list) cs.
Proof.
  unfold insertBeforeL. induction cs as [|c r IH]; simpl; [reflexivity|].
  rewrite flat_map_app, IH. destruct (hasId i c); simpl; rewrite ?app_nil_r;
    rewrite <- ?app_assoc; reflexivity.
Qed.

Lemma filter_elems_insertBeforeT (q : elem -> bool) i new t :
  (forall e, In e (elems new) -> q e = false) ->
  filter q (elems (insertBeforeT i new t)) = filter q (elems t).
Proof.
  intros Hnew. induction t as [e cs IH| |] using node_ind'; try reflexivity.
  rewrite insertBeforeT_Element. simpl. rewrite elems_insertBeforeL.
  assert (filter q (flat_map (fun c => ((if hasId i c then elems new else []) ++ elems c)%list)
                      (map (insertBeforeT i new) cs))
          = filter q (flat_map elems cs)) as H; [|rewrite H; reflexivity].
  induction IH as [|c r Hc _ IHr]; simpl; [reflexivity|].
  rewrite !filter_app, IHr, Hc, hasId_insertBeforeT.
  destruct (hasId i c); [rewrite (filter_none q _ Hnew)|]; reflexivity.
Qed.

Lemma elems_insertBeforeT_incl i new t e :
  In e (elems (insertBeforeT i new t)) -> In e (elems t) \/ In e (elems new).
Proof.
  revert e. induction t as [e0 cs IH| |] using node_ind'; intros e; try (simpl; tauto).
  rewrite insertBeforeT_Element. simpl. rewrite elems_insertBeforeL.
  intros [H|H]; [auto|].
  assert (In e (flat_map elems cs) \/ In e (elems new)) as H'; [|tauto].
  induction IH as [|c r Hc _ IHr]; simpl in *; [tauto|].
  apply in_app_or in H. destruct H as [H|H].
  - apply in_app_or in H. destruct H as [H|H].
    + destruct (hasId i (insertBeforeT i new c)); [auto | contradiction].
    + destruct (Hc e H); [left; apply in_or_app; auto | auto].
  - destruct (IHr H); [left; apply in_or_app; auto | auto].
Qed.

Lemma ids_insertBeforeL i j tg cs :
  flat_map ids (insertBeforeL i (leaf j tg) cs) =
  flat_map (fun c => ((if hasId i c then [j] else []) ++ ids c)%list) cs.
Proof.
  unfold insertBeforeL. induction cs as [|c r IH]; simpl; [reflexivity|].
  rewrite flat_map_app, IH. destruct (hasId i c); simpl; rewrite ?app_nil_r; reflexivity.
Qed.

Lemma count_cons (a : nat) l x :
  count_occ Nat.eq_dec (a :: l) x = (if a =? x then 1 else 0) + count_occ Nat.eq_dec l x.
Proof.
  destruct (Nat.eqb_spec a x) as [E|E];
    [rewrite (count_occ_cons_eq _ _ E) | rewrite (count_occ_cons_neq _ _ E)]; reflexivity.
Qed.

Lemma count_other_insertBeforeT i j tg t (x : nat) :
  x <> j ->
  count_occ Nat.eq_dec (ids (insertBeforeT i (leaf j tg) t)) x =
  count_occ Nat.eq_dec (ids t) x.
Proof.
  intros Hx. induction t as [e cs IH| |] using node_ind'; try reflexivity.
  rewrite insertBeforeT_Element. cbn [ids]. rewrite ids_insertBeforeL.
  assert (count_occ Nat.eq_dec
            (flat_map (fun c => ((if hasId i c then [j] else []) ++ ids c)%list)
               (map (insertBeforeT i (leaf j tg)) cs)) x
          = count_occ Nat.eq_dec (flat_map ids cs) x) as H.
  { induction IH as [|c r Hc _ IHr]; [reflexivity|]. cbv beta in Hc.
    cbn [map flat_map]. rewrite !count_occ_app, IHr, Hc, hasId_insertBeforeT.
    destruct (hasId i c); [|reflexivity].
    rewrite count_cons. destruct (Nat.eqb_spec j x); [congruence | reflexivity]. }
  rewrite !count_cons, H. reflexivity.
Qed.

Lemma count_new_insertBeforeT i j tg t :
  count_occ Nat.eq_dec (ids (insertBeforeT i (leaf j tg) t)) j
  + (if hasId i t then 1 else 0)
  <= count_occ Nat.eq_dec (ids t) j + count_occ Nat.eq_dec (ids t) i.
Proof.
  induction t as [e cs IH| |] using node_ind'; try (simpl; lia).
  rewrite insertBeforeT_Element. cbn [ids hasId]. rewrite ids_insertBeforeL.
  assert (count_occ Nat.eq_dec
            (flat_map (fun c => ((if hasId i c then [j] else []) ++ ids c)%list)
               (map (insertBeforeT i (leaf j tg)) cs)) j
          <= count_occ Nat.eq_dec (flat_map ids cs) j
             + count_occ Nat.eq_dec (flat_map ids cs) i) as H.
  { induction IH as [|c r Hc _ IHr]; [simpl; lia|]. cbv beta in Hc.
    cbn [map flat_map]. rewrite !count_occ_app, hasId_insertBeforeT.
    destruct (hasId i c).
    - rewrite count_cons, Nat.eqb_refl. simpl count_occ at 1. lia.
    - simpl count_occ at 1. lia. }
  rewrite !count_cons. destruct (eid e =? i); lia.
Qed.

Lemma NoDup_insertBeforeT i j tg t :
  NoDup (ids t) -> ~ In j (ids t) -> NoDup (ids (insertBeforeT i (leaf j tg) t)).
Proof.
  rewrite !(NoDup_count_occ Nat.eq_dec). intros H Hj x.
  destruct (Nat.eq_dec x j) as [E|E].
  - subst x. pose proof (count_new_insertBeforeT i j tg t) as Hc.
    pose proof (H i) as Hi.
    apply (count_occ_not_In Nat.eq_dec) in Hj. lia.
  - rewrite (count_other_insertBeforeT i j tg t x E). apply H.
Qed.

(** *** Replacing the text of an element *)

Lemma setTextContentT_Element i s e cs :
  setTextContentT i s (Element e cs) =
  if eid e =? i then Element e (if String.eqb s "" then [] else [TextNode s])
  else Element e (map (setTextContentT i s) cs).
Proof. unfold setTextContentT. simpl. destruct (eid e =? i); reflexivity. Qed.

Lemma elems_setTextContentT_incl i s t e :
  In e (elems (setTextContentT i s t)) -> In e (elems t).
Proof.
  revert e. induction t as [e0 cs IH| |] using node_ind'; intros e; try (simpl; tauto).
  rewrite setTextContentT_Element. destruct (eid e0 =? i).
  - simpl. destruct (String.eqb s ""); simpl; tauto.
  - simpl. intros [H|H]; [auto|]. right.
    apply in_flat_map in H. destruct H as [c' [Hc' He]].
    apply in_map_iff in Hc'. destruct Hc' as [c [<- Hc]].
    apply in_flat_map. exists c. split; [assumption|].
    rewrite Forall_forall in IH. auto.
Qed.

Lemma count_ids_setTextContentT i s t x :
  count_occ Nat.eq_dec (ids (setTextContentT i s t)) x <= count_occ Nat.eq_dec (ids t) x.
Proof.
  induction t as [e cs IH| |] using node_ind'; try (simpl; lia).
  rewrite setTextContentT_Element.
  assert (count_occ Nat.eq_dec (flat_map ids (map (setTextContentT i s) cs)) x
          <= count_occ Nat.eq_dec (flat_map ids cs) x) as H.
  { induction IH as [|c r Hc _ IHr]; [simpl; lia|].
    cbn [map flat_map]. cbv beta in Hc. rewrite !count_occ_app.
    apply Nat.add_le_mono; assumption. }
  destruct (eid e =? i).
  - cbn [ids]. destruct (Nat.eq_dec (eid e) x) as [E|E].
    + rewrite !(count_occ_cons_eq _ _ E). apply le_n_S.
      destruct (String.eqb s ""); simpl; lia.
    + rewrite !(count_occ_cons_neq _ _ E). destruct (String.eqb s ""); simpl; lia.
  - cbn [ids]. destruct (Nat.eq_dec (eid e) x) as [E|E];
      [rewrite !(count_occ_cons_eq _ _ E); apply le_n_S; exact H
      | rewrite !(count_occ_cons_neq _ _ E); exact H].
Qed.

Lemma NoDup_setTextContentT i s t : NoDup (ids t) -> NoDup (ids (setTextContentT i s t)).
Proof.
  rewrite !(NoDup_count_occ Nat.eq_dec). intros H x.
  eapply Nat.le_trans; [apply count_ids_setTextContentT | apply H].
Qed.

(** *** The size of a tree after a removal *)

Lemma length_ids_removeNodeT_le i t :
  List.length (ids (removeNodeT i t)) <= List.length (ids t).
Proof.
  induction t as [e cs IH| |] using node_ind'; try (simpl; lia).
  rewrite removeNodeT_Element. cbn [ids List.length]. apply le_n_S.
  induction IH as [|c r Hc _ IHr]; [simpl; lia|].
  cbn [map filter flat_map]. cbv beta in Hc.
  destruct (negb (hasId i (removeNodeT i c))); cbn [flat_map];
    rewrite ?length_app; lia.
Qed.

Lemma length_ids_children_le i cs :
  List.length (flat_map ids (filter (fun c => negb (hasId i c)) (map (removeNodeT i) cs)))
  <= List.length (flat_map ids cs).
Proof.
  induction cs as [|c r IHr]; [simpl; lia|].
  cbn [map filter flat_map]. pose proof (length_ids_removeNodeT_le i c) as Hc.
  destruct (negb (hasId i (removeNodeT i c))); cbn [flat_map];
    rewrite ?length_app; lia.
Qed.

(** Removing an element below the root makes the tree smaller. *)
Lemma length_ids_removeNodeT_lt i t :
  hasId i t = false -> In i (ids t) ->
  List.length (ids (removeNodeT i t)) < List.length (ids t).
Proof.
  induction t as [e cs IH| |] using node_ind'; try (simpl; tauto).
  intros Hroot Hin. simpl in Hroot. simpl in Hin.
  destruct Hin as [Hin|Hin]; [apply Nat.eqb_neq in Hroot; contradiction|].
  rewrite removeNodeT_Element. cbn [ids List.length]. apply -> Nat.succ_lt_mono.
  induction IH as [|c r Hc _ IHr]; [simpl in Hin; tauto|].
  cbn [map filter flat_map] in *. cbv beta in Hc.
  pose proof (length_ids_removeNodeT_le i c) as Hle.
  pose proof (length_ids_children_le i r) as Hler.
  apply in_app_or in Hin. rewrite hasId_removeNodeT.
  destruct (hasId i c) eqn:Hc0; cbn [negb flat_map]; rewrite ?length_app.
  - destruct c as [e0 cs0| |]; try discriminate. simpl. lia.
  - destruct Hin as [Hin|Hin].
    + specialize (Hc eq_refl Hin). lia.
    + specialize (IHr Hin). lia.
Qed.

(** *** Elements and lookups *)

Lemma NoDup_map_inj {A B} (f : A -> B) (l : list A) x y :
  NoDup (map f l) -> In x l -> In y l -> f x = f y -> x = y.
Proof.
  induction l as [|a l IH]; simpl; [tauto|].
  intros Hnd Hx Hy E. inversion Hnd as [|? ? Ha Hl]; subst.
  destruct Hx as [Hx|Hx], Hy as [Hy|Hy]; subst; auto.
  - exfalso. apply Ha. rewrite E. apply in_map. assumption.
  - exfalso. apply Ha. rewrite <- E. apply in_map. assumption.
Qed.

Lemma elems_inj t e e' :
  NoDup (ids t) -> In e (elems t) -> In e' (elems t) -> eid e = eid e' -> e = e'.
Proof. rewrite ids_elems. apply NoDup_map_inj. Qed.

Lemma getNode_elems i t e cs : getNode i t = Some (Element e cs) -> In e (elems t).
Proof.
  induction t as [e0 cs0 IH| |] using node_ind'; try discriminate.
  rewrite getNode_Element. destruct (eid e0 =? i).
  - intros H. inversion H; subst. simpl. auto.
  - intros H. simpl. right.
    induction IH as [|c r Hc _ IHr]; simpl in *; [discriminate|].
    apply in_or_app. destruct (getNode i c) eqn:Ec.
    + left. apply Hc. congruence.
    + right. apply IHr. assumption.
Qed.

Lemma getNode_elem t e :
  NoDup (ids t) -> In e (elems t) -> exists cs, getNode (eid e) t = Some (Element e cs).
Proof.
  intros Hnd He. pose proof (elems_ids t e He) as Hin.
  apply hasNode_In in Hin. unfold hasNode in Hin.
  destruct (getNode (eid e) t) as [n|] eqn:En; [|discriminate].
  destruct (getNode_shape _ _ _ En) as [e' [cs [-> Hid]]].
  pose proof (getNode_elems _ _ _ _ En) as He'.
  assert (e' = e) as -> by (apply (elems_inj t); assumption).
  exists cs. reflexivity.
Qed.

(** *** The document query *)

Lemma elems_descendants t e :
  In e (elems t) -> exists cs b, In (Element e cs, b) ((t, true) :: descendants t).
Proof.
  induction t as [e0 cs0 IH| |] using node_ind'; try (simpl; tauto).
  rewrite descendants_Element. simpl. intros [H|H].
  - subst. exists cs0, true. left. reflexivity.
  - assert (exists cs b, In (Element e cs, b) (descendantsL cs0)) as [cs [b Hin]].
    { induction IH as [|c r Hc _ IHr]; simpl in H; [tauto|].
      apply in_app_or in H. destruct H as [H|H].
      + destruct (Hc H) as [cs [b Hin]]. destruct Hin as [Hin|Hin].
        * inversion Hin; subst.
          exists cs, (negb (existsb (sameType (Element e cs)) r)). left. reflexivity.
        * exists cs, b. simpl. right. apply in_or_app. left. assumption.
      + destruct (IHr H) as [cs [b Hin]].
        exists cs, b. simpl. right. apply in_or_app. right. assumption. }
    exists cs, b. right. assumption.
Qed.

Lemma selectAll_intro sel l e cs b :
  In (Element e cs, b) l -> existsb (matchesSimple e b) sel = true ->
  In e (selectAll sel l).
Proof.
  intros Hin Hm. induction l as [|[n b'] l IH]; simpl in *; [tauto|].
  destruct Hin as [Hin|Hin].
  - inversion Hin; subst. unfold matchesSel. simpl. rewrite Hm. left. reflexivity.
  - destruct (matchesSel sel (n, b')); [right|]; auto.
Qed.

Lemma elems_appendChildrenT_new p ns t x :
  In p (ids t) -> In x (flat_map elems ns) -> In x (elems (appendChildrenT p ns t)).
Proof.
  induction t as [e cs IH| |] using node_ind'; try (simpl; tauto).
  rewrite appendChildrenT_Element. simpl. rewrite flat_map_app.
  intros [H|H] Hx.
  - subst. rewrite Nat.eqb_refl. right. apply in_or_app. right. assumption.
  - right. apply in_or_app. left.
    apply in_flat_map in H. destruct H as [c [Hc Hp]].
    apply in_flat_map. exists (appendChildrenT p ns c). split.
    + apply in_map. assumption.
    + rewrite Forall_forall in IH. auto.
Qed.

(** * The render loop, line by line *)

Lemma step_afterReset l c :
  step l c =
  match l with
  | Typed t => handleTyped t
  | Texted t => handleText t
  | Meta _ => ret tt
  end (afterReset l c).
Proof.
  unfold step, afterReset, bind, when, reset, modify, ret.
  destruct (lineReset l); reflexivity.
Qed.

Lemma afterReset_dom l c : dom (afterReset l c) = dom c.
Proof. unfold afterReset. destruct (lineReset l); reflexivity. Qed.

Lemma afterReset_dest l c : dest (afterReset l c) = dest c.
Proof. unfold afterReset. destruct (lineReset l); reflexivity. Qed.

Lemma afterReset_sect l c : sect (afterReset l c) = sect c.
Proof. unfold afterReset. destruct (lineReset l); reflexivity. Qed.

Lemma afterReset_blob l c : blob (afterReset l c) = blob c.
Proof. unfold afterReset. destruct (lineReset l); reflexivity. Qed.

Lemma afterReset_noteIndex l c : noteIndex (afterReset l c) = noteIndex c.
Proof. unfold afterReset. destruct (lineReset l); reflexivity. Qed.

Lemma destEl_run c r d1 :
  destElD (dest c) (sect c) (dom c) = Return r d1 ->
  destEl c = Return r (setDom d1 c).
Proof. intros H. unfold destEl, bind, gets, liftD. rewrite H. reflexivity. Qed.

Lemma createAppend_run p tg d :
  hasNode p (doc d) = true ->
  createAppend p tg d =
  Return (nextId d) (mkDom (appendChildT p (leaf (nextId d) tg) (doc d)) (S (nextId d))).
Proof. intros H. unfold createAppend. rewrite H. reflexivity. Qed.

(** ** The image handler *)

Section Image.
Variables (c : ctx) (l : TypeLine) (d : ref) (d1 : domState).
Hypothesis Hkind : lineType l = T_IMAGE.
Hypothesis Hsrc : truthy (content l) = false.
Hypothesis Hfresh : fresh (dom c).
Hypothesis Hdest : destElD (dest c) (sect c) (dom c) = Return d d1.

Let img : ref := nextId d1.
Let d2 : domState := mkDom (appendChildT d (leaf img "img") (doc d1)) (S img).

Lemma image_appended :
getNode img (doc d2) = Some (leaf img "img") /\
(exists e cs, getNode d (doc d2) = Some (Element e (cs ++ [leaf img "img"]))) /\
doc d2 <> doc (dom c).
Proof.
destruct (destElD_spec _ _ _ _ _ Hdest) as [Hd [Hle Hf]].
specialize (Hf Hfresh). pose proof (fresh_lt _ _ Hf Hd) as Hlt.
unfold d2. simpl. split; [|split].
- rewrite getNode_appendChildT_new by (apply fresh_nextId; assumption).
rewrite Hd. unfold img. simpl. rewrite Nat.eqb_refl. reflexivity.
- rewrite getNode_appendChildT_old.
+ unfold hasNode in Hd. destruct (getNode d (doc d1)) as [m|] eqn:Hm; [|discriminate].
destruct (getNode_shape _ _ _ Hm) as [e [cs [-> He]]].
simpl. rewrite appendChildT_Element. rewrite He, Nat.eqb_refl. eauto.
+ simpl. destruct (Nat.eqb_spec img d); [unfold img in *; lia | reflexivity].
- intros Heq.
assert (In img (ids (doc (dom c)))) as Hin.
{ rewrite <- Heq. apply ids_appendChildT_new; [apply hasNode_In; assumption|].
simpl. auto. }
unfold fresh in Hfresh. rewrite Forall_forall in Hfresh.
apply Hfresh in Hin. unfold img in Hin. lia.
Qed.

Lemma image_no_blob :
blob c = None ->
step (Typed l) c =
Throw (FLTError "No image content available") (setDom d2 (afterReset (Typed l) c)).
Proof.
intros Hb. destruct (destElD_spec _ _ _ _ _ Hdest) as [Hd _].
rewrite step_afterReset. unfold handleTyped. rewrite Hkind.
unfold handleImage, bind.
rewrite (destEl_run _ d d1)
by (rewrite afterReset_dest, afterReset_sect, afterReset_dom; assumption).
unfold liftD. simpl. rewrite (createAppend_run _ _ _ Hd). simpl.
rewrite Hsrc. unfold bind, gets. simpl. rewrite afterReset_blob, Hb. reflexivity.
Qed.

Lemma mutate_run i f dd :
hasNode i (doc dd) = true -> mutate i f dd = Return tt (mkDom (f (doc dd)) (nextId dd)).
Proof. intros H. unfold mutate. rewrite H. reflexivity. Qed.

Lemma image_with_blob ty da :
blob c = Some (ty, da) ->
exists c' e,
step (Typed l) c = Return tt c' /\
getNode img (doc (dom c')) = Some (Element e []) /\
tag e = "img" /\
getAttr "src" (attrs e) = Some ("data:" ++ ty ++ ";base64," ++ da)%string.
Proof.
intros Hb. destruct (destElD_spec _ _ _ _ _ Hdest) as [Hd [_ Hf]].
specialize (Hf Hfresh).
destruct image_appended as [Himg _].
assert (hasNode img (doc d2) = true) as Hh by (unfold hasNode; rewrite Himg; reflexivity).
rewrite step_afterReset. unfold handleTyped. rewrite Hkind.
unfold handleImage, bind.
rewrite (destEl_run _ d d1)
by (rewrite afterReset_dest, afterReset_sect, afterReset_dom; assumption).
unfold liftD. simpl. rewrite (createAppend_run _ _ _ Hd). simpl.
rewrite Hsrc. unfold bind, gets. simpl. rewrite afterReset_blob, Hb.
unfold setAttribute. fold img. fold d2.
rewrite (mutate_run _ _ _ Hh). simpl.
unfold applyHint, bind, gets. simpl.
assert (forall uri, getNode img (setAttributeT img "src" uri
                             (appendChildT d (leaf img "img") (doc d1))) =
  Some (Element (withAttr "src" uri (newElem img "img")) [])) as H3.
{ intros uri. change (appendChildT d (leaf img "img") (doc d1)) with (doc d2).
unfold setAttributeT. rewrite getNode_updElem by reflexivity. rewrite Himg.
simpl. unfold leaf. rewrite updElem_Element. simpl. rewrite Nat.eqb_refl. reflexivity. }
destruct (truthy (hint (afterReset (Typed l) c))) eqn:Ht.
- unfold liftD, setAttribute. simpl.
rewrite mutate_run by (unfold hasNode; cbn [doc]; rewrite H3; reflexivity). simpl.
eexists. eexists. split; [reflexivity|]. simpl.
unfold setAttributeT at 1. rewrite getNode_updElem by reflexivity. rewrite H3.
simpl. rewrite updElem_Element. simpl. rewrite Nat.eqb_refl.
split; [reflexivity|]. split; reflexivity.
- eexists. eexists. split; [reflexivity|]. simpl. 
rewrite H3.
split; [reflexivity|]. split; reflexivity.
Qed.
End Image.

(** C10. When an IMAGE line with no inline source and no pending blob
    raises the fatal error, an [img] element without attributes (so
    without [src]) is already the last child of the resolved
    destination element in the state carried by the exception, and the
    document differs from the one the line started with. *)
Theorem image_error_mutates_tree (c : ctx) (l : TypeLine) (d : ref) (d1 : domState) :
  lineType l = T_IMAGE -> truthy (content l) = false -> blob c = None ->
  fresh (dom c) ->
  destElD (dest c) (sect c) (dom c) = Return d d1 ->
  exists c',
    step (Typed l) c = Throw (FLTError "No image content available") c' /\
    getNode (nextId d1) (doc (dom c')) = Some (leaf (nextId d1) "img") /\
    (exists e cs,
        getNode d (doc (dom c')) = Some (Element e (cs ++ [leaf (nextId d1) "img"]))) /\
    doc (dom c') <> doc (dom c).
Proof.
  intros Hk Hs Hb Hf Hd. eexists. split.
  - apply (image_no_blob c l d d1 Hk Hs Hd Hb).
  - simpl. apply (image_appended c d d1 Hf Hd).
Qed.

Lemma image_error_mutates_tree_witness :
  exists c',
    step (IMAGE None) startCtx = Throw (FLTError "No image content available") c' /\
    doc (dom c') <> doc (dom startCtx).
Proof.
  edestruct (image_error_mutates_tree startCtx (typed T_IMAGE)) as [c' [H1 [_ [_ H2]]]];
    [reflexivity | reflexivity | reflexivity | apply freshb_spec; reflexivity
    | reflexivity | ].
  exists c'. split; [exact H1 | exact H2].
Defined.

Lemma renderLines_cons l ls c :
  renderLines (l :: ls) c =
  match step l c with
  | Return _ c' => renderLines ls c'
  | Throw e c' => Throw e c'
  end.
Proof. reflexivity. Qed.

(** C7. An IMAGE line with no inline source, at a destination that
    resolves: without a pending blob the line, and with it the whole
    loop, ends in the fatal error "No image content available"; with a
    pending blob the line returns and the new [img] element carries
    the data URI of the blob as its [src]. *)
Theorem image_without_inline_content (c : ctx) (l : TypeLine) (d : ref) (d1 : domState) :
  lineType l = T_IMAGE -> truthy (content l) = false ->
  fresh (dom c) ->
  destElD (dest c) (sect c) (dom c) = Return d d1 ->
  match blob c with
  | None =>
      exists c', forall rest,
        renderLines (Typed l :: rest) c = Throw (FLTError "No image content available") c'
  | Some (ty, da) =>
      exists c' e,
        step (Typed l) c = Return tt c' /\
        getNode (nextId d1) (doc (dom c')) = Some (Element e []) /\
        tag e = "img" /\
        getAttr "src" (attrs e) = Some ("data:" ++ ty ++ ";base64," ++ da)%string
  end.
Proof.
  intros Hk Hs Hf Hd. destruct (blob c) as [[ty da]|] eqn:Hb.
  - apply (image_with_blob c l d d1 Hk Hs Hf Hd ty da Hb).
  - eexists. intros rest. rewrite renderLines_cons.
    rewrite (image_no_blob c l d d1 Hk Hs Hd Hb). reflexivity.
Qed.

Lemma image_without_inline_content_witness :
  (exists c', forall rest,
      renderLines (IMAGE None :: rest) startCtx =
      Throw (FLTError "No image content available") c') /\
  (exists c' e,
      step (IMAGE None) (setBlob (Some ("image/png", "QUJD")) startCtx) = Return tt c' /\
      getAttr "src" (attrs e) = Some "data:image/png;base64,QUJD").
Proof.
  split.
  - eapply (image_without_inline_content startCtx (typed T_IMAGE));
      [reflexivity | reflexivity | apply freshb_spec; reflexivity | reflexivity].
  - edestruct (image_without_inline_content
                 (setBlob (Some ("image/png", "QUJD")) startCtx) (typed T_IMAGE))
      as [c' [e [H1 [_ [_ H2]]]]];
      [reflexivity | reflexivity | apply freshb_spec; reflexivity | reflexivity |].
    exists c', e. split; [exact H1 | exact H2].
Defined.

(** * Components of the context a computation leaves alone *)

Section Keeps.
Context {S X : Type} (f : S -> X).

Lemma keeps_ret {A} (a : A) : keeps f (ret a).
Proof. intros s. reflexivity. Qed.

Lemma keeps_throw {A} e : keeps f (@throw S A e).
Proof. intros s. reflexivity. Qed.

Lemma keeps_gets {A} (g : S -> A) : keeps f (gets g).
Proof. intros s. reflexivity. Qed.

Lemma keeps_modify (g : S -> S) : (forall s, f (g s) = f s) -> keeps f (modify g).
Proof. intros H s. simpl. apply H. Qed.

Lemma keeps_bind {A B} (m : SE S A) (k : A -> SE S B) :
keeps f m -> (forall a, keeps f (k a)) -> keeps f (bind m k).
Proof.
intros Hm Hk s. unfold bind. specialize (Hm s).
destruct (m s) as [a s'|e s']; simpl in *.
- rewrite Hk. exact Hm.
- exact Hm.
Qed.

Lemma keeps_when b (m : SE S unit) : keeps f m -> keeps f (when b m).
Proof. intros H. destruct b; [exact H | apply keeps_ret]. Qed.

Lemma keeps_forEach {A} (l : list A) (k : A -> SE S unit) :
(forall a, keeps f (k a)) -> keeps f (forEach l k).
Proof.
intros H. induction l as [|a l IH]; simpl; [apply keeps_ret|].
apply keeps_bind; [apply H | intros _; exact IH].
Qed.
End Keeps.

Lemma keeps_liftD {A X} (f : ctx -> X) (m : D A) :
  (forall d c, f (setDom d c) = f c) -> keeps f (liftD m).
Proof.
  intros H c. unfold liftD. destruct (m (dom c)); simpl; apply H.
Qed.

Ltac keeps_step :=
  match goal with
  | |- keeps _ (bind _ _) => apply keeps_bind; [| intros ?]
  | |- keeps _ (ret _) => apply keeps_ret
  | |- keeps _ (throw _) => apply keeps_throw
  | |- keeps _ (gets _) => apply keeps_gets
  | |- keeps _ (liftD _) => apply keeps_liftD; intros; reflexivity
  | |- keeps _ (modify _) => apply keeps_modify; intros; reflexivity
  | |- keeps _ (when _ _) => apply keeps_when
  | |- keeps _ (match ?x with _ => _ end) => destruct x
  | |- keeps _ (if ?x then _ else _) => destruct x
  end.

Ltac keeps_tac := repeat keeps_step.

Lemma keeps_emitFragments {X} (f : ctx -> X) out first rest :
  (forall d c, f (setDom d c) = f c) -> keeps f (emitFragments out first rest).
Proof.
  intros H. revert first. induction rest as [|r rest IH]; intros first; simpl.
  - apply keeps_bind; [apply keeps_liftD; exact H | intros; apply keeps_ret].
  - apply keeps_bind; [apply keeps_liftD; exact H | intros _].
    apply keeps_bind; [apply keeps_liftD; exact H | intros _]. apply IH.
Qed.

(** ** The pending blob *)

Lemma handleText_keeps_blob l : keeps blob (handleText l).
Proof.
  unfold handleText, textOut, destEl, wrapIf, wrapSpan.
  apply keeps_bind; [keeps_tac|].
  intros out. destruct (split (text l)); apply keeps_emitFragments; reflexivity.
Qed.

Lemma handleTyped_keeps_blob l :
  lineType l <> T_BLOB -> keeps blob (handleTyped l).
Proof.
  intros H. unfold handleTyped.
  destruct (lineType l); try congruence;
    unfold handleSection, handleParagraph, handleHint, handleLink, handleAnchor,
      handleImage, handleTable, handleDestination, enterNote, enterCell, enterHead,
      cellCountIsMultiple, applyAlign, applyHint, destEl;
    keeps_tac.
Qed.

Lemma step_keeps_blob l : isBlobLine l = false -> keeps blob (step l).
Proof.
  intros H. unfold step. apply keeps_bind.
  - apply keeps_when. unfold reset. keeps_tac.
  - intros _. destruct l as [t|t|r].
    + apply handleTyped_keeps_blob. simpl in H. destruct (lineType t); congruence.
    + apply handleText_keeps_blob.
    + apply keeps_ret.
Qed.

Lemma finalState_renderLines_cons l ls c :
  finalState (renderLines (l :: ls) c) =
  match step l c with
  | Return _ c' => finalState (renderLines ls c')
  | Throw _ c' => c'
  end.
Proof. rewrite renderLines_cons. destruct (step l c); reflexivity. Qed.

(** C2 (as amended). The pending blob is not single-use: a sequence of
    lines without a BLOB line, IMAGE lines included, leaves the [blob]
    field as it found it, whether the sequence returns or throws. *)
Theorem blob_persists (ls : list line) (c : ctx) :
  forallb (fun l => negb (isBlobLine l)) ls = true ->
  blob (finalState (renderLines ls c)) = blob c.
Proof.
  revert c. induction ls as [|l ls IH]; intros c H; [reflexivity|].
  simpl in H. apply andb_true_iff in H. destruct H as [Hl Hls].
  apply negb_true_iff in Hl.
  rewrite finalState_renderLines_cons.
  pose proof (step_keeps_blob l Hl c) as Hk.
  destruct (step l c) as [[] c'|e c']; simpl in Hk.
  - rewrite (IH c' Hls). exact Hk.
  - exact Hk.
Qed.

Lemma blob_persists_witness :
  blob (finalState (renderLines [IMAGE None; TEXT "x"; IMAGE None]
                      (setBlob (Some ("image/png", "QUJD")) startCtx)))
  = Some ("image/png", "QUJD").
Proof.
  rewrite (blob_persists [IMAGE None; TEXT "x"; IMAGE None]); reflexivity.
Defined.

(** C2 (as stated) fails: after [BLOB; IMAGE] the blob is still
    pending, and a second IMAGE line reuses the payload. *)
Lemma blob_not_cleared_counterexample :
  exists c1 c2,
    renderLines [BLOB "image/png" "QUJD"; IMAGE None] startCtx = Return tt c1 /\
    blob c1 <> None /\
    renderLines [IMAGE None] c1 = Return tt c2 /\
    imageSources (doc (dom c2)) =
      [Some "data:image/png;base64,QUJD"; Some "data:image/png;base64,QUJD"].
Proof.
  eexists. eexists. split; [vm_compute; reflexivity|].
  split; [discriminate|]. split; vm_compute; reflexivity.
Qed.

(** ** Entering a cell of a table declared with zero columns *)

Section ZeroColumns.
Variables (c : ctx) (l : TypeLine) (t : elem).
Hypothesis Hkind : lineType l = T_DESTINATION.
Hypothesis Hdst : destinationOf l = D_CELL.
Hypothesis Htable :
querySelector (sect c) [SelLastOfType "table"] (dom c) = Return (Some t) (dom c).
Hypothesis Hzero : fltColumns t = Some 0%Z.

Let c1 : ctx := setLink None (afterReset (Typed l) c).

Lemma c1_dom : dom c1 = dom c.
Proof. unfold c1. simpl. apply afterReset_dom. Qed.

Lemma c1_sect : sect c1 = sect c.
Proof. unfold c1. simpl. apply afterReset_sect. Qed.

Lemma enterCell_start :
step (Typed l) c =
bind (enterCell l) (fun _ => modify (setDest (destinationOf l))) c1.
Proof.
rewrite step_afterReset. unfold handleTyped. rewrite Hkind.
unfold handleDestination. rewrite Hdst. reflexivity.
Qed.

Lemma table_in_document : exists T, getNode (eid t) (doc (dom c)) = Some T.
Proof.
unfold querySelector, withNode in Htable.
destruct (getNode (sect c) (doc (dom c))) as [S|] eqn:HS; [|discriminate].
unfold ret in Htable. inversion Htable as [Hq].
assert (In t (querySelectorAllN [SelLastOfType "table"] S)) as Hin.
{ destruct (querySelectorAllN [SelLastOfType "table"] S); simpl in Hq;
[discriminate | inversion Hq; subst; simpl; auto]. }
apply querySelectorAllN_ids in Hin.
pose proof (getNode_ids _ _ _ _ HS Hin) as Hin'.
destruct (getNode (eid t) (doc (dom c))) eqn:E; [eauto|].
apply getNode_None in E. contradiction.
Qed.

Lemma zero_columns_first_cell :
querySelector (eid t) [SelLastOfType "tr"] (dom c) = Return None (dom c) ->
exists c',
step (Typed l) c = Return tt c' /\
dest c' = D_CELL /\
doc (dom c') =
appendChildT (nextId (dom c))
(leaf (S (nextId (dom c))) (if header l then "th" else "td"))
(appendChildT (eid t) (leaf (nextId (dom c)) "tr") (doc (dom c))).
Proof.
intros Hrow. destruct table_in_document as [T HT].
assert (hasNode (eid t) (doc (dom c)) = true) as Hh
by (unfold hasNode; rewrite HT; reflexivity).
rewrite enterCell_start. unfold bind at 1. unfold enterCell, bind, gets, liftD.
rewrite c1_sect, c1_dom, Htable.
unfold querySelectorAll, withNode. cbn [dom setDom]. rewrite HT.
unfold ret at 1. cbn [dom setDom]. rewrite Hrow. cbn [dom setDom].
rewrite (createAppend_run _ _ _ Hh). cbn [dom setDom].
rewrite createAppend_run by (apply hasNode_appendChildT_new; assumption).
eexists. split; [reflexivity|]. split; [simpl; exact Hdst | reflexivity].
Qed.

Lemma zero_columns_later_cell r :
querySelector (eid t) [SelLastOfType "tr"] (dom c) = Return (Some r) (dom c) ->
step (Typed l) c = Throw (RangeError "Division by zero") c1.
Proof.
intros Hrow. destruct table_in_document as [T HT].
rewrite enterCell_start. unfold bind at 1. unfold enterCell, bind, gets, liftD.
rewrite c1_sect, c1_dom, Htable.
unfold querySelectorAll, withNode. cbn [dom setDom]. rewrite HT.
unfold ret at 1. cbn [dom setDom]. rewrite Hrow. cbn [dom setDom].
rewrite Hzero. simpl. f_equal. rewrite <- c1_dom. destruct c1; reflexivity.
Qed.
End ZeroColumns.

(** C3 (as amended). A table declared with column count 0 is not
    rejected.  A CELL directive that finds the table without a row
    returns, having opened a row and appended a cell without computing
    the remainder; one that finds a row computes the BigInt remainder
    by zero and ends in the runtime's RangeError, not in the
    renderer's FLTError. *)
Theorem zero_columns_not_rejected (c : ctx) (l : TypeLine) (t : elem) :
  lineType l = T_DESTINATION -> destinationOf l = D_CELL ->
  querySelector (sect c) [SelLastOfType "table"] (dom c) = Return (Some t) (dom c) ->
  fltColumns t = Some 0%Z ->
  (querySelector (eid t) [SelLastOfType "tr"] (dom c) = Return None (dom c) ->
   exists c',
     step (Typed l) c = Return tt c' /\
     dest c' = D_CELL /\
     doc (dom c') =
       appendChildT (nextId (dom c))
         (leaf (S (nextId (dom c))) (if header l then "th" else "td"))
         (appendChildT (eid t) (leaf (nextId (dom c)) "tr") (doc (dom c)))) /\
  (forall r,
      querySelector (eid t) [SelLastOfType "tr"] (dom c) = Return (Some r) (dom c) ->
      step (Typed l) c =
      Throw (RangeError "Division by zero") (setLink None (afterReset (Typed l) c))).
Proof.
  intros Hk Hd Ht Hz. split.
  - apply zero_columns_first_cell; assumption.
  - intros r. apply (zero_columns_later_cell c l t Hk Hd Ht Hz r).
Qed.

(** C3 (as stated) fails: the first CELL directive after [TABLE 0] is
    accepted, and the second ends in a RangeError from the division by
    zero. *)
Lemma zero_columns_counterexample :
  exists c1 c2,
    renderLines [TABLE 0; DESTINATION D_CELL false] startCtx = Return tt c1 /\
    step (DESTINATION D_CELL false) c1 = Throw (RangeError "Division by zero") c2.
Proof.
  eexists. eexists. split; vm_compute; reflexivity.
Qed.

Lemma zero_columns_not_rejected_witness :
  (exists c',
      step (DESTINATION D_CELL false) (finalState (renderLines [TABLE 0] startCtx))
      = Return tt c' /\ dest c' = D_CELL) /\
  (exists c',
      step (DESTINATION D_CELL false)
        (finalState (renderLines [TABLE 0; DESTINATION D_CELL true] startCtx))
      = Throw (RangeError "Division by zero") c').
Proof.
  split.
  - edestruct (zero_columns_not_rejected
                 (finalState (renderLines [TABLE 0] startCtx))
                 (mkTypeLine T_DESTINATION None 0 None false D_CELL false "" "" false))
      as [H _]; [reflexivity | reflexivity | vm_compute; reflexivity | reflexivity |].
    destruct H as [c' [H1 [H2 _]]]; [vm_compute; reflexivity|].
    exists c'. split; [exact H1 | exact H2].
  - edestruct (zero_columns_not_rejected
                 (finalState (renderLines [TABLE 0; DESTINATION D_CELL true] startCtx))
                 (mkTypeLine T_DESTINATION None 0 None false D_CELL false "" "" false))
      as [_ H]; [reflexivity | reflexivity | vm_compute; reflexivity | reflexivity |].
    eexists. eapply H. vm_compute. reflexivity.
Defined.

(** * The metadata applier *)

(** A term whose lookup returns the empty list: a no-merge term leaves
    the document as it is; a merge term appends to the head a [meta]
    element whose content is the empty string. *)
Lemma applyTerm_absent (this : Document) (t : termEntry) (d : domState) :
  getDC this (dcTerm t) = [] ->
  hasNode headId (doc d) = true ->
  fresh d ->
  if merge t
  then exists d',
      applyTerm this t d = Return tt d' /\
      getNode (nextId d) (doc d') =
        Some (Element (mkElem (nextId d) "meta"
                         [("property", ("og:" ++ ogName t)%string); ("content", "")]
                         [] None) [])
  else applyTerm this t d = Return tt d.
Proof.
  intros Hget Hhead Hf. unfold applyTerm, truthyArray. rewrite Hget. simpl.
  destruct (merge t); [|reflexivity].
  simpl. unfold og, bind. rewrite (createAppend_run _ _ _ Hhead).
  assert (getNode (nextId d) (appendChildT headId (leaf (nextId d) "meta") (doc d)) =
          Some (leaf (nextId d) "meta")) as H1.
  { rewrite getNode_appendChildT_new by (apply fresh_nextId; assumption).
    rewrite Hhead. simpl. rewrite Nat.eqb_refl. reflexivity. }
  unfold setAttribute.
  rewrite mutate_run by (unfold hasNode; cbn [doc]; rewrite H1; reflexivity).
  assert (forall k v, getNode (nextId d)
            (setAttributeT (nextId d) k v
               (appendChildT headId (leaf (nextId d) "meta") (doc d))) =
          Some (Element (withAttr k v (newElem (nextId d) "meta")) [])) as H2.
  { intros k v. unfold setAttributeT. rewrite getNode_updElem by reflexivity.
    rewrite H1. simpl. unfold leaf. rewrite updElem_Element. simpl.
    rewrite Nat.eqb_refl. reflexivity. }
  cbn [doc nextId].
  rewrite mutate_run by (unfold hasNode; cbn [doc]; rewrite H2; reflexivity).
  eexists. split; [reflexivity|]. cbn [doc].
  unfold setAttributeT at 1. rewrite getNode_updElem by reflexivity. rewrite H2.
  simpl. rewrite updElem_Element. simpl. rewrite Nat.eqb_refl. reflexivity.
Qed.

(** C4.  With metadata enabled and every term absent, the head of the
    rendered document holds, besides [og:type], an [og:title] and an
    [og:description] tag with empty content: the merge terms do emit a
    tag; the no-merge terms emit none. *)
Theorem absent_merge_terms_emit_empty_tags :
  exists n d,
    toHTMLDOM (mkDocument true (fun _ => []) []) noOptions = Return n d /\
    metaProperties n =
      [("og:type", Some "article"); ("og:title", Some ""); ("og:description", Some "")].
Proof.
  eexists. eexists. split; vm_compute; reflexivity.
Qed.

(** * The inline formatter *)

Lemma setDom_self c : setDom (mkDom (doc (dom c)) (nextId (dom c))) c = c.
Proof. destruct c as [[t n] ? ? ? ? ? ?]. reflexivity. Qed.

Lemma setDom_setDom d1 d2 c : setDom d2 (setDom d1 c) = setDom d2 c.
Proof. reflexivity. Qed.

Lemma wrapsAs_nil : wrapsAs (fun out => ret out) [].
Proof.
  intros out c _ _. simpl. rewrite appendChildrenT_nil, Nat.add_0_r, setDom_self.
  reflexivity.
Qed.

Lemma innermost_hasNode ws out t i :
  hasNode out t = true ->
  hasNode (innermost ws out i) (appendChildrenT out (nest ws i []) t) = true.
Proof.
  intros H. apply hasNode_In. apply hasNode_In in H.
  destruct ws as [|w ws]; simpl innermost.
  - apply ids_appendChildrenT_old. assumption.
  - apply ids_appendChildrenT_new; [assumption|]. apply ids_nest. simpl. lia.
Qed.

Lemma innermost_app ws1 ws2 out i :
  innermost (ws1 ++ ws2) out i =
  innermost ws2 (innermost ws1 out i) (i + List.length ws1).
Proof.
  destruct ws1 as [|w1 ws1]; destruct ws2 as [|w2 ws2]; simpl;
    rewrite ?app_nil_r, ?length_app; simpl; try reflexivity; lia.
Qed.

Lemma nest_fill_under ws out i X t :
  ~ In (innermost ws out i) (ids t) \/ ws = [] ->
  appendChildrenT (innermost ws out i) X (appendChildrenT out (nest ws i []) t) =
  appendChildrenT out (nest ws i X) t.
Proof.
  intros H. destruct ws as [|w ws].
  - simpl innermost. simpl nest. rewrite appendChildrenT_nil. reflexivity.
  - destruct H as [H|H]; [|discriminate].
    unfold appendChildrenT at 1. rewrite updateNode_append_comm by assumption.
    f_equal. apply nest_fill. discriminate.
Qed.

Lemma nest_under ws1 ws2 out i t :
  ~ In (innermost ws1 out i) (ids t) \/ ws1 = [] ->
  appendChildrenT (innermost ws1 out i) (nest ws2 (i + List.length ws1) [])
    (appendChildrenT out (nest ws1 i []) t) =
  appendChildrenT out (nest (ws1 ++ ws2) i []) t.
Proof.
  intros H. rewrite nest_app. apply nest_fill_under. assumption.
Qed.

Lemma wrapsAs_comp m1 m2 ws1 ws2 :
  wrapsAs m1 ws1 -> wrapsAs m2 ws2 ->
  wrapsAs (fun out => bind (m1 out) m2) (ws1 ++ ws2).
Proof.
  intros H1 H2 out c Hf Hh. unfold bind. rewrite (H1 out c Hf Hh).
  rewrite H2.
  - cbn [dom setDom doc nextId]. rewrite nest_under.
    + rewrite <- innermost_app, length_app, Nat.add_assoc. reflexivity.
    + destruct ws1 as [|w1 ws1]; [right; reflexivity | left].
      intros Hin. unfold fresh in Hf. rewrite Forall_forall in Hf.
      apply Hf in Hin. simpl in Hin. lia.
  - cbn [dom setDom]. apply fresh_appendChildren; [assumption|].
    intros j Hj. apply ids_nest in Hj. lia.
  - cbn [dom setDom doc]. apply innermost_hasNode. assumption.
Qed.

Lemma wrapsAs_wrapIf flag tg :
  wrapsAs (wrapIf flag tg) (if flag then [(tg, [])] else []).
Proof.
  destruct flag; [|apply wrapsAs_nil].
  intros out c Hf Hh. unfold wrapIf, liftD. rewrite (createAppend_run _ _ _ Hh).
  cbn [innermost List.length].
  replace (nextId (dom c) + 1 - 1) with (nextId (dom c)) by lia.
  replace (nextId (dom c) + 1) with (S (nextId (dom c))) by lia.
  reflexivity.
Qed.

(** A valid token is added; the classes the renderer itself adds are
    valid tokens. *)
Lemma classListAdd_token i c :
  tokenError c = None -> classListAdd i c = mutate i (classListAddT i c).
Proof. intros H. unfold classListAdd. rewrite H. reflexivity. Qed.

Lemma alignClasses_token al : tokenError (alignClasses al) = None.
Proof. destruct al; reflexivity. Qed.

(** Adding classes changes neither the id nor the tag of an element. *)
Lemma eid_withClasses cs e :
  eid (fold_left (fun e0 c => withClass c e0) cs e) = eid e.
Proof. revert e. induction cs as [|c cs IH]; intros e; simpl; [reflexivity|]. rewrite IH. reflexivity. Qed.

Lemma tag_withClasses cs e :
  tag (fold_left (fun e0 c => withClass c e0) cs e) = tag e.
Proof. revert e. induction cs as [|c cs IH]; intros e; simpl; [reflexivity|]. rewrite IH. reflexivity. Qed.

(** The class additions on a new element move into the element. *)
Lemma classListAdd_new sp c0 out e t :
  tokenError c0 = None ->
  eid e = sp -> ~ In sp (ids t) -> hasNode out t = true ->
  classListAdd sp c0 (mkDom (appendChildrenT out [Element e []] t) (S sp)) =
  Return tt (mkDom (appendChildrenT out [Element (withClass c0 e) []] t) (S sp)).
Proof.
  intros Htok He Hs Hout. rewrite (classListAdd_token _ _ Htok). rewrite mutate_run.
  - cbn [doc nextId]. unfold classListAddT, updElem.
    rewrite updateNode_append_comm by assumption.
    simpl. rewrite He, Nat.eqb_refl. reflexivity.
  - cbn [doc]. apply hasNode_In. apply ids_appendChildrenT_new.
    + apply hasNode_In. assumption.
    + simpl. auto.
Qed.

Lemma wrapsAs_wrapSpan l :
  wrapsAs (wrapSpan l)
    (if underline l || strikeout l || mono l
     then [("span", ((if underline l then ["underline"] else []) ++
                     (if strikeout l then ["strikeout"] else []) ++
                     (if mono l then ["monospace"] else []))%list)]
     else []).
Proof.
  unfold wrapSpan.
  destruct (underline l || strikeout l || mono l) eqn:E; [|apply wrapsAs_nil].
  intros out c Hf Hh. unfold bind, liftD. rewrite (createAppend_run _ _ _ Hh).
  cbn [dom setDom]. rewrite appendChildT_children.
  assert (~ In (nextId (dom c)) (ids (doc (dom c)))) as Hn.
  { intros Hin. unfold fresh in Hf. rewrite Forall_forall in Hf. apply Hf in Hin. lia. }
  unfold leaf.
  destruct (underline l), (strikeout l), (mono l); try discriminate E;
    unfold when, ret; cbn [dom setDom];
    repeat (rewrite classListAdd_new by (auto; reflexivity); cbn [dom setDom]);
    unfold ret; cbn [innermost List.length];
    replace (nextId (dom c) + 1 - 1) with (nextId (dom c)) by lia;
    replace (nextId (dom c) + 1) with (S (nextId (dom c))) by lia;
    reflexivity.
Qed.

Lemma wrapsAs_textLine l :
  wrapsAs (fun out =>
             out <- wrapIf (italic l) "em" out ;;
             out <- wrapIf (bold l) "strong" out ;;
             out <- wrapSpan l out ;;
             out <- wrapIf (supertext l) "sup" out ;;
             wrapIf (subtext l) "sub" out)
          (wrappers l).
Proof.
  unfold wrappers.
  apply wrapsAs_comp; [apply wrapsAs_wrapIf|].
  apply wrapsAs_comp; [apply wrapsAs_wrapIf|].
  apply wrapsAs_comp; [apply wrapsAs_wrapSpan|].
  apply wrapsAs_comp; apply wrapsAs_wrapIf.
Qed.

(** The fragments of a text line, appended to [out]. *)
Lemma emitFragments_run rest : forall first out c,
  hasNode out (doc (dom c)) = true ->
  out < nextId (dom c) ->
  emitFragments out first rest c =
  Return tt
    (setDom (mkDom (appendChildrenT out (fragmentNodes first rest (nextId (dom c)))
                      (doc (dom c)))
                   (nextId (dom c) + List.length rest)) c).
Proof.
  induction rest as [|f r IH]; intros first out c Hh Hlt.
  - simpl. unfold bind, liftD, appendText. rewrite (mutate_run _ _ _ Hh).
    rewrite Nat.add_0_r. reflexivity.
  - cbn [emitFragments]. unfold bind at 1. unfold liftD at 1. unfold appendText.
    rewrite (mutate_run _ _ _ Hh). unfold bind at 1. unfold liftD at 1.
    cbn [dom setDom].
    rewrite createAppend_run
      by (cbn [doc]; apply hasNode_appendChildT_old; assumption).
    cbn [doc nextId]. rewrite IH.
    + cbn [dom setDom doc nextId]. rewrite !appendChildT_children.
      rewrite (appendChildrenT_twice out [TextNode first]) by (simpl; tauto).
      rewrite appendChildrenT_twice by (simpl; lia).
      simpl. replace (S (nextId (dom c) + List.length r))
        with (nextId (dom c) + S (List.length r)) by lia.
      reflexivity.
    + cbn [dom setDom doc]. apply hasNode_appendChildT_old.
      apply hasNode_appendChildT_old. assumption.
    + cbn [dom setDom nextId]. lia.
Qed.

Lemma insertionPoint_hasNode lk d t :
  hasNode d t = true -> hasNode (insertionPoint lk d t) t = true.
Proof.
  intros H. unfold insertionPoint. destruct lk as [a|]; [|assumption].
  destruct (getNode d t) as [n|] eqn:Hn; [|assumption].
  destruct (hasNode a n) eqn:Ha; [|assumption].
  unfold hasNode in Ha. destruct (getNode a n) eqn:Hg; [|discriminate].
  eapply getNode_trans; eassumption.
Qed.

(** The net effect of a text line at a destination that resolves. *)
Lemma text_line_run (c : ctx) (l : TextLine) (d : ref) (d1 : domState) :
  fresh (dom c) ->
  destElD (dest c) (sect c) (dom c) = Return d d1 ->
  step (Texted l) c =
  Return tt
    (setDom
       (mkDom
          (appendChildrenT
             (insertionPoint (link (afterReset (Texted l) c)) d (doc d1))
             (nest (wrappers l) (nextId d1)
                (fragmentsOf (text l) (nextId d1 + List.length (wrappers l))))
             (doc d1))
          (nextId d1 + List.length (wrappers l) + breakCount (text l)))
       (afterReset (Texted l) c)).
Proof.
  intros Hf Hd. destruct (destElD_spec _ _ _ _ _ Hd) as [Hh [_ Hf1]].
  specialize (Hf1 Hf).
  set (c0 := afterReset (Texted l) c).
  set (out := insertionPoint (link c0) d (doc d1)).
  assert (hasNode out (doc d1) = true) as Hout
      by (apply insertionPoint_hasNode; assumption).
  rewrite step_afterReset. fold c0. unfold handleText, textOut.
  unfold bind at 1. unfold bind at 1.
  rewrite (destEl_run c0 d d1)
    by (unfold c0; rewrite afterReset_dest, afterReset_sect, afterReset_dom; assumption).
  unfold bind at 1. unfold gets. cbn [link setDom]. unfold bind at 1.
  assert ((match link c0 with
           | Some a => inside <- liftD (contains d a) ;; ret (if inside then a else d)
           | None => ret d
           end) (setDom d1 c0) = Return out (setDom d1 c0)) as Hlk.
  { unfold out, insertionPoint. destruct (link c0) as [a|]; [|reflexivity].
    unfold bind, liftD, contains, withNode. cbn [dom setDom].
    unfold hasNode in Hh. destruct (getNode d (doc d1)) as [n|]; [|discriminate].
    unfold ret. destruct (hasNode a n); reflexivity. }
  rewrite Hlk.
  rewrite (wrapsAs_textLine l out (setDom d1 c0)) by assumption.
  cbn [dom setDom doc nextId].
  set (ws := wrappers l). set (i := nextId d1).
  assert (innermost ws out i < i + List.length ws) as Hlt.
  { destruct ws as [|w ws]; simpl innermost.
    - pose proof (fresh_lt _ _ Hf1 Hout). unfold i. simpl. lia.
    - simpl. lia. }
  assert (~ In (innermost ws out i) (ids (doc d1)) \/ ws = []) as Hnew.
  { destruct ws as [|w ws]; [right; reflexivity | left].
    intros Hin. unfold fresh in Hf1. rewrite Forall_forall in Hf1.
    apply Hf1 in Hin. simpl in Hin. unfold i in Hin. lia. }
  unfold fragmentsOf, breakCount.
  destruct (split (text l)) as [|f r];
    rewrite emitFragments_run
      by (cbn [dom setDom doc nextId];
          first [apply innermost_hasNode; assumption | assumption]);
    cbn [dom setDom doc nextId]; rewrite (nest_fill_under _ _ _ _ _ Hnew);
    reflexivity.
Qed.

(** C8.  A text line at a destination that resolves returns, and its
    net effect on the document is one append at the insertion point:
    the wrappers of the line, nested in the fixed order em, strong,
    span (with the underline, strikeout and monospace classes), sup,
    sub, each present exactly when its flag is set, around the text
    fragments.  The flags are fields of the line, so no order among
    them exists to depend on. *)
Theorem text_line_nesting (c : ctx) (l : TextLine) (d : ref) (d1 : domState) :
  fresh (dom c) ->
  destElD (dest c) (sect c) (dom c) = Return d d1 ->
  exists c',
    step (Texted l) c = Return tt c' /\
    doc (dom c') =
      appendChildrenT
        (insertionPoint (link (afterReset (Texted l) c)) d (doc d1))
        (nest (wrappers l) (nextId d1)
           (fragmentsOf (text l) (nextId d1 + List.length (wrappers l))))
        (doc d1).
Proof.
  intros Hf Hd. eexists. split; [apply (text_line_run c l d d1 Hf Hd) | reflexivity].
Qed.

Lemma text_line_nesting_witness :
  exists c' p t,
    step (Texted (mkTextLine "x" true true true false false true false false)) startCtx
    = Return tt c' /\
    doc (dom c') =
      appendChildrenT p
        [Element (mkElem 7 "em" [] [] None)
           [Element (mkElem 8 "strong" [] [] None)
              [Element (mkElem 9 "span" [] ["underline"] None)
                 [Element (mkElem 10 "sup" [] [] None) [TextNode "x"]]]]] t.
Proof.
  edestruct (text_line_nesting startCtx
               (mkTextLine "x" true true true false false true false false))
    as [c' [H1 H2]]; [apply freshb_spec; reflexivity | vm_compute; reflexivity |].
  exists c'. eexists. eexists. split; [exact H1|]. rewrite H2. reflexivity.
Defined.

(** * Table layout *)

Lemma getNode_last_child j e l x n :
  NoDup (ids (Element e (l ++ [x]))) -> getNode j x = Some n ->
  getNode j (Element e (l ++ [x])) = Some n.
Proof.
  intros Hnd Hj. simpl in Hnd. inversion Hnd as [|? ? He Hcs]; subst.
  rewrite flat_map_app in He, Hcs. simpl in He, Hcs. rewrite app_nil_r in He, Hcs.
  apply NoDup_app_inv in Hcs. destruct Hcs as [_ [_ N3]].
  assert (In j (ids x)) as Hin
      by (apply hasNode_In; unfold hasNode; rewrite Hj; reflexivity).
  rewrite getNode_Element. destruct (Nat.eqb_spec (eid e) j) as [E|E].
  - exfalso. apply He. apply in_or_app. right. subst. assumption.
  - rewrite findMap_app. rewrite findMap_getNode_notin.
    + simpl. rewrite Hj. reflexivity.
    + intros Hl. apply (N3 j Hl Hin).
Qed.

Lemma rem_is_mod j C :
  1 <= C -> (Z.rem (Z.of_nat j) (Z.of_nat C) =? 0)%Z = (j mod C =? 0).
Proof.
  intros H. rewrite Z.rem_mod_nonneg by lia. rewrite <- Nat2Z.inj_mod.
  destruct (Z.eqb_spec (Z.of_nat (j mod C)) 0); destruct (Nat.eqb_spec (j mod C) 0);
    try reflexivity; lia.
Qed.

Lemma noNestedTables_Forall se cs :
  noNestedTables (Element se cs) = true ->
  Forall (fun x => querySelectorAllN [SelLastOfType "table"] x = []) cs.
Proof.
  unfold noNestedTables. simpl. rewrite forallb_forall, Forall_forall.
  intros H x Hx. specialize (H x Hx).
  destruct (querySelectorAllN [SelLastOfType "table"] x); [reflexivity | discriminate].
Qed.

Lemma NoDup_last_child e l x :
  NoDup (ids (Element e (l ++ [x]))) -> NoDup (ids x).
Proof.
  intros Hnd. simpl in Hnd. inversion Hnd as [|? ? _ Hcs]; subst.
  rewrite flat_map_app in Hcs. simpl in Hcs. rewrite app_nil_r in Hcs.
  apply NoDup_app_inv in Hcs. tauto.
Qed.

Lemma ids_last_child e l x j : In j (ids x) -> In j (ids (Element e (l ++ [x]))).
Proof.
  intros H. simpl. right. rewrite flat_map_app. apply in_or_app. right.
  simpl. rewrite app_nil_r. assumption.
Qed.

(** The section after an update of an element in its subtree. *)
Lemma section_after_append s t S p ns :
  getNode s t = Some S ->
  ~ In s (flat_map ids ns) ->
  getNode s (appendChildrenT p ns t) = Some (appendChildrenT p ns S).
Proof.
  intros HS Hs. rewrite getNode_appendChildrenT_old by (apply findMap_getNode_notin; assumption).
  rewrite HS. reflexivity.
Qed.

Lemma cellCountIsMultiple_run n C :
  1 <= C ->
  cellCountIsMultiple n (Some (Z.of_nat C)) = ret (n mod C =? 0).
Proof.
  intros H. unfold cellCountIsMultiple.
  destruct (Z.eqb_spec (Z.of_nat C) 0); [lia|].
  rewrite (rem_is_mod n C H). reflexivity.
Qed.

(** ** Declaring the table *)

Lemma table_declared (c : ctx) (l : TypeLine) (Sec : node) (C : nat) :
  lineType l = T_TABLE -> columns l = Z.of_nat C -> 1 <= C ->
  fresh (dom c) -> NoDup (ids (doc (dom c))) ->
  getNode (sect c) (doc (dom c)) = Some Sec ->
  noNestedTables Sec = true ->
  exists c',
    step (Typed l) c = Return tt c' /\
    tableInv (nextId (dom c)) C 0 c' /\
    sect c' = sect c.
Proof.
  intros Hk Hcols HC Hf Hnd HS Hnest.
  set (c0 := afterReset (Typed l) c). set (n := nextId (dom c)).
  assert (hasNode (sect c) (doc (dom c)) = true) as Hh
      by (unfold hasNode; rewrite HS; reflexivity).
  assert (~ In n (ids (doc (dom c)))) as Hn.
  { intros Hin. unfold fresh in Hf. rewrite Forall_forall in Hf.
    apply Hf in Hin. unfold n in Hin. lia. }
  pose (T0 := Element (withColumns (Z.of_nat C) (newElem n "table")) []).
  assert (setFltColumnsT n (Z.of_nat C) (appendChildT (sect c) (leaf n "table") (doc (dom c)))
          = appendChildrenT (sect c) [T0] (doc (dom c))) as Hdoc.
  { unfold setFltColumnsT, updElem. rewrite appendChildT_children.
    rewrite updateNode_append_comm by assumption.
    simpl. rewrite Nat.eqb_refl. reflexivity. }
  exists (setDom (mkDom (appendChildrenT (sect c) [T0] (doc (dom c))) (S n)) c0).
  split; [|split].
  - rewrite step_afterReset. fold c0. unfold handleTyped. rewrite Hk.
    unfold handleTable, bind, gets, liftD.
    assert (sect c0 = sect c) as Hs0 by apply afterReset_sect.
    assert (dom c0 = dom c) as Hd0 by apply afterReset_dom.
    rewrite Hs0, Hd0.
    rewrite (createAppend_run _ _ _ Hh). cbn [dom setDom]. fold n.
    unfold setFltColumns. rewrite mutate_run
      by (cbn [doc]; apply hasNode_appendChildT_new; assumption).
    cbn [doc nextId]. rewrite Hcols, Hdoc. reflexivity.
  - destruct (getNode_shape _ _ _ HS) as [se [cs [-> Hse]]].
    pose proof (getNode_NoDup _ _ _ HS Hnd) as HndS.
    assert (sect c < n) as Hlt by (apply (fresh_lt _ _ Hf Hh)).
    unfold tableInv. cbn [sect dom setDom doc nextId]. split; [|split].
    + replace (S n) with (nextId (dom c) + 1) by (unfold n; lia).
      apply fresh_appendChildren; [assumption|]. simpl. intros j [Hj|[]]. lia.
    + apply (NoDup_appendChildrenT (sect c) [T0] (dom c) 1); try assumption.
      * simpl. constructor; [tauto | constructor].
      * simpl. intros j [Hj|[]]. fold n. lia.
    + exists se, cs, (withColumns (Z.of_nat C) (newElem n "table")), [].
      split; [|repeat split].
      * unfold c0. rewrite afterReset_sect.
        rewrite (section_after_append _ _ _ _ _ HS) by (simpl; lia).
        f_equal. rewrite <- Hse. unfold appendChildrenT.
        rewrite (updateNode_root _ se cs HndS). reflexivity.
      * assumption.
      * constructor.
      * rewrite (layout_zero C HC). reflexivity.
  - unfold c0. simpl. apply afterReset_sect.
Qed.

(** ** Entering a cell *)

Lemma enterCell_new_row (x : ctx) (l : TypeLine) (te : elem) (cells : list elem)
      (row : option elem) :
  querySelector (sect x) [SelLastOfType "table"] (dom x) = Return (Some te) (dom x) ->
  querySelectorAll (eid te) [SelTag "th"; SelTag "td"] (dom x) = Return cells (dom x) ->
  querySelector (eid te) [SelLastOfType "tr"] (dom x) = Return row (dom x) ->
  (row = None \/ cellCountIsMultiple (List.length cells) (fltColumns te) = ret true) ->
  hasNode (eid te) (doc (dom x)) = true ->
  enterCell l x =
  Return tt
    (setDom
       (mkDom
          (appendChildT (nextId (dom x))
             (leaf (S (nextId (dom x))) (if header l then "th" else "td"))
             (appendChildT (eid te) (leaf (nextId (dom x)) "tr") (doc (dom x))))
          (S (S (nextId (dom x))))) x).
Proof.
  intros H1 H2 H3 H4 Hh. unfold enterCell, bind, gets, liftD.
  rewrite H1. cbn [dom setDom]. rewrite H2. cbn [dom setDom]. rewrite H3.
  cbn [dom setDom].
  assert (forall y,
    dom y = dom x ->
    match createAppend (eid te) "tr" (dom y) with
    | Return a d => Return a (setDom d y)
    | Throw e d => Throw e (setDom d y)
    end = Return (nextId (dom x))
            (setDom (mkDom (appendChildT (eid te) (leaf (nextId (dom x)) "tr") (doc (dom x)))
                           (S (nextId (dom x)))) y)) as Hnew.
  { intros y Hy. rewrite Hy, (createAppend_run _ _ _ Hh). reflexivity. }
  destruct row as [r0|].
  - destruct H4 as [H4|H4]; [discriminate|]. rewrite H4. unfold ret at 1.
    rewrite Hnew by reflexivity. cbn [dom setDom].
    rewrite createAppend_run by (cbn [doc]; apply hasNode_appendChildT_new; assumption).
    reflexivity.
  - rewrite Hnew by reflexivity. cbn [dom setDom].
    rewrite createAppend_run by (cbn [doc]; apply hasNode_appendChildT_new; assumption).
    reflexivity.
Qed.

Lemma enterCell_same_row (x : ctx) (l : TypeLine) (te : elem) (cells : list elem)
      (re : elem) :
  querySelector (sect x) [SelLastOfType "table"] (dom x) = Return (Some te) (dom x) ->
  querySelectorAll (eid te) [SelTag "th"; SelTag "td"] (dom x) = Return cells (dom x) ->
  querySelector (eid te) [SelLastOfType "tr"] (dom x) = Return (Some re) (dom x) ->
  cellCountIsMultiple (List.length cells) (fltColumns te) = ret false ->
  hasNode (eid re) (doc (dom x)) = true ->
  enterCell l x =
  Return tt
    (setDom
       (mkDom
          (appendChildT (eid re)
             (leaf (nextId (dom x)) (if header l then "th" else "td")) (doc (dom x)))
          (S (nextId (dom x)))) x).
Proof.
  intros H1 H2 H3 H4 Hh. unfold enterCell, bind, gets, liftD.
  rewrite H1. cbn [dom setDom]. rewrite H2. cbn [dom setDom]. rewrite H3.
  cbn [dom setDom]. rewrite H4. unfold ret at 1 2. cbn [dom setDom].
  rewrite (createAppend_run _ _ _ Hh). reflexivity.
Qed.

Lemma new_row_normal_form t0 n tg t :
  ~ In n (ids t) ->
  appendChildT n (leaf (S n) tg) (appendChildT t0 (leaf n "tr") t) =
  appendChildrenT t0 [Element (newElem n "tr") [leaf (S n) tg]] t.
Proof.
  intros Hn. rewrite !appendChildT_children. unfold appendChildrenT at 1.
  rewrite updateNode_append_comm by assumption.
  simpl. rewrite Nat.eqb_refl. reflexivity.
Qed.

Lemma cell_leaf_OK n (h : bool) : cellOK (leaf n (if h then "th" else "td")).
Proof.
  unfold cellOK, leaf. eexists. eexists. split; [reflexivity|].
  split; [destruct h; simpl; auto | constructor].
Qed.

Lemma rows_case rows :
  Forall rowOK rows ->
  rows = [] \/
  exists rows' re cells,
    rows = (rows' ++ [Element re cells])%list /\
    Forall rowOK rows' /\ tag re = "tr" /\ Forall cellOK cells.
Proof.
  intros H. destruct rows as [|r0 rows0]; [left; reflexivity | right].
  destruct (@exists_last _ (r0 :: rows0) ltac:(discriminate)) as [rows' [R ER]].
  rewrite ER in H. apply Forall_app in H. destruct H as [H1 H2].
  inversion H2 as [|? ? HR _]. destruct HR as [re [cells [ERe [Ht Hc]]]].
  exists rows', re, cells. rewrite ER, ERe. auto.
Qed.

(** ** Content appended in a cell *)

Lemma cellOK_append d N ce content :
  Forall inert content -> Forall inert N -> (tag ce = "th" \/ tag ce = "td") ->
  cellOK (appendChildrenT d N (Element ce content)).
Proof.
  intros Hc HN Ht. rewrite appendChildrenT_Element. unfold cellOK.
  eexists. eexists. split; [reflexivity|]. split; [assumption|].
  apply Forall_app. split.
  - rewrite Forall_forall in *. intros x Hx. apply in_map_iff in Hx.
    destruct Hx as [y [<- Hy]]. apply inert_appendChildrenT; [auto|].
    rewrite Forall_forall. assumption.
  - destruct (eid ce =? d); [assumption | constructor].
Qed.

(** ** Lines in sequence *)

Lemma renderLines_app l1 l2 c :
  renderLines (l1 ++ l2) c =
  match renderLines l1 c with
  | Return _ c' => renderLines l2 c'
  | Throw e c' => Throw e c'
  end.
Proof.
  revert c. induction l1 as [|x l1 IH]; intros c; [reflexivity|].
  simpl app. rewrite !renderLines_cons. destruct (step x c) as [[] c'|e c'];
    [apply IH | reflexivity].
Qed.

Lemma rowSizes_regular te rows :
  Forall rowOK rows ->
  rowSizes (Element te rows) = map (fun r => List.length (childNodes r)) rows.
Proof.
  unfold rowSizes. simpl. induction 1 as [|r rs Hr _ IH]; simpl; [reflexivity|].
  destruct Hr as [re [cells [-> [Ht Hc]]]]. simpl. rewrite Ht. simpl. rewrite IH.
  f_equal. clear -Hc. induction Hc as [|x xs Hx _ IHx]; simpl; [reflexivity|].
  destruct Hx as [ce [content [-> [Htc _]]]]. unfold isCell at 1. simpl.
  destruct Htc as [-> | ->]; simpl; rewrite IHx; reflexivity.
Qed.

(** * Invariants of the render loop *)

Section Hoare.
Context {S : Type}.

Lemma hoare_bind {A B} (P : S -> Prop) (R : A -> S -> Prop) (Q : B -> S -> Prop)
(m : SE S A) (k : A -> SE S B) :
hoare P m R -> (forall a, hoare (R a) (k a) Q) -> hoare P (bind m k) Q.
Proof.
intros Hm Hk s Hs. unfold bind. specialize (Hm s Hs).
destruct (m s) as [a s'|e s']; [apply (Hk a s' Hm) | exact I].
Qed.

Lemma hoare_conseq {A} (P P' : S -> Prop) (Q Q' : A -> S -> Prop) (m : SE S A) :
(forall s, P s -> P' s) -> hoare P' m Q' -> (forall a s, Q' a s -> Q a s) ->
hoare P m Q.
Proof.
intros HP Hm HQ s Hs. specialize (Hm s (HP s Hs)).
destruct (m s); [apply HQ; assumption | exact I].
Qed.

Lemma tri_bind {A B} (Inv : S -> Prop) (phi : A -> Prop) (psi : B -> Prop)
(m : SE S A) (k : A -> SE S B) :
tri Inv m phi -> (forall a, phi a -> tri Inv (k a) psi) -> tri Inv (bind m k) psi.
Proof.
intros Hm Hk s Hs. unfold bind. specialize (Hm s Hs).
destruct (m s) as [a s'|e s']; [|exact I].
destruct Hm as [Hs' Ha]. apply (Hk a Ha s' Hs').
Qed.

Lemma tri_ret {A} (Inv : S -> Prop) (phi : A -> Prop) (a : A) : phi a -> tri Inv (ret a) phi.
Proof. intros Ha s Hs. simpl. auto. Qed.

Lemma tri_throw {A} (Inv : S -> Prop) (phi : A -> Prop) e : tri Inv (@throw S A e) phi.
Proof. intros s Hs. exact I. Qed.

Lemma tri_gets {A} (Inv : S -> Prop) (f : S -> A) : tri Inv (gets f) always.
Proof. intros s Hs. simpl. unfold always. auto. Qed.

Lemma tri_modify (Inv : S -> Prop) (g : S -> S) :
(forall s, Inv s -> Inv (g s)) -> tri Inv (modify g) always.
Proof. intros H s Hs. simpl. unfold always. auto. Qed.

Lemma tri_weaken {A} (Inv : S -> Prop) (phi psi : A -> Prop) (m : SE S A) :
tri Inv m phi -> (forall a, phi a -> psi a) -> tri Inv m psi.
Proof.
intros Hm H s Hs. specialize (Hm s Hs). destruct (m s); [|exact I].
destruct Hm. auto.
Qed.

Lemma tri_when (Inv : S -> Prop) b (m : SE S unit) :
tri Inv m always -> tri Inv (when b m) always.
Proof. intros H. destruct b; [exact H | apply tri_ret; exact I]. Qed.

Lemma tri_forEach {A} (Inv : S -> Prop) (l : list A) (k : A -> SE S unit) :
(forall a, tri Inv (k a) always) -> tri Inv (forEach l k) always.
Proof.
intros H. induction l as [|a l IH]; simpl; [apply tri_ret; exact I|].
eapply tri_bind; [apply H | intros _ _; exact IH].
Qed.
End Hoare.

(** A computation on the document that keeps the document invariant
    for every section keeps the invariant of the context. *)
Lemma tri_liftD {A} n0 L1 L2 (m : D A) (phi : A -> Prop) :
  (forall s, tri (quietD n0 s L1 L2) m phi) -> tri (quiet n0 L1 L2) (liftD m) phi.
Proof.
  intros H c Hc. unfold liftD. specialize (H (sect c) (dom c) Hc).
  destruct (m (dom c)); [exact H | exact I].
Qed.

(** *** The primitives keep the document invariant *)

Lemma notAnchor_noClass e :
  isNoteAnchor e = false ->
  hasNoteClass "to-note" e = false /\ hasNoteClass "from-note" e = false.
Proof.
  unfold isNoteAnchor, hasNoteClass. intros H.
  destruct (isTag "a" e); [|split; reflexivity]. simpl in *.
  apply orb_false_iff in H. exact H.
Qed.

Lemma leaf_notAnchor i tg : isNoteAnchor (newElem i tg) = false.
Proof. unfold isNoteAnchor, hasClass. simpl. apply andb_false_r. Qed.

Lemma leaf_noClass cls i tg : hasNoteClass cls (newElem i tg) = false.
Proof. unfold hasNoteClass, hasClass. simpl. apply andb_false_r. Qed.

Section Primitives.
Variables (n0 s : nat) (L1 L2 : list elem).
Let J := quietD n0 s L1 L2.

Lemma quietD_read {A} (m : D A) :
(forall d, match m d with Return _ d' => d' = d | Throw _ _ => True end) ->
tri J m always.
Proof.
intros H d Hd. specialize (H d). destruct (m d); [|exact I].
subst. split; [assumption | exact I].
Qed.

Lemma withNode_read {A} i (f : node -> A) (d : domState) :
match withNode i (fun n => ret (f n)) d with
| Return _ d' => d' = d
| Throw _ _ => True
end.
Proof. unfold withNode. destruct (getNode i (doc d)); simpl; auto. Qed.

Lemma tri_lastElementChild i : tri J (lastElementChild i) always.
Proof. apply quietD_read. intros d. apply withNode_read. Qed.

Lemma tri_hasChildNodes i : tri J (hasChildNodes i) always.
Proof. apply quietD_read. intros d. apply withNode_read. Qed.

Lemma tri_querySelectorAll i sel : tri J (querySelectorAll i sel) always.
Proof. apply quietD_read. intros d. apply withNode_read. Qed.

Lemma tri_querySelector i sel : tri J (querySelector i sel) always.
Proof. apply quietD_read. intros d. apply withNode_read. Qed.

Lemma tri_contains a b : tri J (contains a b) always.
Proof. apply quietD_read. intros d. apply withNode_read. Qed.

Lemma tri_closest i tags : tri J (closest i tags) always.
Proof.
apply quietD_read. intros d. unfold closest. destruct (pathTo i (doc d)); auto.
Qed.

Lemma tri_parentElement i : tri J (parentElement i) always.
Proof.
apply quietD_read. intros d. unfold parentElement. destruct (pathTo i (doc d)); auto.
Qed.

Lemma quietD_append p ns k (d : domState) :
J d -> hasNode p (doc d) = true ->
NoDup (flat_map ids ns) ->
(forall j, In j (flat_map ids ns) -> nextId d <= j < nextId d + k) ->
(forall e, In e (flat_map elems ns) -> isNoteAnchor e = false) ->
(forall cls e, In e (flat_map elems ns) -> hasNoteClass cls e = false) ->
J (mkDom (appendChildrenT p ns (doc d)) (nextId d + k)).
Proof.
intros [Hnd [Hf [Hn [Hnew [H1 H2]]]]] Hp Hns Hr Ha Hc.
unfold J, quietD. cbn [doc nextId]. split; [|split; [|split; [|split; [|split]]]].
- apply (NoDup_appendChildrenT p ns d k); assumption.
- apply fresh_appendChildren; [assumption|]. intros j Hj. apply Hr in Hj. lia.
- lia.
- intros e He Hcond. apply elems_appendChildrenT_inv in He.
destruct He as [He|He]; [apply (Hnew e He Hcond) | apply Ha; assumption].
- unfold noteAnchors. rewrite filter_elems_appendChildrenT; [assumption|].
intros e He. apply Hc. assumption.
- unfold noteAnchors. rewrite filter_elems_appendChildrenT; [assumption|].
intros e He. apply Hc. assumption.
Qed.

Lemma tri_createAppend p tg : tri J (createAppend p tg) (fun r => n0 <= r).
Proof.
intros d Hd. unfold createAppend. destruct (hasNode p (doc d)) eqn:Hp; [|exact I].
split.
- rewrite appendChildT_children. replace (S (nextId d)) with (nextId d + 1) by lia.
apply quietD_append; try assumption.
+ simpl. constructor; [tauto | constructor].
+ simpl. intros j [Hj|[]]. lia.
+ simpl. intros e [He|[]]. subst. apply leaf_notAnchor.
+ simpl. intros cls e [He|[]]. subst. apply leaf_noClass.
- destruct Hd as [_ [_ [Hn _]]]. exact Hn.
Qed.

Lemma tri_appendText p txt : tri J (appendText p txt) always.
Proof.
intros d Hd. unfold appendText, mutate. destruct (hasNode p (doc d)) eqn:Hp; [|exact I].
split; [|exact I]. rewrite appendChildT_children.
pose proof (quietD_append p [TextNode txt] 0 d Hd Hp) as H.
rewrite Nat.add_0_r in H. apply H; simpl; try tauto. constructor.
Qed.

(** An update of the data of an element created since [n0] by a
function that does not make it a note anchor. *)
Lemma filter_map_same {A} (q : A -> bool) (h : A -> A) l :
(forall x, In x l -> h x = x \/ (q x = false /\ q (h x) = false)) ->
filter q (map h l) = filter q l.
Proof.
induction l as [|x l IH]; intros H; [reflexivity|]. simpl.
rewrite IH by (intros; apply H; simpl; auto).
destruct (H x (or_introl eq_refl)) as [E|[E1 E2]].
- rewrite E. reflexivity.
- rewrite E1, E2. reflexivity.
Qed.

Lemma tri_updElem i (g : elem -> elem) :
n0 <= i ->
(forall e, eid (g e) = eid e) ->
(forall e, isNoteAnchor e = false -> isNoteAnchor (g e) = false) ->
tri J (mutate i (updElem i g)) always.
Proof.
intros Hi Hid Hg d [Hnd [Hf [Hn [Hnew [H1 H2]]]]]. unfold mutate.
destruct (hasNode i (doc d)); [|exact I]. split; [|exact I].
unfold J, quietD. cbn [doc nextId].
assert (forall x, In x (elems (doc d)) ->
      (if eid x =? i then g x else x) = x \/
      (isNoteAnchor x = false /\
       isNoteAnchor (if eid x =? i then g x else x) = false)) as Hcase.
{ intros x Hx. destruct (Nat.eqb_spec (eid x) i) as [E|E]; [right | left; reflexivity].
assert (isNoteAnchor x = false) as He by (apply Hnew; [assumption | left; lia]).
auto. }
assert (forall cls, cls = "to-note" \/ cls = "from-note" ->
      noteAnchors cls (updElem i g (doc d)) = noteAnchors cls (doc d)) as Hsame.
{ intros cls Hcls. unfold noteAnchors. rewrite (elems_updElem i g _ Hid).
apply filter_map_same. intros x Hx.
destruct (Hcase x Hx) as [E|[E1 E2]]; [left; assumption | right].
apply notAnchor_noClass in E1. apply notAnchor_noClass in E2.
destruct Hcls as [-> | ->]; tauto. }
split; [|split; [|split; [|split; [|split]]]].
- rewrite (ids_updElem g Hid). assumption.
- unfold fresh. cbn [doc nextId]. rewrite (ids_updElem g Hid). assumption.
- assumption.
- intros e He Hcond. rewrite (elems_updElem i g _ Hid) in He.
apply in_map_iff in He. destruct He as [e0 [Ee He0]].
destruct (Nat.eqb_spec (eid e0) i) as [E|E].
+ subst e. apply Hg. apply Hnew; [assumption | left; lia].
+ subst e. apply (Hnew e0 He0 Hcond).
- rewrite Hsame by auto. assumption.
- rewrite Hsame by auto. assumption.
Qed.
End Primitives.

Section Updates.
Variables (n0 s : nat) (L1 L2 : list elem).
Let J := quietD n0 s L1 L2.

Lemma tri_setAttribute i k v : n0 <= i -> tri J (setAttribute i k v) always.
Proof.
intros Hi. apply (tri_updElem n0 s L1 L2 i (withAttr k v) Hi); [reflexivity|].
intros e He. exact He.
Qed.

Lemma tri_setFltColumns i z : n0 <= i -> tri J (setFltColumns i z) always.
Proof.
intros Hi. apply (tri_updElem n0 s L1 L2 i (withColumns z) Hi); [reflexivity|].
intros e He. exact He.
Qed.

Lemma addClass_has c cls l :
cls <> c -> existsb (String.eqb cls) (addClass c l) = existsb (String.eqb cls) l.
Proof.
intros H. unfold addClass. destruct (existsb (String.eqb c) l); [reflexivity|].
rewrite existsb_app. simpl.
destruct (String.eqb_spec cls c); [contradiction|]. rewrite !orb_false_r. reflexivity.
Qed.

Lemma tri_classListAdd i c :
n0 <= i -> c <> "to-note" -> c <> "from-note" -> tri J (classListAdd i c) always.
Proof.
intros Hi H1 H2. unfold classListAdd. destruct (tokenError c); [apply tri_throw|].
apply (tri_updElem n0 s L1 L2 i (withClass c) Hi); [reflexivity|].
intros e He. unfold isNoteAnchor, hasClass, isTag, withClass in *.
cbn [classes tag]. rewrite !addClass_has by congruence. exact He.
Qed.

Lemma tri_insertBeforeBegin i tg : tri J (insertBeforeBegin i tg) (fun r => n0 <= r).
Proof.
intros d [Hnd [Hf [Hn [Hnew [H1 H2]]]]]. unfold insertBeforeBegin.
destruct (hasNode i (doc d)); [|exact I]. split; [|exact Hn].
unfold J, quietD. cbn [doc nextId].
assert (~ In (nextId d) (ids (doc d))) as Hfr.
{ intros Hin. unfold fresh in Hf. rewrite Forall_forall in Hf. apply Hf in Hin. lia. }
split; [|split; [|split; [|split; [|split]]]].
- apply NoDup_insertBeforeT; assumption.
- unfold fresh. cbn [doc nextId]. rewrite Forall_forall. intros j Hj.
rewrite ids_elems in Hj. apply in_map_iff in Hj. destruct Hj as [e [<- He]].
apply elems_insertBeforeT_incl in He. destruct He as [He|He].
+ apply elems_ids in He. unfold fresh in Hf. rewrite Forall_forall in Hf.
apply Hf in He. lia.
+ simpl in He. destruct He as [<-|[]]. simpl. lia.
- lia.
- intros e He Hcond. apply elems_insertBeforeT_incl in He. destruct He as [He|He].
+ apply (Hnew e He Hcond).
+ simpl in He. destruct He as [<-|[]]. apply leaf_notAnchor.
- unfold noteAnchors. rewrite filter_elems_insertBeforeT; [assumption|].
simpl. intros e [<-|[]]. apply leaf_noClass.
- unfold noteAnchors. rewrite filter_elems_insertBeforeT; [assumption|].
simpl. intros e [<-|[]]. apply leaf_noClass.
Qed.

(** Removing the current section when it is childless. *)
Lemma quietD_remove (d : domState) :
J d -> (forall n, getNode s (doc d) = Some n -> childNodes n = []) ->
J (mkDom (removeNodeT s (doc d)) (nextId d)).
Proof.
intros [Hnd [Hf [Hn [Hnew [H1 H2]]]]] Hleaf. unfold J, quietD. cbn [doc nextId].
assert (forall cls, cls = "to-note" \/ cls = "from-note" ->
      noteAnchors cls (removeNodeT s (doc d)) = noteAnchors cls (doc d)) as Hsame.
{ intros cls Hcls. unfold noteAnchors. apply filter_elems_removeNodeT; try assumption.
intros e He Heid. assert (isNoteAnchor e = false) as Ha by (apply Hnew; auto).
apply notAnchor_noClass in Ha. destruct Hcls as [-> | ->]; tauto. }
split; [|split; [|split; [|split; [|split]]]].
- apply NoDup_removeNodeT. assumption.
- unfold fresh. cbn [doc nextId]. rewrite Forall_forall. intros j Hj.
rewrite ids_elems in Hj. apply in_map_iff in Hj. destruct Hj as [e [<- He]].
apply elems_removeNodeT_incl in He. apply elems_ids in He.
unfold fresh in Hf. rewrite Forall_forall in Hf. apply Hf. assumption.
- assumption.
- intros e He Hcond. apply elems_removeNodeT_incl in He. apply (Hnew e He Hcond).
- rewrite Hsame by auto. assumption.
- rewrite Hsame by auto. assumption.
Qed.

Lemma tri_destElD dst s' : tri J (destElD dst s') (fun _ => True).
Proof.
destruct dst; unfold destElD.
- eapply tri_bind; [apply tri_lastElementChild|]. intros p _.
destruct p as [e|]; [destruct (String.eqb (tag e) "p")|];
first [apply tri_ret; exact I
      | eapply tri_weaken; [apply tri_createAppend | auto]].
- eapply tri_bind; [apply tri_querySelectorAll|]. intros notes _.
destruct (lastOf notes) as [note|]; [|apply tri_throw].
eapply tri_bind; [apply tri_querySelectorAll|]. intros ps _.
destruct (lastOf ps) as [p|]; [apply tri_ret; exact I | apply tri_throw].
- eapply tri_bind; [apply tri_querySelectorAll|]. intros cells _.
destruct (lastOf cells) as [cell|]; [|apply tri_throw].
eapply tri_bind; [apply tri_querySelectorAll|]. intros conts _.
destruct (lastOf conts) as [cont|]; apply tri_ret; exact I.
- eapply tri_bind; [apply tri_lastElementChild|]. intros p _.
destruct p as [e|]; [destruct (String.eqb (tag e) "h2")|];
first [apply tri_ret; exact I
      | eapply tri_weaken; [apply tri_createAppend | auto]].
Qed.
End Updates.

(** ** The lines that enter no note keep the note anchors *)

Lemma quiet_setSect n0 L1 L2 s' c :
  n0 <= s' -> quiet n0 L1 L2 c -> quiet n0 L1 L2 (setSect s' c).
Proof.
  intros Hs [Hnd [Hf [Hn [Hnew [H1 H2]]]]]. unfold quiet, quietD. cbn [sect dom setSect].
  repeat (split; [assumption|]). split; [|split; assumption].
  intros e He [H|H]; apply Hnew; try assumption; left; lia.
Qed.

Ltac tri_step :=
  lazymatch goal with
  | |- tri _ (bind _ _) _ => eapply tri_bind; [| intros ? ?]
  | |- tri _ (ret _) _ => apply tri_ret; exact I
  | |- tri _ (throw _) _ => apply tri_throw
  | |- tri _ (gets _) _ => apply tri_gets
  | |- tri _ (when _ _) _ => apply tri_when
  | |- tri _ (modify (setSect _)) _ =>
      apply tri_modify; intros ? ?; apply quiet_setSect; assumption
  | |- tri _ (modify _) _ => apply tri_modify; intros ? Hq; exact Hq
  | |- tri _ (liftD (createAppend _ _)) _ =>
      apply tri_liftD; intros ?; apply tri_createAppend
  | |- tri _ (liftD (insertBeforeBegin _ _)) _ =>
      apply tri_liftD; intros ?; apply tri_insertBeforeBegin
  | |- tri _ (liftD (setAttribute _ _ _)) _ =>
      apply tri_liftD; intros ?; apply tri_setAttribute; assumption
  | |- tri _ (liftD (setFltColumns _ _)) _ =>
      apply tri_liftD; intros ?; apply tri_setFltColumns; assumption
  | |- tri _ (liftD (classListAdd _ _)) _ =>
      apply tri_liftD; intros ?; apply tri_classListAdd;
      [assumption | discriminate | discriminate]
  | |- tri _ (liftD (appendText _ _)) _ =>
      apply tri_liftD; intros ?; apply tri_appendText
  | |- tri _ (liftD (lastElementChild _)) _ =>
      apply tri_liftD; intros ?; apply tri_lastElementChild
  | |- tri _ (liftD (hasChildNodes _)) _ =>
      apply tri_liftD; intros ?; apply tri_hasChildNodes
  | |- tri _ (liftD (querySelectorAll _ _)) _ =>
      apply tri_liftD; intros ?; apply tri_querySelectorAll
  | |- tri _ (liftD (querySelector _ _)) _ =>
      apply tri_liftD; intros ?; apply tri_querySelector
  | |- tri _ (liftD (contains _ _)) _ =>
      apply tri_liftD; intros ?; apply tri_contains
  | |- tri _ (liftD (closest _ _)) _ =>
      apply tri_liftD; intros ?; apply tri_closest
  | |- tri _ (liftD (parentElement _)) _ =>
      apply tri_liftD; intros ?; apply tri_parentElement
  | |- tri _ (liftD (destElD _ _)) _ =>
      apply tri_liftD; intros ?; apply tri_destElD
  | |- tri _ (match ?x with _ => _ end) _ => destruct x
  end.

Ltac tri_tac := repeat (cbv beta in *; tri_step).

Section Quiet.
Variables (n0 : nat) (L1 L2 : list elem).
Let Q := quiet n0 L1 L2.

Lemma tri_reset : tri Q reset always.
Proof. unfold reset. tri_tac. Qed.

Lemma tri_destEl : tri Q destEl always.
Proof. unfold destEl. tri_tac. Qed.

Lemma tri_applyAlign el a : n0 <= el -> tri Q (applyAlign el a) always.
Proof. intros H. unfold applyAlign. destruct a as [[| |]|]; tri_tac. Qed.

Lemma tri_applyHint el : n0 <= el -> tri Q (applyHint el) always.
Proof. intros H. unfold applyHint. tri_tac. Qed.

Lemma tri_handleParagraph l : tri Q (handleParagraph l) always.
Proof.
unfold handleParagraph. tri_step; [tri_tac|]. tri_step; [apply tri_destEl|].
tri_tac. apply tri_applyAlign. assumption.
Qed.

Lemma tri_handleLink l : tri Q (handleLink l) always.
Proof.
unfold handleLink. tri_step; [apply tri_destEl|]. tri_tac.
apply tri_applyHint. assumption.
Qed.

Lemma tri_handleAnchor l : tri Q (handleAnchor l) always.
Proof. unfold handleAnchor. tri_step; [apply tri_destEl|]. tri_tac. Qed.

Lemma tri_handleImage l : tri Q (handleImage l) always.
Proof.
unfold handleImage. tri_step; [apply tri_destEl|]. tri_tac;
try (apply tri_applyHint; assumption).
Qed.

Lemma tri_handleTable l : tri Q (handleTable l) always.
Proof. unfold handleTable. tri_tac. Qed.

Lemma tri_enterCell l : tri Q (enterCell l) always.
Proof.
assert (forall p tg, tri Q (liftD (createAppend p tg)) always) as Hnew.
{ intros p tg. eapply tri_weaken; [tri_tac | intros; exact I]. }
assert (forall k cols, tri Q (cellCountIsMultiple k cols) always) as Hcount.
{ intros k cols. unfold cellCountIsMultiple. destruct cols as [z|]; [|apply tri_throw].
destruct (z =? 0)%Z; [apply tri_throw | apply tri_ret; exact I]. }
unfold enterCell. eapply tri_bind; [tri_tac | intros s _].
eapply tri_bind; [tri_tac | intros table _].
destruct table as [t|]; [|apply tri_throw].
eapply tri_bind; [tri_tac | intros cells _].
eapply tri_bind; [tri_tac | intros row _].
apply tri_bind with (phi := always).
- destruct row as [r0|]; [|apply Hnew].
apply tri_bind with (phi := always); [apply Hcount|].
intros z _. destruct z; [apply Hnew | apply tri_ret; exact I].
- intros r _. tri_tac.
Qed.

Lemma tri_enterHead : tri Q enterHead always.
Proof. unfold enterHead. tri_tac. Qed.

Lemma tri_wrapIf b tg out : tri Q (wrapIf b tg out) always.
Proof.
unfold wrapIf. destruct b; [|tri_tac].
eapply tri_weaken; [tri_tac | intros; exact I].
Qed.

Lemma tri_wrapSpan l out : tri Q (wrapSpan l out) always.
Proof.
unfold wrapSpan. destruct (underline l || strikeout l || mono l); [|apply tri_ret; exact I].
eapply tri_bind; [tri_tac | intros sp Hsp]. cbv beta in Hsp.
eapply tri_bind; [tri_tac | intros _ _].
eapply tri_bind; [tri_tac | intros _ _].
eapply tri_bind; [tri_tac | intros _ _]. apply tri_ret. exact I.
Qed.

Lemma tri_textOut l : tri Q (textOut l) always.
Proof.
unfold textOut. tri_step; [apply tri_destEl|].
tri_step; [tri_tac|]. apply tri_bind with (phi := always).
{ destruct a0 as [lk|]; [|apply tri_ret; exact I].
eapply tri_bind; [tri_tac | intros inside _]. apply tri_ret. exact I. }
intros out _.
tri_step; [apply tri_wrapIf|]. tri_step; [apply tri_wrapIf|].
tri_step; [apply tri_wrapSpan|]. tri_step; [apply tri_wrapIf|].
apply tri_wrapIf.
Qed.

Lemma tri_emitFragments out first rest : tri Q (emitFragments out first rest) always.
Proof.
revert first. induction rest as [|r rest IH]; intros first; simpl.
- tri_tac.
- tri_step; [tri_tac|]. tri_step; [tri_tac|]. apply IH.
Qed.

Lemma tri_handleText l : tri Q (handleText l) always.
Proof.
unfold handleText. tri_step; [apply tri_textOut|].
destruct (split (text l)); apply tri_emitFragments.
Qed.
End Quiet.

Section QuietSection.
Variables (n0 : nat) (L1 L2 : list elem).
Let Q := quiet n0 L1 L2.

(** The section left behind is removed only when it has no child, and
is itself no anchor. *)
Lemma tri_dropEmpty (rest : M unit) :
tri Q rest always ->
tri Q (old <- gets sect ;;
   filled <- liftD (hasChildNodes old) ;;
   when (negb filled) (liftD (removeFromParent old)) ;;
   rest) always.
Proof.
intros Hrest c Hc. unfold bind at 1. unfold gets.
unfold bind at 1. unfold liftD at 1. unfold hasChildNodes, withNode.
destruct (getNode (sect c) (doc (dom c))) as [n|] eqn:En; [|exact I].
unfold ret. assert (setDom (dom c) c = c) as Eself by (destruct c; reflexivity).
rewrite Eself. unfold bind at 1.
destruct (childNodes n) as [|x xs] eqn:Ecs; cbn [negb when].
- unfold liftD, removeFromParent, mutate.
unfold hasNode. rewrite En.
apply Hrest. unfold Q, quiet. cbn [dom sect setDom].
apply quietD_remove; [exact Hc|].
intros n' En'. rewrite En in En'. inversion En'; subst. assumption.
- unfold ret. apply Hrest. exact Hc.
Qed.

Lemma tri_handleSection l : tri Q (handleSection l) always.
Proof.
unfold handleSection. tri_step; [tri_tac|]. tri_step; [tri_tac|].
apply tri_dropEmpty.
eapply tri_bind; [tri_tac | intros s Hs]. cbv beta in Hs.
eapply tri_bind; [tri_tac | intros _ _].
eapply tri_bind; [apply tri_applyAlign; assumption | intros _ _].
destruct (break l); [|apply tri_ret; exact I].
eapply tri_bind; [tri_tac | intros par _].
destruct par as [b|]; [|apply tri_throw].
eapply tri_bind; [tri_tac | intros first _].
assert (tri Q (liftD (insertBeforeBegin s "hr");; ret tt) always) as Hhr.
{ eapply tri_bind; [tri_tac | intros _ _]. apply tri_ret. exact I. }
destruct first as [f|]; [|exact Hhr].
destruct (eid f =? s); [apply tri_ret; exact I | exact Hhr].
Qed.

Lemma tri_handleTyped l :
(lineType l = T_DESTINATION -> destinationOf l <> D_NOTE) ->
tri Q (handleTyped l) always.
Proof.
intros Hl. unfold handleTyped. destruct (lineType l).
- apply tri_handleSection.
- apply tri_handleParagraph.
- unfold handleHint. tri_tac.
- apply tri_handleLink.
- apply tri_handleAnchor.
- unfold handleBlob. tri_tac.
- apply tri_handleImage.
- apply tri_handleTable.
- unfold handleDestination. eapply tri_bind; [tri_tac | intros _ _].
apply tri_bind with (phi := always); [|intros _ _; tri_tac].
destruct (destinationOf l).
+ apply tri_ret. exact I.
+ exfalso. apply Hl; reflexivity.
+ apply tri_enterCell.
+ apply tri_enterHead.
Qed.

Lemma tri_step_quiet l : entersNote l = false -> tri Q (step l) always.
Proof.
intros Hl. unfold step. eapply tri_bind with (phi := always).
- apply tri_when. apply tri_reset.
- intros _ _. destruct l as [t|t|r].
+ apply tri_handleTyped. intros Hk Hd. simpl in Hl. rewrite Hk, Hd in Hl. discriminate.
+ apply tri_handleText.
+ apply tri_ret. exact I.
Qed.
End QuietSection.

(** ** Entering a note *)

Lemma update_new (f : elem -> list node -> node) sp out e cs t k :
  eid e = sp -> ~ In sp (ids t) -> ~ In sp (flat_map ids cs) -> hasNode out t = true ->
  mutate sp (updateNode sp f) (mkDom (appendChildrenT out [Element e cs] t) k) =
  Return tt (mkDom (appendChildrenT out [f e cs] t) k).
Proof.
  intros He Hs Hcs Hout. rewrite mutate_run.
  - cbn [doc nextId]. rewrite updateNode_append_comm by assumption.
    simpl. rewrite He, Nat.eqb_refl. rewrite map_updateNode_notin by assumption.
    reflexivity.
  - cbn [doc]. apply hasNode_In. apply ids_appendChildrenT_new.
    + apply hasNode_In. assumption.
    + simpl. auto.
Qed.

Lemma update_new_child (f : elem -> list node -> node) sp out e0 e t k :
  eid e = sp -> eid e0 <> sp -> ~ In sp (ids t) -> hasNode out t = true ->
  mutate sp (updateNode sp f) (mkDom (appendChildrenT out [Element e0 [Element e []]] t) k) =
  Return tt (mkDom (appendChildrenT out [Element e0 [f e []]] t) k).
Proof.
  intros He He0 Hs Hout. rewrite mutate_run.
  - cbn [doc nextId]. rewrite updateNode_append_comm by assumption.
    simpl. rewrite He, Nat.eqb_refl.
    destruct (Nat.eqb_spec (eid e0) sp); [contradiction | reflexivity].
  - cbn [doc]. apply hasNode_In. apply ids_appendChildrenT_new.
    + apply hasNode_In. assumption.
    + simpl. rewrite He. auto.
Qed.

Lemma append_under_new p e cs ns t :
  ~ In (eid e) (ids t) -> ~ In (eid e) (flat_map ids cs) ->
  appendChildrenT (eid e) ns (appendChildrenT p [Element e cs] t) =
  appendChildrenT p [Element e (cs ++ ns)] t.
Proof.
  intros Hn Hcs. unfold appendChildrenT at 1.
  rewrite updateNode_append_comm by assumption.
  simpl. rewrite Nat.eqb_refl. rewrite map_updateNode_notin by assumption.
  reflexivity.
Qed.

Lemma createAppend_new n p e cs tg t k :
  eid e = n ->
  ~ In n (ids t) -> ~ In n (flat_map ids cs) -> hasNode p t = true ->
  createAppend n tg (mkDom (appendChildrenT p [Element e cs] t) k) =
  Return k (mkDom (appendChildrenT p [Element e (cs ++ [leaf k tg])] t) (S k)).
Proof.
  intros <- Hn Hcs Hp. rewrite createAppend_run.
  - cbn [doc nextId]. rewrite appendChildT_children, append_under_new by assumption.
    reflexivity.
  - cbn [doc]. apply hasNode_In. apply ids_appendChildrenT_new.
    + apply hasNode_In. assumption.
    + simpl. auto.
Qed.

Ltac run_update :=
  lazymatch goal with
  | |- bind (liftD (setAttribute _ _ _)) _ _ = _ =>
      unfold bind at 1; unfold liftD at 1; cbn [dom setDom];
      unfold setAttribute at 1; unfold setAttributeT, updElem
  | |- bind (liftD (classListAdd _ _)) _ _ = _ =>
      unfold bind at 1; unfold liftD at 1; cbn [dom setDom];
      rewrite classListAdd_token by reflexivity; unfold classListAddT, updElem
  | |- bind (liftD (setTextContent _ _)) _ _ = _ =>
      unfold bind at 1; unfold liftD at 1; cbn [dom setDom];
      unfold setTextContent at 1; unfold setTextContentT
  end.

Lemma enterNote_run (c : ctx) (d : ref) (d1 : domState) :
  destElD (dest c) (sect c) (dom c) = Return d d1 ->
  fresh d1 -> hasNode (sect c) (doc d1) = true ->
  enterNote c =
  Return tt
    (setNoteIndex (S (noteIndex c))
       (setDom
          (mkDom
             (appendChildrenT (sect c) [noteBlock (S (nextId d1)) (noteIndex c)]
                (appendChildrenT d [forwardNode (nextId d1) (noteIndex c)] (doc d1)))
             (nextId d1 + 4))
          c)).
Proof.
  intros Hd Hf Hs. destruct (destElD_spec _ _ _ _ _ Hd) as [Hh [_ _]].
  unfold enterNote, forwardNode, noteBlock, forwardElem, backElem.
  set (n := noteIndex c). set (k := nextId d1).
  unfold bind at 1. rewrite (destEl_run c d d1 Hd).
  unfold bind at 1. unfold gets at 1. cbn [noteIndex setDom]. fold n.
  generalize ("flt-note-return-" ++ showNat n) as v1.
  generalize ("#flt-note-" ++ showNat n) as v2.
  generalize ("flt-note-" ++ showNat n) as v3.
  generalize ("#flt-note-return-" ++ showNat n) as v4.
  generalize (showNat n) as txt. intros txt v4 v3 v2 v1.
  assert (forall j, k <= j -> ~ In j (ids (doc d1))) as Hk.
  { intros j Hj Hin. unfold fresh in Hf. rewrite Forall_forall in Hf. apply Hf in Hin.
    unfold k in Hj. lia. }
  unfold bind at 1. unfold liftD at 1. cbn [dom setDom].
  rewrite (createAppend_run _ _ _ Hh). fold k. rewrite appendChildT_children.
  unfold leaf at 1.
  do 4 (run_update;
        rewrite update_new;
        [| reflexivity | apply Hk; lia | simpl; tauto | exact Hh]).
  set (fwd := Element _ _).
  set (t2 := appendChildrenT d [fwd] (doc d1)).
  assert (forall j, S k <= j -> ~ In j (ids t2)) as Hk2.
  { intros j Hj Hin. apply ids_appendChildrenT_inv in Hin. destruct Hin as [Hin|Hin].
    - revert Hin. apply Hk. lia.
    - unfold fwd in Hin. simpl in Hin. destruct (txt =? "")%string; simpl in Hin; lia. }
  assert (hasNode (sect c) t2 = true) as Hs2.
  { apply hasNode_In. apply ids_appendChildrenT_old. apply hasNode_In. assumption. }
  unfold bind at 1. unfold gets at 1. cbn [sect setDom].
  unfold bind at 1. unfold liftD at 1. cbn [dom setDom].
  rewrite (createAppend_run (sect c) "aside" (mkDom t2 (S k)) Hs2). cbn [doc nextId]. rewrite appendChildT_children.
  unfold bind at 1. unfold liftD at 1. cbn [dom setDom].
  unfold leaf at 1.
  rewrite (createAppend_new (S k) (sect c) (newElem (S k) "aside") [] "a" t2 (S (S k)));
    [| reflexivity | apply Hk2; simpl; lia | simpl; tauto | exact Hs2].
  cbn [app]. unfold leaf at 1.
  do 3 (run_update;
        rewrite update_new_child;
        [| reflexivity | simpl; lia | apply Hk2; lia | exact Hs2]).
  unfold bind at 1. unfold modify at 1.
  unfold bind at 1. unfold liftD at 1. cbn [dom setDom setNoteIndex].
  rewrite (createAppend_new (S k) (sect c) (newElem (S k) "aside") _ "p" t2 (S (S (S k))));
    [| reflexivity | apply Hk2; simpl; lia | simpl; lia | exact Hs2].
  unfold ret. cbn [app setDom setNoteIndex dom noteIndex link hint blob sect dest].
  unfold t2, fwd. replace (k + 4) with (S (S (S (S k)))) by lia.
  reflexivity.
Qed.

(** ** The invariant of the footnotes over the render loop *)

Lemma Permutation_filter {A} (q : A -> bool) (l l' : list A) :
  Permutation l l' -> Permutation (filter q l) (filter q l').
Proof.
  induction 1 as [|x l l' _ IH|x y l|l l' l'' _ IH1 _ IH2]; simpl.
  - constructor.
  - destruct (q x); [constructor|]; assumption.
  - destruct (q x), (q y); try reflexivity. constructor.
  - etransitivity; eassumption.
Qed.

Lemma destElD_sect dst s d r d1 :
  destElD dst s d = Return r d1 -> hasNode s (doc d1) = true.
Proof.
  assert (forall tg d', createAppend s tg d = Return r d' ->
            hasNode s (doc d') = true) as Hnew.
  { intros tg d'. unfold createAppend. destruct (hasNode s (doc d)) eqn:Hs; [|discriminate].
    intros H. inversion H; subst. cbn [doc]. apply hasNode_In.
    rewrite appendChildT_children. apply ids_appendChildrenT_old.
    apply hasNode_In. assumption. }
  destruct dst; unfold destElD, lastElementChild, querySelectorAll, withNode,
    bind, ret, throw; intros H; cbv beta in H;
    (destruct (getNode s (doc d)) as [n|] eqn:Hs; [|discriminate]);
    assert (hasNode s (doc d) = true) as Hh by (unfold hasNode; rewrite Hs; reflexivity).
  - destruct (lastElementChildN n) as [e|]; [destruct (String.eqb (tag e) "p")|];
      first [inversion H; subst; assumption | eapply Hnew; eassumption].
  - destruct (lastOf _) as [note|]; [|discriminate].
    destruct (getNode (eid note) (doc d)); [|discriminate].
    destruct (lastOf _); [|discriminate]. inversion H; subst. assumption.
  - destruct (lastOf _) as [cell|]; [|discriminate].
    destruct (getNode (eid cell) (doc d)); [|discriminate].
    destruct (lastOf _); inversion H; subst; assumption.
  - destruct (lastElementChildN n) as [e|]; [destruct (String.eqb (tag e) "h2")|];
      first [inversion H; subst; assumption | eapply Hnew; eassumption].
Qed.

Lemma notesInv_quiet c :
  notesInv c ->
  quiet (nextId (dom c)) (noteAnchors "to-note" (doc (dom c)))
    (noteAnchors "from-note" (doc (dom c))) c.
Proof.
  intros [Hnd [Hf [Hs _]]]. unfold quiet, quietD.
  repeat (split; [first [assumption | reflexivity | apply Nat.le_refl]|]).
  split; [|split; reflexivity].
  intros e He [Hge|Heq]; [|apply Hs; assumption].
  exfalso. apply elems_ids in He. unfold fresh in Hf. rewrite Forall_forall in Hf.
  apply Hf in He. lia.
Qed.

Lemma quiet_notesInv n0 c c' :
  quiet n0 (noteAnchors "to-note" (doc (dom c)))
    (noteAnchors "from-note" (doc (dom c))) c' ->
  noteIndex c' = noteIndex c -> notesInv c -> notesInv c'.
Proof.
  intros [Hnd [Hf [_ [Hnew [H1 H2]]]]] Hn [_ [_ [_ [Hle [P1 P2]]]]].
  unfold notesInv, numbered. rewrite Hn, H1, H2.
  repeat (split; [assumption|]). split; [|split; [assumption | split; assumption]].
  intros e He Heq. apply Hnew; auto.
Qed.

Lemma step_keeps_noteIndex l : entersNote l = false -> keeps noteIndex (step l).
Proof.
  intros H. unfold step. apply keeps_bind.
  - apply keeps_when. unfold reset. keeps_tac.
  - intros _. destruct l as [t|t|r].
    + unfold handleTyped. simpl in H.
      destruct (lineType t);
        try (unfold handleSection, handleParagraph, handleHint, handleLink, handleAnchor,
               handleBlob, handleImage, handleTable, applyAlign, applyHint, destEl;
             keeps_tac).
      unfold handleDestination. destruct (destinationOf t); try discriminate;
        unfold enterCell, enterHead, cellCountIsMultiple; keeps_tac.
    + unfold handleText, textOut, destEl, wrapIf, wrapSpan.
      apply keeps_bind; [keeps_tac|].
      intros out. destruct (split (text t)); apply keeps_emitFragments; reflexivity.
    + apply keeps_ret.
Qed.

Lemma step_quiet_notes l c c' :
  entersNote l = false -> notesInv c -> step l c = Return tt c' ->
  notesInv c' /\ noteIndex c' = noteIndex c.
Proof.
  intros Hl Hinv Hrun.
  assert (noteIndex c' = noteIndex c) as Hn.
  { pose proof (step_keeps_noteIndex l Hl c) as Hk. rewrite Hrun in Hk. exact Hk. }
  split; [|exact Hn].
  pose proof (tri_step_quiet _ _ _ l Hl c (notesInv_quiet c Hinv)) as Hq.
  rewrite Hrun in Hq. destruct Hq as [Hq _].
  eapply quiet_notesInv; eassumption.
Qed.

Lemma ids_forwardNode k n : flat_map ids [forwardNode k n] = [k].
Proof. unfold forwardNode. simpl. destruct (showNat n =? "")%string; reflexivity. Qed.

Lemma elems_forwardNode k n : flat_map elems [forwardNode k n] = [forwardElem k n].
Proof. unfold forwardNode. simpl. destruct (showNat n =? "")%string; reflexivity. Qed.

Lemma anchorInfo_forward k n : anchorInfo (forwardElem k n) = forwardAnchor n.
Proof. reflexivity. Qed.

Lemma anchorInfo_back k n : anchorInfo (backElem k n) = backAnchor n.
Proof. reflexivity. Qed.

(** The document after a note was entered from the document [d1]. *)
Lemma note_block_inv (n0 s d n : nat) (L1 L2 : list elem) (d1 : domState) :
  quietD n0 s L1 L2 d1 ->
  hasNode d (doc d1) = true -> hasNode s (doc d1) = true ->
  forall t,
    t = appendChildrenT s [noteBlock (S (nextId d1)) n]
          (appendChildrenT d [forwardNode (nextId d1) n] (doc d1)) ->
    NoDup (ids t) /\ fresh (mkDom t (nextId d1 + 4)) /\
    (forall e, In e (elems t) -> eid e = s -> isNoteAnchor e = false) /\
    Permutation (noteAnchors "to-note" t) (L1 ++ [forwardElem (nextId d1) n]) /\
    Permutation (noteAnchors "from-note" t) (L2 ++ [backElem (S (S (nextId d1))) n]).
Proof.
  intros [Hnd [Hf [_ [Hnew [H1 H2]]]]] Hd Hs t Et.
  set (k := nextId d1) in *.
  set (t2 := appendChildrenT d [forwardNode k n] (doc d1)) in *.
  assert (NoDup (ids t2)) as Hnd2.
  { apply (NoDup_appendChildrenT d [forwardNode k n] d1 1 Hnd Hf Hd).
    - rewrite ids_forwardNode. repeat constructor. simpl. tauto.
    - intros j. rewrite ids_forwardNode. simpl. fold k. lia. }
  assert (fresh (mkDom t2 (k + 1))) as Hf2.
  { apply (fresh_appendChildren d1 d [forwardNode k n] 1 Hf).
    intros j. rewrite ids_forwardNode. simpl. fold k. lia. }
  assert (hasNode s t2 = true) as Hs2.
  { apply hasNode_In. apply ids_appendChildrenT_old. apply hasNode_In. assumption. }
  assert (flat_map ids [noteBlock (S k) n] = [S k; S (S k); S (S (S k))]) as Eids
      by reflexivity.
  assert (Permutation (elems t)
            ((elems (doc d1) ++ [forwardElem k n]) ++
             [newElem (S k) "aside"; backElem (S (S k)) n; newElem (S (S (S k))) "p"]))
    as Hperm.
  { rewrite Et. etransitivity.
    - apply elems_appendChildrenT_perm; [assumption | apply hasNode_In; assumption].
    - apply Permutation_app; [|reflexivity].
      rewrite <- elems_forwardNode.
      apply elems_appendChildrenT_perm; [assumption | apply hasNode_In; assumption]. }
  split; [|split; [|split; [|split]]].
  - rewrite Et.
    apply (NoDup_appendChildrenT s [noteBlock (S k) n] (mkDom t2 (k + 1)) 3 Hnd2 Hf2 Hs2).
    + rewrite Eids. repeat constructor; simpl; lia.
    + intros j. rewrite Eids. simpl. lia.
  - rewrite Et. replace (k + 4) with (nextId (mkDom t2 (k + 1)) + 3) by (simpl; lia).
    apply (fresh_appendChildren (mkDom t2 (k + 1)) s [noteBlock (S k) n] 3 Hf2).
    intros j. rewrite Eids. simpl. lia.
  - intros e He Heq. apply (Permutation_in _ Hperm) in He.
    assert (s < k) as Hlt.
    { apply hasNode_In in Hs. unfold fresh in Hf. rewrite Forall_forall in Hf.
      apply Hf in Hs. exact Hs. }
    rewrite !in_app_iff in He. simpl in He.
    destruct He as [[He|[He|[]]]|[He|[He|[He|[]]]]];
      [apply Hnew; auto | subst e; simpl in Heq; lia ..].
  - unfold noteAnchors. etransitivity; [apply Permutation_filter; exact Hperm|].
    rewrite !filter_app. fold (noteAnchors "to-note" (doc d1)). rewrite H1.
    simpl. rewrite app_nil_r. reflexivity.
  - unfold noteAnchors. etransitivity; [apply Permutation_filter; exact Hperm|].
    rewrite !filter_app. fold (noteAnchors "from-note" (doc d1)). rewrite H2.
    simpl. rewrite app_nil_r. reflexivity.
Qed.

Lemma entersNote_inv l :
  entersNote l = true ->
  exists t, l = Typed t /\ lineType t = T_DESTINATION /\ destinationOf t = D_NOTE.
Proof.
  destruct l as [t|t|r]; simpl; try discriminate.
  destruct (lineType t) eqn:Ek; try discriminate.
  destruct (destinationOf t) eqn:Ed; try discriminate.
  intros _. exists t. auto.
Qed.

Lemma step_note l c c' :
  entersNote l = true -> notesInv c -> step l c = Return tt c' ->
  notesInv c' /\ noteIndex c' = S (noteIndex c).
Proof.
  intros Hl Hinv Hrun. destruct (entersNote_inv l Hl) as [t [El [Ek Ed]]].
  rewrite step_afterReset in Hrun. rewrite El in Hrun.
  unfold handleTyped in Hrun. rewrite Ek in Hrun.
  unfold handleDestination in Hrun. rewrite Ed in Hrun.
  set (c0 := afterReset (Typed t) c) in *.
  unfold bind at 1 in Hrun. unfold modify at 1 in Hrun.
  set (c1 := setLink None c0) in *.
  assert (dom c1 = dom c) as Edom by apply afterReset_dom.
  assert (sect c1 = sect c) as Esect by apply afterReset_sect.
  assert (noteIndex c1 = noteIndex c) as Eidx by apply afterReset_noteIndex.
  clearbody c1. clear c0.
  pose proof (notesInv_quiet c Hinv) as Hq.
  destruct Hinv as [_ [_ [_ [Hle [P1 P2]]]]].
  destruct (destElD (dest c1) (sect c1) (dom c1)) as [d d1|e d1] eqn:Hd.
  - pose proof (tri_destElD _ _ _ _ (dest c1) (sect c1) (dom c) Hq) as Hq1.
    pose proof Hd as Hd'. rewrite Edom in Hd'. rewrite Hd' in Hq1.
    destruct Hq1 as [Hq1 _].
    destruct (destElD_spec _ _ _ _ _ Hd) as [Hh _].
    pose proof (destElD_sect _ _ _ _ _ Hd) as Hs.
    assert (fresh d1) as Hf1 by apply Hq1.
    unfold bind at 1 in Hrun. rewrite (enterNote_run c1 d d1 Hd Hf1 Hs) in Hrun.
    unfold modify in Hrun. inversion Hrun as [Ec']. clear Hrun. subst c'.
    rewrite Esect in Hs.
    destruct (note_block_inv _ _ d (noteIndex c) _ _ d1 Hq1 Hh Hs _ eq_refl)
      as [Hnd [Hf [Hsec [Q1 Q2]]]].
    unfold notesInv, numbered.
    cbn [dom doc noteIndex sect setDest setNoteIndex setDom]. rewrite Esect, Eidx.
    split; [|reflexivity].
    split; [exact Hnd|]. split; [exact Hf|]. split; [exact Hsec|].
    split; [lia|].
    replace (S (noteIndex c) - 1) with (S (noteIndex c - 1)) by lia.
    rewrite !seq_S, !map_app.
    replace (1 + (noteIndex c - 1)) with (noteIndex c) by lia.
    split.
    + rewrite (Permutation_map anchorInfo Q1), map_app.
      apply Permutation_app; [exact P1 | reflexivity].
    + rewrite (Permutation_map anchorInfo Q2), map_app.
      apply Permutation_app; [exact P2 | reflexivity].
  - exfalso. unfold bind at 1 in Hrun. unfold enterNote in Hrun.
    unfold bind at 1 in Hrun. unfold destEl, bind, gets, liftD in Hrun.
    rewrite Hd in Hrun. discriminate.
Qed.

Lemma step_notes l c c' :
  notesInv c -> step l c = Return tt c' ->
  notesInv c' /\ noteIndex c' = noteIndex c + notesEntered [l].
Proof.
  intros Hinv Hrun. unfold notesEntered. simpl.
  destruct (entersNote l) eqn:Hl.
  - destruct (step_note l c c' Hl Hinv Hrun) as [H1 H2]. split; [exact H1|]. simpl. lia.
  - destruct (step_quiet_notes l c c' Hl Hinv Hrun) as [H1 H2]. split; [exact H1|].
    simpl. lia.
Qed.

Lemma notesEntered_cons l ls : notesEntered (l :: ls) = notesEntered [l] + notesEntered ls.
Proof. unfold notesEntered. simpl. destruct (entersNote l); reflexivity. Qed.

Lemma renderLines_notes ls : forall c c',
  notesInv c -> renderLines ls c = Return tt c' ->
  notesInv c' /\ noteIndex c' = noteIndex c + notesEntered ls.
Proof.
  induction ls as [|l ls IH]; intros c c' Hinv Hrun.
  - inversion Hrun; subst. split; [assumption|]. unfold notesEntered. simpl. lia.
  - rewrite renderLines_cons in Hrun.
    destruct (step l c) as [[] c1|e c1] eqn:Hstep; [|discriminate].
    destruct (step_notes l c c1 Hinv Hstep) as [H1 H2].
    destruct (IH c1 c' H1 Hrun) as [H3 H4]. split; [exact H3|].
    rewrite notesEntered_cons. lia.
Qed.

(** ** The set-up phase creates no anchor *)

Lemma plain_createAppend p tg :
  String.eqb tg "a" = false -> tri plainD (createAppend p tg) always.
Proof.
  intros Htg d [Hnd [Hf Ha]]. unfold createAppend.
  destruct (hasNode p (doc d)) eqn:Hp; [|exact I]. split; [|exact I].
  rewrite appendChildT_children. unfold plainD. cbn [doc nextId].
  split; [|split].
  - apply (NoDup_appendChildrenT p [leaf (nextId d) tg] d 1 Hnd Hf Hp).
    + simpl. repeat constructor. simpl. tauto.
    + simpl. intros j [<-|[]]. lia.
  - replace (S (nextId d)) with (nextId d + 1) by lia.
    apply (fresh_appendChildren d p [leaf (nextId d) tg] 1 Hf).
    simpl. intros j [<-|[]]. lia.
  - intros e He. apply elems_appendChildrenT_inv in He. destruct He as [He|He].
    + apply Ha. assumption.
    + simpl in He. destruct He as [<-|[]]. exact Htg.
Qed.

Lemma plain_appendComment p s : tri plainD (appendComment p s) always.
Proof.
  intros d [Hnd [Hf Ha]]. unfold appendComment, mutate.
  destruct (hasNode p (doc d)) eqn:Hp; [|exact I]. split; [|exact I].
  rewrite appendChildT_children. unfold plainD. cbn [doc nextId].
  split; [|split].
  - apply (NoDup_appendChildrenT p [CommentNode s] d 0 Hnd Hf Hp).
    + simpl. constructor.
    + simpl. tauto.
  - pose proof (fresh_appendChildren d p [CommentNode s] 0 Hf) as H0.
    rewrite Nat.add_0_r in H0. apply H0. simpl. tauto.
  - intros e He. apply elems_appendChildrenT_inv in He. destruct He as [He|He].
    + apply Ha. assumption.
    + simpl in He. tauto.
Qed.

Lemma plain_updElem i (g : elem -> elem) :
  (forall e, eid (g e) = eid e) -> (forall e, tag (g e) = tag e) ->
  tri plainD (mutate i (updElem i g)) always.
Proof.
  intros Hid Htag d [Hnd [Hf Ha]]. unfold mutate.
  destruct (hasNode i (doc d)); [|exact I]. split; [|exact I].
  unfold plainD, fresh. cbn [doc nextId]. rewrite (ids_updElem g Hid).
  split; [assumption|]. split; [assumption|].
  intros e He. rewrite (elems_updElem i g (doc d) Hid) in He.
  apply in_map_iff in He. destruct He as [e0 [<- He0]].
  destruct (eid e0 =? i); [|apply Ha; assumption].
  unfold isTag. rewrite Htag. apply Ha. assumption.
Qed.

Lemma plain_setAttribute i k v : tri plainD (setAttribute i k v) always.
Proof. apply (plain_updElem i (withAttr k v)); reflexivity. Qed.

Lemma plain_classListAdd i c : tri plainD (classListAdd i c) always.
Proof.
  unfold classListAdd. destruct (tokenError c); [apply tri_throw|].
  apply (plain_updElem i (withClass c)); reflexivity.
Qed.

Lemma plain_classListAddAll i cs : tri plainD (classListAddAll i cs) always.
Proof.
  unfold classListAddAll. destruct (findMap tokenError cs); [apply tri_throw|].
  apply plain_updElem; intros e; [apply eid_withClasses | apply tag_withClasses].
Qed.

Lemma plain_setTextContent i s : tri plainD (setTextContent i s) always.
Proof.
  intros d [Hnd [Hf Ha]]. unfold setTextContent, mutate.
  destruct (hasNode i (doc d)); [|exact I]. split; [|exact I].
  unfold plainD. cbn [doc nextId]. split; [|split].
  - apply NoDup_setTextContentT. assumption.
  - unfold fresh. cbn [doc nextId]. rewrite Forall_forall. intros j Hj.
    rewrite ids_elems in Hj. apply in_map_iff in Hj. destruct Hj as [e [<- He]].
    apply elems_setTextContentT_incl in He. apply elems_ids in He.
    unfold fresh in Hf. rewrite Forall_forall in Hf. apply Hf. assumption.
  - intros e He. apply elems_setTextContentT_incl in He. apply Ha. assumption.
Qed.

Ltac plain_step :=
  lazymatch goal with
  | |- tri _ (bind _ _) _ => eapply tri_bind; [| intros ? ?]
  | |- tri _ (ret _) _ => apply tri_ret; exact I
  | |- tri _ (when _ _) _ => apply tri_when
  | |- tri _ (forEach _ _) _ => apply tri_forEach; intros ?
  | |- tri _ (createAppend _ _) always => apply plain_createAppend; reflexivity
  | |- tri _ (createAppend _ _) _ =>
      eapply tri_weaken; [apply plain_createAppend; reflexivity | intros; exact I]
  | |- tri _ (appendComment _ _) _ => apply plain_appendComment
  | |- tri _ (setAttribute _ _ _) _ => apply plain_setAttribute
  | |- tri _ (classListAdd _ _) _ => apply plain_classListAdd
  | |- tri _ (classListAddAll _ _) _ => apply plain_classListAddAll
  | |- tri _ (setTextContent _ _) _ => apply plain_setTextContent
  end.

Lemma plain_og term value : tri plainD (og term value) always.
Proof. unfold og. repeat plain_step. Qed.

Lemma plain_applyMetadata this : tri plainD (applyMetadata this) always.
Proof.
  unfold applyMetadata. destruct (negb (DCMETA this)); [apply tri_ret; exact I|].
  eapply tri_bind; [repeat plain_step | intros _ _].
  eapply tri_bind; [apply plain_og | intros _ _].
  apply tri_forEach. intros t. unfold applyTerm.
  destruct (negb (truthyArray (getDC this (dcTerm t)))); [apply tri_ret; exact I|].
  apply tri_forEach. intros v. apply plain_og.
Qed.

Lemma plain_setup this options : tri plainD (setup this options) always.
Proof.
  unfold setup.
  eapply tri_bind; [repeat plain_step | intros _ _].
  eapply tri_bind; [repeat plain_step | intros metaEl _].
  eapply tri_bind; [repeat plain_step | intros _ _].
  eapply tri_bind; [repeat plain_step | intros _ _].
  eapply tri_bind; [repeat plain_step | intros _ _].
  eapply tri_bind; [repeat plain_step | intros styleEl _].
  eapply tri_bind; [repeat plain_step | intros _ _].
  eapply tri_bind; [repeat plain_step | intros _ _].
  eapply tri_bind; [apply plain_applyMetadata | intros _ _].
  eapply tri_bind; [repeat plain_step | intros _ _].
  eapply tri_bind; [repeat plain_step | intros _ _].
  apply plain_createAppend. reflexivity.
Qed.

Lemma plain_createHTMLDocument : plainD createHTMLDocument.
Proof.
  unfold plainD, createHTMLDocument, fresh. cbn [doc nextId]. split; [|split].
  - unfold htmlId, headId, bodyId. simpl.
    constructor; [simpl; intuition discriminate|].
    constructor; [simpl; intuition discriminate|].
    constructor; [simpl; tauto | constructor].
  - unfold htmlId, headId, bodyId. simpl. repeat constructor.
  - simpl. intros e [<-|[<-|[<-|[]]]]; reflexivity.
Qed.

Lemma plain_notesInv d s : plainD d -> notesInv (initCtx d s).
Proof.
  intros [Hnd [Hf Ha]]. unfold notesInv, numbered, initCtx.
  cbn [dom noteIndex sect]. split; [assumption|]. split; [assumption|].
  assert (forall cls, noteAnchors cls (doc d) = []) as Hnone.
  { intros cls. unfold noteAnchors. apply filter_none. intros e He.
    unfold hasNoteClass. rewrite (Ha e He). reflexivity. }
  split; [|split; [lia|]].
  - intros e He _. unfold isNoteAnchor. rewrite (Ha e He). reflexivity.
  - rewrite !Hnone. simpl. split; constructor.
Qed.

Lemma setup_notesInv this options s d :
  setup this options createHTMLDocument = Return s d -> notesInv (initCtx d s).
Proof.
  intros H. apply plain_notesInv.
  pose proof (plain_setup this options createHTMLDocument plain_createHTMLDocument) as Hp.
  rewrite H in Hp. apply Hp.
Qed.

(** ** The cleanup pass *)

Lemma tri_forEach_In {S A} (Inv : S -> Prop) (l : list A) (k : A -> SE S unit) :
  (forall a, In a l -> tri Inv (k a) always) -> tri Inv (forEach l k) always.
Proof.
  induction l as [|a l IH]; intros H; simpl; [apply tri_ret; exact I|].
  eapply tri_bind; [apply H; left; reflexivity | intros _ _].
  apply IH. intros b Hb. apply H. right. assumption.
Qed.

(** One step of the pass, by cases on the element as it is found. *)
Lemma cleanStep_run (i : ref) (d : domState) :
  (filled <- hasChildNodes i ;; when (negb filled) (removeFromParent i)) d =
  match getNode i (doc d) with
  | None => Throw Detached d
  | Some n =>
      match childNodes n with
      | [] => Return tt (mkDom (removeNodeT i (doc d)) (nextId d))
      | _ :: _ => Return tt d
      end
  end.
Proof.
  unfold bind, hasChildNodes, withNode, removeFromParent, mutate, hasNode, ret.
  destruct (getNode i (doc d)) as [n|] eqn:En; [|reflexivity].
  destruct (childNodes n); simpl; [rewrite En|]; reflexivity.
Qed.

(** The selected elements are sections and paragraphs of the tree. *)
Lemma selected_spec (d : domState) (el : elem) :
  In el (selectAll [SelTag "section"; SelTag "p"] ((doc d, true) :: descendants (doc d))) ->
  In el (elems (doc d)) /\ isSelected el = true.
Proof.
  intros H. split.
  - apply selectAll_In in H. destruct H as [cs [b [H|H]]].
    + injection H as E1 E2. rewrite E1. simpl. auto.
    + eapply descendants_elems. eassumption.
  - apply selectAll_tag in H. simpl in H. rewrite orb_false_r in H. exact H.
Qed.

Lemma selected_complete (d : domState) (el : elem) :
  In el (elems (doc d)) -> isSelected el = true ->
  In el (selectAll [SelTag "section"; SelTag "p"] ((doc d, true) :: descendants (doc d))).
Proof.
  intros He Hs. destruct (elems_descendants _ _ He) as [cs [b Hin]].
  eapply selectAll_intro; [eassumption|]. simpl. rewrite orb_false_r. exact Hs.
Qed.

Lemma selected_notAnchor el : isSelected el = true -> isTag "a" el = false.
Proof.
  unfold isSelected, isTag. intros H. apply orb_true_iff in H.
  destruct H as [H|H]; apply String.eqb_eq in H; rewrite H; reflexivity.
Qed.

Lemma settled_step (t0 : node) (el : elem) :
  NoDup (ids t0) -> In el (elems t0) -> isTag "a" el = false ->
  tri (settled t0)
    (filled <- hasChildNodes (eid el) ;; when (negb filled) (removeFromParent (eid el)))
    always.
Proof.
  intros Hnd0 Hel Htag d [Hnd [Hin [H1 H2]]]. rewrite cleanStep_run.
  destruct (getNode (eid el) (doc d)) as [n|] eqn:En; [|exact I].
  destruct (childNodes n) eqn:Ecs; [|split; [repeat split; assumption | exact I]].
  split; [|exact I]. unfold settled. cbn [doc].
  assert (forall cls, noteAnchors cls (removeNodeT (eid el) (doc d)) =
                      noteAnchors cls (doc d)) as Hsame.
  { intros cls. unfold noteAnchors. apply filter_elems_removeNodeT.
    - assumption.
    - intros n' En'. rewrite En in En'. inversion En'; subst. assumption.
    - intros e He Heq. assert (e = el) as ->.
      { apply (elems_inj t0); auto. }
      unfold hasNoteClass. rewrite Htag. reflexivity. }
  split; [apply NoDup_removeNodeT; assumption|]. split.
  - intros e He. apply Hin. eapply elems_removeNodeT_incl. eassumption.
  - rewrite !Hsame. split; assumption.
Qed.

Lemma cleanup_settled (d : domState) :
  NoDup (ids (doc d)) ->
  match cleanup d with
  | Return _ d' => settled (doc d) d'
  | Throw _ _ => True
  end.
Proof.
  intros Hnd. unfold cleanup. unfold bind at 1. unfold documentQuerySelectorAll.
  assert (settled (doc d) d) as H0 by (repeat split; auto).
  pose proof (tri_forEach_In (settled (doc d))
                (selectAll [SelTag "section"; SelTag "p"]
                   ((doc d, true) :: descendants (doc d)))
                (fun el => filled <- hasChildNodes (eid el) ;;
                           when (negb filled) (removeFromParent (eid el)))) as Hloop.
  specialize (Hloop (fun el Hel =>
    settled_step (doc d) el Hnd (proj1 (selected_spec d el Hel))
      (selected_notAnchor el (proj2 (selected_spec d el Hel)))) d H0).
  destruct (forEach _ _ d); [apply Hloop | exact I].
Qed.

Lemma cleanup_numbered (N : nat) (d d' : domState) :
  NoDup (ids (doc d)) -> numbered N (doc d) -> cleanup d = Return tt d' ->
  numbered N (doc d') /\ NoDup (ids (doc d')).
Proof.
  intros Hnd [P1 P2] Hrun. pose proof (cleanup_settled d Hnd) as H.
  rewrite Hrun in H. destruct H as [Hnd' [_ [H1 H2]]].
  unfold numbered. rewrite H1, H2. auto.
Qed.

(** ** Footnote numbers *)

Lemma showNat_inj n m : showNat n = showNat m -> n = m.
Proof.
  unfold showNat. intros H.
  assert (Some (Nat.to_uint n) = Some (Nat.to_uint m)) as E.
  { rewrite <- !NilEmpty.usu. rewrite H. reflexivity. }
  inversion E as [E']. rewrite <- (Unsigned.of_to n), <- (Unsigned.of_to m), E'.
  reflexivity.
Qed.

Lemma append_inj_l (p s1 s2 : string) : (p ++ s1 = p ++ s2)%string -> s1 = s2.
Proof.
  induction p as [|a p IH]; simpl; intros H; [exact H|].
  inversion H. auto.
Qed.

Lemma anchors_inj n m :
  forwardAnchor n = forwardAnchor m \/ backAnchor n = backAnchor m -> n = m.
Proof.
  unfold forwardAnchor, backAnchor. intros [H|H]; injection H as H1 H2;
    apply showNat_inj;
    first [assumption | eapply append_inj_l; eassumption].
Qed.

Lemma anchors_mirrored n : mirrored (forwardAnchor n) (backAnchor n).
Proof.
  unfold mirrored, forwardAnchor, backAnchor.
  exists ("flt-note-return-" ++ showNat n)%string, ("flt-note-" ++ showNat n)%string.
  split; reflexivity.
Qed.

Lemma toHTMLDOM_inv this u t d :
  toHTMLDOM this u = Return t d ->
  exists s d0 c1,
    setup this (mergeOptions u) createHTMLDocument = Return s d0 /\
    renderLines (lines this) (initCtx d0 s) = Return tt c1 /\
    cleanup (dom c1) = Return tt d /\ t = doc d.
Proof.
  unfold toHTMLDOM, render. intros H.
  destruct (setup this (mergeOptions u) createHTMLDocument) as [s d0|e d0] eqn:Es;
    [|discriminate].
  unfold bind, liftD in H.
  destruct (renderLines (lines this) (initCtx d0 s)) as [[] c1|e c1] eqn:Er; [|discriminate].
  destruct (cleanup (dom c1)) as [[] d1|e d1] eqn:Ec; [|discriminate].
  inversion H; subst. exists s, d0, c1. cbn [dom setDom].
  split; [reflexivity|]. split; [exact Er|]. split; [exact Ec | reflexivity].
Qed.

Lemma prefix_notes this u s d0 pre post c1 :
  setup this (mergeOptions u) createHTMLDocument = Return s d0 ->
  renderLines (pre ++ post) (initCtx d0 s) = Return tt c1 ->
  exists c',
    renderLines pre (initCtx d0 s) = Return tt c' /\
    noteIndex c' = S (notesEntered pre) /\
    notesInv c'.
Proof.
  intros Hs Hrun. rewrite renderLines_app in Hrun.
  destruct (renderLines pre (initCtx d0 s)) as [[] c'|e c'] eqn:Hpre; [|discriminate].
  exists c'. split; [reflexivity|].
  destruct (renderLines_notes pre _ _ (setup_notesInv _ _ _ _ Hs) Hpre) as [Hinv Hn].
  split; [exact Hn | exact Hinv].
Qed.

(** C6.  When the conversion returns a tree, the forward anchors of
    the tree carry exactly the names and targets of the notes 1 to N,
    one anchor per note, and so do the back anchors, N being the
    number of DESTINATION lines that enter a note.  The numbers are
    handed out in increasing order: after any prefix of the lines the
    anchors are those of the notes 1 to the number of notes entered in
    the prefix, and the next number is one more.  The name of each
    anchor of a pair is the target of the other, and distinct numbers
    give distinct anchors. *)
Theorem footnote_numbering (this : Document) (u : UserOptions) (t : node) (d : domState) :
  toHTMLDOM this u = Return t d ->
  numbered (notesEntered (lines this)) t /\
  (forall pre post, lines this = (pre ++ post)%list ->
     exists s d0 c',
       setup this (mergeOptions u) createHTMLDocument = Return s d0 /\
       renderLines pre (initCtx d0 s) = Return tt c' /\
       noteIndex c' = S (notesEntered pre) /\
       numbered (notesEntered pre) (doc (dom c'))) /\
  (forall n, mirrored (forwardAnchor n) (backAnchor n)) /\
  (forall n m, forwardAnchor n = forwardAnchor m \/ backAnchor n = backAnchor m -> n = m).
Proof.
  intros H. destruct (toHTMLDOM_inv _ _ _ _ H) as [s [d0 [c1 [Hs [Hrun [Hclean Et]]]]]].
  split; [|split; [|split; [exact anchors_mirrored | exact anchors_inj]]].
  - destruct (prefix_notes this u s d0 (lines this) [] c1 Hs) as [c' [Hpre [Hn Hinv]]];
      [rewrite app_nil_r; exact Hrun|].
    rewrite Hrun in Hpre. inversion Hpre; subst c'.
    destruct Hinv as [Hnd [_ [_ [_ Hnum]]]]. rewrite Hn in Hnum.
    replace (S (notesEntered (lines this)) - 1) with (notesEntered (lines this)) in Hnum
      by lia.
    rewrite Et. apply (cleanup_numbered _ (dom c1) d Hnd Hnum Hclean).
  - intros pre post E. rewrite E in Hrun.
    destruct (prefix_notes this u s d0 pre post c1 Hs Hrun) as [c' [Hpre [Hn Hinv]]].
    exists s, d0, c'. split; [exact Hs|]. split; [exact Hpre|]. split; [exact Hn|].
    destruct Hinv as [_ [_ [_ [_ Hnum]]]]. rewrite Hn in Hnum.
    replace (S (notesEntered pre) - 1) with (notesEntered pre) in Hnum by lia.
    exact Hnum.
Qed.

Lemma footnote_numbering_witness :
  exists t d, toHTMLDOM notesDocument noOptions = Return t d /\ numbered 2 t.
Proof.
  assert (exists t d, toHTMLDOM notesDocument noOptions = Return t d) as [t [d H]]
    by (eexists; eexists; vm_compute; reflexivity).
  exists t, d. split; [exact H|].
  exact (proj1 (footnote_numbering notesDocument noOptions t d H)).
Defined.

(** ** The body destination *)

Lemma handleSection_dest l c : dest (finalState (handleSection l c)) = D_BODY.
Proof.
  unfold handleSection. unfold bind at 1. unfold modify at 1.
  unfold bind at 1. unfold modify at 1.
  match goal with
  | |- dest (finalState (?m ?c0)) = _ =>
      assert (keeps dest m) as K; [| rewrite K; reflexivity]
  end.
  unfold applyAlign. keeps_tac.
Qed.

Lemma handleText_keeps {X} (f : ctx -> X) l :
  (forall d c, f (setDom d c) = f c) -> keeps f (handleText l).
Proof.
  intros H. unfold handleText, textOut, destEl, wrapIf, wrapSpan.
  apply keeps_bind.
  - repeat match goal with
           | |- keeps _ (liftD _) => apply keeps_liftD; exact H
           | _ => keeps_step
           end.
  - intros out. destruct (split (text l)); apply keeps_emitFragments; exact H.
Qed.

Lemma step_dest_body l c :
  isDestinationLine l = false -> dest c = D_BODY ->
  dest (finalState (step l c)) = D_BODY.
Proof.
  intros Hl Hc. rewrite step_afterReset.
  assert (dest (afterReset l c) = D_BODY) as H0 by (rewrite afterReset_dest; exact Hc).
  destruct l as [t|t|r].
  - unfold handleTyped. simpl in Hl. destruct (lineType t) eqn:Ek; try discriminate;
      try (match goal with
           | |- dest (finalState (?m _)) = _ =>
               assert (keeps dest m) as K;
               [ solve [unfold handleParagraph, handleHint, handleLink, handleAnchor,
                          handleBlob, handleImage, handleTable, applyAlign, applyHint,
                          destEl; keeps_tac]
               | rewrite K; exact H0 ]
           end).
    apply handleSection_dest.
  - rewrite (handleText_keeps dest t); [exact H0 | reflexivity].
  - exact H0.
Qed.

Lemma renderLines_dest_body ls : forall c,
  noDestination ls = true -> dest c = D_BODY ->
  dest (finalState (renderLines ls c)) = D_BODY.
Proof.
  induction ls as [|l ls IH]; intros c Hls Hc; [exact Hc|].
  unfold noDestination in Hls. simpl in Hls. apply andb_true_iff in Hls.
  destruct Hls as [Hl Hls]. apply negb_true_iff in Hl.
  rewrite finalState_renderLines_cons.
  pose proof (step_dest_body l c Hl Hc) as Hstep.
  destruct (step l c) as [[] c'|e c']; simpl in Hstep; [|exact Hstep].
  apply IH; assumption.
Qed.

Lemma step_keeps_sect l :
  isDestinationLine l = false -> isSectionLine l = false -> keeps sect (step l).
Proof.
  intros Hd Hs. unfold step. apply keeps_bind.
  - apply keeps_when. unfold reset. keeps_tac.
  - intros _. destruct l as [t|t|r].
    + unfold handleTyped. simpl in Hd, Hs.
      destruct (lineType t); try discriminate;
        unfold handleParagraph, handleHint, handleLink, handleAnchor, handleBlob,
          handleImage, handleTable, applyAlign, applyHint, destEl; keeps_tac.
    + apply handleText_keeps. reflexivity.
    + apply keeps_ret.
Qed.

(** *** A SECTION line opens a section *)

Lemma tri_liftD_dom {A} (P : domState -> Prop) (R : ctx -> Prop) (m : D A) (phi : A -> Prop) :
  (forall d c, R c -> R (setDom d c)) ->
  tri P m phi -> tri (fun c => P (dom c) /\ R c) (liftD m) phi.
Proof.
  intros HR H c [Hc Hr]. unfold liftD. specialize (H (dom c) Hc).
  destruct (m (dom c)) as [a d|e d]; [|exact I].
  destruct H as [H1 H2]. cbn [dom setDom]. auto.
Qed.

Lemma tri_read {A} (P : domState -> Prop) (m : D A) :
  (forall d, match m d with Return _ d' => d' = d | Throw _ _ => True end) ->
  tri P m always.
Proof.
  intros H d Hd. specialize (H d). destruct (m d); [|exact I].
  subst. split; [assumption | exact I].
Qed.

Lemma hasSection_classListAdd k i c : tri (hasSection k) (classListAdd i c) always.
Proof.
  intros d [e [He [Hid Htag]]]. unfold classListAdd.
  destruct (tokenError c); [exact I|]. unfold mutate.
  destruct (hasNode i (doc d)); [|exact I]. split; [|exact I].
  unfold hasSection, classListAddT. cbn [doc].
  rewrite (elems_updElem i (withClass c) (doc d)) by reflexivity.
  exists (if eid e =? i then withClass c e else e). split.
  - apply (in_map (fun e => if eid e =? i then withClass c e else e)). assumption.
  - destruct (eid e =? i); auto.
Qed.

Lemma hasSection_insertBeforeBegin k i :
  tri (hasSection k) (insertBeforeBegin i "hr") always.
Proof.
  intros d [e [He [Hid Htag]]]. unfold insertBeforeBegin.
  destruct (hasNode i (doc d)); [|exact I]. split; [|exact I].
  unfold hasSection. cbn [doc]. exists e. split; [|auto].
  set (q := fun x : elem => (eid x =? k) && String.eqb (tag x) "section").
  assert (In e (filter q (elems (doc d)))) as Hq.
  { apply filter_In. split; [assumption|]. unfold q.
    rewrite Hid, Htag, Nat.eqb_refl. reflexivity. }
  rewrite <- (filter_elems_insertBeforeT q i (leaf (nextId d) "hr") (doc d)) in Hq.
  - apply filter_In in Hq. apply Hq.
  - simpl. intros x [<-|[]]. unfold q. simpl. apply andb_false_r.
Qed.

Lemma hoare_bind_tri {S A B} (Inv : S -> Prop) (phi : A -> Prop) (Post : B -> S -> Prop)
      (m : SE S A) (k : A -> SE S B) :
  tri Inv m phi -> (forall a, phi a -> hoare Inv (k a) Post) ->
  hoare Inv (bind m k) Post.
Proof.
  intros Hm Hk s Hs. unfold bind. specialize (Hm s Hs).
  destruct (m s) as [a s'|e s']; [|exact I].
  destruct Hm as [H1 H2]. apply (Hk a H2 s' H1).
Qed.

Lemma handleSection_opens (l : TypeLine) (k : nat) :
  hoare (fun c => nextId (dom c) = k /\ fresh (dom c)) (handleSection l)
    (fun _ c => sect c = k /\ hasSection k (dom c)).
Proof.
  set (A := fun d : domState => nextId d = k /\ fresh d).
  set (P := fun c : ctx => A (dom c) /\ True).
  set (Q := fun c : ctx => hasSection k (dom c) /\ sect c = k).
  assert (forall X (m : D X), tri A m always -> tri P (liftD m) always) as HA.
  { intros X m Hm. apply tri_liftD_dom; auto. }
  assert (forall X (m : D X) phi, tri (hasSection k) m phi -> tri Q (liftD m) phi) as HQ.
  { intros X m phi Hm. apply tri_liftD_dom; auto. }
  assert (forall f, (forall c, dom (f c) = dom c) -> tri P (modify f) always) as Hmod.
  { intros f Hf. apply tri_modify. intros c Hc. unfold P. rewrite Hf. exact Hc. }
  assert (hoare P (handleSection l) (fun _ c => Q c)) as H.
  { unfold handleSection.
    eapply hoare_bind_tri; [apply Hmod; reflexivity | intros _ _].
    eapply hoare_bind_tri; [apply Hmod; reflexivity | intros _ _].
    eapply hoare_bind_tri; [apply tri_gets | intros old _].
    eapply hoare_bind_tri;
      [apply HA; apply tri_read; intros d; apply withNode_read | intros filled _].
    eapply hoare_bind_tri with (phi := always).
    { apply tri_when. apply HA. intros d [Hn Hf]. unfold removeFromParent, mutate.
      destruct (hasNode old (doc d)); [|exact I]. split; [|exact I].
      split; [exact Hn|]. unfold fresh in *. cbn [doc nextId].
      rewrite Forall_forall in *. intros j Hj.
      rewrite ids_elems in Hj. apply in_map_iff in Hj. destruct Hj as [e [<- He]].
      apply elems_removeNodeT_incl in He. apply elems_ids in He. auto. }
    intros _ _.
    eapply hoare_bind with (R := fun s c => s = k /\ hasSection k (dom c)).
    { intros c [[Hn Hf] _]. unfold liftD, createAppend.
      destruct (hasNode bodyId (doc (dom c))) eqn:Hb; [|exact I].
      cbn [dom setDom doc]. split; [exact Hn|].
      exists (newElem k "section"). split; [|auto].
      rewrite Hn, appendChildT_children.
      apply elems_appendChildrenT_new; [apply hasNode_In; assumption|].
      simpl. auto. }
    intros s c [Es Hc]. subst s.
    assert (tri Q (applyAlign k (align l);;
                   (if break l
                    then par <- liftD (parentElement k);;
                         match par with
                         | Some b =>
                             first <- liftD (querySelector (eid b) [SelTag "section"]);;
                             match first with
                             | Some f =>
                                 if eid f =? k then ret tt
                                 else liftD (insertBeforeBegin k "hr");; ret tt
                             | None => liftD (insertBeforeBegin k "hr");; ret tt
                             end
                         | None => throw (TypeError "parentElement is null")
                         end
                    else ret tt)) always) as Hrest.
    { assert (tri Q (liftD (insertBeforeBegin k "hr");; ret tt) always) as Hhr.
      { eapply tri_bind; [apply HQ; apply hasSection_insertBeforeBegin | intros _ _].
        apply tri_ret. exact I. }
      eapply tri_bind with (phi := always).
      - unfold applyAlign. destruct (align l); [|apply tri_ret; exact I].
        apply HQ. apply hasSection_classListAdd.
      - intros _ _. destruct (break l); [|apply tri_ret; exact I].
        eapply tri_bind; [apply HQ; apply tri_read; intros d; unfold parentElement;
                          destruct (pathTo k (doc d)); auto | intros par _].
        destruct par as [b|]; [|apply tri_throw].
        eapply tri_bind; [apply HQ; apply tri_read; intros d; apply withNode_read
                         | intros first _].
        destruct first as [f|]; [|exact Hhr].
        destruct (eid f =? k); [apply tri_ret; exact I | exact Hhr]. }
    unfold bind at 1. unfold modify at 1.
    assert (Q (setSect k c)) as HQ0 by (split; [exact Hc | reflexivity]).
    specialize (Hrest (setSect k c) HQ0).
    cbv beta in Hrest.
    match goal with |- match ?x with _ => _ end => destruct x end; [|exact I].
    tauto. }
  intros c [Hn Hf]. specialize (H c (conj (conj Hn Hf) I)).
  destruct (handleSection l c); [|exact I]. unfold Q in H. tauto.
Qed.

Lemma section_opened (t : TypeLine) (c1 c2 : ctx) :
  lineType t = T_SECTION -> fresh (dom c1) ->
  step (Typed t) c1 = Return tt c2 -> opensSection c1 c2.
Proof.
  intros Hk Hf Hrun. rewrite step_afterReset in Hrun. unfold handleTyped in Hrun.
  rewrite Hk in Hrun.
  pose proof (handleSection_opens t (nextId (dom c1)) (afterReset (Typed t) c1)) as H.
  cbv beta in H. rewrite afterReset_dom in H. specialize (H (conj eq_refl Hf)).
  rewrite Hrun in H. destruct H as [Hs Hsec]. unfold opensSection.
  rewrite Hs. split; [reflexivity|]. split; [|exact Hsec].
  apply hasNode_false. intros Hin. unfold fresh in Hf. rewrite Forall_forall in Hf.
  apply Hf in Hin. lia.
Qed.

(** *** A text line goes under the current section *)

Lemma body_destEl (s : ref) (d0 d1 : domState) (d : ref) :
  NoDup (ids (doc d0)) -> fresh d0 ->
  destElD D_BODY s d0 = Return d d1 ->
  exists S0 S1,
    getNode s (doc d0) = Some S0 /\ getNode s (doc d1) = Some S1 /\
    (S1 = S0 \/ exists p, S1 = appendChildrenT s [leaf p "p"] S0) /\
    hasNode d S1 = true /\ NoDup (ids (doc d1)) /\ s < nextId d1.
Proof.
  intros Hnd Hf H. unfold destElD, bind, lastElementChild, withNode, ret in H.
  destruct (getNode s (doc d0)) as [n|] eqn:Hs; [|discriminate].
  assert (hasNode s (doc d0) = true) as Hh by (unfold hasNode; rewrite Hs; reflexivity).
  assert (s < nextId d0) as Hlt by (apply fresh_lt; assumption).
  assert (forall d', createAppend s "p" d0 = Return d d' ->
            exists S1, getNode s (doc d') = Some S1 /\
              (S1 = n \/ exists p, S1 = appendChildrenT s [leaf p "p"] n) /\
              hasNode d S1 = true /\ NoDup (ids (doc d')) /\ s < nextId d') as Hnew.
  { intros d'. rewrite (createAppend_run _ _ _ Hh). intros E. inversion E; subst.
    cbn [doc nextId]. rewrite appendChildT_children.
    exists (appendChildrenT s [leaf (nextId d0) "p"] n).
    split; [|split; [|split; [|split]]].
    - apply section_after_append; [assumption|]. simpl. lia.
    - right. exists (nextId d0). reflexivity.
    - apply hasNode_In. apply ids_appendChildrenT_new; [|simpl; auto].
      destruct (getNode_shape _ _ _ Hs) as [e [cs [-> He]]]. simpl. auto.
    - apply (NoDup_appendChildrenT s [leaf (nextId d0) "p"] d0 1 Hnd Hf Hh).
      + simpl. repeat constructor. simpl. tauto.
      + simpl. intros j [<-|[]]. lia.
    - lia. }
  exists n. destruct (lastElementChildN n) as [e|] eqn:Hl.
  - destruct (String.eqb (tag e) "p").
    + inversion H; subst. exists n. split; [reflexivity|]. split; [assumption|].
      split; [left; reflexivity|]. split; [|split; assumption].
      apply hasNode_In. apply lastElementChildN_ids. assumption.
    + destruct (Hnew d1 H) as [S1 HS1]. exists S1. split; [reflexivity | exact HS1].
  - destruct (Hnew d1 H) as [S1 HS1]. exists S1. split; [reflexivity | exact HS1].
Qed.

Lemma insertionPoint_inside lk d t s S1 :
  NoDup (ids t) -> getNode s t = Some S1 -> hasNode d S1 = true ->
  hasNode (insertionPoint lk d t) S1 = true.
Proof.
  intros Hnd HS Hd. unfold insertionPoint. destruct lk as [a|]; [|assumption].
  destruct (getNode d t) as [n|] eqn:Hn; [|assumption].
  destruct (hasNode a n) eqn:Ha; [|assumption].
  unfold hasNode in Hd. destruct (getNode d S1) as [n'|] eqn:Hn'; [|discriminate].
  pose proof (getNode_inside _ _ _ _ _ Hnd HS Hn') as E. rewrite Hn in E.
  inversion E; subst n'. unfold hasNode in Ha.
  destruct (getNode a n) as [k|] eqn:Hk; [|discriminate].
  eapply getNode_trans; eassumption.
Qed.

Lemma text_attached (l : TextLine) (c1 c2 : ctx) :
  NoDup (ids (doc (dom c1))) -> fresh (dom c1) -> dest c1 = D_BODY ->
  step (Texted l) c1 = Return tt c2 ->
  sect c2 = sect c1 /\ attachedUnder (sect c1) l c1 c2.
Proof.
  intros Hnd Hf Hdest Hrun.
  destruct (destElD (dest c1) (sect c1) (dom c1)) as [d d1|e d1] eqn:Hd.
  - rewrite (text_line_run c1 l d d1 Hf Hd) in Hrun. inversion Hrun as [Ec2].
    cbn [sect setDom dom doc]. rewrite afterReset_sect. split; [reflexivity|].
    rewrite Hdest in Hd.
    destruct (body_destEl _ _ _ _ Hnd Hf Hd) as [S0 [S1 [H0 [H1 [Hor [Hin [Hnd1 Hlt]]]]]]].
    exists S0, S1, (insertionPoint (link (afterReset (Texted l) c1)) d (doc d1)), (nextId d1).
    split; [exact H0|]. split; [exact Hor|]. split.
    + apply (insertionPoint_inside _ _ _ (sect c1)); assumption.
    + apply section_after_append; [assumption|].
      rewrite ids_text_subtree. rewrite in_seq. lia.
  - exfalso. rewrite step_afterReset in Hrun.
    unfold handleText, textOut in Hrun. unfold bind at 1 in Hrun. unfold bind at 1 in Hrun.
    unfold destEl, bind, gets, liftD in Hrun.
    rewrite afterReset_dest, afterReset_sect, afterReset_dom, Hd in Hrun. discriminate.
Qed.

Lemma noDestination_app pre post :
  noDestination (pre ++ post) = true ->
  noDestination pre = true /\ noDestination post = true.
Proof. unfold noDestination. rewrite forallb_app. apply andb_true_iff. Qed.

(** ** The root of the document *)

Lemma rootTag_updateNode i f t :
  (forall e cs, rootTag (f e cs) = Some (tag e)) ->
  rootTag (updateNode i f t) = rootTag t.
Proof.
  intros H. destruct t as [e cs| |]; try reflexivity.
  simpl. destruct (eid e =? i); [apply H | reflexivity].
Qed.

Lemma root_mutate_update i f :
  (forall e cs, rootTag (f e cs) = Some (tag e)) ->
  keeps rootOf (mutate i (updateNode i f)).
Proof.
  intros H d. unfold mutate. destruct (hasNode i (doc d)); [|reflexivity].
  unfold rootOf. simpl. apply rootTag_updateNode. exact H.
Qed.

Lemma root_createAppend p tg : keeps rootOf (createAppend p tg).
Proof.
  intros d. unfold createAppend. destruct (hasNode p (doc d)); [|reflexivity].
  unfold rootOf, appendChildT. simpl. apply rootTag_updateNode. reflexivity.
Qed.

Lemma root_insertBeforeBegin i tg : keeps rootOf (insertBeforeBegin i tg).
Proof.
  intros d. unfold insertBeforeBegin. destruct (hasNode i (doc d)); [|reflexivity].
  unfold rootOf. simpl. destruct (doc d); reflexivity.
Qed.

Lemma root_removeFromParent i : keeps rootOf (removeFromParent i).
Proof.
  intros d. unfold removeFromParent, mutate. destruct (hasNode i (doc d)); [|reflexivity].
  unfold rootOf. simpl. destruct (doc d); reflexivity.
Qed.

Lemma root_read {A} (m : D A) :
  (forall d, match m d with Return _ d' => d' = d | Throw _ _ => True end) ->
  (forall d e d', m d = Throw e d' -> d' = d) ->
  keeps rootOf m.
Proof.
  intros H1 H2 d. specialize (H1 d). specialize (H2 d).
  destruct (m d) as [a d'|e d']; simpl.
  - subst. reflexivity.
  - rewrite (H2 e d' eq_refl). reflexivity.
Qed.

Lemma root_withNode {A} i (f : node -> A) : keeps rootOf (withNode i (fun n => ret (f n))).
Proof. intros d. unfold withNode. destruct (getNode i (doc d)); reflexivity. Qed.

Lemma root_closest i tags : keeps rootOf (closest i tags).
Proof. intros d. unfold closest. destruct (pathTo i (doc d)); reflexivity. Qed.

Lemma root_parentElement i : keeps rootOf (parentElement i).
Proof. intros d. unfold parentElement. destruct (pathTo i (doc d)); reflexivity. Qed.

Ltac root_prim :=
  first
    [ apply root_createAppend
    | apply root_insertBeforeBegin
    | apply root_removeFromParent
    | apply root_closest
    | apply root_parentElement
    | apply root_withNode
    | apply root_mutate_update; reflexivity ].

Lemma root_classListAddAll i cs : keeps rootOf (classListAddAll i cs).
Proof.
  unfold classListAddAll. destruct (findMap tokenError cs); [apply keeps_throw|].
  unfold updElem. apply root_mutate_update. intros e cs0. simpl.
  rewrite tag_withClasses. reflexivity.
Qed.

Ltac root_step :=
  lazymatch goal with
  | |- keeps _ (classListAdd _ _) => unfold classListAdd
  | |- keeps _ (classListAddAll _ _) => apply root_classListAddAll
  | |- keeps _ (bind _ _) => apply keeps_bind; [| intros ?]
  | |- keeps _ (ret _) => apply keeps_ret
  | |- keeps _ (throw _) => apply keeps_throw
  | |- keeps _ (when _ _) => apply keeps_when
  | |- keeps _ (forEach _ _) => apply keeps_forEach; intros ?
  | |- keeps _ (match ?x with _ => _ end) => destruct x
  | |- keeps rootOf _ =>
      unfold appendText, appendComment, setAttribute, setAttributeT, classListAdd,
        classListAddT, setTextContent, setTextContentT, setFltColumns, setFltColumnsT,
        updElem, appendChildT, lastElementChild, hasChildNodes, querySelectorAll,
        querySelector, contains;
      root_prim
  end.

Lemma root_destElD dst s : keeps rootOf (destElD dst s).
Proof. unfold destElD. destruct dst; repeat root_step. Qed.

Lemma root_setup this options : keeps rootOf (setup this options).
Proof.
  unfold setup, applyMetadata, applyTerm, og. repeat root_step.
Qed.

Lemma root_cleanup : keeps rootOf cleanup.
Proof.
  unfold cleanup. apply keeps_bind.
  - intros d. reflexivity.
  - intros els. repeat root_step.
Qed.

Lemma rootC_liftD {A} (m : D A) :
  keeps rootOf m -> keeps (fun c => rootOf (dom c)) (liftD m).
Proof.
  intros H c. unfold liftD. specialize (H (dom c)).
  destruct (m (dom c)); simpl in *; exact H.
Qed.

Ltac rootc_step :=
  lazymatch goal with
  | |- keeps _ (bind _ _) => apply keeps_bind; [| intros ?]
  | |- keeps _ (ret _) => apply keeps_ret
  | |- keeps _ (throw _) => apply keeps_throw
  | |- keeps _ (gets _) => apply keeps_gets
  | |- keeps _ (modify _) => apply keeps_modify; intros; reflexivity
  | |- keeps _ (when _ _) => apply keeps_when
  | |- keeps _ (liftD (destElD _ _)) => apply rootC_liftD; apply root_destElD
  | |- keeps _ (liftD _) => apply rootC_liftD; repeat root_step
  | |- keeps _ (match ?x with _ => _ end) => destruct x
  end.

Lemma rootC_emitFragments out first rest :
  keeps (fun c => rootOf (dom c)) (emitFragments out first rest).
Proof.
  revert first. induction rest as [|r rest IH]; intros first; simpl.
  - repeat rootc_step.
  - apply keeps_bind; [repeat rootc_step | intros _].
    apply keeps_bind; [repeat rootc_step | intros _]. apply IH.
Qed.

Lemma rootC_step l : keeps (fun c => rootOf (dom c)) (step l).
Proof.
  unfold step. apply keeps_bind.
  - apply keeps_when. unfold reset. repeat rootc_step.
  - intros _. destruct l as [t|t|r].
    + unfold handleTyped.
      destruct (lineType t);
        unfold handleSection, handleParagraph, handleHint, handleLink, handleAnchor,
          handleBlob, handleImage, handleTable, handleDestination, enterNote, enterCell,
          enterHead, cellCountIsMultiple, applyAlign, applyHint, destEl;
        repeat rootc_step.
    + unfold handleText, textOut, destEl, wrapIf, wrapSpan.
      apply keeps_bind; [repeat rootc_step|].
      intros out. destruct (split (text t)); apply rootC_emitFragments.
    + apply keeps_ret.
Qed.

Lemma rootC_renderLines ls : keeps (fun c => rootOf (dom c)) (renderLines ls).
Proof. unfold renderLines. apply keeps_forEach. intros l. apply rootC_step. Qed.

(** The tree a conversion returns has distinct identities and the
    [html] element at its root. *)
Lemma toHTMLDOM_shape this u t d :
  toHTMLDOM this u = Return t d ->
  t = doc d /\ NoDup (ids t) /\ rootTag t = Some "html".
Proof.
  intros H. destruct (toHTMLDOM_inv _ _ _ _ H) as [s [d0 [c1 [Hs [Hrun [Hclean Et]]]]]].
  split; [exact Et|]. rewrite Et.
  destruct (renderLines_notes _ _ _ (setup_notesInv _ _ _ _ Hs) Hrun) as [[Hnd _] _].
  split.
  - pose proof (cleanup_settled (dom c1) Hnd) as Hc. rewrite Hclean in Hc. apply Hc.
  - pose proof (root_cleanup (dom c1)) as K1. rewrite Hclean in K1. simpl in K1.
    pose proof (rootC_renderLines (lines this) (initCtx d0 s)) as K2.
    rewrite Hrun in K2. simpl in K2.
    pose proof (root_setup this (mergeOptions u) createHTMLDocument) as K3.
    rewrite Hs in K3. simpl in K3.
    unfold rootOf in *. rewrite K1, K2, K3. reflexivity.
Qed.

(** ** A second cleanup pass *)

Lemma forEach_same {S A} (l : list A) (k : A -> SE S unit) (s : S) :
  (forall a, In a l -> k a s = Return tt s) -> forEach l k s = Return tt s.
Proof.
  induction l as [|a l IH]; intros H; [reflexivity|].
  simpl. unfold bind. rewrite (H a) by (left; reflexivity).
  apply IH. intros b Hb. apply H. right. assumption.
Qed.

Lemma noEmpty_spec t :
  noEmpty t = true <->
  (forall e, In e (elems t) -> isSelected e = true -> childless t e = false).
Proof.
  unfold noEmpty. rewrite forallb_forall. split.
  - intros H e He Hs. specialize (H e He). rewrite Hs in H. simpl in H.
    apply negb_true_iff in H. exact H.
  - intros H e He. destruct (isSelected e) eqn:Hs; [|reflexivity].
    rewrite (H e He Hs). reflexivity.
Qed.

(** A tree without an empty section or paragraph is left as it is. *)
Lemma cleanup_fixed (d : domState) :
  NoDup (ids (doc d)) -> noEmpty (doc d) = true -> cleanup d = Return tt d.
Proof.
  intros Hnd Hne. unfold cleanup. unfold bind at 1. unfold documentQuerySelectorAll.
  apply forEach_same. intros el Hel. cbv beta. rewrite cleanStep_run.
  destruct (selected_spec d el Hel) as [Hin Hsel].
  pose proof (proj1 (noEmpty_spec (doc d)) Hne el Hin Hsel) as Hc.
  unfold childless in Hc. destruct (getNode_elem _ _ Hnd Hin) as [cs Hg].
  rewrite Hg in *. simpl in *. destruct cs; [discriminate | reflexivity].
Qed.

(** The pass never grows the tree, and a pass that keeps its size has
    found a child under every element it visited. *)
Lemma cleanup_loop_size (l : list elem) : forall d1 d2,
  (forall el, In el l -> hasId (eid el) (doc d1) = false) ->
  forEach l (fun el => filled <- hasChildNodes (eid el) ;;
                       when (negb filled) (removeFromParent (eid el))) d1 = Return tt d2 ->
  List.length (ids (doc d2)) <= List.length (ids (doc d1)) /\
  (List.length (ids (doc d2)) = List.length (ids (doc d1)) ->
   forall el, In el l -> childless (doc d1) el = false).
Proof.
  induction l as [|el l IH]; intros d1 d2 Hroot Hrun.
  - inversion Hrun; subst. split; [apply Nat.le_refl | simpl; tauto].
  - simpl in Hrun. unfold bind at 1 in Hrun. rewrite cleanStep_run in Hrun.
    destruct (getNode (eid el) (doc d1)) as [n|] eqn:Hg; [|discriminate].
    destruct (childNodes n) as [|x xs] eqn:Hcs.
    + assert (List.length (ids (removeNodeT (eid el) (doc d1)))
              < List.length (ids (doc d1))) as Hlt.
      { apply length_ids_removeNodeT_lt.
        - apply Hroot. left. reflexivity.
        - apply hasNode_In. unfold hasNode. rewrite Hg. reflexivity. }
      assert (forall e, In e l ->
                hasId (eid e) (doc (mkDom (removeNodeT (eid el) (doc d1)) (nextId d1)))
                = false) as Hroot'.
      { intros e He. cbn [doc]. rewrite hasId_removeNodeT. apply Hroot. right. assumption. }
      destruct (IH _ d2 Hroot' Hrun) as [Hle _].
      cbn [doc] in Hle. split; [lia|]. intros E. exfalso. lia.
    + destruct (IH d1 d2 (fun e He => Hroot e (or_intror He)) Hrun) as [Hle Heq].
      split; [exact Hle|]. intros E e [<-|He]; [|apply Heq; assumption].
      unfold childless. rewrite Hg, Hcs. reflexivity.
Qed.

Lemma selected_not_root (d : domState) (el : elem) :
  NoDup (ids (doc d)) -> rootTag (doc d) = Some "html" ->
  In el (elems (doc d)) -> isSelected el = true ->
  hasId (eid el) (doc d) = false.
Proof.
  intros Hnd Hroot Hin Hsel. destruct (doc d) as [r cs| |] eqn:Ed; try reflexivity.
  simpl. destruct (Nat.eqb_spec (eid r) (eid el)) as [E|E]; [|reflexivity].
  exfalso. assert (r = el) as ->.
  { apply (elems_inj (Element r cs)); [assumption | simpl; auto | assumption | exact E]. }
  simpl in Hroot. inversion Hroot as [Ht]. unfold isSelected in Hsel.
  rewrite Ht in Hsel. discriminate.
Qed.

(** A pass that leaves the tree as it is found no empty section or
    paragraph. *)
Lemma cleanup_fixed_inv (d : domState) :
  NoDup (ids (doc d)) -> rootTag (doc d) = Some "html" ->
  cleanup d = Return tt d -> noEmpty (doc d) = true.
Proof.
  intros Hnd Hroot Hrun. unfold cleanup in Hrun. unfold bind at 1 in Hrun.
  unfold documentQuerySelectorAll in Hrun.
  apply cleanup_loop_size in Hrun.
  - destruct Hrun as [_ H]. apply noEmpty_spec. intros e He Hs.
    apply (H eq_refl). apply selected_complete; assumption.
  - intros el Hel. destruct (selected_spec d el Hel) as [Hin Hsel].
    apply selected_not_root; assumption.
Qed.

(** C1 (as amended).  On the tree a conversion returns, a second
    cleanup pass returns the same tree exactly when the tree holds no
    section and no paragraph without child nodes.  The first pass does
    not establish this: it visits a section before its paragraphs, so
    a section whose children were all empty paragraphs is left empty
    by the pass that removes them. *)
Theorem cleanup_second_pass (this : Document) (u : UserOptions) (t : node) (d : domState) :
  toHTMLDOM this u = Return t d ->
  (cleanup d = Return tt d <-> noEmpty t = true).
Proof.
  intros H. destruct (toHTMLDOM_shape _ _ _ _ H) as [Et [Hnd Hroot]].
  rewrite Et in *. split.
  - apply cleanup_fixed_inv; assumption.
  - apply cleanup_fixed; assumption.
Qed.

Lemma cleanup_second_pass_witness :
  exists t d,
    toHTMLDOM notesDocument noOptions = Return t d /\
    noEmpty t = true /\ cleanup d = Return tt d.
Proof.
  assert (exists t d, toHTMLDOM notesDocument noOptions = Return t d) as [t [d H]]
    by (eexists; eexists; vm_compute; reflexivity).
  assert (noEmpty t = true) as Hne.
  { vm_compute in H. inversion H; subst. vm_compute. reflexivity. }
  exists t, d. split; [exact H|]. split; [exact Hne|].
  exact (proj2 (cleanup_second_pass notesDocument noOptions t d H) Hne).
Defined.

(** The cleanup pass is not idempotent: the conversion of a document
    whose only line starts a paragraph returns a tree with an empty
    section, which a second pass removes. *)
Lemma cleanup_not_idempotent_counterexample :
  exists t d d',
    toHTMLDOM paragraphDocument noOptions = Return t d /\
    cleanup d = Return tt d' /\
    doc d' <> t /\
    noEmpty t = false.
Proof.
  eexists. eexists. eexists.
  split; [vm_compute; reflexivity|].
  split; [vm_compute; reflexivity|].
  split; [discriminate | vm_compute; reflexivity].
Qed.

(** * Further properties of the renderer *)

(** ** Splitting a text at its line feeds *)

Lemma split_cons s : exists h t, split s = h :: t.
Proof.
  induction s as [|c r IH]; simpl; [eauto|].
  destruct (isNewline c); [eauto|].
  destruct IH as [h [t ->]]. eauto.
Qed.

Lemma isNewline_eq c : isNewline c = true -> c = "010"%char.
Proof. unfold isNewline. apply Ascii.eqb_eq. Qed.

Lemma concat_cons2 sep (x y : string) r :
  String.concat sep (x :: y :: r) = (x ++ sep ++ String.concat sep (y :: r))%string.
Proof. reflexivity. Qed.

Lemma join_split s : join lineFeed (split s) = s.
Proof.
  unfold join. induction s as [|c r IH]; [reflexivity|].
  simpl split. destruct (split_cons r) as [h [t E]]. rewrite E in *.
  destruct (isNewline c) eqn:Ec.
  - apply isNewline_eq in Ec. subst c. rewrite concat_cons2, IH. reflexivity.
  - destruct t as [|h' t].
    + simpl in *. rewrite IH. reflexivity.
    + rewrite concat_cons2 in *. rewrite <- IH. reflexivity.
Qed.

Lemma split_length s : List.length (split s) = S (countLineFeeds s).
Proof.
  induction s as [|c r IH]; [reflexivity|]. simpl.
  destruct (isNewline c); simpl; [rewrite IH; reflexivity|].
  destruct (split_cons r) as [h [t E]]. rewrite E in *. simpl in *. exact IH.
Qed.

Lemma split_no_lineFeed s : Forall (fun f => hasLineFeed f = false) (split s).
Proof.
  induction s as [|c r IH]; simpl; [repeat constructor|].
  destruct (isNewline c) eqn:Ec; [constructor; [reflexivity | exact IH]|].
  destruct (split_cons r) as [h [t E]]. rewrite E in *.
  inversion IH; subst. constructor; [simpl; rewrite Ec; assumption | assumption].
Qed.

Lemma append_empty_r (s : string) : (s ++ "")%string = s.
Proof. induction s as [|c r IH]; simpl; [reflexivity | rewrite IH; reflexivity]. Qed.

Lemma shownText_fragmentNodes rest : forall first k,
  shownText (fragmentNodes first rest k) = join lineFeed (first :: rest).
Proof.
  unfold join. induction rest as [|f r IH]; intros first k.
  - simpl. apply append_empty_r.
  - rewrite concat_cons2. rewrite <- (IH f (S k)). reflexivity.
Qed.

Lemma textNodes_fragmentNodes rest : forall first k,
  textNodes (fragmentNodes first rest k) = first :: rest.
Proof.
  induction rest as [|f r IH]; intros first k; [reflexivity|].
  simpl. rewrite IH. reflexivity.
Qed.

Lemma fragmentsOf_split s k :
  shownText (fragmentsOf s k) = s /\ textNodes (fragmentsOf s k) = split s.
Proof.
  unfold fragmentsOf. destruct (split_cons s) as [h [t E]]. rewrite E.
  rewrite shownText_fragmentNodes, textNodes_fragmentNodes, <- E.
  split; [apply join_split | reflexivity].
Qed.

(** ** The lines that create one element at the destination *)

Lemma applyHint_new (a d : ref) (e : elem) (t : node) (k : nat) (c : ctx) :
  eid e = a -> ~ In a (ids t) -> hasNode d t = true ->
  dom c = mkDom (appendChildrenT d [Element e []] t) k ->
  applyHint a c =
  Return tt
    (setHint (spent (hint c))
       (setDom (mkDom (appendChildrenT d [Element (titled (hint c) e) []] t) k) c)).
Proof.
  intros He Ha Hd Hdom. unfold applyHint, bind, gets, titled, spent.
  destruct (truthy (hint c)) eqn:Ht.
  - unfold liftD. rewrite Hdom. unfold setAttribute, setAttributeT, updElem.
    rewrite update_new; [| exact He | exact Ha | simpl; tauto | exact Hd].
    unfold modify. reflexivity.
  - unfold ret. rewrite <- Hdom. destruct c; reflexivity.
Qed.

Section OneElement.
Variables (c : ctx) (l : TypeLine) (d : ref) (d1 : domState).
Hypothesis Hfresh : fresh (dom c).
Hypothesis Hdest : destElD (dest c) (sect c) (dom c) = Return d d1.

Let c0 : ctx := afterReset (Typed l) c.
Let a : ref := nextId d1.

Lemma new_not_in : ~ In a (ids (doc d1)).
Proof.
  destruct (destElD_spec _ _ _ _ _ Hdest) as [_ [_ Hf]]. specialize (Hf Hfresh).
  intros Hin. unfold fresh in Hf. rewrite Forall_forall in Hf. apply Hf in Hin.
  unfold a in Hin. lia.
Qed.

Lemma destEl_c0 : destEl c0 = Return d (setDom d1 c0).
Proof.
  apply destEl_run. unfold c0.
  rewrite afterReset_dest, afterReset_sect, afterReset_dom. exact Hdest.
Qed.

Lemma link_run :
  lineType l = T_LINK ->
  step (Typed l) c =
  Return tt
    (setHint (spent (hint c0))
       (setDom
          (mkDom
             (appendChildrenT d
                [Element (titled (hint c0)
                            (withAttr "href" (toString (content l)) (newElem a "a"))) []]
                (doc d1))
             (S a))
          (setLink (Some a) c0))).
Proof.
  intros Hk. destruct (destElD_spec _ _ _ _ _ Hdest) as [Hd _].
  pose proof new_not_in as Ha.
  rewrite step_afterReset. fold c0. unfold handleTyped. rewrite Hk. unfold handleLink.
  unfold bind at 1. rewrite destEl_c0.
  unfold bind at 1. unfold liftD at 1. cbn [dom setDom].
  rewrite (createAppend_run _ _ _ Hd). fold a. rewrite appendChildT_children.
  unfold bind at 1. unfold modify at 1.
  unfold bind at 1. unfold liftD at 1. cbn [dom setDom setLink].
  unfold setAttribute, setAttributeT, updElem. unfold leaf.
  rewrite update_new; [| reflexivity | exact Ha | simpl; tauto | exact Hd].
  cbv beta.
  rewrite (applyHint_new a d (withAttr "href" (toString (content l)) (newElem a "a"))
             (doc d1) (S a)); [| reflexivity | exact Ha | exact Hd | reflexivity].
  reflexivity.
Qed.

Lemma anchor_run :
  lineType l = T_ANCHOR ->
  step (Typed l) c =
  Return tt
    (setDom
       (mkDom
          (appendChildrenT d
             [Element (withAttr "name" (toString (content l)) (newElem a "a")) []]
             (doc d1))
          (S a))
       c0).
Proof.
  intros Hk. destruct (destElD_spec _ _ _ _ _ Hdest) as [Hd _].
  pose proof new_not_in as Ha.
  rewrite step_afterReset. fold c0. unfold handleTyped. rewrite Hk. unfold handleAnchor.
  unfold bind at 1. rewrite destEl_c0.
  unfold bind at 1. unfold liftD at 1. cbn [dom setDom].
  rewrite (createAppend_run _ _ _ Hd). fold a. rewrite appendChildT_children.
  unfold liftD. cbn [dom setDom].
  unfold setAttribute, setAttributeT, updElem. unfold leaf.
  rewrite update_new; [| reflexivity | exact Ha | simpl; tauto | exact Hd].
  reflexivity.
Qed.

Lemma image_inline_run :
  lineType l = T_IMAGE -> truthy (content l) = true ->
  step (Typed l) c =
  Return tt
    (setHint (spent (hint c0))
       (setDom
          (mkDom
             (appendChildrenT d
                [Element (titled (hint c0)
                            (withAttr "src" (toString (content l)) (newElem a "img"))) []]
                (doc d1))
             (S a))
          c0)).
Proof.
  intros Hk Hsrc. destruct (destElD_spec _ _ _ _ _ Hdest) as [Hd _].
  pose proof new_not_in as Ha.
  rewrite step_afterReset. fold c0. unfold handleTyped. rewrite Hk. unfold handleImage.
  unfold bind at 1. rewrite destEl_c0.
  unfold bind at 1. unfold liftD at 1. cbn [dom setDom].
  rewrite (createAppend_run _ _ _ Hd). fold a. rewrite appendChildT_children.
  rewrite Hsrc. unfold bind at 1. unfold liftD at 1. cbn [dom setDom].
  unfold setAttribute, setAttributeT, updElem. unfold leaf.
  rewrite update_new; [| reflexivity | exact Ha | simpl; tauto | exact Hd].
  cbv beta.
  rewrite (applyHint_new a d (withAttr "src" (toString (content l)) (newElem a "img"))
             (doc d1) (S a)); [| reflexivity | exact Ha | exact Hd | reflexivity].
  reflexivity.
Qed.
End OneElement.

Lemma titled_same h e :
  eid (titled h e) = eid e /\ tag (titled h e) = tag e /\ classes (titled h e) = classes e.
Proof. unfold titled. destruct (truthy h); auto. Qed.

Lemma truthy_spent h : truthy (spent h) = false.
Proof. unfold spent. destruct (truthy h) eqn:E; [reflexivity | exact E]. Qed.

Lemma getAttr_nil k : getAttr k [] = None.
Proof. reflexivity. Qed.

Lemma getAttr_cons k k' v r :
  getAttr k ((k', v) :: r) = if String.eqb k' k then Some v else getAttr k r.
Proof. unfold getAttr. cbn [findMap fst snd]. destruct (String.eqb k' k); reflexivity. Qed.

(** [getAttribute] after [setAttribute]. *)
Lemma getAttr_setAttr_same k v l : getAttr k (setAttr k v l) = Some v.
Proof.
  induction l as [|[k' w] r IH]; cbn [setAttr].
  - rewrite getAttr_cons, String.eqb_refl. reflexivity.
  - destruct (String.eqb k' k) eqn:E; rewrite getAttr_cons.
    + rewrite String.eqb_refl. reflexivity.
    + rewrite E. exact IH.
Qed.

Lemma getAttr_setAttr_other k k' v l :
  String.eqb k' k = false -> getAttr k (setAttr k' v l) = getAttr k l.
Proof.
  intros Hk. induction l as [|[k0 w] r IH]; cbn [setAttr].
  - rewrite getAttr_cons, Hk. reflexivity.
  - destruct (String.eqb k0 k') eqn:E; rewrite !getAttr_cons.
    + apply String.eqb_eq in E. subst k0. rewrite Hk. reflexivity.
    + rewrite IH. reflexivity.
Qed.

Lemma title_titled h e :
  getAttr "title" (attrs e) = None ->
  getAttr "title" (attrs (titled h e)) = titleOf h.
Proof.
  intros H. unfold titled, titleOf. destruct (truthy h); [|exact H].
  unfold withAttr. cbn [attrs]. apply getAttr_setAttr_same.
Qed.

Lemma other_titled k h e :
  String.eqb "title" k = false ->
  getAttr k (attrs (titled h e)) = getAttr k (attrs e).
Proof.
  intros Hk. unfold titled. destruct (truthy h); [|reflexivity].
  unfold withAttr. cbn [attrs]. apply getAttr_setAttr_other. exact Hk.
Qed.

(** X2.  A LINK line at a destination that resolves returns.  It
    appends one [a] element to the destination element, with [href]
    the line's content as a string (the string null for a null
    content) and, when a truthy tooltip is pending, with that tooltip
    as [title]; the element becomes the open link, no truthy tooltip
    is left pending, and blob, destination and section are as before. *)
Theorem link_line (c : ctx) (l : TypeLine) (d : ref) (d1 : domState) :
  lineType l = T_LINK -> fresh (dom c) ->
  destElD (dest c) (sect c) (dom c) = Return d d1 ->
  exists c' e,
    step (Typed l) c = Return tt c' /\
    doc (dom c') = appendChildrenT d [Element e []] (doc d1) /\
    eid e = nextId d1 /\ tag e = "a" /\ classes e = [] /\
    getAttr "href" (attrs e) = Some (toString (content l)) /\
    getAttr "title" (attrs e) = titleOf (hint (afterReset (Typed l) c)) /\
    link c' = Some (eid e) /\ truthy (hint c') = false /\
    blob c' = blob c /\ dest c' = dest c /\ sect c' = sect c.
Proof.
  intros Hk Hf Hd. rewrite (link_run c l d d1 Hf Hd Hk).
  eexists. eexists. split; [reflexivity|]. cbn [dom setDom setHint doc].
  split; [reflexivity|].
  split; [apply titled_same|]. split; [apply titled_same|]. split; [apply titled_same|].
  split; [rewrite other_titled by reflexivity; simpl; reflexivity|].
  split; [apply title_titled; reflexivity|].
  cbn [link hint blob dest sect setHint setDom setLink].
  split; [f_equal; symmetry; apply titled_same|].
  split; [apply truthy_spent|].
  rewrite afterReset_blob, afterReset_dest, afterReset_sect. auto.
Qed.

Lemma link_line_witness :
  exists c' e,
    renderLines [HINT (Some "tip"); LINK None] startCtx = Return tt c' /\
    In e (elems (doc (dom c'))) /\
    getAttr "href" (attrs e) = Some "null" /\ getAttr "title" (attrs e) = Some "tip".
Proof.
  pose (c1 := finalState (step (HINT (Some "tip")) startCtx)).
  assert (step (HINT (Some "tip")) startCtx = Return tt c1) as H1 by reflexivity.
  edestruct (link_line c1 (mkTypeLine T_LINK None 0 None false D_BODY false "" "" false))
    as [c' [e [H2 [H3 [H4 [H5 [H6 [H7 [H8 _]]]]]]]]];
    [reflexivity | apply freshb_spec; reflexivity | vm_compute; reflexivity |].
  exists c', e. split.
  - rewrite renderLines_cons, H1. rewrite renderLines_cons.
    change (step (LINK None) c1) with
      (step (Typed (mkTypeLine T_LINK None 0 None false D_BODY false "" "" false)) c1).
    rewrite H2. reflexivity.
  - split; [|split; [exact H7 | exact H8]].
    rewrite H3. apply elems_appendChildrenT_new; [|simpl; auto].
    apply hasNode_In. reflexivity.
Defined.

(** X3.  An IMAGE line with a truthy inline content returns at a
    destination that resolves: the [img] element it appends has the
    content as [src] whether or not a blob is pending, and the blob
    stays as it is; a truthy pending tooltip becomes the [title] and
    is no longer pending; the open link is as before. *)
Theorem image_inline_source (c : ctx) (l : TypeLine) (d : ref) (d1 : domState) :
  lineType l = T_IMAGE -> truthy (content l) = true -> fresh (dom c) ->
  destElD (dest c) (sect c) (dom c) = Return d d1 ->
  exists c' e,
    step (Typed l) c = Return tt c' /\
    doc (dom c') = appendChildrenT d [Element e []] (doc d1) /\
    eid e = nextId d1 /\ tag e = "img" /\
    getAttr "src" (attrs e) = content l /\
    getAttr "title" (attrs e) = titleOf (hint (afterReset (Typed l) c)) /\
    blob c' = blob c /\ truthy (hint c') = false /\
    link c' = link (afterReset (Typed l) c).
Proof.
  intros Hk Hsrc Hf Hd. rewrite (image_inline_run c l d d1 Hf Hd Hk Hsrc).
  eexists. eexists. split; [reflexivity|]. cbn [dom setDom setHint doc].
  split; [reflexivity|].
  split; [apply titled_same|]. split; [apply titled_same|].
  split.
  { rewrite other_titled by reflexivity. cbn [attrs withAttr newElem setAttr].
    rewrite getAttr_cons, String.eqb_refl.
    destruct (content l) as [s|]; [reflexivity | discriminate]. }
  split; [apply title_titled; reflexivity|].
  cbn [link hint blob setHint setDom].
  split; [apply afterReset_blob|]. split; [apply truthy_spent | reflexivity].
Qed.

Lemma image_inline_source_witness :
  exists c' e,
    renderLines [BLOB "image/png" "QUJD"; IMAGE (Some "pic.png")] startCtx = Return tt c' /\
    In e (elems (doc (dom c'))) /\
    getAttr "src" (attrs e) = Some "pic.png" /\ blob c' = Some ("image/png", "QUJD").
Proof.
  pose (c1 := finalState (step (BLOB "image/png" "QUJD") startCtx)).
  assert (step (BLOB "image/png" "QUJD") startCtx = Return tt c1) as H1 by reflexivity.
  edestruct (image_inline_source c1
               (mkTypeLine T_IMAGE (Some "pic.png") 0 None false D_BODY false "" "" false))
    as [c' [e [H2 [H3 [H4 [H5 [H6 [H7 [H8 _]]]]]]]]];
    [reflexivity | reflexivity | apply freshb_spec; reflexivity
    | vm_compute; reflexivity |].
  exists c', e. split.
  - rewrite renderLines_cons, H1. rewrite renderLines_cons.
    change (step (IMAGE (Some "pic.png")) c1) with
      (step (Typed (mkTypeLine T_IMAGE (Some "pic.png") 0 None false D_BODY false
                      "" "" false)) c1).
    rewrite H2. reflexivity.
  - split; [|split; [exact H6 | exact H8]].
    rewrite H3. apply elems_appendChildrenT_new; [|simpl; auto].
    apply hasNode_In. reflexivity.
Defined.

(** X4.  An ANCHOR line at a destination that resolves returns.  It
    appends one [a] element with the content as [name] and nothing
    else: the element does not become the open link, and a pending
    tooltip is neither applied to it nor used up. *)
Theorem anchor_line (c : ctx) (l : TypeLine) (d : ref) (d1 : domState) :
  lineType l = T_ANCHOR -> fresh (dom c) ->
  destElD (dest c) (sect c) (dom c) = Return d d1 ->
  exists c' e,
    step (Typed l) c = Return tt c' /\
    doc (dom c') = appendChildrenT d [Element e []] (doc d1) /\
    eid e = nextId d1 /\ tag e = "a" /\
    attrs e = [("name", toString (content l))] /\
    link c' = link (afterReset (Typed l) c) /\
    hint c' = hint (afterReset (Typed l) c).
Proof.
  intros Hk Hf Hd. rewrite (anchor_run c l d d1 Hf Hd Hk).
  eexists. eexists. split; [reflexivity|]. cbn [dom setDom doc link hint].
  repeat (split; [reflexivity|]). reflexivity.
Qed.

Lemma anchor_line_witness :
  exists c' e,
    renderLines [HINT (Some "tip"); ANCHOR (Some "top")] startCtx = Return tt c' /\
    In e (elems (doc (dom c'))) /\
    attrs e = [("name", "top")] /\ hint c' = Some "tip".
Proof.
  pose (c1 := finalState (step (HINT (Some "tip")) startCtx)).
  assert (step (HINT (Some "tip")) startCtx = Return tt c1) as H1 by reflexivity.
  edestruct (anchor_line c1
               (mkTypeLine T_ANCHOR (Some "top") 0 None false D_BODY false "" "" false))
    as [c' [e [H2 [H3 [H4 [H5 [H6 [H7 H8]]]]]]]];
    [reflexivity | apply freshb_spec; reflexivity | vm_compute; reflexivity |].
  exists c', e. split.
  - rewrite renderLines_cons, H1. rewrite renderLines_cons.
    change (step (ANCHOR (Some "top")) c1) with
      (step (Typed (mkTypeLine T_ANCHOR (Some "top") 0 None false D_BODY false
                      "" "" false)) c1).
    rewrite H2. reflexivity.
  - split; [|split; [exact H6 | exact H8]].
    rewrite H3. apply elems_appendChildrenT_new; [|simpl; auto].
    apply hasNode_In. reflexivity.
Defined.

(** ** The open link and the pending tooltip *)

Lemma afterReset_link l c : link (afterReset l c) = if lineReset l then None else link c.
Proof. unfold afterReset. destruct (lineReset l); reflexivity. Qed.

Lemma afterReset_hint l c : hint (afterReset l c) = if lineReset l then None else hint c.
Proof. unfold afterReset. destruct (lineReset l); reflexivity. Qed.

(** A computation that starts by closing the link and keeps it
    afterwards ends with the link closed. *)
Lemma closes_then_keeps {A} (rest : M A) c :
  keeps link rest -> link (finalState ((modify (setLink None) ;; rest) c)) = None.
Proof.
  intros K. unfold bind at 1. unfold modify at 1. rewrite K. reflexivity.
Qed.

(** X5.  The open link is closed by SECTION, PARAGRAPH and DESTINATION
    lines and by the reset flag of any line, and by nothing else: a
    line other than a LINK line leaves the link closed when it is one
    of these and as it found it otherwise, whether the line returns or
    throws. *)
Theorem link_lifetime (l : line) (c : ctx) :
  isLinkLine l = false ->
  link (finalState (step l c)) = if closesLink l then None else link c.
Proof.
  intros Hl. rewrite step_afterReset.
  pose proof (afterReset_link l c) as H0.
  destruct l as [t|t|r].
  - unfold handleTyped, closesLink. simpl in Hl. simpl lineReset in H0.
    destruct (lineType t) eqn:Ek; try discriminate;
      try (match goal with
           | |- link (finalState (?m _)) = _ =>
               assert (keeps link m) as K;
               [ solve [unfold handleHint, handleAnchor, handleBlob, handleImage,
                          handleTable, applyHint, destEl; keeps_tac]
               | rewrite K; exact H0 ]
           end).
    + unfold handleSection. apply closes_then_keeps. unfold applyAlign. keeps_tac.
    + unfold handleParagraph. apply closes_then_keeps. unfold applyAlign, destEl. keeps_tac.
    + unfold handleDestination. apply closes_then_keeps.
      unfold enterNote, enterCell, enterHead, cellCountIsMultiple, destEl. keeps_tac.
  - rewrite (handleText_keeps link t); [exact H0 | reflexivity].
  - exact H0.
Qed.

Lemma link_lifetime_witness :
  exists c1,
    step (LINK (Some "u")) startCtx = Return tt c1 /\
    link c1 <> None /\
    link (finalState (step (TEXT "x") c1)) = link c1 /\
    link (finalState (step PARAGRAPH c1)) = None.
Proof.
  pose (c1 := finalState (step (LINK (Some "u")) startCtx)).
  exists c1. split; [reflexivity|]. split; [discriminate|].
  split.
  - exact (link_lifetime (TEXT "x") c1 eq_refl).
  - exact (link_lifetime PARAGRAPH c1 eq_refl).
Defined.

(** X6.  The pending tooltip is set by a HINT line, and a line that is
    neither a LINK nor an IMAGE line leaves it otherwise alone: after
    such a line it is the content of the line when the line is a HINT
    line, nothing when the line has the reset flag, and as before in
    every other case, whether the line returns or throws. *)
Theorem hint_lifetime (l : line) (c : ctx) :
  usesHint l = false ->
  hint (finalState (step l c)) = hintAfter l (hint c).
Proof.
  intros Hl. rewrite step_afterReset.
  pose proof (afterReset_hint l c) as H0.
  destruct l as [t|t|r].
  - unfold handleTyped, hintAfter. simpl in Hl. simpl lineReset in H0.
    destruct (lineType t) eqn:Ek; try discriminate;
      try (match goal with
           | |- hint (finalState (?m _)) = _ =>
               assert (keeps hint m) as K;
               [ solve [unfold handleSection, handleParagraph, handleAnchor, handleBlob,
                          handleTable, handleDestination, enterNote, enterCell, enterHead,
                          cellCountIsMultiple, applyAlign, destEl; keeps_tac]
               | rewrite K; exact H0 ]
           end).
    reflexivity.
  - rewrite (handleText_keeps hint t); [exact H0 | reflexivity].
  - exact H0.
Qed.

Lemma hint_lifetime_witness :
  exists c1,
    step (HINT (Some "tip")) startCtx = Return tt c1 /\
    hint (finalState (step PARAGRAPH c1)) = Some "tip" /\
    hint (finalState (step (HINT None) c1)) = None.
Proof.
  pose (c1 := finalState (step (HINT (Some "tip")) startCtx)).
  exists c1. split; [reflexivity|]. split.
  - exact (hint_lifetime PARAGRAPH c1 eq_refl).
  - exact (hint_lifetime (HINT None) c1 eq_refl).
Defined.

(** ** A cell with no table to go to *)

Lemma no_match_select sel l :
  (forall e cs b, In (Element e cs, b) l ->
     existsb (fun s => String.eqb (tag e) (selTag s)) sel = false) ->
  selectAll sel l = [].
Proof.
  intros H. destruct (selectAll sel l) as [|e r] eqn:E; [reflexivity|].
  assert (In e (selectAll sel l)) as Hin by (rewrite E; left; reflexivity).
  pose proof (selectAll_tag _ _ _ Hin) as Ht.
  apply selectAll_In in Hin. destruct Hin as [cs [b Hin]].
  rewrite (H e cs b Hin) in Ht. discriminate.
Qed.

Lemma no_table_query (S0 : node) :
  Forall (fun e => tag e <> "table") (elems S0) ->
  querySelectorAllN [SelLastOfType "table"] S0 = [].
Proof.
  intros H. unfold querySelectorAllN. apply no_match_select.
  intros e cs b Hin. apply descendants_elems in Hin.
  rewrite Forall_forall in H. specialize (H e Hin). simpl. rewrite orb_false_r.
  apply String.eqb_neq. exact H.
Qed.

(** X7.  A DESTINATION line for a cell, when the current section holds
    no table, throws the renderer's error about the missing table and
    does nothing else: the document, the destination and the section
    stay as they were, and only the open link is closed.  A table of
    an earlier section is not looked for. *)
Theorem cell_without_table (c : ctx) (l : TypeLine) (S0 : node) :
  lineType l = T_DESTINATION -> destinationOf l = D_CELL ->
  getNode (sect c) (doc (dom c)) = Some S0 ->
  Forall (fun e => tag e <> "table") (elems S0) ->
  step (Typed l) c =
  Throw (FLTError "Cannot set destination to D_CELL when no table is defined")
        (setLink None (afterReset (Typed l) c)).
Proof.
  intros Hk Hd HS Hno. rewrite step_afterReset. unfold handleTyped. rewrite Hk.
  unfold handleDestination. rewrite Hd.
  unfold bind at 1. unfold modify at 1. unfold bind at 1. unfold enterCell.
  unfold bind at 1. unfold gets at 1. cbn [sect setLink].
  unfold bind at 1. unfold liftD, querySelector, withNode. cbn [dom setLink].
  pose proof (afterReset_dom (Typed l) c) as Edom.
  rewrite afterReset_sect. rewrite Edom at 1. rewrite HS. unfold ret.
  rewrite (no_table_query S0 Hno). cbn [hd_error]. unfold throw.
  destruct (afterReset (Typed l) c). reflexivity.
Qed.

Lemma cell_without_table_witness :
  exists c1 c2,
    renderLines [TABLE 2; TEXT "x"; SECTION] startCtx = Return tt c1 /\
    step (DESTINATION D_CELL false) c1 =
    Throw (FLTError "Cannot set destination to D_CELL when no table is defined") c2 /\
    doc (dom c2) = doc (dom c1).
Proof.
  pose (c1 := finalState (renderLines [TABLE 2; TEXT "x"; SECTION] startCtx)).
  exists c1, (setLink None (afterReset (DESTINATION D_CELL false) c1)).
  split; [reflexivity|]. split; [|reflexivity].
  eapply (cell_without_table c1
            (mkTypeLine T_DESTINATION None 0 None false D_CELL false "" "" false));
    [reflexivity | reflexivity | vm_compute; reflexivity |].
  repeat constructor. discriminate.
Defined.

(** * Well-formed states of the render loop *)

(** ** Trees under appends and removals *)

Lemma elems_appendChildrenT_old p ns t e :
  In e (elems t) -> In e (elems (appendChildrenT p ns t)).
Proof.
  revert e. induction t as [e0 cs IH| |] using node_ind'; intros e; try (simpl; tauto).
  rewrite appendChildrenT_Element. simpl. rewrite flat_map_app.
  intros [H|H]; [auto|]. right. apply in_or_app. left.
  apply in_flat_map in H. destruct H as [c [Hc He]].
  apply in_flat_map. exists (appendChildrenT p ns c). split.
  - apply in_map. assumption.
  - rewrite Forall_forall in IH. auto.
Qed.

Lemma children_elems_grow p ns cs extra e :
  In e (flat_map elems cs) ->
  In e (flat_map elems (map (appendChildrenT p ns) cs ++ extra)).
Proof.
  intros H. rewrite flat_map_app. apply in_or_app. left.
  apply in_flat_map in H. destruct H as [c [Hc He]].
  apply in_flat_map. exists (appendChildrenT p ns c). split.
  - apply in_map. assumption.
  - apply elems_appendChildrenT_old. assumption.
Qed.

Lemma okAside_append p ns t :
  Forall okAside (subtrees t) -> Forall okAside (flat_map subtrees ns) ->
  Forall okAside (subtrees (appendChildrenT p ns t)).
Proof.
  intros Ht Hns. induction t as [e cs IH| |] using node_ind'; try (simpl; constructor).
  rewrite appendChildrenT_Element. simpl in Ht. inversion Ht as [|? ? Hroot Hcs]; subst.
  cbn [subtrees]. constructor.
  - intros Ha. destruct (Hroot Ha) as [q [Hq Hp]]. exists q. split; [|exact Hp].
    apply children_elems_grow. assumption.
  - rewrite flat_map_app. apply Forall_app. split.
    + rewrite Forall_forall in *. intros n Hn.
      apply in_flat_map in Hn. destruct Hn as [c' [Hc' Hn]].
      apply in_map_iff in Hc'. destruct Hc' as [c [<- Hc]].
      revert n Hn. rewrite <- Forall_forall. apply (IH c Hc).
      rewrite Forall_forall. intros n Hn. apply Hcs.
      apply in_flat_map. exists c. split; assumption.
    + destruct (eid e =? p); [exact Hns | constructor].
Qed.

Lemma getNode_subtrees i t N : getNode i t = Some N -> In N (subtrees t).
Proof.
  induction t as [e cs IH| |] using node_ind'; try discriminate.
  rewrite getNode_Element. destruct (eid e =? i).
  - intros H. inversion H; subst. simpl. auto.
  - intros H. simpl. right. apply findMap_Some in H. destruct H as [c [Hc Hg]].
    apply in_flat_map. exists c. split; [assumption|].
    rewrite Forall_forall in IH. auto.
Qed.

Lemma filter_cons_inv {A} (q : A -> bool) (x : A) l l' :
  filter q (x :: l) = filter q (x :: l') -> filter q l = filter q l'.
Proof. simpl. destruct (q x); [intros H; inversion H; reflexivity | auto]. Qed.

Lemma leaf_in_child i e cs c :
  NoDup (ids (Element e cs)) -> eid e <> i -> In c cs ->
  (forall n, getNode i (Element e cs) = Some n -> childNodes n = []) ->
  forall n, getNode i c = Some n -> childNodes n = [].
Proof.
  intros Hnd He Hc Hleaf n Hn. apply Hleaf. rewrite getNode_Element.
  destruct (Nat.eqb_spec (eid e) i); [contradiction|].
  simpl in Hnd. inversion Hnd as [|? ? _ Hcs]; subst. clear Hnd Hleaf He.
  induction cs as [|c0 r IHr]; simpl in *; [tauto|].
  apply NoDup_app_inv in Hcs. destruct Hcs as [N1 [N2 N3]].
  destruct Hc as [->|Hc].
  - rewrite Hn. reflexivity.
  - destruct (getNode i c0) as [m|] eqn:Em; [|apply IHr; assumption].
    exfalso. apply (N3 i).
    + apply hasNode_In. unfold hasNode. rewrite Em. reflexivity.
    + apply in_flat_map. exists c. split; [assumption|].
      apply hasNode_In. unfold hasNode. rewrite Hn. reflexivity.
Qed.

Lemma NoDup_child e cs c : NoDup (ids (Element e cs)) -> In c cs -> NoDup (ids c).
Proof.
  intros Hnd Hc. simpl in Hnd. inversion Hnd as [|? ? _ Hcs]; subst. clear Hnd.
  induction cs as [|c0 r IHr]; simpl in *; [tauto|].
  apply NoDup_app_inv in Hcs. destruct Hcs as [N1 [N2 _]].
  destruct Hc as [->|Hc]; [exact N1 | apply IHr; assumption].
Qed.

(** Removing a childless element that is no paragraph leaves every
    note its paragraph. *)
Lemma okAside_removeNodeT i t :
  NoDup (ids t) ->
  (forall n, getNode i t = Some n -> childNodes n = []) ->
  (forall e, In e (elems t) -> eid e = i -> tag e <> "p") ->
  Forall okAside (subtrees t) -> Forall okAside (subtrees (removeNodeT i t)).
Proof.
  induction t as [e cs IH| |] using node_ind'; try solve [intros; simpl; constructor].
  intros Hnd Hleaf Htag Hok.
  pose proof (filter_elems_removeNodeT (fun x => String.eqb (tag x) "p") i
                (Element e cs) Hnd Hleaf) as Hfil.
  rewrite removeNodeT_Element in *. cbn [subtrees]. simpl in Hok.
  inversion Hok as [|? ? Hroot Hcs]; subst. constructor.
  - intros Ha. destruct (Hroot Ha) as [q [Hq Hp]]. exists q. split; [|exact Hp].
    cbn [elems] in Hfil. apply filter_cons_inv in Hfil.
    + assert (In q (filter (fun x => String.eqb (tag x) "p") (flat_map elems cs))) as H1.
      { apply filter_In. split; [assumption|]. rewrite Hp. reflexivity. }
      rewrite <- Hfil in H1. apply filter_In in H1. apply H1.
    + intros x Hx Hid. apply String.eqb_neq. apply Htag; assumption.
  - rewrite Forall_forall. intros n Hn.
    apply in_flat_map in Hn. destruct Hn as [c' [Hc' Hn]].
    apply filter_In in Hc'. destruct Hc' as [Hc' _].
    apply in_map_iff in Hc'. destruct Hc' as [c [<- Hc]].
    rewrite Forall_forall in IH. specialize (IH c Hc).
    destruct (Nat.eqb_spec (eid e) i) as [E|E].
    { specialize (Hleaf (Element e cs)). rewrite getNode_Element in Hleaf.
      rewrite <- E, Nat.eqb_refl in Hleaf. specialize (Hleaf eq_refl).
      simpl in Hleaf. subst cs. simpl in Hc. tauto. }
    assert (Forall okAside (subtrees (removeNodeT i c))) as Hc2.
    { apply IH.
      - apply (NoDup_child e cs c); assumption.
      - apply (leaf_in_child i e cs c); assumption.
      - intros x Hx. apply Htag. simpl. right. apply in_flat_map. exists c. auto.
      - rewrite Forall_forall. intros m Hm. rewrite Forall_forall in Hcs. apply Hcs.
        apply in_flat_map. exists c. auto. }
    rewrite Forall_forall in Hc2. auto.
Qed.

Lemma getNode_appendChildrenT_new p ns t j :
  getNode j t = None ->
  getNode j (appendChildrenT p ns t) =
  if hasNode p t then findMap (getNode j) ns else None.
Proof.
  induction t as [e cs IH| |] using node_ind'; try reflexivity.
  rewrite appendChildrenT_Element, !getNode_Element, hasNode_Element.
  destruct (eid e =? j) eqn:Ej; [discriminate|]. intros Hj.
  rewrite findMap_app.
  assert (findMap (getNode j) (map (appendChildrenT p ns) cs) =
          if existsb (hasNode p) cs then findMap (getNode j) ns else None) as H.
  { apply findMap_None in Hj.
    induction IH as [|c r Hc _ IHr]; simpl; [reflexivity|].
    inversion Hj as [|? ? Hjc Hjr]; subst.
    rewrite (Hc Hjc). destruct (hasNode p c); simpl.
    - destruct (findMap (getNode j) ns) eqn:Hn; [reflexivity|]. rewrite (IHr Hjr).
      destruct (existsb (hasNode p) r); reflexivity.
    - exact (IHr Hjr). }
  rewrite H. destruct (existsb (hasNode p) cs).
  - rewrite orb_true_r. destruct (findMap (getNode j) ns) eqn:Hn; [reflexivity|].
    destruct (eid e =? p); simpl; rewrite ?Hn; reflexivity.
  - rewrite orb_false_r. destruct (eid e =? p); simpl; [|reflexivity].
    destruct (findMap (getNode j) ns); reflexivity.
Qed.

(** ** The invariants under appends and removals *)

Lemma docOK_append (d : domState) p ns k :
  docOK d -> hasNode p (doc d) = true ->
  NoDup (flat_map ids ns) ->
  (forall j, In j (flat_map ids ns) -> nextId d <= j < nextId d + k) ->
  Forall okAside (flat_map subtrees ns) -> Forall okElem (flat_map elems ns) ->
  docOK (mkDom (appendChildrenT p ns (doc d)) (nextId d + k)).
Proof.
  intros [Hnd [Hf [Hb [Ha He]]]] Hp Hns Hr Hna Hne. unfold docOK. cbn [doc nextId].
  split; [apply (NoDup_appendChildrenT p ns d k); assumption|].
  split; [apply fresh_appendChildren; [assumption | intros j Hj; apply Hr; assumption]|].
  split; [apply hasNode_In; apply ids_appendChildrenT_old; apply hasNode_In; assumption|].
  split; [apply okAside_append; assumption|].
  rewrite Forall_forall in *. intros e Hin.
  apply elems_appendChildrenT_inv in Hin. destruct Hin; auto.
Qed.

Lemma sectOK_append dst s t p ns :
  sectOK dst s t -> ~ In s (flat_map ids ns) -> sectOK dst s (appendChildrenT p ns t).
Proof.
  intros [Hs [se [cs [HS [Ht [Hn Hc]]]]]] Hnew. split; [exact Hs|].
  exists se, (map (appendChildrenT p ns) cs ++ (if eid se =? p then ns else []))%list.
  split.
  - rewrite (section_after_append s t (Element se cs) p ns HS Hnew).
    rewrite appendChildrenT_Element. reflexivity.
  - split; [exact Ht|]. split.
    + intros E. destruct (Hn E) as [a [Ha1 Ha2]]. exists a. split; [|exact Ha2].
      apply children_elems_grow. assumption.
    + intros E. destruct (Hc E) as [x [Hx1 Hx2]]. exists x. split; [|exact Hx2].
      apply children_elems_grow. assumption.
Qed.

Lemma survives_removal i t e :
  NoDup (ids t) -> (forall n, getNode i t = Some n -> childNodes n = []) ->
  In e (elems t) -> eid e <> i -> In e (elems (removeNodeT i t)).
Proof.
  intros Hnd Hleaf He Hid.
  pose proof (filter_elems_removeNodeT (fun x => negb (eid x =? i)) i t Hnd Hleaf) as H.
  assert (In e (filter (fun x => negb (eid x =? i)) (elems t))) as H1.
  { apply filter_In. split; [assumption|]. apply negb_true_iff. apply Nat.eqb_neq.
    assumption. }
  rewrite <- H in H1.
  - apply filter_In in H1. apply H1.
  - intros x _ Hx. rewrite Hx, Nat.eqb_refl. reflexivity.
Qed.

Lemma docOK_remove (d : domState) i ei :
  docOK d -> i <> bodyId ->
  getNode i (doc d) = Some (Element ei []) -> tag ei <> "p" ->
  docOK (mkDom (removeNodeT i (doc d)) (nextId d)).
Proof.
  intros [Hnd [Hf [Hb [Ha He]]]] Hi Hg Ht. unfold docOK. cbn [doc nextId].
  assert (forall n, getNode i (doc d) = Some n -> childNodes n = []) as Hleaf.
  { intros n Hn. rewrite Hg in Hn. inversion Hn. reflexivity. }
  split; [apply NoDup_removeNodeT; assumption|].
  split.
  { unfold fresh in *. cbn [doc nextId]. rewrite Forall_forall in *. intros j Hj.
    rewrite ids_elems in Hj. apply in_map_iff in Hj. destruct Hj as [e [<- Hin]].
    apply elems_removeNodeT_incl in Hin. apply elems_ids in Hin. auto. }
  split.
  { apply hasNode_In in Hb. rewrite ids_elems in Hb. apply in_map_iff in Hb.
    destruct Hb as [be [Hbe Hin]]. apply hasNode_In. rewrite <- Hbe.
    apply elems_ids. apply survives_removal; try assumption. congruence. }
  split.
  { apply okAside_removeNodeT; try assumption.
    intros e Hin Hid. assert (e = ei) as ->; [|assumption].
    apply (elems_inj (doc d)); try assumption.
    - eapply getNode_elems. eassumption.
    - destruct (getNode_shape _ _ _ Hg) as [e' [cs' [E Hid']]]. inversion E; subst.
      congruence. }
  rewrite Forall_forall in *. intros e Hin. apply He.
  eapply elems_removeNodeT_incl. eassumption.
Qed.

(** ** Queries that find something *)

Lemma in_descendantsL c r :
  (exists b, In (c, b) (descendantsL (c :: r))) /\
  (forall x, In x (descendants c) -> In x (descendantsL (c :: r))) /\
  (forall x, In x (descendantsL r) -> In x (descendantsL (c :: r))).
Proof.
  simpl. split; [eexists; left; reflexivity|]. split.
  - intros x Hx. right. apply in_or_app. left. assumption.
  - intros x Hx. right. apply in_or_app. right. assumption.
Qed.

Lemma elems_strict_descendants se cs e :
  In e (flat_map elems cs) ->
  exists cs' b, In (Element e cs', b) (descendants (Element se cs)).
Proof.
  rewrite descendants_Element. induction cs as [|c r IH]; simpl flat_map; [simpl; tauto|].
  intros H. apply in_app_or in H.
  destruct (in_descendantsL c r) as [[b0 H0] [H1 H2]]. destruct H as [H|H].
  - destruct (elems_descendants c e H) as [cs' [b [Hin|Hin]]].
    + inversion Hin; subst. exists cs', b0. assumption.
    + exists cs', b. apply H1. assumption.
  - destruct (IH H) as [cs' [b Hin]]. exists cs', b. apply H2. assumption.
Qed.

Lemma query_finds sel se cs e :
  In e (flat_map elems cs) -> (forall b, existsb (matchesSimple e b) sel = true) ->
  In e (querySelectorAllN sel (Element se cs)).
Proof.
  intros He Hm. destruct (elems_strict_descendants se cs e He) as [cs' [b Hin]].
  unfold querySelectorAllN. eapply selectAll_intro; [eassumption | apply Hm].
Qed.

Lemma lastOf_some {A} (l : list A) x : In x l -> exists y, lastOf l = Some y.
Proof.
  revert x. induction l as [|a l IH]; intros x; [simpl; tauto|].
  intros _. destruct l as [|b l]; [exists a; reflexivity|].
  change (lastOf (a :: b :: l)) with (lastOf (b :: l)).
  apply (IH b). left. reflexivity.
Qed.

Lemma getNode_elems_incl i t N e :
  getNode i t = Some N -> In e (elems N) -> In e (elems t).
Proof.
  revert N. induction t as [e0 cs IH| |] using node_ind'; intros N; try discriminate.
  rewrite getNode_Element. destruct (eid e0 =? i).
  - intros H. inversion H; subst. auto.
  - intros H He. simpl. right. apply findMap_Some in H. destruct H as [c [Hc Hg]].
    apply in_flat_map. exists c. split; [assumption|].
    rewrite Forall_forall in IH. eapply IH; eassumption.
Qed.

(** The subtree of an element found in a subtree. *)
Lemma subtree_of_member t s S0 e :
  NoDup (ids t) -> getNode s t = Some S0 -> In e (elems S0) ->
  exists cs, getNode (eid e) t = Some (Element e cs) /\
             forall j, In j (ids (Element e cs)) -> In j (ids S0).
Proof.
  intros Hnd HS He.
  pose proof (getNode_NoDup _ _ _ HS Hnd) as HndS.
  destruct (getNode_elem S0 e HndS He) as [cs Hg].
  exists cs. split.
  - apply (getNode_inside s t S0 _ _ Hnd HS Hg).
  - intros j Hj. eapply getNode_ids; eassumption.
Qed.

(** ** The destination is always found *)

Lemma sect_below dst s d : docOK d -> sectOK dst s (doc d) -> s < nextId d.
Proof.
  intros [_ [Hf _]] [_ [se [cs [Hg _]]]]. apply fresh_lt; [assumption|].
  unfold hasNode. rewrite Hg. reflexivity.
Qed.

Lemma safe_append dst s (d : domState) p ns k :
  docOK d -> sectOK dst s (doc d) -> hasNode p (doc d) = true ->
  NoDup (flat_map ids ns) ->
  (forall j, In j (flat_map ids ns) -> nextId d <= j < nextId d + k) ->
  Forall okAside (flat_map subtrees ns) -> Forall okElem (flat_map elems ns) ->
  docOK (mkDom (appendChildrenT p ns (doc d)) (nextId d + k)) /\
  sectOK dst s (appendChildrenT p ns (doc d)).
Proof.
  intros Hd Hs Hp Hnd Hr Ha He. split.
  - apply docOK_append; assumption.
  - apply sectOK_append; [assumption|]. intros Hin.
    pose proof (sect_below _ _ _ Hd Hs). apply Hr in Hin. lia.
Qed.

(** One new element without children. *)
Lemma safe_append_leaf dst s (d : domState) p e :
  docOK d -> sectOK dst s (doc d) -> hasNode p (doc d) = true ->
  eid e = nextId d -> tag e <> "aside" -> okElem e ->
  docOK (mkDom (appendChildrenT p [Element e []] (doc d)) (S (nextId d))) /\
  sectOK dst s (appendChildrenT p [Element e []] (doc d)).
Proof.
  intros Hd Hs Hp Hid Ht He. replace (S (nextId d)) with (nextId d + 1) by lia.
  apply safe_append; try assumption.
  - simpl. rewrite Hid. repeat constructor; simpl; tauto.
  - simpl. rewrite Hid. intros j [<-|[]]. lia.
  - simpl. repeat constructor. simpl. intros H. contradiction.
  - simpl. repeat constructor; apply He.
Qed.

Lemma okElem_newElem n tg :
  tg <> "notAnElement" -> tg <> "table" -> okElem (newElem n tg).
Proof. intros H1 H2. split; simpl; [assumption | intros H; contradiction]. Qed.

Lemma lastChild_returns tg dst s d :
  tg = "p" \/ tg = "h2" ->
  docOK d -> sectOK dst s (doc d) ->
  exists r d1 S1,
    (p <- lastElementChild s ;;
     match p with
     | Some e => if String.eqb (tag e) tg then ret (eid e) else createAppend s tg
     | None => createAppend s tg
     end) d = Return r d1 /\
    docOK d1 /\ sectOK dst s (doc d1) /\
    getNode s (doc d1) = Some S1 /\ hasNode r S1 = true.
Proof.
  intros Htg Hd Hs. pose proof Hs as [Hsb [se [cs [Hg _]]]].
  assert (hasNode s (doc d) = true) as Hh by (unfold hasNode; rewrite Hg; reflexivity).
  assert (exists d1 S1,
    createAppend s tg d = Return (nextId d) d1 /\
    docOK d1 /\ sectOK dst s (doc d1) /\
    getNode s (doc d1) = Some S1 /\ hasNode (nextId d) S1 = true) as Hnew.
  { rewrite (createAppend_run _ _ _ Hh). rewrite appendChildT_children.
    destruct (safe_append_leaf dst s d s (newElem (nextId d) tg) Hd Hs Hh) as [H1 H2].
    - reflexivity.
    - simpl. destruct Htg; subst; discriminate.
    - apply okElem_newElem; destruct Htg; subst; discriminate.
    - eexists _, _. split; [reflexivity|]. split; [exact H1|]. split; [exact H2|].
      cbn [doc]. split.
      + apply section_after_append; [exact Hg|]. simpl.
        pose proof (sect_below _ _ _ Hd Hs). intros [E|[]]. lia.
      + apply hasNode_In. apply ids_appendChildrenT_new.
        * simpl. left. destruct (getNode_shape _ _ _ Hg) as [e' [cs' [E1 E2]]].
          inversion E1; subst. reflexivity.
        * simpl. left. reflexivity. }
  unfold bind at 1. unfold lastElementChild, withNode. rewrite Hg. cbn [ret].
  destruct (lastElementChildN (Element se cs)) as [e|] eqn:El.
  - destruct (String.eqb (tag e) tg).
    + exists (eid e), d, (Element se cs).
      split; [reflexivity|]. split; [exact Hd|]. split; [exact Hs|].
      split; [exact Hg|]. apply hasNode_In. apply lastElementChildN_ids. assumption.
    + destruct Hnew as [d1 [S1 H]]. exists (nextId d), d1, S1. exact H.
  - destruct Hnew as [d1 [S1 H]]. exists (nextId d), d1, S1. exact H.
Qed.

Lemma tag_of_group e (a b : string) :
  existsb (fun s => String.eqb (tag e) (selTag s)) [SelTag a; SelTag b] = true ->
  tag e = a \/ tag e = b.
Proof.
  simpl. rewrite Bool.orb_false_r. intros H. apply Bool.orb_true_iff in H.
  destruct H as [H|H]; apply String.eqb_eq in H; auto.
Qed.

Lemma group_matches e (a b : string) :
  tag e = a \/ tag e = b -> forall f, existsb (matchesSimple e f) [SelTag a; SelTag b] = true.
Proof.
  intros H f. simpl. destruct H as [H|H]; rewrite H, String.eqb_refl;
    [reflexivity | apply Bool.orb_true_iff; right; reflexivity].
Qed.

(** The last match of a group of type selectors below an element. *)
Lemma last_match a b se cs x :
  In x (flat_map elems cs) -> (tag x = a \/ tag x = b) ->
  exists y, lastOf (querySelectorAllN [SelTag a; SelTag b] (Element se cs)) = Some y /\
            In y (flat_map elems cs) /\ (tag y = a \/ tag y = b).
Proof.
  intros Hx Ht.
  destruct (lastOf_some _ x (query_finds [SelTag a; SelTag b] se cs x Hx (group_matches x a b Ht)))
    as [y Hy].
  exists y. split; [assumption|]. pose proof (lastOf_In _ _ Hy) as Hin. split.
  - unfold querySelectorAllN in Hin. destruct (selectAll_In _ _ _ Hin) as [cs' [f Hd]].
    rewrite descendants_Element in Hd. clear -Hd.
    induction cs as [|c r IH]; simpl in Hd; [tauto|].
    simpl. apply in_or_app. destruct Hd as [Hd|Hd].
    + inversion Hd; subst. left. simpl. left. reflexivity.
    + apply in_app_or in Hd. destruct Hd as [Hd|Hd].
      * left. eapply descendants_elems. eassumption.
      * right. apply IH. assumption.
  - apply tag_of_group. eapply selectAll_tag. exact Hin.
Qed.

Lemma query_run (i : ref) sel (d : domState) N :
  getNode i (doc d) = Some N ->
  querySelectorAll i sel d = Return (querySelectorAllN sel N) d.
Proof. intros H. unfold querySelectorAll, withNode. rewrite H. reflexivity. Qed.

Lemma destElD_returns dst s d :
  docOK d -> sectOK dst s (doc d) ->
  exists r d1 S1,
    destElD dst s d = Return r d1 /\
    docOK d1 /\ sectOK dst s (doc d1) /\
    getNode s (doc d1) = Some S1 /\ hasNode r S1 = true.
Proof.
  intros Hd Hs. destruct dst.
  - apply lastChild_returns; auto.
  - pose proof Hs as [_ [se [cs [Hg [_ [Hnote _]]]]]].
    destruct (Hnote eq_refl) as [a [Ha Hta]]. pose proof Hd as [Hnd [_ [_ [Hoka Hoke]]]].
    destruct (last_match "aside" "notAnElement" se cs a Ha (or_introl Hta))
      as [note [Hl [Hin Htn]]].
    assert (In note (elems (Element se cs))) as HinS by (simpl; right; assumption).
    destruct (subtree_of_member _ _ _ note Hnd Hg HinS) as [ncs [Hgn Hsub]].
    assert (tag note = "aside") as Hasn.
    { destruct Htn as [H|H]; [assumption|]. exfalso.
      rewrite Forall_forall in Hoke.
      assert (okElem note) as [Hno _]
        by (apply Hoke; apply (getNode_elems_incl _ _ _ _ Hg HinS)).
      apply Hno. assumption. }
    rewrite Forall_forall in Hoka.
    destruct (Hoka _ (getNode_subtrees _ _ _ Hgn) Hasn) as [p [Hp Htp]].
    destruct (last_match "p" "notAnElement" note ncs p Hp (or_introl Htp))
      as [q [Hlq [Hinq _]]].
    exists (eid q), d, (Element se cs). split.
    + unfold destElD. unfold bind at 1. rewrite (query_run _ _ _ _ Hg). rewrite Hl.
      unfold bind at 1. rewrite (query_run _ _ _ _ Hgn). rewrite Hlq. reflexivity.
    + split; [exact Hd|]. split; [exact Hs|]. split; [exact Hg|].
      apply hasNode_In. apply Hsub. simpl. right.
      apply in_flat_map in Hinq. destruct Hinq as [c [Hc Hq]].
      apply in_flat_map. exists c. split; [assumption|]. apply elems_ids. assumption.
  - pose proof Hs as [_ [se [cs [Hg [_ [_ Hcell]]]]]].
    destruct (Hcell eq_refl) as [x [Hx Htx]]. pose proof Hd as [Hnd _].
    destruct (last_match "th" "td" se cs x Hx Htx) as [cell [Hl [Hin _]]].
    assert (In cell (elems (Element se cs))) as HinS by (simpl; right; assumption).
    destruct (subtree_of_member _ _ _ cell Hnd Hg HinS) as [ccs [Hgc Hsub]].
    assert (exists r, (match lastOf (querySelectorAllN [SelTag "aside"; SelTag "p"]
                                       (Element cell ccs)) with
                       | None => ret (eid cell)
                       | Some cont => ret (eid cont)
                       end : D ref) d = Return r d /\ In r (ids (Element cell ccs)))
      as [r [Hr Hrin]].
    { destruct (lastOf (querySelectorAllN [SelTag "aside"; SelTag "p"] (Element cell ccs)))
        as [cont|] eqn:Ec.
      - exists (eid cont). split; [reflexivity|].
        eapply querySelectorAllN_ids. eapply lastOf_In. eassumption.
      - exists (eid cell). split; [reflexivity|]. simpl. left. reflexivity. }
    exists r, d, (Element se cs). split.
    + unfold destElD. unfold bind at 1. rewrite (query_run _ _ _ _ Hg). rewrite Hl.
      unfold bind at 1. rewrite (query_run _ _ _ _ Hgc). exact Hr.
    + split; [exact Hd|]. split; [exact Hs|]. split; [exact Hg|].
      apply hasNode_In. apply Hsub. assumption.
  - apply lastChild_returns; auto.
Qed.

(** ** Every line keeps the state well formed *)

Lemma subtrees_root t N :
  In N (subtrees t) -> exists e cs, N = Element e cs /\ In e (elems t).
Proof.
  revert N. induction t as [e0 cs IH| |] using node_ind'; intros N; try (simpl; tauto).
  simpl. intros [H|H].
  - exists e0, cs. split; [auto | left; reflexivity].
  - apply in_flat_map in H. destruct H as [c [Hc HN]].
    rewrite Forall_forall in IH. destruct (IH c Hc N HN) as [e [cs' [E He]]].
    exists e, cs'. split; [assumption|]. right. apply in_flat_map. exists c. auto.
Qed.

Lemma plainTag_spec e :
  plainTag e = true ->
  tag e <> "aside" /\ tag e <> "notAnElement" /\ tag e <> "table".
Proof.
  unfold plainTag. simpl. intros H. apply Bool.negb_true_iff in H.
  repeat (apply Bool.orb_false_iff in H; destruct H as [?H H]).
  repeat split; intros E; rewrite E in *; discriminate.
Qed.

Lemma plain_nodes_ok ns :
  forallb plainTag (flat_map elems ns) = true ->
  Forall okAside (flat_map subtrees ns) /\ Forall okElem (flat_map elems ns).
Proof.
  intros H. rewrite forallb_forall in H. split; apply Forall_forall.
  - intros N HN. apply in_flat_map in HN. destruct HN as [c [Hc HN]].
    destruct (subtrees_root _ _ HN) as [e [cs [-> He]]]. simpl. intros Ht. exfalso.
    assert (plainTag e = true) as Hp by (apply H; apply in_flat_map; eauto).
    apply plainTag_spec in Hp. tauto.
  - intros e He. apply H in He. apply plainTag_spec in He.
    split; [tauto | intros Ht; tauto].
Qed.

Lemma safe_append_plain dst s (d : domState) p ns k :
  docOK d -> sectOK dst s (doc d) -> hasNode p (doc d) = true ->
  NoDup (flat_map ids ns) ->
  (forall j, In j (flat_map ids ns) -> nextId d <= j < nextId d + k) ->
  forallb plainTag (flat_map elems ns) = true ->
  docOK (mkDom (appendChildrenT p ns (doc d)) (nextId d + k)) /\
  sectOK dst s (appendChildrenT p ns (doc d)).
Proof.
  intros Hd Hs Hp Hnd Hr Hpl. destruct (plain_nodes_ok ns Hpl).
  apply safe_append; assumption.
Qed.

Lemma safeInv_same c c' :
  dom c' = dom c -> dest c' = dest c -> sect c' = sect c -> safeInv c -> safeInv c'.
Proof. unfold safeInv. intros -> -> ->. tauto. Qed.

Lemma safeInv_afterReset l c : safeInv c -> safeInv (afterReset l c).
Proof.
  apply safeInv_same;
    [apply afterReset_dom | apply afterReset_dest | apply afterReset_sect].
Qed.

Lemma sectOK_leave dst dst' s t :
  sectOK dst s t -> dst' <> D_NOTE -> dst' <> D_CELL -> sectOK dst' s t.
Proof.
  intros [H0 [se [cs [Hg [Ht _]]]]] H1 H2. split; [assumption|].
  exists se, cs. repeat split; try assumption; intros E; contradiction.
Qed.

(** The section holds what was appended below it. *)
Lemma sectOK_enter dst dst' s t p ns x S1 :
  sectOK dst s t -> getNode s t = Some S1 -> hasNode p S1 = true ->
  ~ In s (flat_map ids ns) ->
  In x (flat_map elems ns) ->
  (dst' = D_NOTE -> tag x = "aside") ->
  (dst' = D_CELL -> tag x = "th" \/ tag x = "td") ->
  sectOK dst' s (appendChildrenT p ns t).
Proof.
  intros [H0 [se [cs [Hg [Ht _]]]]] Hg' Hp Hs Hx Hn Hc.
  rewrite Hg in Hg'. inversion Hg'; subst S1. clear Hg'.
  split; [assumption|].
  pose proof (section_after_append s t _ p ns Hg Hs) as Hg2.
  destruct (getNode_shape _ _ _ Hg) as [e' [cs' [E1 E2]]]. inversion E1; subst e' cs'.
  rewrite appendChildrenT_Element in Hg2.
  eexists _, _. split; [exact Hg2|]. split; [assumption|].
  assert (In x (elems (appendChildrenT p ns (Element se cs)))) as Hin.
  { apply elems_appendChildrenT_new; [apply hasNode_In; assumption | assumption]. }
  rewrite appendChildrenT_Element in Hin. simpl in Hin.
  assert (In x (flat_map elems (map (appendChildrenT p ns) cs ++
                                (if eid se =? p then ns else [])))) as Hin'.
  { destruct Hin as [E|Hin]; [|assumption]. exfalso. apply Hs.
    apply in_flat_map in Hx. destruct Hx as [c [Hc' Hx]].
    apply in_flat_map. exists c. split; [assumption|].
    rewrite <- E2, E. apply elems_ids. assumption. }
  split; intros E; exists x; split; auto.
Qed.

Lemma image_blob_run (c : ctx) (l : TypeLine) (d : ref) (d1 : domState) ty da :
  fresh (dom c) -> destElD (dest c) (sect c) (dom c) = Return d d1 ->
  lineType l = T_IMAGE -> truthy (content l) = false -> blob c = Some (ty, da) ->
  step (Typed l) c =
  Return tt
    (setHint (spent (hint (afterReset (Typed l) c)))
       (setDom
          (mkDom
             (appendChildrenT d
                [Element (titled (hint (afterReset (Typed l) c))
                            (withAttr "src" ("data:" ++ ty ++ ";base64," ++ da)
                               (newElem (nextId d1) "img"))) []]
                (doc d1))
             (S (nextId d1)))
          (afterReset (Typed l) c))).
Proof.
  intros Hfresh Hdest Hk Hsrc Hb. destruct (destElD_spec _ _ _ _ _ Hdest) as [Hd _].
  pose proof (new_not_in c d d1 Hfresh Hdest) as Ha.
  rewrite step_afterReset. unfold handleTyped. rewrite Hk. unfold handleImage.
  unfold bind at 1. rewrite (destEl_c0 c l d d1 Hdest).
  unfold bind at 1. unfold liftD at 1. cbn [dom setDom].
  rewrite (createAppend_run _ _ _ Hd). rewrite appendChildT_children.
  rewrite Hsrc. unfold bind at 1. unfold bind at 1. unfold gets at 1.
  cbn [blob setDom]. rewrite afterReset_blob, Hb.
  unfold liftD at 1. cbn [dom setDom].
  unfold setAttribute, setAttributeT, updElem. unfold leaf.
  rewrite update_new; [| reflexivity | exact Ha | simpl; tauto | exact Hd].
  cbv beta.
  rewrite (applyHint_new (nextId d1) d
             (withAttr "src" ("data:" ++ ty ++ ";base64," ++ da) (newElem (nextId d1) "img"))
             (doc d1) (S (nextId d1))); [| reflexivity | exact Ha | exact Hd | reflexivity].
  reflexivity.
Qed.

Lemma tag_titled h e : tag (titled h e) = tag e.
Proof. unfold titled. destruct (truthy h); reflexivity. Qed.

Lemma eid_titled h e : eid (titled h e) = eid e.
Proof. unfold titled. destruct (truthy h); reflexivity. Qed.

Lemma fltColumns_titled h e : fltColumns (titled h e) = fltColumns e.
Proof. unfold titled. destruct (truthy h); reflexivity. Qed.

(** The state after one element was appended at the destination. *)
Lemma one_element_safe c r d1 S1 e c' :
  docOK d1 -> sectOK (dest c) (sect c) (doc d1) ->
  getNode (sect c) (doc d1) = Some S1 -> hasNode r S1 = true ->
  dom c' = mkDom (appendChildrenT r [Element e []] (doc d1)) (S (nextId d1)) ->
  dest c' = dest c -> sect c' = sect c ->
  eid e = nextId d1 -> tag e = "a" \/ tag e = "img" ->
  safeInv c'.
Proof.
  intros Hd Hs Hg Hr E1 E2 E3 He Ht. unfold safeInv. rewrite E1, E2, E3. cbn [doc].
  assert (hasNode r (doc d1) = true) as Hr'.
  { unfold hasNode in Hr. destruct (getNode r S1) eqn:Er; [|discriminate].
    eapply getNode_trans; eassumption. }
  apply safe_append_leaf; try assumption.
  - destruct Ht as [Ht|Ht]; rewrite Ht; discriminate.
  - split; destruct Ht as [Ht|Ht]; rewrite Ht; discriminate.
Qed.

Ltac dest_returns c r d1 S1 Hr Hd1 Hs1 Hg1 Hin1 :=
  match goal with
  | Hinv : safeInv c |- _ =>
      let Hd := fresh "Hd" in
      let Hs := fresh "Hs" in
      pose proof Hinv as [Hd Hs];
      destruct (destElD_returns _ _ _ Hd Hs) as [r [d1 [S1 [Hr [Hd1 [Hs1 [Hg1 Hin1]]]]]]]
  end.

Ltac one_element c r d1 S1 Hd1 Hs1 Hg1 Hin1 :=
  eapply (one_element_safe c r d1 S1 _ _ Hd1 Hs1 Hg1 Hin1);
  [ reflexivity
  | cbn [dest setHint setDom setLink]; apply afterReset_dest
  | cbn [sect setHint setDom setLink]; apply afterReset_sect
  | rewrite ?eid_titled; reflexivity
  | rewrite ?tag_titled; cbn [tag withAttr newElem]; auto ].

Lemma link_safe c l : lineType l = T_LINK -> safeInv c -> lineSafe (Typed l) c.
Proof.
  intros Hk Hinv. dest_returns c r d1 S1 Hr Hd1 Hs1 Hg1 Hin1. unfold lineSafe.
  rewrite (link_run c l r d1 (proj1 (proj2 Hd)) Hr Hk).
  one_element c r d1 S1 Hd1 Hs1 Hg1 Hin1.
Qed.

Lemma anchor_safe c l : lineType l = T_ANCHOR -> safeInv c -> lineSafe (Typed l) c.
Proof.
  intros Hk Hinv. dest_returns c r d1 S1 Hr Hd1 Hs1 Hg1 Hin1. unfold lineSafe.
  rewrite (anchor_run c l r d1 (proj1 (proj2 Hd)) Hr Hk).
  one_element c r d1 S1 Hd1 Hs1 Hg1 Hin1.
Qed.

Lemma image_safe c l : lineType l = T_IMAGE -> safeInv c -> lineSafe (Typed l) c.
Proof.
  intros Hk Hinv. dest_returns c r d1 S1 Hr Hd1 Hs1 Hg1 Hin1. unfold lineSafe.
  destruct (truthy (content l)) eqn:Hsrc.
  - rewrite (image_inline_run c l r d1 (proj1 (proj2 Hd)) Hr Hk Hsrc).
    one_element c r d1 S1 Hd1 Hs1 Hg1 Hin1.
  - destruct (blob c) as [[ty da]|] eqn:Hb.
    + rewrite (image_blob_run c l r d1 ty da (proj1 (proj2 Hd)) Hr Hk Hsrc Hb).
      one_element c r d1 S1 Hd1 Hs1 Hg1 Hin1.
    + rewrite (image_no_blob c l r d1 Hk Hsrc Hr Hb). simpl. rewrite Hk.
      split; [assumption | reflexivity].
Qed.

Lemma elems_nest ws i inner e :
  In e (flat_map elems (nest ws i inner)) ->
  In (tag e) (map fst ws) \/ In e (flat_map elems inner).
Proof.
  revert i. induction ws as [|w ws IH]; intros i; simpl; [tauto|].
  rewrite app_nil_r. intros [H|H].
  - left. left. rewrite <- H. reflexivity.
  - destruct (IH _ H); tauto.
Qed.

Lemma elems_fragmentNodes rest : forall first k e,
  In e (flat_map elems (fragmentNodes first rest k)) -> tag e = "br".
Proof.
  induction rest as [|f r IH]; intros first k e; simpl; [tauto|].
  intros [H|H]; [rewrite <- H; reflexivity | eapply IH; eassumption].
Qed.

Lemma wrappers_tags l tg :
  In tg (map fst (wrappers l)) -> In tg ["em"; "strong"; "span"; "sup"; "sub"].
Proof.
  unfold wrappers. rewrite !map_app. rewrite !in_app_iff.
  destruct (italic l), (bold l), (underline l || strikeout l || mono l),
    (supertext l), (subtext l); simpl; tauto.
Qed.

Lemma text_subtree_plain l i k :
  forallb plainTag (flat_map elems (nest (wrappers l) i (fragmentsOf (text l) k))) = true.
Proof.
  apply forallb_forall. intros e He. apply elems_nest in He. destruct He as [He|He].
  - apply wrappers_tags in He. unfold plainTag. simpl in He.
    destruct He as [E|[E|[E|[E|[E|[]]]]]]; rewrite <- E; reflexivity.
  - unfold fragmentsOf in He. unfold plainTag.
    destruct (split (text l)); apply elems_fragmentNodes in He; rewrite He; reflexivity.
Qed.

Lemma text_safe c l : safeInv c -> lineSafe (Texted l) c.
Proof.
  intros Hinv. dest_returns c r d1 S1 Hr Hd1 Hs1 Hg1 Hin1. unfold lineSafe.
  rewrite (text_line_run c l r d1 (proj1 (proj2 Hd)) Hr).
  unfold safeInv. cbn [dom dest sect setDom doc].
  rewrite afterReset_dest, afterReset_sect. rewrite <- Nat.add_assoc.
  assert (hasNode r (doc d1) = true) as Hr'.
  { unfold hasNode in Hin1. destruct (getNode r S1) eqn:Er; [|discriminate].
    eapply getNode_trans; eassumption. }
  apply safe_append_plain; try assumption.
  - apply insertionPoint_hasNode. assumption.
  - rewrite ids_text_subtree. apply seq_NoDup.
  - intros j Hj. rewrite ids_text_subtree in Hj. apply in_seq in Hj. lia.
  - apply text_subtree_plain.
Qed.

Lemma meta_safe r c : safeInv c -> lineSafe (Meta r) c.
Proof.
  intros Hinv. unfold lineSafe. rewrite step_afterReset. simpl.
  apply safeInv_afterReset. assumption.
Qed.

Lemma hint_safe c l : lineType l = T_HINT -> safeInv c -> lineSafe (Typed l) c.
Proof.
  intros Hk Hinv. unfold lineSafe. rewrite step_afterReset. unfold handleTyped.
  rewrite Hk. simpl. eapply safeInv_same; [| | | apply (safeInv_afterReset (Typed l)); eassumption];
    reflexivity.
Qed.

Lemma blob_safe c l : lineType l = T_BLOB -> safeInv c -> lineSafe (Typed l) c.
Proof.
  intros Hk Hinv. unfold lineSafe. rewrite step_afterReset. unfold handleTyped.
  rewrite Hk. simpl. eapply safeInv_same; [| | | apply (safeInv_afterReset (Typed l)); eassumption];
    reflexivity.
Qed.

(** A TABLE line appends a table with its column count to the
    section. *)
Lemma table_run c l :
  fresh (dom c) -> hasNode (sect c) (doc (dom c)) = true ->
  lineType l = T_TABLE ->
  step (Typed l) c =
  Return tt
    (setDom
       (mkDom
          (appendChildrenT (sect c)
             [Element (withColumns (columns l) (newElem (nextId (dom c)) "table")) []]
             (doc (dom c)))
          (S (nextId (dom c))))
       (afterReset (Typed l) c)).
Proof.
  intros Hf Hs Hk. rewrite step_afterReset. unfold handleTyped. rewrite Hk.
  unfold handleTable. unfold bind at 1. unfold gets at 1.
  unfold bind at 1. unfold liftD at 1. rewrite afterReset_dom, afterReset_sect.
  rewrite (createAppend_run _ _ _ Hs). rewrite appendChildT_children.
  unfold liftD. cbn [dom setDom].
  unfold setFltColumns, setFltColumnsT, updElem. unfold leaf.
  rewrite update_new; [| reflexivity | | simpl; tauto | exact Hs].
  - reflexivity.
  - intros Hin. unfold fresh in Hf. rewrite Forall_forall in Hf. apply Hf in Hin. lia.
Qed.

Lemma sect_present dst s t : sectOK dst s t -> hasNode s t = true.
Proof. intros [_ [se [cs [Hg _]]]]. unfold hasNode. rewrite Hg. reflexivity. Qed.

Lemma table_safe c l : lineType l = T_TABLE -> safeInv c -> lineSafe (Typed l) c.
Proof.
  intros Hk Hinv. pose proof Hinv as [Hd Hs]. unfold lineSafe.
  rewrite (table_run c l (proj1 (proj2 Hd)) (sect_present _ _ _ Hs) Hk).
  unfold safeInv. cbn [dom dest sect setDom doc].
  rewrite afterReset_dest, afterReset_sect.
  replace (S (nextId (dom c))) with (nextId (dom c) + 1) by lia.
  apply safe_append; try assumption.
  - apply (sect_present _ _ _ Hs).
  - simpl. repeat constructor; simpl; tauto.
  - simpl. intros j [<-|[]]. lia.
  - simpl. repeat constructor. simpl. discriminate.
  - simpl. repeat constructor; simpl; [discriminate | discriminate].
Qed.

(** ** DESTINATION lines *)

Lemma destination_step l c :
  lineType l = T_DESTINATION ->
  step (Typed l) c =
  match match destinationOf l with
        | D_NOTE => enterNote
        | D_CELL => enterCell l
        | D_HEAD => enterHead
        | D_BODY => ret tt
        end (setLink None (afterReset (Typed l) c)) with
  | Return _ c' => Return tt (setDest (destinationOf l) c')
  | Throw e c' => Throw e c'
  end.
Proof.
  intros Hk. rewrite step_afterReset. unfold handleTyped. rewrite Hk.
  unfold handleDestination. unfold bind at 1. unfold modify at 1.
  unfold bind at 1.
  destruct (match destinationOf l with
            | D_NOTE => enterNote
            | D_CELL => enterCell l
            | D_HEAD => enterHead
            | D_BODY => ret tt
            end (setLink None (afterReset (Typed l) c))) as [[] c'|e c']; reflexivity.
Qed.

Lemma safeInv_closed l c : safeInv c -> safeInv (setLink None (afterReset (Typed l) c)).
Proof.
  intros H. eapply safeInv_same; [| | | apply (safeInv_afterReset (Typed l)); exact H];
    reflexivity.
Qed.

Lemma body_below d : docOK d -> bodyId < nextId d.
Proof. intros [_ [Hf [Hb _]]]. apply fresh_lt; assumption. Qed.

Lemma new_below (d : domState) : fresh d -> ~ In (nextId d) (ids (doc d)).
Proof.
  intros Hf Hin. unfold fresh in Hf. rewrite Forall_forall in Hf. apply Hf in Hin. lia.
Qed.

(** A section appended to the body is the section of a well-formed
    state, for every destination but the note and the cell. *)
Lemma new_section_safe (d : domState) e dst :
  docOK d -> eid e = nextId d -> tag e = "section" ->
  dst <> D_NOTE -> dst <> D_CELL ->
  docOK (mkDom (appendChildrenT bodyId [Element e []] (doc d)) (S (nextId d))) /\
  sectOK dst (nextId d) (appendChildrenT bodyId [Element e []] (doc d)).
Proof.
  intros Hd He Ht H1 H2. pose proof Hd as [_ [Hf [Hb _]]]. split.
  - replace (S (nextId d)) with (nextId d + 1) by lia. apply docOK_append; try assumption.
    + simpl. rewrite He. repeat constructor; simpl; tauto.
    + simpl. rewrite He. intros j [<-|[]]. lia.
    + simpl. repeat constructor. simpl. rewrite Ht. discriminate.
    + simpl. repeat constructor; simpl; rewrite Ht; discriminate.
  - split.
    + pose proof (body_below d Hd). lia.
    + exists e, []. split; [|split; [assumption | split; intros E; contradiction]].
      rewrite getNode_appendChildrenT_new.
      * rewrite Hb. simpl. rewrite He, Nat.eqb_refl. reflexivity.
      * apply new_below in Hf. apply hasNode_false in Hf. unfold hasNode in Hf.
        destruct (getNode (nextId d) (doc d)); [discriminate | reflexivity].
Qed.

Lemma enterHead_run c :
  hasNode bodyId (doc (dom c)) = true ->
  enterHead c =
  Return tt
    (setSect (nextId (dom c))
       (setDom (mkDom (appendChildrenT bodyId [leaf (nextId (dom c)) "section"] (doc (dom c)))
                  (S (nextId (dom c)))) c)).
Proof.
  intros Hb. unfold enterHead. unfold bind at 1. unfold liftD at 1.
  rewrite (createAppend_run _ _ _ Hb). reflexivity.
Qed.

Lemma to_body_safe c l :
  lineType l = T_DESTINATION -> destinationOf l = D_BODY -> safeInv c ->
  lineSafe (Typed l) c.
Proof.
  intros Hk Hdst Hinv. unfold lineSafe. rewrite (destination_step l c Hk). rewrite Hdst.
  cbn [ret]. destruct (safeInv_closed l c Hinv) as [H1 H2]. split.
  - exact H1.
  - cbn [dest sect dom setDest] in *. eapply sectOK_leave; [exact H2 | |]; discriminate.
Qed.

Lemma to_head_safe c l :
  lineType l = T_DESTINATION -> destinationOf l = D_HEAD -> safeInv c ->
  lineSafe (Typed l) c.
Proof.
  intros Hk Hdst Hinv. unfold lineSafe. rewrite (destination_step l c Hk). rewrite Hdst.
  destruct (safeInv_closed l c Hinv) as [H1 _].
  rewrite enterHead_run by apply H1.
  unfold safeInv. cbn [dom dest sect setDest setSect setDom doc].
  apply new_section_safe; try assumption; try reflexivity; discriminate.
Qed.

Lemma okAside_noteBlock k n : Forall okAside (subtrees (noteBlock k n)).
Proof.
  simpl. repeat constructor; simpl; try discriminate.
  intros _. exists (newElem (S (S k)) "p"). split; [right; left; reflexivity | reflexivity].
Qed.

Lemma ids_forward k n : ids (forwardNode k n) = [k].
Proof. unfold forwardNode. destruct (String.eqb (showNat n) ""); reflexivity. Qed.

Lemma elems_forward k n : elems (forwardNode k n) = [forwardElem k n].
Proof. unfold forwardNode. destruct (String.eqb (showNat n) ""); reflexivity. Qed.

Lemma subtrees_forwardNode k n : subtrees (forwardNode k n) = [forwardNode k n].
Proof. unfold forwardNode. destruct (String.eqb (showNat n) ""); reflexivity. Qed.

Lemma to_note_safe c l :
  lineType l = T_DESTINATION -> destinationOf l = D_NOTE -> safeInv c ->
  lineSafe (Typed l) c.
Proof.
  intros Hk Hdst Hinv. unfold lineSafe. rewrite (destination_step l c Hk). rewrite Hdst.
  pose proof (safeInv_closed l c Hinv) as Hinv0.
  set (c0 := setLink None (afterReset (Typed l) c)) in *. clearbody c0.
  dest_returns c0 r d1 S1 Hr Hd1 Hs1 Hg1 Hin1.
  assert (hasNode r (doc d1) = true) as Hr'.
  { unfold hasNode in Hin1. destruct (getNode r S1) eqn:Er; [|discriminate].
    eapply getNode_trans; eassumption. }
  rewrite (enterNote_run c0 r d1 Hr (proj1 (proj2 Hd1)) (sect_present _ _ _ Hs1)).
  unfold safeInv. cbn [dom dest sect setDest setNoteIndex setDom doc].
  set (k := nextId d1).
  set (t1 := appendChildrenT r [forwardNode k (noteIndex c0)] (doc d1)).
  assert (docOK (mkDom t1 (k + 1)) /\ sectOK (dest c0) (sect c0) t1) as [Hd2 Hs2].
  { apply safe_append; try assumption.
    - cbn [flat_map]; rewrite app_nil_r, ids_forward. repeat constructor; simpl; tauto.
    - cbn [flat_map]; rewrite app_nil_r, ids_forward. intros j [<-|[]]. fold k. lia.
    - cbn [flat_map]; rewrite app_nil_r, subtrees_forwardNode. repeat constructor.
      simpl. discriminate.
    - cbn [flat_map]; rewrite app_nil_r, elems_forward.
      repeat constructor; simpl; discriminate. }
  assert (getNode (sect c0) t1 = Some (appendChildrenT r [forwardNode k (noteIndex c0)] S1))
    as Hg2.
  { apply section_after_append; [assumption|].
    cbn [flat_map]; rewrite app_nil_r, ids_forward.
    pose proof (sect_below _ _ _ Hd1 Hs1) as Hlt. fold k in Hlt.
    intros [E|[]]. lia. }
  replace (k + 4) with ((k + 1) + 3) by lia.
  change t1 with (doc (mkDom t1 (k + 1))).
  change (k + 1) with (nextId (mkDom t1 (k + 1))) at 2.
  split.
  - apply docOK_append; try assumption.
    + apply (sect_present _ _ _ Hs2).
    + simpl. repeat constructor; simpl; intuition lia.
    + simpl. intros j Hj. intuition lia.
    + cbn [flat_map]; rewrite app_nil_r. apply okAside_noteBlock.
    + simpl. repeat constructor; simpl; discriminate.
  - cbn [doc]. eapply (sectOK_enter (dest c0) D_NOTE (sect c0) t1 (sect c0)
                         [noteBlock (S k) (noteIndex c0)] (newElem (S k) "aside")).
    + exact Hs2.
    + exact Hg2.
    + apply hasNode_In. destruct (getNode_shape _ _ _ Hg2) as [e [cs [E1 E2]]].
      rewrite E1. simpl. left. assumption.
    + pose proof (sect_below _ _ _ Hd1 Hs1) as Hlt. fold k in Hlt.
      simpl. intuition lia.
    + simpl. left. reflexivity.
    + reflexivity.
    + discriminate.
Qed.

(** ** DESTINATION lines for a cell *)

Lemma querySelector_run (i : ref) sel (d : domState) N :
  getNode i (doc d) = Some N ->
  querySelector i sel d = Return (hd_error (querySelectorAllN sel N)) d.
Proof. intros H. unfold querySelector, withNode. rewrite H. reflexivity. Qed.

Lemma hd_error_In {A} (l : list A) x : hd_error l = Some x -> In x l.
Proof. destruct l; simpl; [discriminate|]. intros H. inversion H. auto. Qed.

Lemma enterCell_no_table (x : ctx) (l : TypeLine) :
  querySelector (sect x) [SelLastOfType "table"] (dom x) = Return None (dom x) ->
  enterCell l x = Throw noTable x.
Proof.
  intros H1. unfold enterCell, bind, gets, liftD. rewrite H1.
  destruct x. reflexivity.
Qed.

Lemma enterCell_zero (x : ctx) (l : TypeLine) (te : elem) (cells : list elem) (re : elem) :
  querySelector (sect x) [SelLastOfType "table"] (dom x) = Return (Some te) (dom x) ->
  querySelectorAll (eid te) [SelTag "th"; SelTag "td"] (dom x) = Return cells (dom x) ->
  querySelector (eid te) [SelLastOfType "tr"] (dom x) = Return (Some re) (dom x) ->
  fltColumns te = Some 0%Z ->
  enterCell l x = Throw zeroColumns x.
Proof.
  intros H1 H2 H3 H4. unfold enterCell, bind, gets, liftD.
  rewrite H1. cbn [dom setDom]. rewrite H2. cbn [dom setDom]. rewrite H3.
  cbn [dom setDom]. rewrite H4. destruct x. reflexivity.
Qed.

Lemma cellCount_nonzero n z :
  z <> 0%Z -> cellCountIsMultiple n (Some z) = ret (Z.rem (Z.of_nat n) z =? 0)%Z.
Proof.
  intros Hz. unfold cellCountIsMultiple. apply Z.eqb_neq in Hz. rewrite Hz. reflexivity.
Qed.

(** A cell, alone or in a new row, appended below the current
    section. *)
Lemma cell_appended_safe c0 p ns x S1 k :
  safeInv c0 -> getNode (sect c0) (doc (dom c0)) = Some S1 -> hasNode p S1 = true ->
  NoDup (flat_map ids ns) ->
  (forall j, In j (flat_map ids ns) -> nextId (dom c0) <= j < nextId (dom c0) + k) ->
  forallb plainTag (flat_map elems ns) = true ->
  In x (flat_map elems ns) -> tag x = "th" \/ tag x = "td" ->
  docOK (mkDom (appendChildrenT p ns (doc (dom c0))) (nextId (dom c0) + k)) /\
  sectOK D_CELL (sect c0) (appendChildrenT p ns (doc (dom c0))).
Proof.
  intros [Hd Hs] Hg Hp Hnd Hr Hpl Hx Ht.
  assert (hasNode p (doc (dom c0)) = true) as Hp'.
  { unfold hasNode in Hp. destruct (getNode p S1) eqn:Er; [|discriminate].
    eapply getNode_trans; eassumption. }
  split.
  - apply (safe_append_plain (dest c0) (sect c0)); assumption.
  - apply (sectOK_enter (dest c0) D_CELL (sect c0) _ p ns x S1); try assumption.
    + intros Hin. apply Hr in Hin. pose proof (sect_below _ _ _ Hd Hs). lia.
    + discriminate.
    + intros _. assumption.
Qed.

Lemma cellTag_plain (h : bool) k :
  plainTag (newElem k (if h then "th" else "td")) = true /\
  (tag (newElem k (if h then "th" else "td")) = "th" \/
   tag (newElem k (if h then "th" else "td")) = "td").
Proof. destruct h; split; simpl; auto. Qed.

Lemma to_cell_safe c l :
  lineType l = T_DESTINATION -> destinationOf l = D_CELL -> safeInv c ->
  lineSafe (Typed l) c.
Proof.
  intros Hk Hdst Hinv. unfold lineSafe. rewrite (destination_step l c Hk). rewrite Hdst.
  pose proof (safeInv_closed l c Hinv) as Hinv0.
  set (c0 := setLink None (afterReset (Typed l) c)) in *. clearbody c0.
  assert (match enterCell l c0 with
          | Return _ c' => safeInv (setDest D_CELL c')
          | Throw e _ => mayThrow (Typed l) e
          end) as Hgoal; [|destruct (enterCell l c0); exact Hgoal].
  pose proof Hinv0 as [Hd Hs]. pose proof Hs as [_ [se [cs [Hg _]]]].
  pose proof Hd as [Hnd [Hf [_ [_ Hoke]]]].
  pose proof (querySelector_run _ [SelLastOfType "table"] _ _ Hg) as Q1.
  destruct (hd_error (querySelectorAllN [SelLastOfType "table"] (Element se cs)))
    as [te|] eqn:Et.
  2:{ rewrite (enterCell_no_table c0 l Q1). simpl. rewrite Hk.
      split; [assumption | left; reflexivity]. }
  apply hd_error_In in Et. pose proof (selectAll_tag _ _ _ Et) as Htag.
  simpl in Htag. rewrite Bool.orb_false_r in Htag. apply String.eqb_eq in Htag.
  assert (In te (elems (Element se cs))) as HinS.
  { unfold querySelectorAllN in Et. apply selectAll_In in Et.
    destruct Et as [cs' [b Hin]]. eapply descendants_elems. eassumption. }
  destruct (subtree_of_member _ _ _ te Hnd Hg HinS) as [tcs [Hgt Hsub]].
  assert (hasNode (eid te) (doc (dom c0)) = true) as Hht
    by (unfold hasNode; rewrite Hgt; reflexivity).
  assert (hasNode (eid te) (Element se cs) = true) as HtS.
  { apply hasNode_In. apply Hsub. simpl. left. reflexivity. }
  pose proof (query_run _ [SelTag "th"; SelTag "td"] _ _ Hgt) as Q2.
  pose proof (querySelector_run _ [SelLastOfType "tr"] _ _ Hgt) as Q3.
  rewrite Forall_forall in Hoke.
  destruct (Hoke te (getNode_elems_incl _ _ _ _ Hg HinS)) as [_ Hcols].
  specialize (Hcols Htag). destruct (fltColumns te) as [z|] eqn:Ez; [|contradiction].
  set (k := nextId (dom c0)).
  set (tg := if header l then "th" else "td").
  assert (let ns := [Element (newElem k "tr") [leaf (S k) tg]] in
          docOK (mkDom (appendChildrenT (eid te) ns (doc (dom c0))) (k + 2)) /\
          sectOK D_CELL (sect c0) (appendChildrenT (eid te) ns (doc (dom c0)))) as Hnew.
  { cbv zeta. apply (cell_appended_safe c0 _ _ (newElem (S k) tg) (Element se cs));
      try assumption.
    - simpl. repeat constructor; simpl; intuition lia.
    - simpl. intros j Hj. fold k. intuition lia.
    - change (forallb plainTag [newElem k "tr"; newElem (S k) tg] = true).
      cbn [forallb]. unfold tg. rewrite (proj1 (cellTag_plain (header l) (S k))).
      reflexivity.
    - simpl. right. left. reflexivity.
    - apply (proj2 (cellTag_plain (header l) (S k))). }
  assert (enterCell l c0 =
          Return tt (setDom (mkDom (appendChildT k (leaf (S k) tg)
                                      (appendChildT (eid te) (leaf k "tr") (doc (dom c0))))
                               (S (S k))) c0) ->
          match enterCell l c0 with
          | Return _ c' => safeInv (setDest D_CELL c')
          | Throw e _ => mayThrow (Typed l) e
          end) as Hrow.
  { intros E. rewrite E. unfold safeInv. cbn [dom dest sect setDest setDom doc].
    rewrite new_row_normal_form by (apply new_below; assumption).
    replace (S (S k)) with (k + 2) by lia. exact Hnew. }
  destruct (hd_error (querySelectorAllN [SelLastOfType "tr"] (Element te tcs)))
    as [re|] eqn:Er.
  2:{ apply Hrow. apply (enterCell_new_row c0 l te _ None Q1 Q2 Q3); auto. }
  destruct (Z.eq_dec z 0) as [Hz|Hz].
  { subst z. rewrite (enterCell_zero c0 l te _ re Q1 Q2 Q3 Ez). simpl. rewrite Hk.
    split; [assumption | right; reflexivity]. }
  pose proof (cellCount_nonzero
                (List.length (querySelectorAllN [SelTag "th"; SelTag "td"] (Element te tcs)))
                z Hz) as Hcc.
  destruct (Z.rem (Z.of_nat (List.length
              (querySelectorAllN [SelTag "th"; SelTag "td"] (Element te tcs)))) z =? 0)%Z.
  { apply Hrow. apply (enterCell_new_row c0 l te _ (Some re) Q1 Q2 Q3); auto.
    right. rewrite Ez. exact Hcc. }
  pose proof (querySelectorAllN_ids _ _ _ (hd_error_In _ _ Er)) as Hrin.
  assert (hasNode (eid re) (doc (dom c0)) = true) as Hhr.
  { apply hasNode_In. eapply getNode_ids; eassumption. }
  rewrite (enterCell_same_row c0 l te _ re Q1 Q2 Q3);
    [| rewrite Ez; exact Hcc | exact Hhr].
  unfold safeInv. cbn [dom dest sect setDest setDom doc].
  rewrite appendChildT_children. fold k. fold tg.
  replace (S k) with (k + 1) by lia.
  apply (cell_appended_safe c0 _ _ (newElem k tg) (Element se cs)); try assumption.
  - apply hasNode_In. apply Hsub. assumption.
  - simpl. repeat constructor; simpl; tauto.
  - simpl. intros j [<-|[]]. fold k. lia.
  - change (forallb plainTag [newElem k tg] = true).
    cbn [forallb]. unfold tg. rewrite (proj1 (cellTag_plain (header l) k)).
    reflexivity.
  - simpl. left. reflexivity.
  - apply (proj2 (cellTag_plain (header l) k)).
Qed.

(** ** The chain of ancestors *)

Lemma pathTo_Element i e cs :
  pathTo i (Element e cs) =
  if eid e =? i then Some [e]
  else match findMap (pathTo i) cs with Some p => Some (e :: p) | None => None end.
Proof. reflexivity. Qed.

Lemma pathTo_None i t : pathTo i t = None <-> ~ In i (ids t).
Proof.
  induction t as [e cs IH| |] using node_ind'; try (simpl; tauto).
  rewrite pathTo_Element. simpl. destruct (Nat.eqb_spec (eid e) i) as [E|E].
  - split; [discriminate | tauto].
  - assert (findMap (pathTo i) cs = None <-> ~ In i (flat_map ids cs)) as H.
    { rewrite findMap_None. rewrite Forall_forall in IH. rewrite Forall_forall. split.
      - intros H Hin. apply in_flat_map in Hin. destruct Hin as [c [Hc Hi]].
        apply (IH c Hc) in Hi; auto.
      - intros H c Hc. apply IH; [assumption|]. intros Hi. apply H.
        apply in_flat_map. eauto. }
    destruct (findMap (pathTo i) cs); split; intros H0.
    + discriminate.
    + exfalso. assert (Some l = None) as Habs by (apply H; tauto). discriminate.
    + tauto.
    + reflexivity.
Qed.

Lemma pathTo_Some i t : In i (ids t) -> exists p, pathTo i t = Some p.
Proof.
  intros H. destruct (pathTo i t) as [p|] eqn:E; [eauto|].
  apply pathTo_None in E. contradiction.
Qed.

Lemma pathTo_elems i t p : pathTo i t = Some p -> forall e, In e p -> In e (elems t).
Proof.
  revert p. induction t as [e0 cs IH| |] using node_ind'; intros p; try discriminate.
  rewrite pathTo_Element. destruct (eid e0 =? i).
  - intros H e He. inversion H; subst. destruct He as [<-|[]]. simpl. auto.
  - destruct (findMap (pathTo i) cs) as [q|] eqn:Eq; [|discriminate].
    intros H e He. inversion H; subst. destruct He as [<-|He]; [simpl; auto|].
    apply findMap_Some in Eq. destruct Eq as [c [Hc Hq]].
    simpl. right. apply in_flat_map. exists c. split; [assumption|].
    rewrite Forall_forall in IH. eapply IH; eassumption.
Qed.

Lemma pathTo_root i e cs p : pathTo i (Element e cs) = Some p -> exists q, p = e :: q.
Proof.
  rewrite pathTo_Element. destruct (eid e =? i).
  - intros H. inversion H. eauto.
  - destruct (findMap (pathTo i) cs); [|discriminate]. intros H. inversion H. eauto.
Qed.

Lemma pathTo_below i e cs p :
  pathTo i (Element e cs) = Some p -> eid e <> i -> 2 <= List.length p.
Proof.
  rewrite pathTo_Element. intros H Hne. apply Nat.eqb_neq in Hne. rewrite Hne in H.
  destruct (findMap (pathTo i) cs) as [q|] eqn:Eq; [|discriminate].
  inversion H; subst. apply findMap_Some in Eq. destruct Eq as [c [_ Hq]].
  destruct c as [e' cs'| |]; try discriminate.
  destruct (pathTo_root _ _ _ _ Hq) as [q' ->]. simpl. lia.
Qed.

(** The chain of ancestors of an element of a subtree goes through
    the root of the subtree. *)
Lemma pathTo_through s t e cs d :
  NoDup (ids t) -> getNode s t = Some (Element e cs) -> In d (ids (Element e cs)) ->
  exists p, pathTo d t = Some p /\ In e p.
Proof.
  induction t as [e0 cs0 IH| |] using node_ind'; intros Hnd Hg Hd; try discriminate.
  rewrite getNode_Element in Hg. destruct (Nat.eqb_spec (eid e0) s) as [E|E].
  - inversion Hg; subst e0 cs0. destruct (pathTo_Some d _ Hd) as [p Hp].
    exists p. split; [assumption|]. destruct (pathTo_root _ _ _ _ Hp) as [q ->].
    left. reflexivity.
  - assert (In d (flat_map ids cs0)) as Hdc.
    { apply findMap_Some in Hg. destruct Hg as [c [Hc Hgc]].
      apply in_flat_map. exists c. split; [assumption|]. eapply getNode_ids; eassumption. }
    simpl in Hnd. inversion Hnd as [|? ? Hroot Hcs]; subst.
    rewrite pathTo_Element.
    destruct (Nat.eqb_spec (eid e0) d) as [E'|E']; [rewrite E' in Hroot; contradiction|].
    assert (exists p, findMap (pathTo d) cs0 = Some p /\ In e p) as [p [Hp Hin]].
    { clear Hroot Hnd E E' Hdc. induction cs0 as [|x r IHr]; [discriminate|].
      simpl in Hg, Hcs. apply NoDup_app_inv in Hcs. destruct Hcs as [N1 [N2 N3]].
      inversion IH as [|? ? IHx IHrest]; subst.
      destruct (getNode s x) as [S0|] eqn:Ex.
      - inversion Hg; subst S0. destruct (IHx N1 eq_refl Hd) as [p [Hp Hin]].
        exists p. simpl. rewrite Hp. auto.
      - assert (In d (flat_map ids r)) as Hdr.
        { apply findMap_Some in Hg. destruct Hg as [c [Hc Hgc]].
          apply in_flat_map. exists c. split; [assumption|].
          eapply getNode_ids; eassumption. }
        assert (pathTo d x = None) as Hx.
        { apply pathTo_None. intros Hin. apply (N3 d Hin Hdr). }
        simpl. rewrite Hx. apply IHr; assumption. }
    rewrite Hp. exists (e0 :: p). split; [reflexivity | right; assumption].
Qed.

Lemma closest_finds tags p e :
  In e p -> existsb (String.eqb (tag e)) tags = true ->
  exists c, closestP tags p = Some c /\ In c p.
Proof.
  intros He Ht. unfold closestP.
  destruct (find (fun e0 => existsb (String.eqb (tag e0)) tags) (rev p)) as [c|] eqn:Ef.
  - exists c. split; [reflexivity|]. apply find_some in Ef. apply in_rev. tauto.
  - exfalso. apply in_rev in He. pose proof (find_none _ _ Ef e He) as Hn.
    cbv beta in Hn. rewrite Ht in Hn. discriminate.
Qed.

(** ** PARAGRAPH lines *)

Lemma applyAlign_new (a p : ref) al (e : elem) (t : node) (k : nat) (c : ctx) :
  eid e = a -> ~ In a (ids t) -> hasNode p t = true ->
  dom c = mkDom (appendChildrenT p [Element e []] t) k ->
  applyAlign a al c =
  Return tt (setDom (mkDom (appendChildrenT p [Element (aligned al e) []] t) k) c).
Proof.
  intros He Ha Hp Hdom. unfold applyAlign, aligned. destruct al as [al|].
  - unfold liftD. rewrite Hdom. rewrite (classListAdd_token _ _ (alignClasses_token al)).
    unfold classListAddT, updElem.
    rewrite update_new; [| exact He | exact Ha | simpl; tauto | exact Hp]. reflexivity.
  - unfold ret. rewrite <- Hdom. destruct c; reflexivity.
Qed.

Lemma closest_run (i : ref) tags (d : domState) p :
  pathTo i (doc d) = Some p -> closest i tags d = Return (closestP tags p) d.
Proof. intros H. unfold closest. rewrite H. reflexivity. Qed.

(** A PARAGRAPH line appends a paragraph to the nearest note, cell or
    section around the destination. *)
Lemma paragraph_run (c : ctx) (l : TypeLine) (r : ref) (d1 : domState) p ce :
  fresh (dom c) -> destElD (dest c) (sect c) (dom c) = Return r d1 ->
  lineType l = T_PARAGRAPH ->
  pathTo r (doc d1) = Some p -> closestP sectionTags p = Some ce ->
  hasNode (eid ce) (doc d1) = true ->
  step (Typed l) c =
  Return tt
    (setDom
       (mkDom
          (appendChildrenT (eid ce)
             [Element (aligned (align l) (newElem (nextId d1) "p")) []] (doc d1))
          (S (nextId d1)))
       (setLink None (afterReset (Typed l) c))).
Proof.
  intros Hfresh Hdest Hk Hp Hc Hce.
  pose proof (new_not_in c r d1 Hfresh Hdest) as Ha.
  rewrite step_afterReset. unfold handleTyped. rewrite Hk. unfold handleParagraph.
  unfold bind at 1. unfold modify at 1.
  unfold bind at 1.
  rewrite (destEl_run (setLink None (afterReset (Typed l) c)) r d1)
    by (cbn [dest sect dom setLink];
        rewrite afterReset_dest, afterReset_sect, afterReset_dom; exact Hdest).
  unfold bind at 1. unfold liftD at 1. cbn [dom setDom].
  rewrite (closest_run _ _ _ _ Hp). rewrite Hc.
  unfold bind at 1. unfold liftD at 1. cbn [dom setDom].
  rewrite (createAppend_run _ _ _ Hce). rewrite appendChildT_children.
  unfold leaf.
  rewrite (applyAlign_new (nextId d1) (eid ce) (align l) (newElem (nextId d1) "p")
             (doc d1) (S (nextId d1))); [| reflexivity | exact Ha | exact Hce | reflexivity].
  reflexivity.
Qed.

Lemma tag_aligned a e : tag (aligned a e) = tag e.
Proof. destruct a; reflexivity. Qed.

Lemma eid_aligned a e : eid (aligned a e) = eid e.
Proof. destruct a; reflexivity. Qed.

Lemma fltColumns_aligned a e : fltColumns (aligned a e) = fltColumns e.
Proof. destruct a; reflexivity. Qed.

Lemma okElem_aligned a k tg :
  tg <> "notAnElement" -> tg <> "table" -> okElem (aligned a (newElem k tg)).
Proof.
  intros H1 H2. split; rewrite tag_aligned; simpl; [assumption | intros H; contradiction].
Qed.

(** The container a PARAGRAPH line appends to. *)
Lemma container_found s t se cs r :
  NoDup (ids t) -> getNode s t = Some (Element se cs) -> tag se = "section" ->
  hasNode r (Element se cs) = true ->
  exists p ce, pathTo r t = Some p /\ closestP sectionTags p = Some ce /\
               hasNode (eid ce) t = true.
Proof.
  intros Hnd Hg Ht Hr. apply hasNode_In in Hr.
  destruct (pathTo_through s t se cs r Hnd Hg Hr) as [p [Hp Hin]].
  destruct (closest_finds sectionTags p se Hin) as [ce [Hc Hce]].
  { rewrite Ht. reflexivity. }
  exists p, ce. split; [assumption|]. split; [assumption|].
  apply hasNode_In. apply elems_ids. eapply pathTo_elems; eassumption.
Qed.

Lemma paragraph_safe c l : lineType l = T_PARAGRAPH -> safeInv c -> lineSafe (Typed l) c.
Proof.
  intros Hk Hinv. dest_returns c r d1 S1 Hr Hd1 Hs1 Hg1 Hin1. unfold lineSafe.
  pose proof Hs1 as [_ [se [cs [Hg [Ht _]]]]].
  rewrite Hg in Hg1. inversion Hg1; subst S1.
  destruct (container_found _ _ _ _ r (proj1 Hd1) Hg Ht Hin1) as [p [ce [Hp [Hc Hce]]]].
  rewrite (paragraph_run c l r d1 p ce (proj1 (proj2 Hd)) Hr Hk Hp Hc Hce).
  unfold safeInv. cbn [dom dest sect setDom setLink doc].
  rewrite afterReset_dest, afterReset_sect.
  apply safe_append_leaf; try assumption.
  - apply eid_aligned.
  - rewrite tag_aligned. discriminate.
  - apply okElem_aligned; discriminate.
Qed.

(** ** SECTION lines *)

Lemma pathTo_last i t p :
  pathTo i t = Some p ->
  exists q e cs, p = (q ++ [e])%list /\ getNode i t = Some (Element e cs).
Proof.
  revert p. induction t as [e0 cs0 IH| |] using node_ind'; intros p; try discriminate.
  rewrite pathTo_Element, getNode_Element. destruct (eid e0 =? i).
  - intros H. inversion H; subst. exists [], e0, cs0. auto.
  - destruct (findMap (pathTo i) cs0) as [p'|] eqn:Ep; [|discriminate].
    intros H. inversion H; subst. clear H.
    assert (exists q e cs, p' = (q ++ [e])%list /\
                           findMap (getNode i) cs0 = Some (Element e cs))
      as [q [e [cs [E1 E2]]]].
    { induction cs0 as [|x r IHr]; [discriminate|].
      inversion IH as [|? ? IHx IHrest]; subst. simpl in Ep. simpl.
      destruct (pathTo i x) as [px|] eqn:Ex.
      - inversion Ep; subst px. destruct (IHx _ eq_refl) as [q [e [cs [E1 E2]]]].
        exists q, e, cs. rewrite E2. auto.
      - apply pathTo_None in Ex. apply getNode_None in Ex. rewrite Ex.
        apply IHr; assumption. }
    exists (e0 :: q), e, cs. rewrite E1. auto.
Qed.

Lemma pathTo_append_new p k e cs t pp :
  NoDup (ids t) -> ~ In k (ids t) -> pathTo p t = Some pp -> eid e = k ->
  pathTo k (appendChildrenT p [Element e cs] t) = Some (pp ++ [e])%list.
Proof.
  revert pp. induction t as [e0 cs0 IH| |] using node_ind'; intros pp Hnd Hk Hp He;
    try discriminate.
  rewrite appendChildrenT_Element, pathTo_Element. rewrite pathTo_Element in Hp.
  simpl in Hk, Hnd. inversion Hnd as [|? ? Hroot Hcs]; subst.
  destruct (Nat.eqb_spec (eid e0) (eid e)) as [E|E]; [tauto|].
  assert (~ In (eid e) (flat_map ids cs0)) as Hkc by tauto.
  destruct (Nat.eqb_spec (eid e0) p) as [E'|E'].
  - inversion Hp; subst pp. subst p.
    rewrite map_id_Forall.
    + rewrite findMap_app.
      assert (findMap (pathTo (eid e)) cs0 = None) as ->.
      { apply findMap_None. apply Forall_forall. intros c Hc. apply pathTo_None.
        intros Hin. apply Hkc. apply in_flat_map. eauto. }
      simpl. rewrite Nat.eqb_refl. reflexivity.
    + apply Forall_forall. intros c Hc. apply updateNode_notin. intros Hin.
      apply Hroot. apply in_flat_map. eauto.
  - rewrite app_nil_r.
    destruct (findMap (pathTo p) cs0) as [pp'|] eqn:Ep; [|discriminate].
    inversion Hp; subst pp. clear Hp.
    assert (findMap (pathTo (eid e)) (map (appendChildrenT p [Element e cs]) cs0) =
            Some (pp' ++ [e])%list) as ->; [|reflexivity].
    clear Hroot Hnd Hk E E'.
    induction cs0 as [|x r IHr]; [discriminate|].
    inversion IH as [|? ? IHx IHrest]; subst. simpl in Ep, Hcs, Hkc. simpl.
    apply NoDup_app_inv in Hcs. destruct Hcs as [N1 [N2 _]].
    rewrite in_app_iff in Hkc.
    destruct (pathTo p x) as [px|] eqn:Ex.
    + inversion Ep; subst px. rewrite (IHx pp' N1); auto.
    + apply pathTo_None in Ex. unfold appendChildrenT at 1.
      rewrite (updateNode_notin p _ x Ex).
      assert (pathTo (eid e) x = None) as -> by (apply pathTo_None; tauto).
      apply IHr; auto.
Qed.

Lemma hasId_appendChildrenT k p ns c : hasId k (appendChildrenT p ns c) = hasId k c.
Proof. destruct c; try reflexivity. rewrite appendChildrenT_Element. reflexivity. Qed.

Lemma hasId_notin k c : ~ In k (ids c) -> hasId k c = false.
Proof.
  destruct c; try reflexivity. simpl. intros H. apply Nat.eqb_neq. tauto.
Qed.

(** The rule goes before the new section. *)
Lemma insertBefore_new k new p e t :
  ~ In k (ids t) -> eid e = k ->
  insertBeforeT k new (appendChildrenT p [Element e []] t) =
  appendChildrenT p [new; Element e []] t.
Proof.
  intros Hk He. subst k. induction t as [e0 cs0 IH| |] using node_ind'; try reflexivity.
  rewrite !appendChildrenT_Element, insertBeforeT_Element. f_equal.
  rewrite map_app. unfold insertBeforeL. rewrite flat_map_app. f_equal.
  - simpl in Hk. assert (~ In (eid e) (flat_map ids cs0)) as Hkc by tauto. clear Hk.
    induction cs0 as [|x r IHr]; [reflexivity|].
    inversion IH as [|? ? IHx IHrest]; subst. simpl in Hkc. rewrite in_app_iff in Hkc.
    simpl. rewrite IHx by tauto. rewrite hasId_appendChildrenT.
    rewrite (hasId_notin (eid e) x) by tauto. simpl. f_equal. apply IHr; tauto.
  - destruct (eid e0 =? p); [|reflexivity]. simpl. rewrite Nat.eqb_refl. reflexivity.
Qed.

(** The sections of the body after a section was appended to it. *)
Lemma sections_after_append t be bcs e :
  getNode bodyId t = Some (Element be bcs) -> NoDup (ids t) -> tag e = "section" ->
  querySelectorAllN [SelTag "section"] (appendChildrenT bodyId [Element e []] (Element be bcs)) =
  (querySelectorAllN [SelTag "section"] (Element be bcs) ++ [e])%list.
Proof.
  intros Hg Hnd Ht. pose proof (getNode_NoDup _ _ _ Hg Hnd) as HndB.
  destruct (getNode_shape _ _ _ Hg) as [e' [cs' [E1 E2]]]. inversion E1; subst e' cs'.
  rewrite appendChildrenT_Element, E2, Nat.eqb_refl.
  simpl in HndB. inversion HndB as [|? ? Hroot _]; subst.
  rewrite map_id_Forall.
  - unfold querySelectorAllN. rewrite !descendants_Element.
    rewrite selectTags_descendantsL_app by reflexivity. f_equal.
    simpl. unfold matchesSel. simpl. rewrite Ht. reflexivity.
  - apply Forall_forall. intros c Hc. apply updateNode_notin. intros Hin.
    apply Hroot. rewrite E2. apply in_flat_map. eauto.
Qed.

Lemma holdsSection_body t be bcs :
  getNode bodyId t = Some (Element be bcs) ->
  holdsSection t =
  match querySelectorAllN [SelTag "section"] (Element be bcs) with
  | [] => false
  | _ :: _ => true
  end.
Proof. intros H. unfold holdsSection. rewrite H. reflexivity. Qed.

(** The new section, its alignment, and the rule before it. *)
Lemma section_tail (l : TypeLine) (x : ctx) (t0 : node) (k : nat) :
  dom x = mkDom t0 k -> docOK (mkDom t0 k) ->
  (s <- liftD (createAppend bodyId "section") ;;
   modify (setSect s) ;;
   applyAlign s (align l) ;;
   if break l
   then
     par <- liftD (parentElement s) ;;
     match par with
     | None => throw (TypeError "parentElement is null")
     | Some b =>
         first <- liftD (querySelector (eid b) [SelTag "section"]) ;;
         match first with
         | Some f =>
             if eid f =? s then ret tt
             else (liftD (insertBeforeBegin s "hr") ;; ret tt)
         | None => liftD (insertBeforeBegin s "hr") ;; ret tt
         end
     end
   else ret tt) x =
  Return tt
    (setSect k
       (setDom
          (mkDom
             (appendChildrenT bodyId
                ((if ruled l t0 then [leaf (S k) "hr"] else []) ++
                 [Element (aligned (align l) (newElem k "section")) []]) t0)
             (if ruled l t0 then S (S k) else S k))
          x)).
Proof.
  intros Hdom Hok. pose proof Hok as [Hnd [Hf [Hb _]]]. cbn [doc nextId] in Hnd, Hb.
  pose proof (new_below _ Hf) as Hk. cbn [doc nextId] in Hk.
  pose proof (body_below _ Hok) as Hbk. cbn [nextId] in Hbk.
  unfold bind at 1. unfold liftD at 1. rewrite Hdom.
  rewrite (createAppend_run bodyId "section" (mkDom t0 k) Hb). cbn [doc nextId].
  unfold bind at 1. unfold modify at 1.
  unfold bind at 1. rewrite appendChildT_children. unfold leaf.
  rewrite (applyAlign_new k bodyId (align l) (newElem k "section") t0 (S k));
    [| reflexivity | exact Hk | exact Hb | reflexivity].
  set (sec := aligned (align l) (newElem k "section")).
  assert (eid sec = k) as Hsec by apply eid_aligned.
  assert (tag sec = "section") as Htag by apply tag_aligned.
  unfold ruled. destruct (break l); [|reflexivity]. cbn [andb].
  destruct (pathTo_Some bodyId t0 (proj1 (hasNode_In _ _) Hb)) as [pb Hpb].
  destruct (pathTo_last _ _ _ Hpb) as [q [be [bcs [Epb Hgb]]]].
  destruct (getNode_shape _ _ _ Hgb) as [be' [bcs' [E1 Ebe]]]. inversion E1; subst be' bcs'.
  pose proof (pathTo_append_new bodyId k sec [] t0 pb Hnd Hk Hpb Hsec) as Hpath.
  unfold bind at 1. unfold liftD at 1. cbn [dom setDom setSect].
  unfold parentElement. cbn [doc]. rewrite Hpath. rewrite Epb.
  rewrite !rev_app_distr. cbn [rev app tl hd_error].
  unfold bind at 1. unfold liftD at 1. cbn [dom setDom setSect].
  assert (getNode bodyId (appendChildrenT bodyId [Element sec []] t0) =
          Some (appendChildrenT bodyId [Element sec []] (Element be bcs))) as Hgb'.
  { apply section_after_append; [assumption|]. simpl. rewrite Hsec. intros [E|[]]. lia. }
  rewrite Ebe.
  rewrite (querySelector_run bodyId [SelTag "section"]
             (mkDom (appendChildrenT bodyId [Element sec []] t0) (S k)) _ Hgb').
  rewrite (sections_after_append t0 be bcs sec Hgb Hnd Htag).
  rewrite (holdsSection_body _ _ _ Hgb).
  destruct (querySelectorAllN [SelTag "section"] (Element be bcs)) as [|f r] eqn:Eq.
  - cbn [app hd_error]. rewrite Hsec, Nat.eqb_refl. reflexivity.
  - cbn [app hd_error].
    assert (eid f <> k) as Hfk.
    { intros E. apply Hk. rewrite <- E.
      apply (getNode_ids _ _ _ _ Hgb). eapply querySelectorAllN_ids.
      rewrite Eq. left. reflexivity. }
    apply Nat.eqb_neq in Hfk. rewrite Hfk.
    unfold bind at 1. unfold liftD at 1. cbn [dom setDom setSect].
    unfold insertBeforeBegin. cbn [doc nextId].
    assert (hasNode k (appendChildrenT bodyId [Element sec []] t0) = true) as Hh.
    { apply hasNode_In. apply ids_appendChildrenT_new; [apply hasNode_In; assumption|].
      simpl. auto. }
    rewrite Hh. rewrite (insertBefore_new k _ bodyId sec t0 Hk Hsec). reflexivity.
Qed.

Lemma withoutEmpty_ok (d : domState) dst s :
  docOK d -> sectOK dst s (doc d) ->
  docOK (mkDom (withoutEmpty s (doc d)) (nextId d)).
Proof.
  intros Hd [Hsb [se [cs [Hg [Ht _]]]]]. unfold withoutEmpty. rewrite Hg. cbn [childNodes].
  destruct cs as [|x r].
  - apply (docOK_remove d s se); try assumption. rewrite Ht. discriminate.
  - destruct d. exact Hd.
Qed.

(** A SECTION line: the section left without a child node is removed,
    a section is appended to the body, with the class of its
    alignment, and a rule goes before it when the line has the break
    flag and the body holds another section. *)
Lemma section_run (c : ctx) (l : TypeLine) :
  safeInv c -> lineType l = T_SECTION ->
  step (Typed l) c =
  Return tt
    (setSect (nextId (dom c))
       (setDom
          (mkDom
             (appendChildrenT bodyId
                ((if ruled l (withoutEmpty (sect c) (doc (dom c)))
                  then [leaf (S (nextId (dom c))) "hr"] else []) ++
                 [Element (aligned (align l) (newElem (nextId (dom c)) "section")) []])
                (withoutEmpty (sect c) (doc (dom c))))
             (if ruled l (withoutEmpty (sect c) (doc (dom c)))
              then S (S (nextId (dom c))) else S (nextId (dom c))))
          (setDest D_BODY (setLink None (afterReset (Typed l) c))))).
Proof.
  intros [Hd Hs] Hk. pose proof (withoutEmpty_ok _ _ _ Hd Hs) as Hok.
  pose proof Hs as [Hsb [se [cs [Hg _]]]].
  rewrite step_afterReset. unfold handleTyped. rewrite Hk. unfold handleSection.
  unfold bind at 1. unfold modify at 1.
  unfold bind at 1. unfold modify at 1.
  unfold bind at 1. unfold gets at 1. cbn [sect setDest setLink].
  rewrite afterReset_sect.
  set (c1 := setDest D_BODY (setLink None (afterReset (Typed l) c))).
  assert (dom c1 = dom c) as Hdom1 by apply afterReset_dom.
  clearbody c1.
  unfold bind at 1. unfold liftD at 1. unfold hasChildNodes, withNode.
  rewrite Hdom1, Hg. cbn [ret childNodes].
  unfold bind at 1. unfold withoutEmpty in *. rewrite Hg in *. cbn [childNodes] in *.
  destruct cs as [|x r]; cbn [negb when].
  - unfold liftD at 1. cbn [dom setDom].
    unfold removeFromParent. rewrite mutate_run by (unfold hasNode; rewrite Hg; reflexivity).
    rewrite (section_tail l _ (removeNodeT (sect c) (doc (dom c))) (nextId (dom c)));
      [reflexivity | reflexivity | exact Hok].
  - unfold ret at 1.
    rewrite (section_tail l _ (doc (dom c)) (nextId (dom c)));
      [reflexivity | | exact Hok].
    cbn [dom setDom]. destruct (dom c). reflexivity.
Qed.

Lemma section_safe c l : lineType l = T_SECTION -> safeInv c -> lineSafe (Typed l) c.
Proof.
  intros Hk Hinv. unfold lineSafe. rewrite (section_run c l Hinv Hk).
  destruct Hinv as [Hd Hs]. pose proof (withoutEmpty_ok _ _ _ Hd Hs) as Hok.
  set (t0 := withoutEmpty (sect c) (doc (dom c))) in *.
  set (k := nextId (dom c)) in *.
  unfold safeInv. cbn [dom dest sect setSect setDom setDest doc].
  pose proof (body_below _ Hok) as Hbk. cbn [nextId] in Hbk.
  pose proof Hok as [Hnd [Hf [Hb _]]]. cbn [doc nextId] in Hnd, Hb.
  pose proof (new_below _ Hf) as Hnew. cbn [doc nextId] in Hnew.
  set (sec := aligned (align l) (newElem k "section")).
  assert (eid sec = k) as Hsec by apply eid_aligned.
  assert (tag sec = "section") as Htag by apply tag_aligned.
  assert (fltColumns sec = None) as Hcol by apply fltColumns_aligned.
  assert (getNode k t0 = None) as Hnone by (apply getNode_None; assumption).
  split.
  - destruct (ruled l t0).
    + replace (S (S k)) with (nextId (mkDom t0 k) + 2) by (simpl; lia).
      apply (docOK_append (mkDom t0 k)); try assumption.
      * simpl. rewrite Hsec. repeat constructor; simpl; intuition lia.
      * simpl. rewrite Hsec. intros j Hj. intuition lia.
      * simpl. repeat constructor; simpl; [discriminate | rewrite Htag; discriminate].
      * simpl. repeat constructor; simpl; try discriminate; rewrite Htag; discriminate.
    + replace (S k) with (nextId (mkDom t0 k) + 1) by (simpl; lia).
      apply (docOK_append (mkDom t0 k)); try assumption.
      * simpl. rewrite Hsec. repeat constructor; simpl; tauto.
      * simpl. rewrite Hsec. intros j [<-|[]]. lia.
      * simpl. repeat constructor. simpl. rewrite Htag. discriminate.
      * simpl. repeat constructor; simpl; rewrite Htag; discriminate.
  - split; [lia|]. exists sec, []. split; [|split; [assumption | split; discriminate]].
    rewrite getNode_appendChildrenT_new by assumption. rewrite Hb.
    assert ((S k =? k) = false) as Hne by (apply Nat.eqb_neq; lia).
    destruct (ruled l t0); cbn [app findMap getNode leaf newElem eid];
      rewrite ?Hne, Hsec, Nat.eqb_refl; reflexivity.
Qed.

(** Every line keeps the state well formed. *)
Lemma step_safe l c : safeInv c -> lineSafe l c.
Proof.
  intros Hinv. destruct l as [t|t|r].
  - destruct (lineType t) eqn:Hk.
    + apply section_safe; assumption.
    + apply paragraph_safe; assumption.
    + apply hint_safe; assumption.
    + apply link_safe; assumption.
    + apply anchor_safe; assumption.
    + apply blob_safe; assumption.
    + apply image_safe; assumption.
    + apply table_safe; assumption.
    + destruct (destinationOf t) eqn:Hdst.
      * apply to_body_safe; assumption.
      * apply to_note_safe; assumption.
      * apply to_cell_safe; assumption.
      * apply to_head_safe; assumption.
  - apply text_safe; assumption.
  - apply meta_safe; assumption.
Qed.

(** ** The outcome of the set-up phase *)

Lemma returns_bind {S A B} (P : S -> Prop) (R : A -> S -> Prop) (Q : B -> S -> Prop)
      (m : SE S A) (k : A -> SE S B) :
  returns P m R -> (forall a, returns (R a) (k a) Q) -> returns P (bind m k) Q.
Proof.
  intros Hm Hk s Hs. destruct (Hm s Hs) as [a [s1 [E1 H1]]].
  destruct (Hk a s1 H1) as [b [s2 [E2 H2]]]. exists b, s2.
  unfold bind. rewrite E1. auto.
Qed.

Lemma returns_ret {S A} (P : S -> Prop) (a : A) : returns P (ret a) (fun _ => P).
Proof. intros s Hs. exists a, s. auto. Qed.

Lemma returns_conseq {S A} (P P' : S -> Prop) (Q Q' : A -> S -> Prop) (m : SE S A) :
  (forall s, P s -> P' s) -> returns P' m Q' -> (forall a s, Q' a s -> Q a s) ->
  returns P m Q.
Proof.
  intros HP Hm HQ s Hs. destruct (Hm s (HP s Hs)) as [a [s' [E H]]]. exists a, s'. auto.
Qed.

Lemma returns_when {S} (P : S -> Prop) b (m : SE S unit) :
  returns P m (fun _ => P) -> returns P (when b m) (fun _ => P).
Proof. intros H. destruct b; [exact H | apply returns_ret]. Qed.

Lemma returns_forEach {S A} (P : S -> Prop) (l : list A) (k : A -> SE S unit) :
  (forall a, returns P (k a) (fun _ => P)) -> returns P (forEach l k) (fun _ => P).
Proof.
  intros H. induction l as [|a l IH]; simpl; [apply returns_ret|].
  eapply returns_bind; [apply H | intros u; exact IH].
Qed.

Lemma headOK_docOK d : headOK d -> docOK d.
Proof.
  intros [Hnd [Hf [_ [_ [Hb Hpl]]]]].
  destruct (plain_nodes_ok [doc d]) as [H1 H2].
  { simpl. rewrite app_nil_r. assumption. }
  simpl in H1, H2. rewrite app_nil_r in H1, H2. repeat split; assumption.
Qed.

Lemma headOK_append (d : domState) p ns k :
  headOK d -> hasNode p (doc d) = true ->
  NoDup (flat_map ids ns) ->
  (forall j, In j (flat_map ids ns) -> nextId d <= j < nextId d + k) ->
  forallb plainTag (flat_map elems ns) = true ->
  headOK (mkDom (appendChildrenT p ns (doc d)) (nextId d + k)).
Proof.
  intros [Hnd [Hf [H0 [H1 [H2 Hpl]]]]] Hp Hns Hr Hnew. unfold headOK. cbn [doc].
  split; [eapply NoDup_appendChildrenT; eassumption|].
  split; [apply fresh_appendChildren; [assumption | intros j Hj; apply Hr in Hj; lia]|].
  repeat split; try (apply hasNode_In; apply ids_appendChildrenT_old;
                     apply hasNode_In; assumption).
  apply forallb_forall. intros e He. apply elems_appendChildrenT_inv in He.
  rewrite forallb_forall in Hpl, Hnew. destruct He; auto.
Qed.

Lemma headOK_updElem (d : domState) i (g : elem -> elem) :
  (forall e, eid (g e) = eid e) -> (forall e, tag (g e) = tag e) ->
  headOK d -> headOK (mkDom (updElem i g (doc d)) (nextId d)).
Proof.
  intros Hid Htag [Hnd [Hf [H0 [H1 [H2 Hpl]]]]]. unfold headOK, fresh. cbn [doc nextId].
  rewrite (ids_updElem g Hid). rewrite !hasNode_updElem by exact Hid.
  repeat split; try assumption.
  rewrite (elems_updElem i g (doc d) Hid). apply forallb_forall. intros e He.
  apply in_map_iff in He. destruct He as [e0 [<- He0]].
  rewrite forallb_forall in Hpl. specialize (Hpl e0 He0).
  destruct (eid e0 =? i); [|assumption]. unfold plainTag in *. rewrite Htag. assumption.
Qed.

Lemma leafAt_updElem a i g d :
  (forall e, eid (g e) = eid e) ->
  leafAt a d -> leafAt a (mkDom (updElem i g (doc d)) (nextId d)).
Proof.
  intros Hid [e He]. unfold leafAt. cbn [doc]. rewrite getNode_updElem by exact Hid.
  rewrite He. simpl.
  rewrite updElem_Element. destruct (eid e =? i); simpl; eauto.
Qed.

Lemma leafAt_present a d : leafAt a d -> hasNode a (doc d) = true.
Proof. intros [e He]. unfold hasNode. rewrite He. reflexivity. Qed.

(** The text of a childless element. *)
Lemma setTextContent_leaf i s t e :
  NoDup (ids t) -> getNode i t = Some (Element e []) ->
  setTextContentT i s t =
  appendChildrenT i (if String.eqb s "" then [] else [TextNode s]) t.
Proof.
  induction t as [e0 cs0 IH| |] using node_ind'; intros Hnd Hg; try discriminate.
  rewrite setTextContentT_Element, appendChildrenT_Element.
  rewrite getNode_Element in Hg. destruct (Nat.eqb_spec (eid e0) i) as [E|E].
  - inversion Hg; subst. reflexivity.
  - rewrite app_nil_r. f_equal. simpl in Hnd. inversion Hnd as [|? ? _ Hcs]; subst.
    clear Hnd. induction cs0 as [|x r IHr]; [reflexivity|].
    inversion IH as [|? ? IHx IHrest]; subst. simpl in Hg, Hcs.
    apply NoDup_app_inv in Hcs. destruct Hcs as [N1 [N2 N3]].
    simpl. destruct (getNode i x) as [n|] eqn:Ex.
    + inversion Hg as [En]. rewrite En in Ex. rewrite (IHx N1 Hg). f_equal.
      assert (~ In i (flat_map ids r)) as Hr.
      { apply N3. apply hasNode_In. unfold hasNode. rewrite Ex. reflexivity. }
      clear -Hr. induction r as [|y r IHr]; [reflexivity|]. simpl in Hr.
      rewrite in_app_iff in Hr. simpl.
      unfold setTextContentT at 1, appendChildrenT at 1.
      rewrite !(updateNode_notin i _ y) by tauto. f_equal. apply IHr. tauto.
    + apply getNode_None in Ex. unfold setTextContentT at 1, appendChildrenT at 1.
      rewrite !(updateNode_notin i _ x) by assumption. f_equal.
      apply IHr; assumption.
Qed.

Lemma new_leafAt (d : domState) p e :
  hasNode p (doc d) = true -> fresh d -> eid e = nextId d ->
  leafAt (nextId d) (mkDom (appendChildrenT p [Element e []] (doc d)) (S (nextId d))).
Proof.
  intros Hp Hf He. exists e. cbn [doc]. rewrite getNode_appendChildrenT_new.
  - rewrite Hp. simpl. rewrite He, Nat.eqb_refl. reflexivity.
  - apply getNode_None. apply new_below. assumption.
Qed.

Lemma returns_createAppend p tg :
  plainTag (newElem 0 tg) = true ->
  returns (fun d => headOK d /\ hasNode p (doc d) = true) (createAppend p tg)
          (fun a d => headOK d /\ leafAt a d).
Proof.
  intros Htg d [Hd Hp]. rewrite (createAppend_run _ _ _ Hp).
  eexists _, _. split; [reflexivity|]. rewrite appendChildT_children. split.
  - replace (S (nextId d)) with (nextId d + 1) by lia.
    apply headOK_append; try assumption.
    + simpl. repeat constructor; simpl; tauto.
    + simpl. intros j [<-|[]]. lia.
    + simpl. rewrite Bool.andb_true_r. exact Htg.
  - apply new_leafAt; [assumption | apply Hd | reflexivity].
Qed.

Lemma returns_append_head tg :
  plainTag (newElem 0 tg) = true ->
  returns headOK (createAppend headId tg) (fun a d => headOK d /\ leafAt a d).
Proof.
  intros Htg. eapply returns_conseq; [| apply (returns_createAppend headId tg Htg) | auto].
  intros d Hd. split; [assumption | apply Hd].
Qed.

Lemma returns_append_body tg :
  plainTag (newElem 0 tg) = true ->
  returns headOK (createAppend bodyId tg) (fun a d => headOK d /\ leafAt a d).
Proof.
  intros Htg. eapply returns_conseq; [| apply (returns_createAppend bodyId tg Htg) | auto].
  intros d Hd. split; [assumption | apply Hd].
Qed.

Lemma returns_updElem a (g : elem -> elem) :
  (forall e, eid (g e) = eid e) -> (forall e, tag (g e) = tag e) ->
  returns (fun d => headOK d /\ leafAt a d) (mutate a (updElem a g))
          (fun _ d => headOK d /\ leafAt a d).
Proof.
  intros Hid Htag d [Hd Ha]. rewrite (mutate_run _ _ _ (leafAt_present _ _ Ha)).
  eexists _, _. split; [reflexivity|]. split.
  - apply headOK_updElem; assumption.
  - apply leafAt_updElem; assumption.
Qed.

Lemma returns_setAttribute a k v :
  returns (fun d => headOK d /\ leafAt a d) (setAttribute a k v)
          (fun _ d => headOK d /\ leafAt a d).
Proof. apply (returns_updElem a (withAttr k v)); reflexivity. Qed.

Lemma returns_last_setAttribute a k v :
  returns (fun d => headOK d /\ leafAt a d) (setAttribute a k v) (fun _ => headOK).
Proof.
  eapply returns_conseq; [| apply returns_setAttribute |]; [auto | intros u d H; apply H].
Qed.

Lemma returns_updElem_present i (g : elem -> elem) :
  (forall e, eid (g e) = eid e) -> (forall e, tag (g e) = tag e) ->
  returns (fun d => headOK d /\ hasNode i (doc d) = true) (mutate i (updElem i g))
          (fun _ => headOK).
Proof.
  intros Hid Htag d [Hd Hi]. rewrite (mutate_run _ _ _ Hi).
  eexists _, _. split; [reflexivity|]. apply headOK_updElem; assumption.
Qed.

Lemma returns_setTextContent a s :
  returns (fun d => headOK d /\ leafAt a d) (setTextContent a s) (fun _ => headOK).
Proof.
  intros d [Hd [e He]]. unfold setTextContent.
  rewrite mutate_run by (unfold hasNode; rewrite He; reflexivity).
  eexists _, _. split; [reflexivity|].
  rewrite (setTextContent_leaf a s (doc d) e (proj1 Hd) He).
  pose proof (headOK_append d a (if String.eqb s "" then [] else [TextNode s]) 0 Hd) as H.
  rewrite Nat.add_0_r in H. apply H.
  - unfold hasNode. rewrite He. reflexivity.
  - destruct (String.eqb s ""); constructor.
  - intros j Hj. destruct (String.eqb s ""); simpl in Hj; contradiction.
  - destruct (String.eqb s ""); reflexivity.
Qed.

Lemma returns_appendComment s :
  returns headOK (appendComment headId s) (fun _ => headOK).
Proof.
  intros d Hd. unfold appendComment. rewrite mutate_run by apply Hd.
  eexists _, _. split; [reflexivity|]. rewrite appendChildT_children.
  pose proof (headOK_append d headId [CommentNode s] 0 Hd) as H.
  rewrite Nat.add_0_r in H. apply H.
  - apply Hd.
  - constructor.
  - simpl. tauto.
  - reflexivity.
Qed.

Lemma returns_og term value : returns headOK (og term value) (fun _ => headOK).
Proof.
  unfold og.
  eapply returns_bind; [apply returns_append_head; reflexivity | intros el; cbv beta].
  eapply returns_bind; [apply returns_setAttribute | intros u; cbv beta].
  apply returns_last_setAttribute.
Qed.

Lemma returns_applyMetadata this :
  returns headOK (applyMetadata this) (fun _ => headOK).
Proof.
  unfold applyMetadata. destruct (negb (DCMETA this)); [apply returns_ret|].
  eapply returns_bind; [| intros u; cbv beta].
  { apply returns_when.
    eapply returns_bind; [apply returns_append_head; reflexivity | intros el; cbv beta].
    apply returns_setTextContent. }
  eapply returns_bind; [apply returns_og | intros u'; cbv beta].
  apply returns_forEach. intros t. unfold applyTerm.
  destruct (negb (truthyArray (getDC this (dcTerm t)))); [apply returns_ret|].
  apply returns_forEach. intros v. apply returns_og.
Qed.

Lemma returns_html_attribute k v :
  returns headOK (setAttribute htmlId k v) (fun _ => headOK).
Proof.
  intros d Hd.
  apply (returns_updElem_present htmlId (withAttr k v)); try reflexivity.
  split; [assumption | apply Hd].
Qed.

Lemma returns_body_classes cls :
  findMap tokenError cls = None ->
  returns headOK (classListAddAll bodyId cls) (fun _ => headOK).
Proof.
  intros Hcls d Hd. unfold classListAddAll. rewrite Hcls.
  apply returns_updElem_present.
  - intros e. apply eid_withClasses.
  - intros e. apply tag_withClasses.
  - split; [assumption | apply Hd].
Qed.

(** With valid body classes the set-up phase returns, and the render
    loop starts in a well-formed state, with a first section that has
    no child node. *)
Lemma returns_setup this options :
  findMap tokenError (bodyClass options) = None ->
  returns headOK (setup this options) (fun s d => safeInv (initCtx d s) /\ leafAt s d).
Proof.
  intros Hcls. unfold setup.
  eapply returns_bind; [apply returns_html_attribute | intros u; cbv beta].
  eapply returns_bind; [apply returns_append_head; reflexivity | intros metaEl; cbv beta].
  eapply returns_bind; [apply returns_setAttribute | intros u1; cbv beta].
  eapply returns_bind; [apply returns_last_setAttribute | intros u2; cbv beta].
  eapply returns_bind; [| intros u3; cbv beta].
  { apply returns_when.
    eapply returns_bind; [| intros u4; cbv beta];
      apply returns_forEach; intros s; apply returns_appendComment. }
  eapply returns_bind; [apply returns_append_head; reflexivity | intros styleEl; cbv beta].
  eapply returns_bind; [apply returns_setTextContent | intros u5; cbv beta].
  eapply returns_bind; [| intros u6; cbv beta].
  { apply returns_forEach. intros url.
    eapply returns_bind; [apply returns_append_head; reflexivity | intros el; cbv beta].
    eapply returns_bind; [apply returns_setAttribute | intros u7; cbv beta].
    eapply returns_bind; [apply returns_setAttribute | intros u8; cbv beta].
    apply returns_last_setAttribute. }
  eapply returns_bind; [apply returns_applyMetadata | intros u9; cbv beta].
  eapply returns_bind; [| intros u10; cbv beta].
  { apply returns_when. apply returns_body_classes. exact Hcls. }
  eapply returns_bind; [| intros u11; cbv beta].
  { apply returns_when. cbv zeta. apply returns_when.
    eapply returns_bind; [apply returns_append_body; reflexivity | intros h1; cbv beta].
    eapply returns_bind; [apply returns_setAttribute | intros u12; cbv beta].
    apply returns_setTextContent. }
  intros d Hd. apply headOK_docOK in Hd. pose proof Hd as [_ [_ [Hb _]]].
  rewrite (createAppend_run _ _ _ Hb). eexists _, _. split; [reflexivity|].
  rewrite appendChildT_children. split.
  - unfold safeInv, initCtx. cbn [dom dest sect doc].
    apply new_section_safe; try assumption; try reflexivity; discriminate.
  - apply new_leafAt; [assumption | apply Hd | reflexivity].
Qed.

(** *** The error of the set-up phase *)

Lemma endsIn_bind {S A B} (P : S -> Prop) (R : A -> S -> Prop) (Q : B -> S -> Prop)
      (E : error -> Prop) (m : SE S A) (k : A -> SE S B) :
  endsIn P m R E -> (forall a, endsIn (R a) (k a) Q E) -> endsIn P (bind m k) Q E.
Proof.
  intros Hm Hk s Hs. specialize (Hm s Hs). unfold bind.
  destruct (m s) as [a s1|e s1]; [|exact Hm]. apply (Hk a s1 Hm).
Qed.

Lemma returns_endsIn {S A} (P : S -> Prop) (Q : A -> S -> Prop) (E : error -> Prop)
      (m : SE S A) :
  returns P m Q -> endsIn P m Q E.
Proof. intros H s Hs. destruct (H s Hs) as [a [s' [-> Hq]]]. exact Hq. Qed.

Lemma findMap_some_items {A B} (f : A -> option B) l b :
  findMap f l = Some b -> hasItems l = true.
Proof. destruct l; [discriminate | reflexivity]. Qed.

(** With a body class that is no valid token the set-up phase throws
    the error of the first such class. *)
Lemma throws_setup this options e :
  findMap tokenError (bodyClass options) = Some e ->
  endsIn headOK (setup this options) (fun _ _ => False) (fun e' => e' = e).
Proof.
  intros Hcls. unfold setup.
  eapply endsIn_bind;
    [apply returns_endsIn, returns_html_attribute | intros u; cbv beta].
  eapply endsIn_bind;
    [apply returns_endsIn, returns_append_head; reflexivity | intros metaEl; cbv beta].
  eapply endsIn_bind; [apply returns_endsIn, returns_setAttribute | intros u1; cbv beta].
  eapply endsIn_bind;
    [apply returns_endsIn, returns_last_setAttribute | intros u2; cbv beta].
  eapply endsIn_bind; [apply returns_endsIn | intros u3; cbv beta].
  { apply returns_when.
    eapply returns_bind; [| intros u4; cbv beta];
      apply returns_forEach; intros s; apply returns_appendComment. }
  eapply endsIn_bind;
    [apply returns_endsIn, returns_append_head; reflexivity | intros styleEl; cbv beta].
  eapply endsIn_bind; [apply returns_endsIn, returns_setTextContent | intros u5; cbv beta].
  eapply endsIn_bind; [apply returns_endsIn | intros u6; cbv beta].
  { apply returns_forEach. intros url.
    eapply returns_bind; [apply returns_append_head; reflexivity | intros el; cbv beta].
    eapply returns_bind; [apply returns_setAttribute | intros u7; cbv beta].
    eapply returns_bind; [apply returns_setAttribute | intros u8; cbv beta].
    apply returns_last_setAttribute. }
  eapply endsIn_bind; [apply returns_endsIn, returns_applyMetadata | intros u9; cbv beta].
  eapply endsIn_bind with (R := fun _ _ => False); [| intros u10 d []].
  intros d Hd. rewrite (findMap_some_items _ _ _ Hcls). unfold when, classListAddAll.
  rewrite Hcls. reflexivity.
Qed.

Lemma setup_outcome this options :
  endsIn headOK (setup this options)
    (fun s d => safeInv (initCtx d s) /\ leafAt s d /\
                findMap tokenError (bodyClass options) = None)
    (fun e => findMap tokenError (bodyClass options) = Some e).
Proof.
  intros d Hd. destruct (findMap tokenError (bodyClass options)) as [e|] eqn:Hcls.
  - pose proof (throws_setup this options e Hcls d Hd) as H.
    destruct (setup this options d) as [s d'|e' d']; [destruct H | congruence].
  - destruct (returns_setup this options Hcls d Hd) as [s [d' [-> [Hinv Hleaf]]]]. auto.
Qed.

Lemma headOK_createHTMLDocument : headOK createHTMLDocument.
Proof.
  unfold headOK, createHTMLDocument, fresh, htmlId, headId, bodyId. cbn [doc nextId].
  split; [simpl; repeat constructor; simpl; intuition lia|].
  split; [simpl; repeat constructor|].
  repeat split; reflexivity.
Qed.

(** ** The cleanup pass returns *)

Lemma roots_descendants t :
  elemsOf (map fst ((t, true) :: descendants t)) = elems t.
Proof.
  induction t as [e cs IH| |] using node_ind'; try reflexivity.
  rewrite descendants_Element. cbn [map fst elemsOf flat_map app elems]. f_equal.
  induction cs as [|c r IHr]; [reflexivity|].
  inversion IH as [|? ? IHc IHrest]; subst.
  cbn [descendantsL map fst flat_map]. rewrite map_app. unfold elemsOf in *.
  rewrite flat_map_app. rewrite (IHr IHrest).
  cbn [map fst flat_map] in IHc. rewrite <- IHc. rewrite app_assoc. reflexivity.
Qed.

Lemma selectAll_roots sel L e : In e (selectAll sel L) -> In e (elemsOf (map fst L)).
Proof.
  induction L as [|[n b] L IH]; [simpl; tauto|].
  cbn [selectAll map fst elemsOf flat_map]. unfold matchesSel. cbn [fst snd].
  destruct n as [e0 cs| |]; try (intros H; apply IH in H; exact H).
  destruct (existsb (matchesSimple e0 b) sel).
  - intros [<-|H]; [left; reflexivity | right; apply IH; assumption].
  - intros H. right. apply IH. assumption.
Qed.

Lemma NoDup_selectAll sel L :
  NoDup (map eid (elemsOf (map fst L))) -> NoDup (map eid (selectAll sel L)).
Proof.
  induction L as [|[n b] L IH]; [intros _; constructor|].
  cbn [selectAll map fst elemsOf flat_map]. unfold matchesSel. cbn [fst snd].
  destruct n as [e0 cs| |]; try exact IH.
  cbn [app map]. intros H. inversion H as [|? ? Hnot Hrest]; subst.
  destruct (existsb (matchesSimple e0 b) sel); [|apply IH; assumption].
  cbn [map]. constructor; [|apply IH; assumption].
  intros Hin. apply Hnot. apply in_map_iff in Hin. destruct Hin as [x [E Hx]].
  apply in_map_iff. exists x. split; [assumption|]. apply selectAll_roots in Hx. exact Hx.
Qed.

Lemma cleanup_loop_returns (l : list elem) : forall d,
  NoDup (map eid l) -> NoDup (ids (doc d)) ->
  (forall el, In el l -> In el (elems (doc d))) ->
  exists d',
    forEach l (fun el => filled <- hasChildNodes (eid el) ;;
                         when (negb filled) (removeFromParent (eid el))) d = Return tt d'.
Proof.
  induction l as [|el l IH]; intros d Hl Hnd Hin.
  - exists d. reflexivity.
  - cbn [forEach]. unfold bind at 1. rewrite cleanStep_run.
    destruct (getNode_elem _ _ Hnd (Hin el (or_introl eq_refl))) as [cs Hg].
    rewrite Hg. cbn [childNodes]. inversion Hl as [|? ? Hnot Hl']; subst.
    destruct cs as [|x r].
    + apply IH; [assumption | apply NoDup_removeNodeT; assumption |].
      intros el' Hel'. cbn [doc]. apply survives_removal; try assumption.
      * intros n Hn. rewrite Hg in Hn. inversion Hn. reflexivity.
      * apply Hin. right. assumption.
      * intros E. apply Hnot. rewrite <- E. apply in_map. assumption.
    + apply IH; [assumption | assumption |]. intros el' Hel'. apply Hin. right. assumption.
Qed.

Lemma cleanup_returns (d : domState) :
  NoDup (ids (doc d)) -> exists d', cleanup d = Return tt d'.
Proof.
  intros Hnd. unfold cleanup. unfold bind at 1. unfold documentQuerySelectorAll.
  apply cleanup_loop_returns.
  - apply NoDup_selectAll. rewrite roots_descendants, <- ids_elems. assumption.
  - assumption.
  - intros el Hel. apply (selected_spec d el Hel).
Qed.

(** ** A conversion and its errors *)

Lemma renderLines_safe ls : forall c,
  safeInv c ->
  match renderLines ls c with
  | Return _ c' => safeInv c'
  | Throw e _ => exists l, In l ls /\ mayThrow l e
  end.
Proof.
  induction ls as [|l ls IH]; intros c Hc; [exact Hc|].
  rewrite renderLines_cons. pose proof (step_safe l c Hc) as Hl. unfold lineSafe in Hl.
  destruct (step l c) as [[] c'|e c'].
  - specialize (IH c' Hl). destruct (renderLines ls c') as [[] c2|e c2]; [exact IH|].
    destruct IH as [l' [Hin Hm]]. exists l'. split; [right; assumption | assumption].
  - exists l. split; [left; reflexivity | assumption].
Qed.

Lemma toHTMLDOM_outcome this u :
  match toHTMLDOM this u with
  | Return _ _ => findMap tokenError (bodyClass (mergeOptions u)) = None
  | Throw e _ =>
      match findMap tokenError (bodyClass (mergeOptions u)) with
      | Some e' => e = e'
      | None => exists l, In l (lines this) /\ mayThrow l e
      end
  end.
Proof.
  unfold toHTMLDOM.
  pose proof (setup_outcome this (mergeOptions u) createHTMLDocument
                headOK_createHTMLDocument) as Hs.
  destruct (setup this (mergeOptions u) createHTMLDocument) as [s d|e d].
  - destruct Hs as [Hinv [_ Hcls]]. rewrite Hcls. unfold render. unfold bind.
    pose proof (renderLines_safe (lines this) (initCtx d s) Hinv) as H.
    destruct (renderLines (lines this) (initCtx d s)) as [[] c'|e c']; [|exact H].
    unfold liftD. destruct H as [[Hnd _] _].
    destruct (cleanup_returns (dom c') Hnd) as [d' ->]. reflexivity.
  - rewrite Hs. reflexivity.
Qed.

Lemma cannotThrow_spec l e : cannotThrow l = true -> ~ mayThrow l e.
Proof.
  destruct l as [t|t|r]; simpl; try tauto.
  destruct (lineType t); try tauto.
  - intros H [H' _]. congruence.
  - destruct (destinationOf t); try discriminate; intros _ [H' _]; discriminate.
Qed.

Lemma stateAfter_safe this u ls c : stateAfter this u ls = Some c -> safeInv c.
Proof.
  unfold stateAfter.
  pose proof (setup_outcome this (mergeOptions u) createHTMLDocument
                headOK_createHTMLDocument) as Hs.
  destruct (setup this (mergeOptions u) createHTMLDocument) as [s d|e d]; [|discriminate].
  destruct Hs as [Hinv _].
  pose proof (renderLines_safe ls (initCtx d s) Hinv) as H.
  destruct (renderLines ls (initCtx d s)) as [[] c'|e c']; [|discriminate].
  intros Hc. inversion Hc; subst. exact H.
Qed.

(** X8.  A conversion throws in one of two places.  When a body class
    of the options is no valid class token (it is empty, or holds white
    space), the set-up phase throws the [DOMException] of the first
    such class: [SYNTAX_ERR] for an empty one, [INVALID_CHARACTER_ERR]
    for one with white space.  Otherwise a conversion that throws
    throws at a line of the document, and the error is one of three:
    "No image content available", at an IMAGE line without inline
    content; "Cannot set destination to D_CELL when no table is
    defined" or the division by zero of the column count, at a
    DESTINATION line for a cell.  The rest of the set-up phase, the
    lookups of the destination element, every other kind of line and
    the cleanup pass never throw. *)
Theorem conversion_errors (this : Document) (u : UserOptions) (e : error) (d : domState) :
  toHTMLDOM this u = Throw e d ->
  match findMap tokenError (bodyClass (mergeOptions u)) with
  | Some e' => e = e'
  | None => exists l, In l (lines this) /\ mayThrow l e
  end.
Proof.
  intros H. pose proof (toHTMLDOM_outcome this u) as Ho. rewrite H in Ho. exact Ho.
Qed.

Lemma conversion_errors_witness :
  exists d l,
    toHTMLDOM imageDocument noOptions = Throw noImage d /\
    In l (lines imageDocument) /\ mayThrow l noImage.
Proof.
  pose (d := finalState (toHTMLDOM imageDocument noOptions)).
  assert (toHTMLDOM imageDocument noOptions = Throw noImage d) as H by reflexivity.
  destruct (conversion_errors imageDocument noOptions noImage d H) as [l [H1 H2]].
  exists d, l. split; [exact H | split; [exact H1 | exact H2]].
Defined.

(** X9.  A document whose IMAGE lines all carry inline content and
    that has no DESTINATION line for a cell converts with all options
    whose body classes are valid class tokens: [toHTMLDOM] returns a
    tree. *)
Theorem conversion_returns (this : Document) (u : UserOptions) :
  forallb cannotThrow (lines this) = true ->
  findMap tokenError (bodyClass (mergeOptions u)) = None ->
  exists t d, toHTMLDOM this u = Return t d.
Proof.
  intros H Hcls. pose proof (toHTMLDOM_outcome this u) as Ho.
  destruct (toHTMLDOM this u) as [t d|e d]; [eauto|].
  rewrite Hcls in Ho.
  destruct Ho as [l [Hin Hm]]. rewrite forallb_forall in H.
  exfalso. apply (cannotThrow_spec l e (H l Hin) Hm).
Qed.

Lemma conversion_returns_witness :
  forallb cannotThrow (lines notesDocument) = true /\
  findMap tokenError (bodyClass (mergeOptions noOptions)) = None /\
  exists t d, toHTMLDOM notesDocument noOptions = Return t d.
Proof.
  split; [reflexivity|]. split; [reflexivity|].
  apply (conversion_returns notesDocument noOptions); reflexivity.
Defined.

(** X10.  In every state the render loop reaches, a SECTION line
    returns.  It removes the current section when that has no child
    node, appends a new section to the body, with the class of the
    line's alignment, and puts a rule before it when the line has the
    break flag and the body holds another section.  The new section
    becomes the current one, the destination becomes the body, the
    open link is closed. *)
Theorem section_line (this : Document) (u : UserOptions) (ls : list line) (c : ctx)
        (l : TypeLine) :
  stateAfter this u ls = Some c -> lineType l = T_SECTION ->
  step (Typed l) c =
  Return tt
    (setSect (nextId (dom c))
       (setDom
          (mkDom
             (appendChildrenT bodyId
                ((if ruled l (withoutEmpty (sect c) (doc (dom c)))
                  then [leaf (S (nextId (dom c))) "hr"] else []) ++
                 [Element (aligned (align l) (newElem (nextId (dom c)) "section")) []])
                (withoutEmpty (sect c) (doc (dom c))))
             (if ruled l (withoutEmpty (sect c) (doc (dom c)))
              then S (S (nextId (dom c))) else S (nextId (dom c))))
          (setDest D_BODY (setLink None (afterReset (Typed l) c))))).
Proof.
  intros Hc Hk. apply section_run; [eapply stateAfter_safe; eassumption | assumption].
Qed.

Lemma section_line_witness :
  exists c c',
    stateAfter (emptyDocument []) noOptions [TEXT "a"] = Some c /\
    step (Typed (mkTypeLine T_SECTION None 0 (Some ALIGN_CENTER) true D_BODY false "" "" false))
         c = Return tt c' /\
    sect c' = nextId (dom c) /\ nextId (dom c') = S (S (nextId (dom c))).
Proof.
  pose (c := finalState (renderLines [TEXT "a"] startCtx)).
  exists c. eexists. split; [reflexivity|]. split.
  - apply (section_line (emptyDocument []) noOptions [TEXT "a"] c); reflexivity.
  - split; reflexivity.
Defined.

(** X11.  In every state the render loop reaches, a PARAGRAPH line
    returns.  It resolves the destination element, which in the body
    and in a heading may create an element, looks from it upwards for
    the nearest note, cell or section, and appends to that a new
    paragraph with the class of the line's alignment.  The open link
    is closed; nothing else changes. *)
Theorem paragraph_line (this : Document) (u : UserOptions) (ls : list line) (c : ctx)
        (l : TypeLine) :
  stateAfter this u ls = Some c -> lineType l = T_PARAGRAPH ->
  exists r d1 p ce,
    destElD (dest c) (sect c) (dom c) = Return r d1 /\
    pathTo r (doc d1) = Some p /\ closestP sectionTags p = Some ce /\
    step (Typed l) c =
    Return tt
      (setDom
         (mkDom
            (appendChildrenT (eid ce)
               [Element (aligned (align l) (newElem (nextId d1) "p")) []] (doc d1))
            (S (nextId d1)))
         (setLink None (afterReset (Typed l) c))).
Proof.
  intros Hc Hk. pose proof (stateAfter_safe _ _ _ _ Hc) as Hinv.
  dest_returns c r d1 S1 Hr Hd1 Hs1 Hg1 Hin1.
  pose proof Hs1 as [_ [se [cs [Hg [Ht _]]]]].
  rewrite Hg in Hg1. inversion Hg1; subst S1.
  destruct (container_found _ _ _ _ r (proj1 Hd1) Hg Ht Hin1) as [p [ce [Hp [Hcl Hce]]]].
  exists r, d1, p, ce. split; [exact Hr|]. split; [exact Hp|]. split; [exact Hcl|].
  apply (paragraph_run c l r d1 p ce (proj1 (proj2 Hd)) Hr Hk Hp Hcl Hce).
Qed.

Lemma paragraph_line_witness :
  exists c,
    stateAfter (emptyDocument []) noOptions [TEXT "a"; DESTINATION D_NOTE false] = Some c /\
    exists r d1 p ce,
      destElD (dest c) (sect c) (dom c) = Return r d1 /\
      pathTo r (doc d1) = Some p /\ closestP sectionTags p = Some ce /\
      step (Typed (typed T_PARAGRAPH)) c =
      Return tt
        (setDom
           (mkDom
              (appendChildrenT (eid ce)
                 [Element (aligned (align (typed T_PARAGRAPH)) (newElem (nextId d1) "p")) []]
                 (doc d1))
              (S (nextId d1)))
           (setLink None (afterReset (Typed (typed T_PARAGRAPH)) c))).
Proof.
  pose (c := finalState (renderLines [TEXT "a"; DESTINATION D_NOTE false] startCtx)).
  exists c. split; [vm_compute; reflexivity|].
  apply (paragraph_line (emptyDocument []) noOptions
           [TEXT "a"; DESTINATION D_NOTE false] c (typed T_PARAGRAPH));
    [vm_compute; reflexivity | reflexivity].
Defined.

(** X12.  In every state the render loop reaches, a TABLE line returns.
    It appends a table to the current section, whatever the destination
    is, and the table carries the number of columns of the line; no
    number is refused.  Nothing else changes. *)
Theorem table_line (this : Document) (u : UserOptions) (ls : list line) (c : ctx)
        (l : TypeLine) :
  stateAfter this u ls = Some c -> lineType l = T_TABLE ->
  step (Typed l) c =
  Return tt
    (setDom
       (mkDom
          (appendChildrenT (sect c)
             [Element (withColumns (columns l) (newElem (nextId (dom c)) "table")) []]
             (doc (dom c)))
          (S (nextId (dom c))))
       (afterReset (Typed l) c)).
Proof.
  intros Hc Hk. destruct (stateAfter_safe _ _ _ _ Hc) as [Hd Hs].
  apply table_run; [apply Hd | apply (sect_present _ _ _ Hs) | assumption].
Qed.

Lemma table_line_witness :
  exists c,
    stateAfter (emptyDocument []) noOptions [DESTINATION D_NOTE false] = Some c /\
    step (TABLE 0) c =
    Return tt
      (setDom
         (mkDom
            (appendChildrenT (sect c)
               [Element (withColumns 0 (newElem (nextId (dom c)) "table")) []]
               (doc (dom c)))
            (S (nextId (dom c))))
         (afterReset (TABLE 0) c)).
Proof.
  pose (c := finalState (renderLines [DESTINATION D_NOTE false] startCtx)).
  exists c. split; [vm_compute; reflexivity|].
  apply (table_line (emptyDocument []) noOptions [DESTINATION D_NOTE false] c);
    [vm_compute; reflexivity | reflexivity].
Defined.

(** The heading a new section gets. *)
Lemma head_destEl (d : domState) e :
  hasNode bodyId (doc d) = true -> fresh d -> eid e = nextId d ->
  destElD D_HEAD (nextId d)
    (mkDom (appendChildrenT bodyId [Element e []] (doc d)) (S (nextId d))) =
  Return (S (nextId d))
    (mkDom (appendChildrenT bodyId [Element e [leaf (S (nextId d)) "h2"]] (doc d))
       (S (S (nextId d)))).
Proof.
  intros Hb Hf He. pose proof (new_below d Hf) as Hk.
  assert (getNode (nextId d) (appendChildrenT bodyId [Element e []] (doc d)) =
          Some (Element e [])) as Hg.
  { rewrite getNode_appendChildrenT_new by (apply getNode_None; assumption).
    rewrite Hb. simpl. rewrite He, Nat.eqb_refl. reflexivity. }
  unfold destElD. unfold bind at 1. unfold lastElementChild, withNode. cbn [doc].
  rewrite Hg. cbn [ret lastElementChildN childNodes rev findMap].
  rewrite (createAppend_new (nextId d) bodyId e [] "h2" (doc d) (S (nextId d)) He Hk);
    [reflexivity | simpl; tauto | exact Hb].
Qed.

(** X13.  In every state the render loop reaches, a DESTINATION line
    for a heading returns.  It appends a new section to the body and
    makes it the current one; the section it leaves stays in the
    tree, also when it has no child node, and no rule and no
    alignment class are added.  The destination element is then a new
    [h2] in the new section. *)
Theorem head_destination (this : Document) (u : UserOptions) (ls : list line) (c : ctx)
        (l : TypeLine) :
  stateAfter this u ls = Some c ->
  lineType l = T_DESTINATION -> destinationOf l = D_HEAD ->
  exists c',
    step (Typed l) c = Return tt c' /\
    c' = setDest D_HEAD
           (setSect (nextId (dom c))
              (setDom
                 (mkDom (appendChildrenT bodyId [leaf (nextId (dom c)) "section"]
                           (doc (dom c)))
                    (S (nextId (dom c))))
                 (setLink None (afterReset (Typed l) c)))) /\
    destElD (dest c') (sect c') (dom c') =
    Return (S (nextId (dom c)))
      (mkDom
         (appendChildrenT bodyId
            [Element (newElem (nextId (dom c)) "section")
               [leaf (S (nextId (dom c))) "h2"]]
            (doc (dom c)))
         (S (S (nextId (dom c))))).
Proof.
  intros Hc Hk Hdst. destruct (stateAfter_safe _ _ _ _ Hc) as [Hd _].
  pose proof Hd as [_ [Hf [Hb _]]].
  eexists. split; [|split; [reflexivity|]].
  - rewrite (destination_step l c Hk). rewrite Hdst.
    rewrite enterHead_run
      by (cbn [dom setLink]; rewrite afterReset_dom; exact Hb).
    cbn [dom setLink]. rewrite afterReset_dom. reflexivity.
  - cbn [dest sect dom setDest setSect setDom].
    apply (head_destEl (dom c) (newElem (nextId (dom c)) "section") Hb Hf eq_refl).
Qed.

Lemma head_destination_witness :
  exists c c',
    stateAfter (emptyDocument []) noOptions [] = Some c /\
    step (DESTINATION D_HEAD false) c = Return tt c' /\
    sect c' = nextId (dom c) /\ dest c' = D_HEAD /\
    destElD (dest c') (sect c') (dom c') =
    Return (S (nextId (dom c)))
      (mkDom
         (appendChildrenT bodyId
            [Element (newElem (nextId (dom c)) "section")
               [leaf (S (nextId (dom c))) "h2"]]
            (doc (dom c)))
         (S (S (nextId (dom c))))).
Proof.
  destruct (head_destination (emptyDocument []) noOptions [] startCtx
              (mkTypeLine T_DESTINATION None 0 None false D_HEAD false "" "" false))
    as [c' [H1 [H2 H3]]]; [reflexivity | reflexivity | reflexivity |].
  exists startCtx, c'. split; [reflexivity|]. split; [exact H1|].
  split; [rewrite H2; reflexivity|]. split; [rewrite H2; reflexivity | exact H3].
Defined.

(** The destination inside a note that was just appended to the
    section. *)
Lemma note_destEl s t k n nx :
  hasNode s t = true -> s <= k -> ~ In (S k) (ids t) ->
  destElD D_NOTE s (mkDom (appendChildrenT s [noteBlock (S k) n] t) nx) =
  Return (S (S (S k))) (mkDom (appendChildrenT s [noteBlock (S k) n] t) nx).
Proof.
  intros Hs Hle Hk. pose proof Hs as Hs'.
  unfold hasNode in Hs. destruct (getNode s t) as [S0|] eqn:Hg; [|discriminate].
  destruct (getNode_shape _ _ _ Hg) as [se [cs [-> Hse]]].
  assert (getNode s (appendChildrenT s [noteBlock (S k) n] t) =
          Some (appendChildrenT s [noteBlock (S k) n] (Element se cs))) as Hg'.
  { apply section_after_append; [assumption|]. simpl. intuition lia. }
  assert (getNode (S k) (appendChildrenT s [noteBlock (S k) n] t) =
          Some (noteBlock (S k) n)) as Hgn.
  { rewrite getNode_appendChildrenT_new by (apply getNode_None; assumption).
    rewrite Hs'. simpl. rewrite Nat.eqb_refl. reflexivity. }
  unfold destElD. unfold bind at 1.
  rewrite (query_run s _ (mkDom (appendChildrenT s [noteBlock (S k) n] t) nx) _ Hg').
  rewrite appendChildrenT_Element, Hse, Nat.eqb_refl.
  unfold querySelectorAllN at 1. rewrite descendants_Element.
  rewrite selectTags_descendantsL_app by reflexivity.
  change (selectAll [SelTag "aside"; SelTag "notAnElement"]
            (descendantsL [noteBlock (S k) n]))
    with [newElem (S k) "aside"].
  rewrite lastOf_snoc. unfold bind at 1. cbn [eid newElem].
  rewrite (query_run (S k) _ (mkDom (appendChildrenT s [noteBlock (S k) n] t) nx) _ Hgn).
  reflexivity.
Qed.

(** X14.  In every state the render loop reaches, a DESTINATION line
    for a note returns.  It appends the forward anchor, with the
    number of the note as its text, to the destination element, and a
    note to the current section: an [aside] that holds the back anchor
    and an empty paragraph.  The note number goes up by one, the open
    link is closed, and the destination element is then the paragraph
    of the new note. *)
Theorem note_destination (this : Document) (u : UserOptions) (ls : list line) (c : ctx)
        (l : TypeLine) :
  stateAfter this u ls = Some c ->
  lineType l = T_DESTINATION -> destinationOf l = D_NOTE ->
  exists r d1 c',
    destElD (dest c) (sect c) (dom c) = Return r d1 /\
    step (Typed l) c = Return tt c' /\
    c' = setDest D_NOTE
           (setNoteIndex (S (noteIndex c))
              (setDom
                 (mkDom
                    (appendChildrenT (sect c) [noteBlock (S (nextId d1)) (noteIndex c)]
                       (appendChildrenT r [forwardNode (nextId d1) (noteIndex c)] (doc d1)))
                    (nextId d1 + 4))
                 (setLink None (afterReset (Typed l) c)))) /\
    destElD (dest c') (sect c') (dom c') = Return (S (S (S (nextId d1)))) (dom c').
Proof.
  intros Hc Hk Hdst. pose proof (stateAfter_safe _ _ _ _ Hc) as Hinv.
  dest_returns c r d1 S1 Hr Hd1 Hs1 Hg1 Hin1.
  assert (hasNode r (doc d1) = true) as Hr'.
  { unfold hasNode in Hin1. destruct (getNode r S1) eqn:Er; [|discriminate].
    eapply getNode_trans; eassumption. }
  pose proof (sect_below _ _ _ Hd1 Hs1) as Hlt.
  pose proof Hd1 as [_ [Hf1 _]].
  exists r, d1. eexists. split; [exact Hr|]. split; [|split; [reflexivity|]].
  - rewrite (destination_step l c Hk). rewrite Hdst.
    rewrite (enterNote_run (setLink None (afterReset (Typed l) c)) r d1);
      cbn [dom dest sect noteIndex setLink];
      rewrite ?afterReset_dom, ?afterReset_dest, ?afterReset_sect, ?afterReset_noteIndex;
      [reflexivity | exact Hr | exact Hf1 | apply (sect_present _ _ _ Hs1)].
  - cbn [dest sect dom setDest setNoteIndex setDom setLink]. rewrite afterReset_sect.
    apply note_destEl.
    + apply hasNode_In. apply ids_appendChildrenT_old. apply hasNode_In.
      apply (sect_present _ _ _ Hs1).
    + lia.
    + intros Hin. apply ids_appendChildrenT_inv in Hin.
      cbn [flat_map] in Hin. rewrite app_nil_r, ids_forward in Hin.
      destruct Hin as [Hin|[E|[]]]; [|lia].
      unfold fresh in Hf1. rewrite Forall_forall in Hf1. apply Hf1 in Hin. lia.
Qed.

Lemma note_destination_witness :
  exists c,
    stateAfter (emptyDocument []) noOptions [TEXT "a"] = Some c /\
    exists r d1 c',
      destElD (dest c) (sect c) (dom c) = Return r d1 /\
      step (DESTINATION D_NOTE false) c = Return tt c' /\
      noteIndex c' = S (noteIndex c) /\
      destElD (dest c') (sect c') (dom c') = Return (S (S (S (nextId d1)))) (dom c').
Proof.
  pose (c := finalState (renderLines [TEXT "a"] startCtx)).
  exists c. split; [vm_compute; reflexivity|].
  destruct (note_destination (emptyDocument []) noOptions [TEXT "a"] c
              (mkTypeLine T_DESTINATION None 0 None false D_NOTE false "" "" false))
    as [r [d1 [c' [H1 [H2 [H3 H4]]]]]];
    [vm_compute; reflexivity | reflexivity | reflexivity |].
  exists r, d1, c'. split; [exact H1|]. split; [exact H2|].
  split; [rewrite H3; reflexivity | exact H4].
Defined.

(** ** What the set-up phase appends to the head *)

Lemma headAppends_state (d : domState) ns :
  fresh d -> hasNode headId (doc d) = true ->
  flat_map ids ns = seq (nextId d) (List.length (flat_map ids ns)) ->
  fresh (mkDom (appendChildrenT headId ns (doc d)) (nextId d + List.length (flat_map ids ns))) /\
  hasNode headId (appendChildrenT headId ns (doc d)) = true /\
  ~ In headId (flat_map ids ns).
Proof.
  intros Hf Hh Hids. split; [|split].
  - apply fresh_appendChildren; [assumption|]. intros j Hj. rewrite Hids in Hj.
    apply in_seq in Hj. lia.
  - apply hasNode_In. apply ids_appendChildrenT_old. apply hasNode_In. assumption.
  - intros Hin. rewrite Hids in Hin. apply in_seq in Hin.
    pose proof (fresh_lt _ _ Hf Hh). lia.
Qed.

Lemma headAppends_nil : headAppends (ret tt) (fun _ => []).
Proof.
  intros d Hf Hh. split; [|reflexivity]. simpl. rewrite appendChildrenT_nil, Nat.add_0_r.
  destruct d. reflexivity.
Qed.

Lemma headAppends_bind (m1 m2 : D unit) mk1 mk2 :
  headAppends m1 mk1 -> headAppends m2 mk2 ->
  headAppends (m1 ;; m2)
    (fun k => mk1 k ++ mk2 (k + List.length (flat_map ids (mk1 k))))%list.
Proof.
  intros H1 H2 d Hf Hh. destruct (H1 d Hf Hh) as [E1 I1].
  destruct (headAppends_state d _ Hf Hh I1) as [Hf' [Hh' Hnot]].
  destruct (H2 _ Hf' Hh') as [E2 I2]. cbn [doc nextId] in E2, I2.
  unfold bind. rewrite E1, E2. split.
  - rewrite appendChildrenT_twice by assumption.
    rewrite flat_map_app, length_app, Nat.add_assoc. reflexivity.
  - rewrite flat_map_app, length_app, seq_app. rewrite <- I1, <- I2. reflexivity.
Qed.

Lemma headAppends_forEach {A} (l : list A) (f : A -> D unit) (mk : A -> ref -> list node) :
  (forall a, headAppends (f a) (mk a)) ->
  headAppends (forEach l f) (seqNodes (map mk l)).
Proof.
  intros H. induction l as [|a l IH]; [apply headAppends_nil|].
  cbn [forEach map seqNodes]. apply (headAppends_bind _ _ _ _ (H a) IH).
Qed.

Lemma headAppends_same (m : D unit) mk mk' :
  (forall k, mk k = mk' k) -> headAppends m mk -> headAppends m mk'.
Proof. intros E H d Hf Hh. rewrite <- E. apply H; assumption. Qed.

Lemma headAppends_og term value : headAppends (og term value) (ogNode term value).
Proof.
  intros d Hf Hh. split; [|reflexivity]. pose proof (new_below d Hf) as Hk.
  unfold og. unfold bind at 1. rewrite (createAppend_run _ _ _ Hh).
  rewrite appendChildT_children. unfold leaf.
  unfold bind at 1. unfold setAttribute, setAttributeT, updElem.
  rewrite update_new; [| reflexivity | exact Hk | simpl; tauto | exact Hh].
  rewrite update_new; [| reflexivity | exact Hk | simpl; tauto | exact Hh].
  unfold ogNode. cbn [flat_map ids app List.length eid]. rewrite Nat.add_1_r. reflexivity.
Qed.

Lemma headAppends_title this :
  headAppends
    (when (nonEmpty (join ", " (getDC this "title")))
       (titleEl <- createAppend headId "title" ;;
        setTextContent titleEl (join ", " (getDC this "title"))))
    (titleNodes this).
Proof.
  unfold titleNodes. unfold nonEmpty.
  destruct (String.eqb (join ", " (getDC this "title")) "") eqn:Et; cbn [negb when];
    [apply headAppends_nil|].
  intros d Hf Hh. split; [|reflexivity]. pose proof (new_below d Hf) as Hk.
  unfold bind at 1. rewrite (createAppend_run _ _ _ Hh).
  rewrite appendChildT_children. unfold leaf.
  unfold setTextContent, setTextContentT.
  rewrite update_new; [| reflexivity | exact Hk | simpl; tauto | exact Hh].
  rewrite Et. cbn [flat_map ids app List.length eid newElem]. rewrite Nat.add_1_r.
  reflexivity.
Qed.

Lemma seqNodes_app l1 l2 k :
  seqNodes (l1 ++ l2) k =
  (seqNodes l1 k ++ seqNodes l2 (k + List.length (flat_map ids (seqNodes l1 k))))%list.
Proof.
  revert k. induction l1 as [|mk r IH]; intros k.
  - simpl. rewrite Nat.add_0_r. reflexivity.
  - cbn [app seqNodes]. rewrite IH, <- app_assoc. f_equal. f_equal.
    rewrite flat_map_app, length_app, Nat.add_assoc. reflexivity.
Qed.

Lemma seqNodes_concat {A} (f : A -> list (ref -> list node)) (l : list A) k :
  seqNodes (map (fun a => seqNodes (f a)) l) k = seqNodes (flat_map f l) k.
Proof.
  revert k. induction l as [|a l IH]; intros k; [reflexivity|].
  cbn [map seqNodes flat_map]. rewrite seqNodes_app, IH. reflexivity.
Qed.

Lemma map_flat_map {A B C} (g : B -> C) (h : A -> list B) l :
  map g (flat_map h l) = flat_map (fun a => map g (h a)) l.
Proof.
  induction l as [|a l IH]; [reflexivity|]. simpl. rewrite map_app, IH. reflexivity.
Qed.

Lemma headAppends_applyTerm this t :
  headAppends (applyTerm this t)
    (seqNodes (map (fun v => ogNode (ogName t) v) (termValues this t))).
Proof.
  unfold applyTerm, truthyArray, termValues. cbn [negb].
  apply headAppends_forEach. intros v. apply headAppends_og.
Qed.

Lemma headAppends_metadata this : headAppends (applyMetadata this) (metadataOf this).
Proof.
  unfold applyMetadata, metadataOf. destruct (DCMETA this); [|apply headAppends_nil].
  cbn [negb].
  eapply headAppends_same;
    [| apply (headAppends_bind _ _ _ _ (headAppends_title this)
                (headAppends_bind _ _ _ _ (headAppends_og "type" "article")
                   (headAppends_forEach terms (applyTerm this) _
                      (headAppends_applyTerm this))))].
  intros k. unfold metadataNodes, ogPairs. cbn [seqNodes map fst snd].
  f_equal. f_equal. rewrite seqNodes_concat. rewrite map_flat_map.
  f_equal. apply flat_map_ext. intros t. rewrite map_map. reflexivity.
Qed.

(** X15.  With metadata enabled, [applyMetadata] appends to the head,
    in this order: a [title] element with the titles joined by a comma
    and a space, when that is not empty; the property [og:type] with
    the content [article]; one [og:title] and one [og:description]
    with the joined values, also when there is none; one
    [og:article:author] for every creator, one [og:article:tag] for
    every subject and one [og:article:published_time] for every date.
    With metadata disabled it does nothing. *)
Theorem applyMetadata_appends (this : Document) (d : domState) :
  fresh d -> hasNode headId (doc d) = true ->
  applyMetadata this d =
  if DCMETA this
  then Return tt
         (mkDom (appendChildrenT headId (metadataNodes this (nextId d)) (doc d))
                (nextId d + List.length (flat_map ids (metadataNodes this (nextId d)))))
  else Return tt d.
Proof.
  intros Hf Hh. destruct (headAppends_metadata this d Hf Hh) as [E _]. rewrite E.
  unfold metadataOf. destruct (DCMETA this); [reflexivity|].
  simpl. rewrite appendChildrenT_nil, Nat.add_0_r. destruct d. reflexivity.
Qed.

Lemma applyMetadata_appends_witness :
  fresh createHTMLDocument /\ hasNode headId (doc createHTMLDocument) = true /\
  applyMetadata authorsDocument createHTMLDocument =
  Return tt
    (mkDom (appendChildrenT headId (metadataNodes authorsDocument 3) (doc createHTMLDocument))
           (3 + List.length (flat_map ids (metadataNodes authorsDocument 3)))).
Proof.
  assert (fresh createHTMLDocument) as Hf by (apply freshb_spec; reflexivity).
  split; [exact Hf|]. split; [reflexivity|].
  apply (applyMetadata_appends authorsDocument createHTMLDocument Hf). reflexivity.
Defined.

(** ** The tree of the set-up phase *)

Lemma headAppends_when b (m : D unit) mk :
  headAppends m mk -> headAppends (when b m) (fun k => if b then mk k else []).
Proof. intros H. destruct b; [exact H | apply headAppends_nil]. Qed.

Lemma headAppends_comment s : headAppends (appendComment headId s) (fun _ => [CommentNode s]).
Proof.
  intros d Hf Hh. split; [|reflexivity]. unfold appendComment.
  rewrite (mutate_run _ _ _ Hh). rewrite appendChildT_children. simpl.
  rewrite Nat.add_0_r. reflexivity.
Qed.

Lemma seqNodes_comments {A} (f : A -> string) (l : list A) k :
  seqNodes (map (fun a (_ : ref) => [CommentNode (f a)]) l) k =
  map (fun a => CommentNode (f a)) l.
Proof.
  revert k. induction l as [|a l IH]; intros k; [reflexivity|].
  cbn [map seqNodes app]. f_equal. apply IH.
Qed.

Lemma ids_comments {A} (f : A -> string) (l : list A) :
  flat_map ids (map (fun a => CommentNode (f a)) l) = [].
Proof. induction l as [|a l IH]; [reflexivity | exact IH]. Qed.

Lemma headAppends_comments this :
  headAppends
    (when (DCMETA this)
       (forEach (getDC this "date")
          (fun s => appendComment headId (" Date: " ++ s ++ " ")) ;;
        forEach (getDC this "source")
          (fun s => appendComment headId (" Source: " ++ s ++ " "))))
    (commentNodes this).
Proof.
  eapply headAppends_same; [| apply headAppends_when; apply headAppends_bind;
    apply headAppends_forEach; intros s; apply headAppends_comment].
  intros k. unfold commentNodes. destruct (DCMETA this); [|reflexivity].
  cbv beta. rewrite !(seqNodes_comments (fun s => " Date: " ++ s ++ " ")).
  rewrite (seqNodes_comments (fun s => " Source: " ++ s ++ " ")). reflexivity.
Qed.

Lemma headAppends_contentType :
  headAppends
    (metaEl <- createAppend headId "meta" ;;
     setAttribute metaEl "http-equiv" "Content-Type" ;;
     setAttribute metaEl "content" "text/html; charset=utf-8")
    contentTypeNode.
Proof.
  intros d Hf Hh. split; [|reflexivity]. pose proof (new_below d Hf) as Hk.
  unfold bind at 1. rewrite (createAppend_run _ _ _ Hh).
  rewrite appendChildT_children. unfold leaf.
  unfold bind at 1. unfold setAttribute, setAttributeT, updElem.
  rewrite update_new; [| reflexivity | exact Hk | simpl; tauto | exact Hh].
  rewrite update_new; [| reflexivity | exact Hk | simpl; tauto | exact Hh].
  unfold contentTypeNode. cbn [flat_map ids app List.length eid]. rewrite Nat.add_1_r.
  reflexivity.
Qed.

Lemma headAppends_style :
  headAppends (styleEl <- createAppend headId "style" ;; setTextContent styleEl style)
              styleNode.
Proof.
  intros d Hf Hh. split; [|reflexivity]. pose proof (new_below d Hf) as Hk.
  unfold bind at 1. rewrite (createAppend_run _ _ _ Hh).
  rewrite appendChildT_children. unfold leaf.
  unfold setTextContent, setTextContentT.
  rewrite update_new; [| reflexivity | exact Hk | simpl; tauto | exact Hh].
  unfold styleNode. cbn [flat_map ids app List.length eid newElem]. rewrite Nat.add_1_r.
  reflexivity.
Qed.

Lemma headAppends_link url :
  headAppends
    (el <- createAppend headId "link" ;;
     setAttribute el "rel" "stylesheet" ;;
     setAttribute el "type" "text/css" ;;
     setAttribute el "href" url)
    (linkNode url).
Proof.
  intros d Hf Hh. split; [|reflexivity]. pose proof (new_below d Hf) as Hk.
  unfold bind at 1. rewrite (createAppend_run _ _ _ Hh).
  rewrite appendChildT_children. unfold leaf.
  unfold bind at 1. unfold setAttribute, setAttributeT, updElem.
  rewrite update_new; [| reflexivity | exact Hk | simpl; tauto | exact Hh].
  unfold bind at 1.
  rewrite update_new; [| reflexivity | exact Hk | simpl; tauto | exact Hh].
  rewrite update_new; [| reflexivity | exact Hk | simpl; tauto | exact Hh].
  unfold linkNode. cbn [flat_map ids app List.length eid]. rewrite Nat.add_1_r.
  reflexivity.
Qed.

(** The set-up phase, with the steps of the head and of the body
    grouped. *)
Lemma setup_grouped this options d :
  setup this options d =
  (setAttribute htmlId "xmlns" "http://www.w3.org/1999/xhtml" ;;
   headPhase this options ;;
   bodyPhase this options) d.
Proof.
  unfold setup, headPhase, bodyPhase, heading, bind.
  destruct (setAttribute htmlId "xmlns" "http://www.w3.org/1999/xhtml" d) as [[] d1|];
    [|reflexivity].
  destruct (createAppend headId "meta" d1) as [x d2|]; [|reflexivity].
  destruct (setAttribute x "http-equiv" "Content-Type" d2) as [[] d3|]; [|reflexivity].
  destruct (setAttribute x "content" "text/html; charset=utf-8" d3) as [[] d4|];
    [|reflexivity].
  destruct (when (DCMETA this) _ d4) as [[] d5|]; [|reflexivity].
  destruct (createAppend headId "style" d5) as [y d6|]; [|reflexivity].
  destruct (setTextContent y style d6) as [[] d7|]; [|reflexivity].
  destruct (forEach (stylesheet options) _ d7) as [[] d8|]; [|reflexivity].
  destruct (applyMetadata this d8) as [[] d9|]; reflexivity.
Qed.

Lemma headAppends_headPhase this options :
  headAppends (headPhase this options) (headNodes this options).
Proof.
  unfold headPhase.
  eapply headAppends_same;
    [| apply (headAppends_bind _ _ _ _ headAppends_contentType
                (headAppends_bind _ _ _ _ (headAppends_comments this)
                   (headAppends_bind _ _ _ _ headAppends_style
                      (headAppends_bind _ _ _ _
                         (headAppends_forEach (stylesheet options) _ _ headAppends_link)
                         (headAppends_metadata this)))))].
  intros k. unfold headNodes. cbn [app seqNodes]. do 3 f_equal.
  rewrite seqNodes_app. f_equal. cbn [seqNodes]. rewrite app_nil_r. reflexivity.
Qed.

Lemma head_filled X :
  appendChildrenT headId X startTree =
  Element (withAttr "xmlns" "http://www.w3.org/1999/xhtml" (newElem htmlId "html"))
    [Element (newElem headId "head") X; leaf bodyId "body"].
Proof. reflexivity. Qed.

Lemma not_in_children i cs :
  ~ In i (flat_map ids cs) -> forall f, map (updateNode i f) cs = cs.
Proof.
  intros H f. apply map_id_Forall. apply Forall_forall. intros c Hc.
  apply updateNode_notin. intros Hin. apply H. apply in_flat_map. eauto.
Qed.

(** Updates of the body element and appends to it, on a tree of the
    set-up phase. *)
Lemma body_updated (f : elem -> list node -> node) H X B Y :
  eid H = htmlId -> eid B = bodyId ->
  ~ In bodyId (flat_map ids X) -> ~ In bodyId (flat_map ids Y) ->
  updateNode bodyId f (Element H [Element (newElem headId "head") X; Element B Y]) =
  Element H [Element (newElem headId "head") X; f B Y].
Proof.
  intros EH EB HX HY. cbn [updateNode map]. rewrite EH, EB.
  cbn [newElem eid Nat.eqb htmlId headId bodyId].
  rewrite (not_in_children _ _ HX), (not_in_children _ _ HY). reflexivity.
Qed.

Lemma body_present H X B Y :
  eid B = bodyId ->
  hasNode bodyId (Element H [Element (newElem headId "head") X; Element B Y]) = true.
Proof.
  intros EB. apply hasNode_In. simpl. right. right. apply in_or_app. right.
  rewrite EB. left. reflexivity.
Qed.

Lemma body_classes cls H X B n :
  findMap tokenError cls = None ->
  eid H = htmlId -> eid B = bodyId -> ~ In bodyId (flat_map ids X) ->
  when (hasItems cls) (classListAddAll bodyId cls)
    (mkDom (Element H [Element (newElem headId "head") X; Element B []]) n) =
  Return tt
    (mkDom (Element H [Element (newElem headId "head") X;
                       Element (fold_left (fun e c => withClass c e) cls B) []]) n).
Proof.
  intros Hcls EH EB HX. destruct cls as [|c cls]; [reflexivity|].
  cbn [hasItems when]. unfold classListAddAll. rewrite Hcls.
  rewrite mutate_run by (apply body_present; assumption).
  unfold updElem. cbn [doc nextId].
  rewrite body_updated by (try assumption; simpl; tauto).
  reflexivity.
Qed.

Lemma body_classes_throw cls e (d : domState) :
  findMap tokenError cls = Some e ->
  when (hasItems cls) (classListAddAll bodyId cls) d = Throw e d.
Proof.
  intros Hcls. rewrite (findMap_some_items _ _ _ Hcls). unfold when, classListAddAll.
  rewrite Hcls. reflexivity.
Qed.

Lemma heading_run this options d :
  fresh d -> hasNode bodyId (doc d) = true ->
  heading this options d =
  Return tt
    (mkDom (appendChildrenT bodyId (headingNodes this options (nextId d)) (doc d))
           (nextId d + List.length (flat_map ids (headingNodes this options (nextId d))))).
Proof.
  intros Hf Hb. unfold heading, headingNodes.
  assert (Return tt d =
          Return tt (mkDom (appendChildrenT bodyId [] (doc d)) (nextId d + 0))) as Hnil.
  { rewrite appendChildrenT_nil, Nat.add_0_r. destruct d. reflexivity. }
  destruct (insertHeading options && DCMETA this); cbn [when]; [|exact Hnil].
  cbv zeta. unfold nonEmpty.
  destruct (String.eqb (join ", " (getDC this "title")) "") eqn:Et; cbn [negb when];
    [exact Hnil|].
  pose proof (new_below d Hf) as Hk.
  unfold bind at 1. rewrite (createAppend_run _ _ _ Hb).
  rewrite appendChildT_children. unfold leaf.
  unfold bind at 1. unfold setAttribute, setAttributeT, updElem.
  rewrite update_new; [| reflexivity | exact Hk | simpl; tauto | exact Hb].
  unfold setTextContent, setTextContentT.
  rewrite update_new; [| reflexivity | exact Hk | simpl; tauto | exact Hb].
  rewrite Et. cbn [flat_map ids app List.length eid newElem withAttr]. rewrite Nat.add_1_r.
  reflexivity.
Qed.

Lemma ids_headingNodes this options k :
  flat_map ids (headingNodes this options k) = [] \/
  flat_map ids (headingNodes this options k) = [k].
Proof.
  unfold headingNodes. destruct (insertHeading options && DCMETA this); [|left; reflexivity].
  destruct (nonEmpty (join ", " (getDC this "title"))); [right | left]; reflexivity.
Qed.

Lemma fresh_setup H X B n :
  eid H = htmlId -> eid B = bodyId -> (forall j, In j (flat_map ids X) -> j < n) ->
  3 <= n ->
  fresh (mkDom (Element H [Element (newElem headId "head") X; Element B []]) n).
Proof.
  intros EH EB HX Hn. unfold fresh. cbn [doc nextId]. apply Forall_forall. intros j Hj.
  simpl in Hj. rewrite EH, EB in Hj.
  destruct Hj as [<-|[<-|Hj]]; [unfold htmlId; lia | unfold headId; lia|].
  apply in_app_or in Hj. destruct Hj as [Hj|[<-|Hj]];
    [apply HX in Hj; lia | unfold bodyId; lia | simpl in Hj; tauto].
Qed.

(** X16.  The set-up phase fills the head, then prepares the body.
    The root carries the namespace attribute.  The head holds, in
    order: the [meta] element of the content type; with metadata
    enabled, a comment for every date and then one for every source;
    the [style] element with the style sheet of the module; a [link]
    element for every stylesheet of the options; and the elements of
    [applyMetadata].  When a body class of the options is no valid
    class token, the set-up phase then throws the [DOMException] of
    the first such class, with the body untouched.  Otherwise it
    returns, and the document the render loop starts with is this one:
    the body carries the classes of the options, each once, and holds
    the heading of the title, when the options ask for it, metadata is
    enabled and the title is not empty, followed by the first section,
    which is empty.  Identities are handed out in this order. *)
Theorem setup_builds (this : Document) (options : Options) :
  setup this options createHTMLDocument =
  match findMap tokenError (bodyClass options) with
  | None =>
      Return (firstSection this options)
             (mkDom (setupTree this options) (S (firstSection this options)))
  | Some e => Throw e (mkDom (headTree this options) (afterHead this options))
  end.
Proof.
  rewrite setup_grouped. unfold bind at 1.
  assert (setAttribute htmlId "xmlns" "http://www.w3.org/1999/xhtml" createHTMLDocument =
          Return tt (mkDom startTree 3)) as E0 by reflexivity.
  rewrite E0. clear E0. unfold bind at 1.
  assert (fresh (mkDom startTree 3)) as Hf0 by (apply freshb_spec; reflexivity).
  destruct (headAppends_headPhase this options (mkDom startTree 3) Hf0 eq_refl) as [E I].
  cbn [doc nextId] in E, I. rewrite E. clear E. rewrite head_filled.
  fold (afterHead this options). fold (headTree this options).
  unfold bodyPhase. unfold bind at 1.
  destruct (findMap tokenError (bodyClass options)) as [e|] eqn:Hcls.
  { rewrite (body_classes_throw _ _ _ Hcls). reflexivity. }
  unfold headTree.
  set (X := headNodes this options 3) in *. set (n := afterHead this options).
  assert (forall j, In j (flat_map ids X) -> 3 <= j < n) as HX.
  { intros j Hj. rewrite I in Hj. apply in_seq in Hj. unfold n, afterHead. fold X. lia. }
  assert (~ In bodyId (flat_map ids X)) as HXb.
  { intros Hin. apply HX in Hin. unfold bodyId in Hin. lia. }
  assert (3 <= n) as Hn by (unfold n, afterHead; lia).
  unfold leaf at 1.
  rewrite body_classes; [| exact Hcls | reflexivity | reflexivity | exact HXb].
  fold (bodyElem options). unfold bind at 1.
  set (T := Element (withAttr "xmlns" "http://www.w3.org/1999/xhtml" (newElem htmlId "html"))
              [Element (newElem headId "head") X; Element (bodyElem options) []]).
  assert (eid (bodyElem options) = bodyId) as EB by apply eid_withClasses.
  assert (hasNode bodyId T = true) as HbT by (apply body_present; exact EB).
  assert (fresh (mkDom T n)) as HfT.
  { apply fresh_setup; [reflexivity | exact EB | | exact Hn].
    intros j Hj. apply HX in Hj. lia. }
  rewrite (heading_run this options (mkDom T n) HfT HbT). cbn [doc nextId].
  fold (firstSection this options). set (HN := headingNodes this options n).
  assert (~ In bodyId (flat_map ids HN)) as HNb.
  { destruct (ids_headingNodes this options n) as [E|E]; unfold HN; rewrite E;
      simpl; unfold bodyId; lia. }
  rewrite createAppend_run
    by (cbn [doc]; apply hasNode_In; apply ids_appendChildrenT_old; apply hasNode_In;
        exact HbT).
  cbn [doc nextId]. rewrite appendChildT_children.
  rewrite appendChildrenT_twice by exact HNb.
  unfold appendChildrenT, T.
  rewrite body_updated; [| reflexivity | exact EB | exact HXb | simpl; tauto].
  reflexivity.
Qed.

(** A body class that is empty, and one that holds a space. *)
Example empty_body_class :
  exists d,
    toHTMLDOM (emptyDocument [TEXT "a"]) (mkUserOptions None None (Some [""]) None) =
    Throw (DOMException "SYNTAX_ERR") d.
Proof. eexists. vm_compute. reflexivity. Qed.

Example spaced_body_class :
  exists d,
    toHTMLDOM (emptyDocument [TEXT "a"]) (mkUserOptions None None (Some ["ok"; "a b"]) None) =
    Throw (DOMException "INVALID_CHARACTER_ERR") d.
Proof. eexists. vm_compute. reflexivity. Qed.

(** ** The text of a line, read in the new document *)

(** The element that received new children, read in the new tree. *)
Lemma getNode_appended p ns t e cs :
  NoDup (ids t) ->
  getNode p t = Some (Element e cs) ->
  (forall j, In j (flat_map ids ns) -> j <> p) ->
  getNode p (appendChildrenT p ns t) = Some (Element e (cs ++ ns)).
Proof.
  intros Hnd Hg Hns. rewrite getNode_appendChildrenT_old.
  - rewrite Hg. destruct (getNode_shape _ _ _ Hg) as [e' [cs' [E Hid]]].
    injection E as E1 E2. subst e' cs'. simpl.
    rewrite appendChildrenT_Element. rewrite Hid. rewrite Nat.eqb_refl.
    unfold appendChildrenT. rewrite not_in_children; [reflexivity|].
    pose proof (getNode_NoDup _ _ _ Hg Hnd) as Hn. simpl in Hn.
    inversion Hn as [|? ? Hnot _]. rewrite <- Hid. exact Hnot.
  - apply findMap_None. apply Forall_forall. intros x Hx. apply getNode_None.
    intros Hin. apply (Hns p); [|reflexivity]. apply in_flat_map. eauto.
Qed.

Lemma ids_fragmentsOf s k j : In j (flat_map ids (fragmentsOf s k)) -> k <= j.
Proof.
  unfold fragmentsOf. destruct (split s) as [|f r]; rewrite ids_fragmentNodes;
    intros H; apply in_seq in H; lia.
Qed.

(** The net effect of a text line in a well-formed state. *)
Lemma text_kept (c : ctx) (l : TextLine) :
  safeInv c ->
  exists d d1 e cs c',
    destElD (dest c) (sect c) (dom c) = Return d d1 /\
    getNode (insertionPoint (link (afterReset (Texted l) c)) d (doc d1)) (doc d1) =
    Some (Element e cs) /\
    step (Texted l) c = Return tt c' /\
    dest c' = dest c /\ sect c' = sect c /\
    doc (dom c') =
    appendChildrenT (insertionPoint (link (afterReset (Texted l) c)) d (doc d1))
      (nest (wrappers l) (nextId d1)
         (fragmentsOf (text l) (nextId d1 + List.length (wrappers l))))
      (doc d1) /\
    getNode (insertionPoint (link (afterReset (Texted l) c)) d (doc d1)) (doc (dom c')) =
    Some (Element e
            (cs ++ nest (wrappers l) (nextId d1)
                     (fragmentsOf (text l) (nextId d1 + List.length (wrappers l))))).
Proof.
  intros Hinv. dest_returns c d d1 S1 Hr Hd1 Hs1 Hg1 Hin1.
  pose proof Hd as [_ [Hf _]]. pose proof Hd1 as [Hnd1 [Hf1 _]].
  destruct (destElD_spec _ _ _ _ _ Hr) as [Hh _].
  set (out := insertionPoint (link (afterReset (Texted l) c)) d (doc d1)).
  assert (hasNode out (doc d1) = true) as Hout
      by (apply insertionPoint_hasNode; assumption).
  pose proof (fresh_lt _ _ Hf1 Hout) as Hlt.
  destruct (getNode out (doc d1)) as [n|] eqn:Hg;
    [|unfold hasNode in Hout; rewrite Hg in Hout; discriminate].
  destruct (getNode_shape _ _ _ Hg) as [e [cs [-> Hid]]].
  exists d, d1, e, cs. eexists. split; [exact Hr|]. split; [exact Hg|].
  split; [apply (text_line_run c l d d1 Hf Hr)|]. fold out.
  cbn [dom setDom doc dest sect].
  split; [apply afterReset_dest|]. split; [apply afterReset_sect|].
  split; [reflexivity|].
  apply getNode_appended; [exact Hnd1 | exact Hg |]. intros j Hj.
  rewrite ids_nest_inner in Hj. apply in_app_or in Hj. destruct Hj as [Hj|Hj].
  - apply in_seq in Hj. lia.
  - apply ids_fragmentsOf in Hj. lia.
Qed.

(** X1.  In every state the render loop reaches, a text line returns
    and loses no character of its text.  It resolves the destination
    element, which in the body and in a heading may create an element;
    its insertion point, the open link when the destination element
    contains it and the destination element otherwise, is an element
    of the document, and after the line that element holds its former
    children followed by the wrappers of the line around the fragments
    of the text; nothing else of the document changes.  The fragments
    are text nodes and [br] elements that read back as the text, a
    line feed for every [br]: there is one text node more than the
    text has line feeds, and no text node holds a line feed. *)
Theorem text_reads_back (this : Document) (u : UserOptions) (ls : list line) (c : ctx)
        (l : TextLine) :
  stateAfter this u ls = Some c ->
  exists d d1 e cs c',
    destElD (dest c) (sect c) (dom c) = Return d d1 /\
    getNode (insertionPoint (link (afterReset (Texted l) c)) d (doc d1)) (doc d1) =
    Some (Element e cs) /\
    step (Texted l) c = Return tt c' /\
    doc (dom c') =
    appendChildrenT (insertionPoint (link (afterReset (Texted l) c)) d (doc d1))
      (nest (wrappers l) (nextId d1)
         (fragmentsOf (text l) (nextId d1 + List.length (wrappers l))))
      (doc d1) /\
    getNode (insertionPoint (link (afterReset (Texted l) c)) d (doc d1)) (doc (dom c')) =
    Some (Element e
            (cs ++ nest (wrappers l) (nextId d1)
                     (fragmentsOf (text l) (nextId d1 + List.length (wrappers l))))) /\
    shownText (fragmentsOf (text l) (nextId d1 + List.length (wrappers l))) = text l /\
    List.length (textNodes (fragmentsOf (text l) (nextId d1 + List.length (wrappers l)))) =
    S (countLineFeeds (text l)) /\
    Forall (fun f => hasLineFeed f = false)
           (textNodes (fragmentsOf (text l) (nextId d1 + List.length (wrappers l)))).
Proof.
  intros Hc. pose proof (stateAfter_safe _ _ _ _ Hc) as Hinv.
  destruct (text_kept c l Hinv) as [d [d1 [e [cs [c' [H1 [H2 [H3 [_ [_ [H4 H5]]]]]]]]]]].
  destruct (fragmentsOf_split (text l) (nextId d1 + List.length (wrappers l))) as [H6 H7].
  exists d, d1, e, cs, c'. repeat (split; [assumption|]).
  rewrite H7. split; [apply split_length | apply split_no_lineFeed].
Qed.

Lemma text_reads_back_witness :
  exists c,
    stateAfter (emptyDocument []) noOptions [TEXT "a"] = Some c /\
    exists c' out e cs ns,
      step (TEXT ("one" ++ lineFeed ++ "two")) c = Return tt c' /\
      getNode out (doc (dom c')) = Some (Element e (cs ++ ns)).
Proof.
  pose (c := finalState (renderLines [TEXT "a"] startCtx)).
  assert (stateAfter (emptyDocument []) noOptions [TEXT "a"] = Some c) as Hc
      by (vm_compute; reflexivity).
  exists c. split; [exact Hc|].
  destruct (text_reads_back (emptyDocument []) noOptions [TEXT "a"] c
              (plain ("one" ++ lineFeed ++ "two")) Hc)
    as [d [d1 [e [cs [c' [H1 [H2 [H3 [H4 [H5 H6]]]]]]]]]].
  exists c'. eexists _, e, cs, _. split; [exact H3 | exact H5].
Defined.

(** ** Text lines in the body *)

Lemma renderLines_snoc pre l init c1 :
  renderLines (pre ++ [l]) init = Return tt c1 ->
  exists c0, renderLines pre init = Return tt c0 /\ step l c0 = Return tt c1.
Proof.
  rewrite renderLines_app. destruct (renderLines pre init) as [[] c0|e c0]; [|discriminate].
  rewrite renderLines_cons. destruct (step l c0) as [[] c'|e c'] eqn:E; [|discriminate].
  intros H. exists c0. split; [reflexivity|].
  change (Return tt c' = Return tt c1) in H. rewrite E. exact H.
Qed.

Lemma renderLines_returns_safe ls init c :
  safeInv init -> renderLines ls init = Return tt c -> safeInv c.
Proof.
  intros Hi H. pose proof (renderLines_safe ls init Hi) as Hs. rewrite H in Hs. exact Hs.
Qed.

Lemma noSection_snoc pre l :
  noSection (pre ++ [l]) = noSection pre && negb (isSectionLine l).
Proof. unfold noSection. rewrite forallb_app. simpl. rewrite andb_true_r. reflexivity. Qed.

(** The current section is the section opened last. *)
Lemma sect_openedLast pre : forall init c1,
  safeInv init -> noDestination pre = true ->
  renderLines pre init = Return tt c1 -> openedLast pre init (sect c1).
Proof.
  induction pre as [|l pre IH] using rev_ind; intros init c1 Hi Hno Hrun.
  - inversion Hrun; subst. left. split; reflexivity.
  - destruct (renderLines_snoc _ _ _ _ Hrun) as [c0 [H0 Hl]].
    apply noDestination_app in Hno. destruct Hno as [Hno1 Hno2].
    unfold noDestination in Hno2. simpl in Hno2. apply andb_true_iff in Hno2.
    destruct Hno2 as [Hld _]. apply negb_true_iff in Hld.
    pose proof (renderLines_returns_safe _ _ _ Hi H0) as Hs0.
    destruct (isSectionLine l) eqn:Hsec.
    + destruct l as [t|t|r]; try discriminate. simpl in Hsec.
      destruct (lineType t) eqn:Ek; try discriminate.
      right. exists pre, t, [], c0, c1.
      split; [reflexivity|]. split; [exact Ek|]. split; [reflexivity|].
      split; [exact H0|]. split; [exact Hl|]. split; [|reflexivity].
      apply (section_opened t c0 c1 Ek); [apply Hs0 | exact Hl].
    + assert (sect c1 = sect c0) as Es.
      { pose proof (step_keeps_sect l Hld Hsec c0) as K. rewrite Hl in K. exact K. }
      rewrite Es. destruct (IH init c0 Hi Hno1 H0) as [[Hn Hk]|H].
      * left. split; [|exact Hk]. rewrite noSection_snoc, Hn, Hsec. reflexivity.
      * destruct H as [p1 [t [p2 [ca [cb [E [Ek [Hn [Ha [Hb [Ho Hk]]]]]]]]]]].
        right. exists p1, t, (p2 ++ [l])%list, ca, cb.
        split; [rewrite E, <- app_assoc; reflexivity|]. split; [exact Ek|].
        split; [rewrite noSection_snoc, Hn, Hsec; reflexivity|].
        repeat (split; [assumption|]). exact Hk.
Qed.

(** C9.  In a conversion whose lines hold no DESTINATION line, the
    destination is the body after every prefix of the lines, whether
    the prefix returns or throws.  A text line that the render loop
    reaches returns, and the loop run up to and including the line has
    put the wrappers and the fragments of the line inside the subtree
    of the current section, which it keeps; that section is a
    [section] element of the document and the section opened last: the
    first section when no SECTION line came before, and otherwise the
    element the last SECTION line before created.  The current section
    changes only at a SECTION line. *)
Theorem body_destination (this : Document) (u : UserOptions) (s : ref) (d0 : domState) :
  setup this (mergeOptions u) createHTMLDocument = Return s d0 ->
  noDestination (lines this) = true ->
  (forall pre post, lines this = (pre ++ post)%list ->
     dest (finalState (renderLines pre (initCtx d0 s))) = D_BODY) /\
  (forall pre l post c1, lines this = (pre ++ Texted l :: post)%list ->
     renderLines pre (initCtx d0 s) = Return tt c1 ->
     exists c2 se cs,
       renderLines (pre ++ [Texted l]) (initCtx d0 s) = Return tt c2 /\
       dest c2 = D_BODY /\ sect c2 = sect c1 /\
       openedLast pre (initCtx d0 s) (sect c1) /\
       getNode (sect c1) (doc (dom c1)) = Some (Element se cs) /\ tag se = "section" /\
       attachedUnder (sect c1) l c1 c2) /\
  (forall pre l post c1 c2, lines this = (pre ++ l :: post)%list ->
     renderLines pre (initCtx d0 s) = Return tt c1 ->
     step l c1 = Return tt c2 ->
     sectionEffect l c1 c2).
Proof.
  intros Hs Hno.
  assert (safeInv (initCtx d0 s)) as Hinit.
  { pose proof (setup_outcome this (mergeOptions u) createHTMLDocument
                  headOK_createHTMLDocument) as H.
    rewrite Hs in H. apply H. }
  split; [|split].
  - intros pre post E. rewrite E in Hno. apply noDestination_app in Hno.
    apply renderLines_dest_body; [apply Hno | reflexivity].
  - intros pre l post c1 E Hpre. rewrite E in Hno.
    apply noDestination_app in Hno. destruct Hno as [Hno1 Hno2].
    pose proof (renderLines_returns_safe _ _ _ Hinit Hpre) as Hs1.
    assert (dest c1 = D_BODY) as Hdest.
    { pose proof (renderLines_dest_body pre (initCtx d0 s) Hno1 eq_refl) as H.
      rewrite Hpre in H. exact H. }
    destruct (text_kept c1 l Hs1)
      as [d [d1 [e [cs0 [c2 [_ [_ [Hstep [Hd2 _]]]]]]]]].
    pose proof Hs1 as [[Hnd [Hf _]] [_ [se [cs [Hg [Ht _]]]]]].
    destruct (text_attached l c1 c2 Hnd Hf Hdest Hstep) as [Hsect Hatt].
    exists c2, se, cs.
    split; [rewrite renderLines_app, Hpre, renderLines_cons, Hstep; reflexivity|].
    split; [rewrite Hd2; exact Hdest|]. split; [exact Hsect|].
    split; [apply sect_openedLast; assumption|].
    split; [exact Hg|]. split; [exact Ht | exact Hatt].
  - intros pre l post c1 c2 E Hpre Hstep. rewrite E in Hno.
    apply noDestination_app in Hno. destruct Hno as [Hno1 Hno2].
    unfold noDestination in Hno2. simpl in Hno2. apply andb_true_iff in Hno2.
    destruct Hno2 as [Hl _]. apply negb_true_iff in Hl.
    pose proof (renderLines_returns_safe _ _ _ Hinit Hpre) as [[Hnd [Hf _]] _].
    assert (dest c1 = D_BODY) as Hdest.
    { pose proof (renderLines_dest_body pre (initCtx d0 s) Hno1 eq_refl) as H.
      rewrite Hpre in H. exact H. }
    assert (isSectionLine l = false -> sect c2 = sect c1) as Hkeep.
    { intros Hsec. pose proof (step_keeps_sect l Hl Hsec c1) as K.
      rewrite Hstep in K. exact K. }
    destruct l as [t|t|r]; unfold sectionEffect.
    + destruct (lineType t) eqn:Ek;
        try (apply Hkeep; simpl; rewrite Ek; reflexivity).
      apply (section_opened t c1 c2 Ek Hf Hstep).
    + apply text_attached; assumption.
    + apply Hkeep. reflexivity.
Qed.

Lemma body_destination_witness :
  exists s d0 c1 c2,
    setup bodyDocument (mergeOptions noOptions) createHTMLDocument = Return s d0 /\
    dest (finalState (renderLines [TEXT "a"; SECTION] (initCtx d0 s))) = D_BODY /\
    renderLines [TEXT "a"; SECTION] (initCtx d0 s) = Return tt c1 /\
    renderLines ([TEXT "a"; SECTION] ++ [Texted (plain "b")]) (initCtx d0 s) = Return tt c2 /\
    openedLast [TEXT "a"; SECTION] (initCtx d0 s) (sect c1) /\
    attachedUnder (sect c1) (plain "b") c1 c2.
Proof.
  assert (exists s d0,
            setup bodyDocument (mergeOptions noOptions) createHTMLDocument = Return s d0)
    as [s [d0 H]] by (eexists; eexists; vm_compute; reflexivity).
  assert (exists c1, renderLines [TEXT "a"; SECTION] (initCtx d0 s) = Return tt c1)
    as [c1 H1].
  { vm_compute in H. inversion H; subst. eexists. vm_compute. reflexivity. }
  destruct (body_destination bodyDocument noOptions s d0 H eq_refl) as [HA [HB _]].
  destruct (HB [TEXT "a"; SECTION] (plain "b") [] c1 eq_refl H1)
    as [c2 [se [cs [H2 [_ [_ [H3 [_ [_ H4]]]]]]]]].
  exists s, d0, c1, c2. split; [exact H|].
  split; [exact (HA [TEXT "a"; SECTION] [TEXT "b"] eq_refl)|].
  split; [exact H1|]. split; [exact H2|]. split; [exact H3 | exact H4].
Defined.

(** * Cells among other lines *)

(** ** A child in the middle of its siblings *)

Lemma NoDup_child_mid e l1 x l2 :
  NoDup (ids (Element e (l1 ++ x :: l2))) ->
  NoDup (ids x) /\ ~ In (eid e) (ids x) /\
  (forall j, In j (ids x) -> ~ In j (flat_map ids l1) /\ ~ In j (flat_map ids l2)).
Proof.
  intros Hnd. simpl in Hnd. inversion Hnd as [|? ? He Hcs]; subst.
  rewrite flat_map_app in He, Hcs. simpl in He, Hcs.
  apply NoDup_app_inv in Hcs. destruct Hcs as [N1 [N2 N3]].
  apply NoDup_app_inv in N2. destruct N2 as [N4 [N5 N6]].
  split; [assumption|]. split.
  - intros H. apply He. apply in_or_app. right. apply in_or_app. left. assumption.
  - intros j Hj. split.
    + intros H. apply (N3 j H). apply in_or_app. left. assumption.
    + apply N6. assumption.
Qed.

Lemma getNode_child_mid j e l1 x l2 n :
  NoDup (ids (Element e (l1 ++ x :: l2))) -> getNode j x = Some n ->
  getNode j (Element e (l1 ++ x :: l2)) = Some n.
Proof.
  intros Hnd Hj. destruct (NoDup_child_mid _ _ _ _ Hnd) as [_ [He Hx]].
  assert (In j (ids x)) as Hin
      by (apply hasNode_In; unfold hasNode; rewrite Hj; reflexivity).
  rewrite getNode_Element. destruct (Nat.eqb_spec (eid e) j) as [E|E].
  - exfalso. apply He. rewrite E. assumption.
  - rewrite findMap_app. rewrite findMap_getNode_notin by (apply (Hx j Hin)).
    simpl. rewrite Hj. reflexivity.
Qed.

Lemma getNode_child j e l x n :
  NoDup (ids (Element e l)) -> In x l -> getNode j x = Some n ->
  getNode j (Element e l) = Some n.
Proof.
  intros Hnd Hx Hj. apply in_split in Hx. destruct Hx as [l1 [l2 ->]].
  apply getNode_child_mid; assumption.
Qed.

Lemma updateNode_child_mid i f e l1 x l2 :
  NoDup (ids (Element e (l1 ++ x :: l2))) -> In i (ids x) ->
  updateNode i f (Element e (l1 ++ x :: l2)) = Element e (l1 ++ updateNode i f x :: l2).
Proof.
  intros Hnd Hi. destruct (NoDup_child_mid _ _ _ _ Hnd) as [_ [He Hx]].
  destruct (Hx i Hi) as [H1 H2]. cbn [updateNode].
  destruct (Nat.eqb_spec (eid e) i) as [E|E]; [exfalso; apply He; rewrite E; assumption|].
  rewrite map_app. cbn [map].
  rewrite (not_in_children _ _ H1), (not_in_children _ _ H2). reflexivity.
Qed.

Lemma NoDup_child_in e l x : NoDup (ids (Element e l)) -> In x l -> NoDup (ids x).
Proof.
  intros Hnd Hx. apply in_split in Hx. destruct Hx as [l1 [l2 ->]].
  apply (NoDup_child_mid _ _ _ _ Hnd).
Qed.

(** Two children that share an identity are the same child. *)
Lemma children_disjoint (l : list node) x y j :
  NoDup (flat_map ids l) -> In x l -> In y l -> In j (ids x) -> In j (ids y) -> x = y.
Proof.
  induction l as [|c r IH]; [simpl; tauto|].
  simpl. intros Hnd Hx Hy Hjx Hjy. apply NoDup_app_inv in Hnd.
  destruct Hnd as [N1 [N2 N3]].
  destruct Hx as [<-|Hx]; destruct Hy as [<-|Hy].
  - reflexivity.
  - exfalso. apply (N3 j Hjx). apply in_flat_map. eauto.
  - exfalso. apply (N3 j Hjy). apply in_flat_map. eauto.
  - apply IH; assumption.
Qed.

(** ** Tables last of their type *)

Lemma descendantsL_elems l e cs b :
  In (Element e cs, b) (descendantsL l) -> In e (flat_map elems l).
Proof.
  induction l as [|c r IH]; simpl; [tauto|].
  intros [H|H].
  - inversion H; subst. apply in_or_app. left. simpl. auto.
  - apply in_app_or in H. apply in_or_app. destruct H as [H|H].
    + left. eapply descendants_elems. eassumption.
    + right. auto.
Qed.

(** No element below has the tag: no match of the selector. *)
Lemma lastOfType_none tg l :
  (forall e, In e (flat_map elems l) -> tag e <> tg) ->
  selectAll [SelLastOfType tg] (descendantsL l) = [].
Proof.
  intros H. destruct (selectAll [SelLastOfType tg] (descendantsL l)) as [|e r] eqn:E;
    [reflexivity|]. exfalso.
  assert (In e (selectAll [SelLastOfType tg] (descendantsL l))) as Hin
      by (rewrite E; left; reflexivity).
  pose proof (selectAll_tag _ _ _ Hin) as Ht. simpl in Ht. rewrite orb_false_r in Ht.
  apply String.eqb_eq in Ht.
  destruct (selectAll_In _ _ _ Hin) as [cs [b Hd]].
  apply descendantsL_elems in Hd. apply (H e Hd Ht).
Qed.

(** A sibling with the tag: some sibling is the last of that type. *)
Lemma lastOfType_sibling tg l :
  existsb (hasTag tg) l = true -> selectAll [SelLastOfType tg] (descendantsL l) <> [].
Proof.
  induction l as [|c r IH]; [discriminate|].
  cbn [existsb descendantsL selectAll]. intros H.
  destruct (existsb (hasTag tg) r) eqn:Er.
  - specialize (IH eq_refl).
    destruct (matchesSel [SelLastOfType tg] (c, negb (existsb (sameType c) r)));
      [discriminate|].
    rewrite selectAll_app. intros E. apply app_eq_nil in E. tauto.
  - rewrite orb_false_r in H. destruct c as [e cs| |]; try discriminate.
    cbn [hasTag] in H. apply String.eqb_eq in H.
    assert (existsb (sameType (Element e cs)) r = false) as Hs.
    { clear -Er H. induction r as [|x r IH]; [reflexivity|].
      cbn [existsb] in *. apply orb_false_iff in Er. destruct Er as [E1 E2].
      rewrite (IH E2), orb_false_r. destruct x as [ex xcs| |]; try reflexivity.
      cbn [sameType hasTag] in *. rewrite H. rewrite String.eqb_sym. exact E1. }
    unfold matchesSel. cbn [fst snd existsb matchesSimple].
    rewrite Hs, H, String.eqb_refl. discriminate.
Qed.

(** An element below with the tag: the selector has a match. *)
Lemma lastOfType_some tg (n : node) :
  forall e, In e (flat_map elems (childNodes n)) -> tag e = tg ->
  querySelectorAllN [SelLastOfType tg] n <> [].
Proof.
  induction n as [e0 cs IH| |] using node_ind'; try (simpl; tauto).
  intros e He Ht. unfold querySelectorAllN. rewrite descendants_Element.
  cbn [childNodes] in He. apply in_flat_map in He. destruct He as [c [Hc He]].
  apply in_split in Hc. destruct Hc as [l1 [l2 ->]].
  destruct c as [ec ccs| |]; try (simpl in He; tauto).
  simpl in He. destruct He as [He|He].
  - subst ec. apply lastOfType_sibling. rewrite existsb_app. cbn [existsb hasTag].
    rewrite Ht, String.eqb_refl. rewrite orb_true_r. reflexivity.
  - rewrite Forall_forall in IH.
    assert (In (Element ec ccs) (l1 ++ Element ec ccs :: l2)) as Hin
        by (apply in_or_app; right; left; reflexivity).
    specialize (IH _ Hin e He Ht). unfold querySelectorAllN in IH.
    clear -IH. induction l1 as [|x l1 IHl]; cbn [app descendantsL selectAll].
    + destruct (matchesSel [SelLastOfType tg]
                  (Element ec ccs, negb (existsb (sameType (Element ec ccs)) l2)));
        [discriminate|].
      rewrite selectAll_app. intros E. apply app_eq_nil in E. tauto.
    + destruct (matchesSel [SelLastOfType tg]
                  (x, negb (existsb (sameType x) (l1 ++ Element ec ccs :: l2))));
        [discriminate|].
      rewrite selectAll_app. intros E. apply app_eq_nil in E. tauto.
Qed.

(** No table below the children of a node. *)
Lemma noNestedTables_spec se cs :
  noNestedTables (Element se cs) = true <->
  (forall x e, In x cs -> In e (flat_map elems (childNodes x)) -> tag e <> "table").
Proof.
  unfold noNestedTables. cbn [childNodes]. rewrite forallb_forall. split.
  - intros H x e Hx He Ht. specialize (H x Hx).
    pose proof (lastOfType_some "table" x e He Ht) as Hq.
    destruct (querySelectorAllN [SelLastOfType "table"] x); [congruence | discriminate].
  - intros H x Hx.
    destruct x as [ex xcs| |]; try reflexivity.
    unfold querySelectorAllN. rewrite descendants_Element.
    rewrite lastOfType_none; [reflexivity|].
    intros e He. apply (H _ e Hx He).
Qed.

Lemma inert_noTables ns :
  Forall inert ns -> forall e, In e (flat_map elems ns) -> tag e <> "table".
Proof.
  intros Hns e0 H0 Ht. apply in_flat_map in H0. destruct H0 as [y [Hy H0]].
  rewrite Forall_forall in Hns. specialize (Hns y Hy). unfold inert in Hns.
  rewrite Forall_forall in Hns. specialize (Hns e0 H0).
  unfold structural in Hns. rewrite Ht in Hns. discriminate.
Qed.

(** Appending nodes that hold no table puts no table below the
    children. *)
Lemma noNestedTables_append p ns se cs :
  (forall e, In e (flat_map elems ns) -> tag e <> "table") ->
  noNestedTables (Element se cs) = true ->
  noNestedTables (Element se (map (appendChildrenT p ns) cs)) = true.
Proof.
  intros Hnew H. rewrite noNestedTables_spec in *. intros x' e Hx' He.
  apply in_map_iff in Hx'. destruct Hx' as [x [<- Hx]].
  destruct x as [ex xcs| |]; try (simpl in He; tauto).
  rewrite appendChildrenT_Element in He. cbn [childNodes] in He.
  rewrite flat_map_app in He. apply in_app_or in He.
  destruct He as [He|He].
  - apply in_flat_map in He. destruct He as [y' [Hy' He]].
    apply in_map_iff in Hy'. destruct Hy' as [y [<- Hy]].
    apply elems_appendChildrenT_inv in He. destruct He as [He|He].
    + apply (H (Element ex xcs) e Hx). cbn [childNodes]. apply in_flat_map. eauto.
    + apply Hnew. assumption.
  - destruct (eid ex =? p); [apply Hnew; assumption | simpl in He; tauto].
Qed.

(** The table that is the last among its siblings, with no table
    deeper before it, is the first match. *)
Lemma select_table_mid tg cs te rows post :
  tag te = tg ->
  Forall (fun x => querySelectorAllN [SelLastOfType tg] x = []) cs ->
  Forall (fun x => hasTag tg x = false) post ->
  hd_error (selectAll [SelLastOfType tg] (descendantsL (cs ++ Element te rows :: post)))
  = Some te.
Proof.
  intros He Hcs Hpost. induction Hcs as [|c r Hc _ IH]; cbn [app descendantsL selectAll].
  - assert (existsb (sameType (Element te rows)) post = false) as Hs.
    { clear -Hpost He. induction Hpost as [|x r Hx _ IH]; [reflexivity|].
      cbn [existsb]. rewrite IH, orb_false_r. destruct x as [ex xcs| |]; try reflexivity.
      cbn [sameType hasTag] in *. rewrite He. rewrite String.eqb_sym. exact Hx. }
    unfold matchesSel. cbn [fst snd existsb matchesSimple].
    rewrite Hs, He, String.eqb_refl. reflexivity.
  - rewrite selectAll_app. unfold querySelectorAllN in Hc. rewrite Hc. cbn [app].
    assert (matchesSel [SelLastOfType tg]
              (c, negb (existsb (sameType c) (r ++ Element te rows :: post))) = None) as Hm.
    { unfold matchesSel. cbn [fst snd]. destruct c as [ec ccs| |]; try reflexivity.
      cbn [existsb matchesSimple]. destruct (String.eqb (tag ec) tg) eqn:Et; [|reflexivity].
      rewrite existsb_app. cbn [existsb sameType]. apply String.eqb_eq in Et.
      rewrite Et, He, String.eqb_refl. rewrite orb_true_r. reflexivity. }
    rewrite Hm. exact IH.
Qed.

(** ** The table among the children of its section *)

Lemma table_lookup_mid s t se cs te rows post :
  NoDup (ids t) ->
  getNode s t = Some (Element se (cs ++ Element te rows :: post)) ->
  getNode (eid te) t = Some (Element te rows).
Proof.
  intros Hnd HS. apply (getNode_inside _ _ _ _ _ Hnd HS).
  apply getNode_child_mid; [exact (getNode_NoDup _ _ _ HS Hnd) | apply getNode_root].
Qed.

Lemma hasTag_appendChildrenT tg p ns x :
  hasTag tg (appendChildrenT p ns x) = hasTag tg x.
Proof. destruct x as [e cs| |]; try reflexivity. rewrite appendChildrenT_Element. reflexivity. Qed.

Lemma inert_not_table n : inert n -> hasTag "table" n = false.
Proof.
  destruct n as [e cs| |]; try reflexivity. unfold inert. simpl. intros H.
  inversion H as [|? ? He _]; subst. unfold structural in He. simpl in He.
  destruct (String.eqb (tag e) "table"); [discriminate | reflexivity].
Qed.

Lemma rowOK_append p ns r :
  rowOK r -> hasId p r = false -> Forall inert ns ->
  rowOK (appendChildrenT p ns r) /\
  List.length (childNodes (appendChildrenT p ns r)) = List.length (childNodes r).
Proof.
  intros [re [cells [-> [Ht Hc]]]] Hid Hns. cbn [hasId] in Hid.
  rewrite appendChildrenT_Element, Hid, app_nil_r. cbn [childNodes]. split.
  - exists re, (map (appendChildrenT p ns) cells). split; [reflexivity|].
    split; [assumption|]. rewrite Forall_forall in Hc |- *. intros x' Hx'.
    apply in_map_iff in Hx'. destruct Hx' as [x [<- Hx]].
    destruct (Hc x Hx) as [ce [content [-> [Htc Hcont]]]].
    apply cellOK_append; assumption.
  - apply length_map.
Qed.

(** Appending inert nodes anywhere but to the table and to its rows
    keeps the table and its layout. *)
Lemma tableAt_append t0 C j s t p ns :
  NoDup (ids t) -> tableAt t0 C j s t -> offSpine t0 p t ->
  ~ In s (flat_map ids ns) -> Forall inert ns ->
  tableAt t0 C j s (appendChildrenT p ns t).
Proof.
  intros Hnd [se [cs [te [rows [post [HS [Ht0 [Htag [Hcols [Hnest [Hpost [Hrows Hlay]]]]]]]]]]]]
         [Hp Hoff] Hs Hns.
  pose proof (table_lookup_mid _ _ _ _ _ _ _ Hnd HS) as HT. rewrite Ht0 in HT.
  assert (forall r, In r rows ->
            rowOK (appendChildrenT p ns r) /\
            List.length (childNodes (appendChildrenT p ns r)) = List.length (childNodes r))
    as Hrow.
  { intros r Hr. rewrite Forall_forall in Hrows.
    apply rowOK_append; [auto | apply (Hoff _ r HT Hr) | assumption]. }
  exists se, (map (appendChildrenT p ns) cs), te, (map (appendChildrenT p ns) rows),
    (map (appendChildrenT p ns) post ++ (if eid se =? p then ns else []))%list.
  split; [|split; [assumption|split; [assumption|split; [assumption|split; [|split; [|split]]]]]].
  - rewrite (section_after_append _ _ _ _ _ HS Hs). f_equal.
    rewrite appendChildrenT_Element, map_app. cbn [map].
    rewrite (appendChildrenT_Element p ns te rows).
    assert ((eid te =? p) = false) as E by (apply Nat.eqb_neq; congruence).
    rewrite E, app_nil_r, <- app_assoc. reflexivity.
  - apply noNestedTables_append; [apply inert_noTables|]; assumption.
  - apply Forall_app. split.
    + rewrite Forall_forall in *. intros x' Hx'. apply in_map_iff in Hx'.
      destruct Hx' as [x [<- Hx]]. rewrite hasTag_appendChildrenT. auto.
    + destruct (eid se =? p); [|constructor].
      rewrite Forall_forall in *. intros x Hx. apply inert_not_table. auto.
  - rewrite Forall_forall. intros r' Hr'. apply in_map_iff in Hr'.
    destruct Hr' as [r [<- Hr]]. apply (Hrow r Hr).
  - rewrite <- Hlay, map_map. apply map_ext_in. intros r Hr. apply (Hrow r Hr).
Qed.

(** An element that is no table and no row is neither the table nor
    one of its rows. *)
Lemma offSpine_tag t0 C j s t e :
  NoDup (ids t) -> tableAt t0 C j s t -> In e (elems t) ->
  tag e <> "table" -> tag e <> "tr" -> offSpine t0 (eid e) t.
Proof.
  intros Hnd [se [cs [te [rows [post [HS [Ht0 [Htag [Hcols [Hnest [Hpost [Hrows Hlay]]]]]]]]]]]]
         He H1 H2.
  pose proof (table_lookup_mid _ _ _ _ _ _ _ Hnd HS) as HT. rewrite Ht0 in HT.
  split.
  - intros E. apply H1. rewrite <- Htag. f_equal.
    apply (elems_inj t e te Hnd He); [|congruence].
    apply (getNode_elems_incl _ _ _ _ HT). simpl. auto.
  - intros T r HT' Hr. rewrite HT in HT'. inversion HT'; subst T. cbn [childNodes] in Hr.
    rewrite Forall_forall in Hrows. destruct (Hrows r Hr) as [re [cells [-> [Htr _]]]].
    cbn [hasId]. apply Nat.eqb_neq. intros E. apply H2. rewrite <- Htr. f_equal.
    apply (elems_inj t e re Hnd He); [|congruence].
    apply (getNode_elems_incl _ _ _ _ HT). simpl. right.
    apply in_flat_map. exists (Element re cells). split; [assumption | simpl; auto].
Qed.

(** The subtree of a node inside a child. *)
Lemma subtree_in_child e l x r n :
  NoDup (ids (Element e l)) -> In x l -> In r (ids x) ->
  getNode r (Element e l) = Some n ->
  forall a, In a (ids n) -> In a (ids x).
Proof.
  intros Hnd Hx Hr Hg a Ha. apply hasNode_In in Hr. unfold hasNode in Hr.
  destruct (getNode r x) as [n'|] eqn:E; [|discriminate].
  rewrite (getNode_child r e l x n' Hnd Hx E) in Hg. inversion Hg; subst n'.
  eapply getNode_ids; eassumption.
Qed.

(** What lies below an element of the section that is neither the
    section, the table nor a row is neither the table nor a row. *)
Lemma offSpine_inside t0 C j s t r n a :
  NoDup (ids t) -> tableAt t0 C j s t ->
  (forall S, getNode s t = Some S -> hasNode r S = true) -> r <> s ->
  offSpine t0 r t -> getNode r t = Some n -> In a (ids n) -> offSpine t0 a t.
Proof.
  intros Hnd [se [cs [te [rows [post [HS [Ht0 [Htag [Hcols [Hnest [Hpost [Hrows Hlay]]]]]]]]]]]]
         Hin Hrs [Hr0 Hroff] Hg Ha.
  pose proof (table_lookup_mid _ _ _ _ _ _ _ Hnd HS) as HT. rewrite Ht0 in HT.
  specialize (Hin _ HS).
  pose proof (getNode_NoDup _ _ _ HS Hnd) as HndS.
  destruct (getNode_shape _ _ _ HS) as [se' [cs' [E Hse]]]. inversion E; subst se' cs'.
  clear E.
  apply hasNode_In in Hin. simpl in Hin. destruct Hin as [Hin|Hin]; [congruence|].
  apply in_flat_map in Hin. destruct Hin as [x [Hx Hrx]].
  (* the subtree of [r] lies in the child [x] *)
  assert (getNode r (Element se (cs ++ Element te rows :: post)) = Some n) as HgS.
  { apply hasNode_In in Hrx. unfold hasNode in Hrx.
    destruct (getNode r x) as [n'|] eqn:E; [|discriminate].
    pose proof (getNode_child r se _ x n' HndS Hx E) as H1.
    rewrite (getNode_inside _ _ _ _ _ Hnd HS H1) in Hg. inversion Hg; subst. exact H1. }
  pose proof (subtree_in_child se _ x r n HndS Hx Hrx HgS a Ha) as Hax.
  destruct (NoDup_child_mid _ _ _ _ HndS) as [HndT [_ Hsep]].
  assert (forall y, In y (ids (Element te rows)) ->
            In x cs \/ In x post -> ~ In y (ids x)) as Hother.
  { intros y Hy Hor Hyx. destruct (Hsep y Hy) as [S1 S2].
    destruct Hor as [Hc|Hc]; [apply S1 | apply S2]; apply in_flat_map; eauto. }
  assert (forall re cells, In (Element re cells) rows ->
            In (eid re) (ids (Element te rows))) as Hrowid.
  { intros re cells Hre. simpl. right. apply in_flat_map.
    exists (Element re cells). split; [assumption | simpl; auto]. }
  assert (In x cs \/ In x post \/ x = Element te rows) as Hcase.
  { apply in_app_or in Hx. destruct Hx as [Hx|[Hx|Hx]]; auto. }
  destruct Hcase as [Ex|[Ex|Ex]]; [| |].
  3:{ (* inside the table *)
    subst x. simpl in Hrx. destruct Hrx as [Hrx|Hrx]; [congruence|].
    apply in_flat_map in Hrx. destruct Hrx as [y [Hy Hry]].
    rewrite Forall_forall in Hrows. destruct (Hrows y Hy) as [re [cells [-> [Htr Hcells]]]].
    pose proof (Hroff _ _ HT Hy) as Hne. cbn [hasId] in Hne. apply Nat.eqb_neq in Hne.
    simpl in Hry. destruct Hry as [Hry|Hry]; [congruence|].
    apply in_flat_map in Hry. destruct Hry as [z [Hz Hrz]].
    assert (getNode r (Element te rows) = Some n) as HgT.
    { apply hasNode_In in Hrz. unfold hasNode in Hrz.
      destruct (getNode r z) as [n'|] eqn:E; [|discriminate].
      pose proof (NoDup_child_in _ _ _ HndT Hy) as HndY.
      pose proof (getNode_child r re cells z n' HndY Hz E) as H1.
      pose proof (getNode_child r te rows _ n' HndT Hy H1) as H2.
      assert (getNode r (Element se (cs ++ Element te rows :: post)) = Some n') as H3.
      { apply getNode_child_mid; assumption. }
      rewrite H3 in HgS. inversion HgS; subst. exact H2. }
    pose proof (NoDup_child_in _ _ _ HndT Hy) as HndY.
    assert (getNode r (Element re cells) = Some n) as HgY.
    { apply hasNode_In in Hrz. unfold hasNode in Hrz.
      destruct (getNode r z) as [n'|] eqn:E; [|discriminate].
      pose proof (getNode_child r re cells z n' HndY Hz E) as H1.
      rewrite (getNode_child r te rows _ n' HndT Hy H1) in HgT. inversion HgT; subst.
      exact H1. }
    pose proof (subtree_in_child re cells z r n HndY Hz Hrz HgY a Ha) as Haz.
    assert (In a (flat_map ids cells)) as Hac by (apply in_flat_map; eauto).
    assert (In a (flat_map ids rows)) as Har.
    { apply in_flat_map. exists (Element re cells). split; [assumption | simpl; auto]. }
    split.
    + intros Ea. simpl in HndT. inversion HndT as [|? ? Hnot _].
      apply Hnot. rewrite Ht0, <- Ea. exact Har.
    + intros T r' HT' Hr'. rewrite HT in HT'. inversion HT'; subst T. cbn [childNodes] in Hr'.
      destruct (Hrows r' Hr') as [re' [cells' [-> _]]]. cbn [hasId].
      apply Nat.eqb_neq. intros Ea.
      assert (NoDup (flat_map ids rows)) as Hfl
          by (simpl in HndT; inversion HndT; assumption).
      assert (Element re' cells' = Element re cells) as Esame.
      { apply (children_disjoint rows _ _ a Hfl Hr' Hy); simpl; auto. }
      inversion Esame; subst re' cells'.
      simpl in HndY. inversion HndY as [|? ? Hnot _]. apply Hnot.
      rewrite Ea. exact Hac.
  }
  - split.
    + intros Ea. apply (Hother a); [simpl; left; congruence | left; exact Ex | exact Hax].
    + intros T r' HT' Hr'. rewrite HT in HT'. inversion HT'; subst T. cbn [childNodes] in Hr'.
      rewrite Forall_forall in Hrows. destruct (Hrows r' Hr') as [re' [cells' [-> _]]].
      cbn [hasId]. apply Nat.eqb_neq. intros Ea.
      apply (Hother a);
        [rewrite <- Ea; eapply Hrowid; eassumption | left; exact Ex | exact Hax].
  - split.
    + intros Ea. apply (Hother a); [simpl; left; congruence | right; exact Ex | exact Hax].
    + intros T r' HT' Hr'. rewrite HT in HT'. inversion HT'; subst T. cbn [childNodes] in Hr'.
      rewrite Forall_forall in Hrows. destruct (Hrows r' Hr') as [re' [cells' [-> _]]].
      cbn [hasId]. apply Nat.eqb_neq. intros Ea.
      apply (Hother a);
        [rewrite <- Ea; eapply Hrowid; eassumption | right; exact Ex | exact Hax].
Qed.

(** ** The destination element and what finding it does *)

Lemma lastElementChildN_elems n e :
  lastElementChildN n = Some e -> In e (elems n).
Proof.
  unfold lastElementChildN. intros H. apply findMap_Some in H.
  destruct H as [c [Hc He]]. apply in_rev in Hc.
  destruct n as [e0 cs| |]; simpl in *; try tauto.
  right. apply in_flat_map. exists c. split; [assumption|].
  destruct c; simpl in He; inversion He; subst. simpl. auto.
Qed.

Lemma query_elems sel n e : In e (querySelectorAllN sel n) -> In e (elems n).
Proof.
  intros H. apply selectAll_In in H. destruct H as [cs [b H]].
  eapply descendants_elems. eassumption.
Qed.

Lemma destTag_group e (a b : string) sel :
  sel = [SelTag a; SelTag b] -> destTag a -> destTag b ->
  forall l, In e (selectAll sel l) -> destTag (tag e).
Proof.
  intros -> Ha Hb l H. apply selectAll_tag in H. apply tag_of_group in H.
  destruct H as [-> | ->]; assumption.
Qed.

(** Finding the destination element leaves the document as it is or
    appends a paragraph or a heading to the section; the element found
    is no section, no table and no row. *)
Lemma destElD_effect dst s d r d1 :
  destElD dst s d = Return r d1 ->
  (d1 = d \/
   exists tg, (tg = "p" \/ tg = "h2") /\ hasNode s (doc d) = true /\
     d1 = mkDom (appendChildrenT s [leaf (nextId d) tg] (doc d)) (S (nextId d))) /\
  exists e, In e (elems (doc d1)) /\ eid e = r /\ destTag (tag e).
Proof.
  assert (forall tg, tg = "p" \/ tg = "h2" ->
            createAppend s tg d = Return r d1 ->
            (d1 = d \/
             exists tg, (tg = "p" \/ tg = "h2") /\ hasNode s (doc d) = true /\
               d1 = mkDom (appendChildrenT s [leaf (nextId d) tg] (doc d)) (S (nextId d))) /\
            exists e, In e (elems (doc d1)) /\ eid e = r /\ destTag (tag e)) as Hnew.
  { intros tg Htg H. unfold createAppend in H.
    destruct (hasNode s (doc d)) eqn:Hs; [|discriminate].
    inversion H; subst. rewrite appendChildT_children. split.
    - right. exists tg. auto.
    - exists (newElem (nextId d) tg). cbn [doc]. split; [|split; [reflexivity|]].
      + apply elems_appendChildrenT_new; [apply hasNode_In; assumption | simpl; auto].
      + destruct Htg as [-> | ->]; simpl; repeat split; discriminate. }
  assert (forall tg, tg = "p" \/ tg = "h2" ->
            (p <- lastElementChild s ;;
             match p with
             | Some e => if String.eqb (tag e) tg then ret (eid e) else createAppend s tg
             | None => createAppend s tg
             end) d = Return r d1 ->
            (d1 = d \/
             exists tg, (tg = "p" \/ tg = "h2") /\ hasNode s (doc d) = true /\
               d1 = mkDom (appendChildrenT s [leaf (nextId d) tg] (doc d)) (S (nextId d))) /\
            exists e, In e (elems (doc d1)) /\ eid e = r /\ destTag (tag e)) as Hlast.
  { intros tg Htg H. unfold bind, lastElementChild, withNode, ret in H.
    destruct (getNode s (doc d)) as [n|] eqn:Hg; [|discriminate].
    destruct (lastElementChildN n) as [e|] eqn:Hl; [|apply (Hnew tg Htg H)].
    destruct (String.eqb (tag e) tg) eqn:Et; [|apply (Hnew tg Htg H)].
    inversion H; subst. split; [left; reflexivity|].
    exists e. split; [|split; [reflexivity|]].
    - apply (getNode_elems_incl _ _ _ _ Hg). apply lastElementChildN_elems. assumption.
    - apply String.eqb_eq in Et. rewrite Et.
      destruct Htg as [-> | ->]; repeat split; discriminate. }
  assert (forall i sel a b e, sel = [SelTag a; SelTag b] -> destTag a -> destTag b ->
            forall n, getNode i (doc d) = Some n ->
            lastOf (querySelectorAllN sel n) = Some e ->
            In e (elems (doc d)) /\ destTag (tag e)) as Hq.
  { intros i sel a b e Hsel Ha Hb n Hg Hl. apply lastOf_In in Hl. split.
    - apply (getNode_elems_incl _ _ _ _ Hg). apply query_elems in Hl. assumption.
    - apply (destTag_group e a b sel Hsel Ha Hb _ Hl). }
  assert (forall tg : string, In tg ["p"; "aside"; "notAnElement"; "th"; "td"] -> destTag tg)
    as Htags.
  { intros tg H. simpl in H.
    destruct H as [<-|[<-|[<-|[<-|[<-|[]]]]]]; repeat split; discriminate. }
  destruct dst; unfold destElD.
  - apply Hlast. auto.
  - unfold bind, querySelectorAll, withNode, ret, throw. intros H. cbv beta in H.
    destruct (getNode s (doc d)) as [n|] eqn:Hg; [|discriminate].
    destruct (lastOf (querySelectorAllN [SelTag "aside"; SelTag "notAnElement"] n))
      as [note|] eqn:Hn; [|discriminate].
    destruct (getNode (eid note) (doc d)) as [n2|] eqn:Hg2; [|discriminate].
    destruct (lastOf (querySelectorAllN [SelTag "p"; SelTag "notAnElement"] n2))
      as [p|] eqn:Hp; [|discriminate].
    inversion H; subst. split; [left; reflexivity|]. exists p.
    destruct (Hq (eid note) _ "p" "notAnElement" p eq_refl
                (Htags "p" ltac:(simpl; tauto)) (Htags "notAnElement" ltac:(simpl; tauto))
                n2 Hg2 Hp)
      as [H1 H2].
    split; [assumption | split; [reflexivity | assumption]].
  - unfold bind, querySelectorAll, withNode, ret, throw. intros H. cbv beta in H.
    destruct (getNode s (doc d)) as [n|] eqn:Hg; [|discriminate].
    destruct (lastOf (querySelectorAllN [SelTag "th"; SelTag "td"] n))
      as [cell|] eqn:Hn; [|discriminate].
    destruct (getNode (eid cell) (doc d)) as [n2|] eqn:Hg2; [|discriminate].
    destruct (lastOf (querySelectorAllN [SelTag "aside"; SelTag "p"] n2))
      as [cont|] eqn:Hp.
    + inversion H; subst. split; [left; reflexivity|]. exists cont.
      destruct (Hq (eid cell) _ "aside" "p" cont eq_refl
                  (Htags "aside" ltac:(simpl; tauto)) (Htags "p" ltac:(simpl; tauto))
                  n2 Hg2 Hp)
        as [H1 H2].
      split; [assumption | split; [reflexivity | assumption]].
    + inversion H; subst. split; [left; reflexivity|]. exists cell.
      destruct (Hq s _ "th" "td" cell eq_refl
                  (Htags "th" ltac:(simpl; tauto)) (Htags "td" ltac:(simpl; tauto))
                  n Hg Hn)
        as [H1 H2].
      split; [assumption | split; [reflexivity | assumption]].
  - apply Hlast. auto.
Qed.

(** ** A cell directive, wherever the table stands in its section *)

Lemma cell_step_mid (t0 : ref) (C j : nat) (c : ctx) (l : TypeLine) :
  1 <= C -> isCellDirective l -> safeInv c ->
  tableAt t0 C j (sect c) (doc (dom c)) ->
  exists c',
    step (Typed l) c = Return tt c' /\ sect c' = sect c /\
    tableAt t0 C (S j) (sect c') (doc (dom c')).
Proof.
  intros HC [Hk Hd] [[Hnd [Hf _]] _]
         [se [cs [te [rows [post [HS [Ht0 [Htag [Hcols [Hnest [Hpost [Hrows Hlay]]]]]]]]]]]].
  set (c1 := setLink None (afterReset (Typed l) c)).
  assert (dom c1 = dom c) as Hd1 by apply (c1_dom c l).
  assert (sect c1 = sect c) as Hs1 by apply (c1_sect c l).
  set (n := nextId (dom c)). set (tg := if header l then "th" else "td").
  pose proof (getNode_NoDup _ _ _ HS Hnd) as HndS.
  destruct (NoDup_child_mid _ _ _ _ HndS) as [HndT _].
  pose proof (table_lookup_mid _ _ _ _ _ _ _ Hnd HS) as HT.
  assert (hasNode (eid te) (doc (dom c)) = true) as HhT
      by (unfold hasNode; rewrite HT; reflexivity).
  assert (hasNode (sect c) (doc (dom c)) = true) as HhS
      by (unfold hasNode; rewrite HS; reflexivity).
  assert (sect c < n) as HltS by apply (fresh_lt _ _ Hf HhS).
  assert (~ In n (ids (doc (dom c)))) as Hn by (apply new_below; assumption).
  assert (In (eid te) (ids (Element te rows))) as HteT by (simpl; auto).
  assert (querySelector (sect c) [SelLastOfType "table"] (dom c) = Return (Some te) (dom c))
    as Q1.
  { unfold querySelector, withNode. rewrite HS. unfold ret, querySelectorAllN.
    rewrite descendants_Element,
      (select_table_mid "table" cs te rows post Htag (noNestedTables_Forall se cs Hnest) Hpost).
    reflexivity. }
  assert (querySelectorAll (eid te) [SelTag "th"; SelTag "td"] (dom c) =
          Return (flat_map (fun r => elemsOf (childNodes r)) rows) (dom c)) as Q2.
  { unfold querySelectorAll, withNode. rewrite HT. unfold ret, querySelectorAllN.
    rewrite descendants_Element. change [SelTag "th"; SelTag "td"] with cellsSel.
    rewrite (cells_of_rows rows Hrows). reflexivity. }
  assert (forall rows' re cells, rows = (rows' ++ [Element re cells])%list ->
            querySelector (eid te) [SelLastOfType "tr"] (dom c) = Return (Some re) (dom c))
    as Q3some.
  { intros rows' re cells E. unfold querySelector, withNode. rewrite HT.
    unfold ret, querySelectorAllN. rewrite descendants_Element, E.
    pose proof Hrows as Hr'. rewrite E in Hr'. apply Forall_app in Hr'.
    destruct Hr' as [H1 H2]. inversion H2 as [|? ? Hr _]; subst.
    destruct Hr as [re' [cells' [Heq [Ht _]]]]. inversion Heq; subst.
    rewrite (select_lastOfType_snoc "tr" rows' re' cells' Ht); [reflexivity|].
    rewrite Forall_forall in *. intros x Hx. apply rowOK_no_row. auto. }
  assert (List.length (flat_map (fun r => elemsOf (childNodes r)) rows) = j) as Hcount.
  { rewrite (cells_count rows Hrows), Hlay. apply layout_sum. assumption. }
  rewrite (enterCell_start c l Hk Hd). fold c1. unfold bind at 1.
  destruct (Nat.eq_dec (j mod C) 0) as [Hm|Hm].
  - (* a new row *)
    assert (exists row,
      querySelector (eid te) [SelLastOfType "tr"] (dom c) = Return row (dom c) /\
      (row = None \/ cellCountIsMultiple j (fltColumns te) = ret true)) as [row [Q3 Q4]].
    { destruct (rows_case rows Hrows) as [Er|[rows' [re [cells [ER _]]]]].
      - exists None. split; [|auto].
        unfold querySelector, withNode. rewrite HT, Er. reflexivity.
      - exists (Some re). split; [apply (Q3some rows' re cells ER)|].
        right. rewrite Hcols, (cellCountIsMultiple_run j C HC).
        rewrite Hm. reflexivity. }
    rewrite (enterCell_new_row c1 l te
               (flat_map (fun r => elemsOf (childNodes r)) rows) row);
      rewrite ?Hd1, ?Hs1, ?Hcount; try assumption.
    fold n. fold tg. rewrite (new_row_normal_form (eid te) n tg _ Hn).
    set (R := Element (newElem n "tr") [leaf (S n) tg]).
    eexists. split; [reflexivity|]. cbn [modify sect dom setDest setDom doc nextId].
    split; [exact Hs1|].
    exists se, cs, te, (rows ++ [R])%list, post.
    split; [|repeat split]; try assumption.
    + rewrite Hs1. rewrite (section_after_append _ _ _ _ _ HS) by (simpl; lia).
      f_equal. unfold appendChildrenT.
      rewrite (updateNode_child_mid (eid te) _ se cs (Element te rows) post HndS HteT).
      rewrite (updateNode_root _ te rows HndT). reflexivity.
    + apply Forall_app. split; [assumption|]. constructor; [|constructor].
      unfold rowOK, R. eexists. eexists. split; [reflexivity|].
      split; [reflexivity|]. constructor; [apply cell_leaf_OK | constructor].
    + rewrite map_app, Hlay. simpl. symmetry. apply layout_succ_new; assumption.
  - (* the last row *)
    destruct (rows_case rows Hrows) as [Er|[rows' [re [cells [ER [Hrows' [Htr Hcells]]]]]]].
    { exfalso. rewrite Er in Hlay. simpl in Hlay. symmetry in Hlay.
      apply layout_nil in Hlay; [|assumption].
      rewrite Hlay, Nat.Div0.mod_0_l in Hm. congruence. }
    pose proof (Q3some rows' re cells ER) as Q3.
    assert (In (eid re) (ids (Element te rows))) as HreT.
    { rewrite ER. apply ids_last_child. simpl. auto. }
    assert (hasNode (eid re) (doc (dom c)) = true) as HhR.
    { apply hasNode_In. eapply getNode_ids; [exact HT | exact HreT]. }
    rewrite (enterCell_same_row c1 l te
               (flat_map (fun r => elemsOf (childNodes r)) rows) re);
      rewrite ?Hd1, ?Hs1, ?Hcount; try assumption.
    2:{ rewrite Hcols, (cellCountIsMultiple_run j C HC).
        destruct (Nat.eqb_spec (j mod C) 0); [contradiction | reflexivity]. }
    fold n. fold tg. rewrite appendChildT_children.
    eexists. split; [reflexivity|]. cbn [modify sect dom setDest setDom doc nextId].
    split; [exact Hs1|].
    exists se, cs, te, (rows' ++ [Element re (cells ++ [leaf n tg])])%list, post.
    split; [|repeat split]; try assumption.
    + rewrite Hs1. rewrite (section_after_append _ _ _ _ _ HS) by (simpl; lia).
      f_equal. unfold appendChildrenT.
      rewrite (updateNode_child_mid (eid re) _ se cs (Element te rows) post HndS HreT).
      rewrite ER in HndT |- *.
      rewrite (updateNode_last_child (eid re) _ te rows' (Element re cells) HndT)
        by (simpl; auto).
      rewrite (updateNode_root _ re cells (NoDup_last_child _ _ _ HndT)).
      reflexivity.
    + apply Forall_app. split; [assumption|]. constructor; [|constructor].
      unfold rowOK. eexists. eexists. split; [reflexivity|].
      split; [assumption|]. apply Forall_app. split; [assumption|].
      constructor; [apply cell_leaf_OK | constructor].
    + rewrite ER in Hlay. rewrite map_app in Hlay |- *. simpl in Hlay |- *.
      rewrite length_app. simpl. rewrite Nat.add_1_r.
      symmetry. apply (layout_succ_same j C _ _ HC Hm). symmetry. exact Hlay.
Qed.

(** ** The other lines keep the table *)

Lemma inert_leaf k tg : structural (newElem k tg) = false -> inert (leaf k tg).
Proof. intros H. unfold inert, leaf. simpl. constructor; [assumption | constructor]. Qed.

Lemma inert_single e : structural e = false -> Forall inert [Element e []].
Proof.
  intros H. constructor; [|constructor]. unfold inert. simpl.
  constructor; [assumption | constructor].
Qed.

Lemma section_offSpine t0 C j dst s t :
  NoDup (ids t) -> sectOK dst s t -> tableAt t0 C j s t -> offSpine t0 s t.
Proof.
  intros Hnd [_ [se [cs [Hg [Ht _]]]]] Htab.
  destruct (getNode_shape _ _ _ Hg) as [se' [cs' [E Hse]]]. inversion E; subst se' cs'.
  rewrite <- Hse. apply (offSpine_tag t0 C j s t se Hnd Htab).
  - apply (getNode_elems _ _ _ _ Hg).
  - rewrite Ht. discriminate.
  - rewrite Ht. discriminate.
Qed.

(** The table after the destination element was found. *)
Lemma tableAt_dest t0 C j c r d1 :
  safeInv c -> tableAt t0 C j (sect c) (doc (dom c)) ->
  destElD (dest c) (sect c) (dom c) = Return r d1 ->
  docOK d1 /\ sectOK (dest c) (sect c) (doc d1) /\
  tableAt t0 C j (sect c) (doc d1) /\
  (forall n a, getNode r (doc d1) = Some n -> In a (ids n) -> offSpine t0 a (doc d1)).
Proof.
  intros [Hd Hs] Htab Hr.
  destruct (destElD_returns _ _ _ Hd Hs) as [r' [d1' [S1 [Hr' [Hd1 [Hs1 [Hg1 Hin1]]]]]]].
  rewrite Hr in Hr'. inversion Hr'; subst r' d1'. clear Hr'.
  destruct (destElD_effect _ _ _ _ _ Hr) as [Heff [e [He [Ee Hte]]]].
  pose proof Hd as [Hnd [Hf _]]. pose proof Hd1 as [Hnd1 [Hf1 _]].
  pose proof (sect_below _ _ _ Hd Hs) as Hlt.
  assert (tableAt t0 C j (sect c) (doc d1)) as Htab1.
  { destruct Heff as [-> | [tg [Htg [Hh ->]]]]; [exact Htab|]. cbn [doc].
    apply tableAt_append; try assumption.
    - apply (section_offSpine t0 C j (dest c)); assumption.
    - simpl. intros [H|[]]. lia.
    - constructor; [|constructor]. apply inert_leaf.
      destruct Htg as [-> | ->]; reflexivity. }
  split; [assumption|]. split; [assumption|]. split; [assumption|].
  intros n a Hgn Ha.
  destruct Hte as [T1 [T2 T3]].
  apply (offSpine_inside t0 C j (sect c) (doc d1) r n a Hnd1 Htab1); try assumption.
  - intros S0 HS0. rewrite Hg1 in HS0. inversion HS0; subst. exact Hin1.
  - intros E. destruct Hs1 as [_ [se [cs [Hg [Ht _]]]]].
    destruct (getNode_shape _ _ _ Hg) as [se' [cs' [E' Hse]]]. inversion E'; subst se' cs'.
    apply T3. rewrite <- Ht. f_equal.
    apply (elems_inj (doc d1) e se Hnd1 He); [|congruence].
    apply (getNode_elems _ _ _ _ Hg).
  - rewrite <- Ee. apply (offSpine_tag t0 C j (sect c) (doc d1) e Hnd1 Htab1); assumption.
Qed.

(** One append after the destination element was found: at the
    section, at or below the destination element, or at an element
    that is no table and no row. *)
Lemma tableAt_after_dest t0 C j c r d1 tgt ns :
  safeInv c -> tableAt t0 C j (sect c) (doc (dom c)) ->
  destElD (dest c) (sect c) (dom c) = Return r d1 ->
  (tgt = sect c \/
   (exists n, getNode r (doc d1) = Some n /\ In tgt (ids n)) \/
   (exists ce, In ce (elems (doc d1)) /\ eid ce = tgt /\
               tag ce <> "table" /\ tag ce <> "tr")) ->
  Forall inert ns -> (forall k, In k (flat_map ids ns) -> nextId d1 <= k) ->
  tableAt t0 C j (sect c) (appendChildrenT tgt ns (doc d1)).
Proof.
  intros Hinv Htab Hr Htgt Hns Hids.
  destruct (tableAt_dest t0 C j c r d1 Hinv Htab Hr) as [Hd1 [Hs1 [Htab1 Hin]]].
  pose proof Hd1 as [Hnd1 _]. pose proof (sect_below _ _ _ Hd1 Hs1) as Hlt.
  apply tableAt_append; try assumption.
  - destruct Htgt as [-> | [[n [Hg Ha]] | [ce [Hce [<- [H1 H2]]]]]].
    + apply (section_offSpine t0 C j (dest c)); assumption.
    + apply (Hin n tgt Hg Ha).
    + apply (offSpine_tag t0 C j (sect c) (doc d1) ce Hnd1 Htab1); assumption.
  - intros H. apply Hids in H. lia.
Qed.

Lemma found_inside r (d1 : domState) :
  hasNode r (doc d1) = true -> exists n, getNode r (doc d1) = Some n /\ In r (ids n).
Proof.
  unfold hasNode. destruct (getNode r (doc d1)) as [n|] eqn:E; [|discriminate].
  intros _. exists n. split; [reflexivity|].
  destruct (getNode_shape _ _ _ E) as [e [cs [-> He]]]. simpl. auto.
Qed.

Lemma insertionPoint_below lk r t :
  hasNode r t = true ->
  exists n, getNode r t = Some n /\ In (insertionPoint lk r t) (ids n).
Proof.
  unfold hasNode, insertionPoint. destruct (getNode r t) as [n|] eqn:E; [|discriminate].
  intros _. exists n. split; [reflexivity|].
  assert (In r (ids n)) as Hr.
  { destruct (getNode_shape _ _ _ E) as [e [cs [-> He]]]. simpl. auto. }
  destruct lk as [a|]; [|exact Hr].
  destruct (hasNode a n) eqn:Ha; [|exact Hr]. apply hasNode_In. exact Ha.
Qed.

Lemma closest_tag tags p ce :
  closestP tags p = Some ce -> In ce p /\ In (tag ce) tags.
Proof.
  unfold closestP. intros H. apply find_some in H. destruct H as [H1 H2].
  split; [apply in_rev; assumption|].
  apply existsb_exists in H2. destruct H2 as [x [Hx E]]. apply String.eqb_eq in E.
  rewrite E. assumption.
Qed.

(** What a line that may stand between the cells, and is no cell
    directive, does when it returns: it keeps the section, and leaves
    the document as it is, or finds the destination element and
    appends inert nodes at the section, at or below the destination
    element or at an element that is no table and no row, or enters a
    note. *)
Lemma line_effect (l : line) (c c' : ctx) :
  betweenCells l = true -> isCellLine l = false -> safeInv c ->
  step l c = Return tt c' ->
  sect c' = sect c /\
  (doc (dom c') = doc (dom c) \/
   exists r d1,
     destElD (dest c) (sect c) (dom c) = Return r d1 /\
     ((exists tgt ns,
         (tgt = sect c \/
          (exists n, getNode r (doc d1) = Some n /\ In tgt (ids n)) \/
          (exists ce, In ce (elems (doc d1)) /\ eid ce = tgt /\
                      tag ce <> "table" /\ tag ce <> "tr")) /\
         Forall inert ns /\ (forall k, In k (flat_map ids ns) -> nextId d1 <= k) /\
         doc (dom c') = appendChildrenT tgt ns (doc d1)) \/
      (exists n,
         doc (dom c') =
         appendChildrenT (sect c) [noteBlock (S (nextId d1)) n]
           (appendChildrenT r [forwardNode (nextId d1) n] (doc d1))))).
Proof.
  intros Hb Hc Hinv Hstep.
  dest_returns c r d1 S1 Hr Hd1 Hs1 Hg1 Hin1.
  pose proof Hd as [Hnd [Hf _]]. pose proof Hd1 as [Hnd1 [Hf1 _]].
  destruct (destElD_spec _ _ _ _ _ Hr) as [Hh _].
  assert (forall e, eid e = nextId d1 ->
            forall k, In k (flat_map ids [Element e []]) -> nextId d1 <= k) as Hone.
  { intros e He k Hk. simpl in Hk. destruct Hk as [<-|[]]. lia. }
  assert (forall tgt ns,
            (tgt = sect c \/
             (exists n, getNode r (doc d1) = Some n /\ In tgt (ids n)) \/
             (exists ce, In ce (elems (doc d1)) /\ eid ce = tgt /\
                         tag ce <> "table" /\ tag ce <> "tr")) ->
            Forall inert ns -> (forall k, In k (flat_map ids ns) -> nextId d1 <= k) ->
            sect c' = sect c -> doc (dom c') = appendChildrenT tgt ns (doc d1) ->
            sect c' = sect c /\
            (doc (dom c') = doc (dom c) \/
             exists r d1,
               destElD (dest c) (sect c) (dom c) = Return r d1 /\
               ((exists tgt ns,
                   (tgt = sect c \/
                    (exists n, getNode r (doc d1) = Some n /\ In tgt (ids n)) \/
                    (exists ce, In ce (elems (doc d1)) /\ eid ce = tgt /\
                                tag ce <> "table" /\ tag ce <> "tr")) /\
                   Forall inert ns /\
                   (forall k, In k (flat_map ids ns) -> nextId d1 <= k) /\
                   doc (dom c') = appendChildrenT tgt ns (doc d1)) \/
                (exists n,
                   doc (dom c') =
                   appendChildrenT (sect c) [noteBlock (S (nextId d1)) n]
                     (appendChildrenT r [forwardNode (nextId d1) n] (doc d1)))))) as Happ.
  { intros tgt ns H1 H2 H3 H4 H5. split; [exact H4|]. right. exists r, d1.
    split; [exact Hr|]. left. exists tgt, ns. auto. }
  destruct l as [t|t|m].
  - simpl in Hb, Hc. destruct (lineType t) eqn:Hk; try discriminate.
    + (* PARAGRAPH *)
      pose proof Hs1 as [_ [se [cs [Hg [Ht _]]]]].
      rewrite Hg in Hg1. inversion Hg1; subst S1.
      destruct (container_found _ _ _ _ r Hnd1 Hg Ht Hin1) as [p [ce [Hp [Hcl Hce]]]].
      rewrite (paragraph_run c t r d1 p ce Hf Hr Hk Hp Hcl Hce) in Hstep.
      injection Hstep as Ec; subst c'.
      destruct (closest_tag _ _ _ Hcl) as [Hin Htg].
      eapply Happ; [| | | cbn [sect setDom setLink]; apply afterReset_sect | reflexivity].
      * right. right. exists ce. split; [apply (pathTo_elems _ _ _ Hp); assumption|].
        split; [reflexivity|]. simpl in Htg.
        destruct Htg as [E|[E|[E|[E|[]]]]]; rewrite <- E; split; discriminate.
      * apply inert_single. unfold structural. rewrite tag_aligned. reflexivity.
      * apply Hone. rewrite eid_aligned. reflexivity.
    + (* HINT *)
      rewrite step_afterReset in Hstep. unfold handleTyped in Hstep. rewrite Hk in Hstep.
      simpl in Hstep. injection Hstep as Ec; subst c'. cbn [sect dom setHint].
      rewrite afterReset_sect, afterReset_dom. auto.
    + (* LINK *)
      rewrite (link_run c t r d1 Hf Hr Hk) in Hstep. injection Hstep as Ec; subst c'.
      eapply Happ;
        [| | | cbn [sect setDom setLink setHint]; apply afterReset_sect | reflexivity].
      * right. left. apply found_inside. assumption.
      * apply inert_single. unfold structural. rewrite tag_titled. reflexivity.
      * apply Hone. rewrite eid_titled. reflexivity.
    + (* ANCHOR *)
      rewrite (anchor_run c t r d1 Hf Hr Hk) in Hstep. injection Hstep as Ec; subst c'.
      eapply Happ; [| | | cbn [sect setDom]; apply afterReset_sect | reflexivity].
      * right. left. apply found_inside. assumption.
      * apply inert_single. reflexivity.
      * apply Hone. reflexivity.
    + (* BLOB *)
      rewrite step_afterReset in Hstep. unfold handleTyped in Hstep. rewrite Hk in Hstep.
      simpl in Hstep. injection Hstep as Ec; subst c'. cbn [sect dom setBlob].
      rewrite afterReset_sect, afterReset_dom. auto.
    + (* IMAGE *)
      destruct (truthy (content t)) eqn:Hsrc.
      * rewrite (image_inline_run c t r d1 Hf Hr Hk Hsrc) in Hstep.
        injection Hstep as Ec; subst c'.
        eapply Happ; [| | | cbn [sect setDom setHint]; apply afterReset_sect | reflexivity].
        -- right. left. apply found_inside. assumption.
        -- apply inert_single. unfold structural. rewrite tag_titled. reflexivity.
        -- apply Hone. rewrite eid_titled. reflexivity.
      * destruct (blob c) as [[ty da]|] eqn:Hbl.
        -- rewrite (image_blob_run c t r d1 ty da Hf Hr Hk Hsrc Hbl) in Hstep.
           injection Hstep as Ec; subst c'.
           eapply Happ;
             [| | | cbn [sect setDom setHint]; apply afterReset_sect | reflexivity].
           ++ right. left. apply found_inside. assumption.
           ++ apply inert_single. unfold structural. rewrite tag_titled. reflexivity.
           ++ apply Hone. rewrite eid_titled. reflexivity.
        -- rewrite (image_no_blob c t r d1 Hk Hsrc Hr Hbl) in Hstep. discriminate.
    + (* DESTINATION *)
      rewrite (destination_step t c Hk) in Hstep.
      destruct (destinationOf t) eqn:Hdst; try discriminate.
      * (* to the body *)
        cbn [ret] in Hstep. injection Hstep as Ec; subst c'. cbn [sect dom setDest setLink].
        rewrite afterReset_sect, afterReset_dom. auto.
      * (* to a note *)
        set (c1 := setLink None (afterReset (Typed t) c)) in *.
        assert (destElD (dest c1) (sect c1) (dom c1) = Return r d1) as Hr1.
        { unfold c1. cbn [dest sect dom setLink].
          rewrite afterReset_dest, afterReset_sect, afterReset_dom. exact Hr. }
        assert (sect c1 = sect c) as Es by (unfold c1; simpl; apply afterReset_sect).
        assert (hasNode (sect c1) (doc d1) = true) as Hhs.
        { rewrite Es. unfold hasNode. rewrite Hg1. reflexivity. }
        rewrite (enterNote_run c1 r d1 Hr1 Hf1 Hhs) in Hstep.
        injection Hstep as Ec; subst c'.
        cbn [sect dom doc setDest setDom setNoteIndex setLink].
        rewrite ?afterReset_sect, ?Es. split; [reflexivity|]. right. exists r, d1. split; [exact Hr|].
        right. exists (noteIndex c1). reflexivity.
  - (* text *)
    rewrite (text_line_run c t r d1 Hf Hr) in Hstep. injection Hstep as Ec; subst c'.
    eapply Happ; [| | | cbn [sect setDom]; apply afterReset_sect | reflexivity].
    + right. left. apply insertionPoint_below. assumption.
    + apply inert_text_subtree.
    + intros k Hk. rewrite ids_text_subtree in Hk. apply in_seq in Hk. lia.
  - (* metadata *)
    rewrite step_afterReset in Hstep. simpl in Hstep. injection Hstep as Ec; subst c'.
    rewrite afterReset_sect, afterReset_dom. auto.
Qed.

Lemma inert_forwardNode k n : Forall inert [forwardNode k n].
Proof.
  constructor; [|constructor]. unfold inert, forwardNode. simpl.
  destruct (String.eqb (showNat n) ""); simpl; constructor; try reflexivity; constructor.
Qed.

Lemma ids_forwardNode_new k n : flat_map ids [forwardNode k n] = [k].
Proof. unfold forwardNode. simpl. destruct (String.eqb (showNat n) ""); reflexivity. Qed.

Lemma inert_noteBlock k n : Forall inert [noteBlock k n].
Proof.
  constructor; [|constructor]. unfold inert, noteBlock. simpl. repeat constructor.
Qed.

(** A line that may stand between the cells, and is no cell
    directive, keeps the table and the section; it throws only when it
    is an IMAGE line without content. *)
Lemma table_kept (t0 : ref) (C j : nat) (l : line) (c : ctx) :
  betweenCells l = true -> isCellLine l = false -> safeInv c ->
  tableAt t0 C j (sect c) (doc (dom c)) ->
  match step l c with
  | Return _ c' => sect c' = sect c /\ tableAt t0 C j (sect c') (doc (dom c'))
  | Throw e _ =>
      e = noImage /\
      exists t, l = Typed t /\ lineType t = T_IMAGE /\ truthy (content t) = false
  end.
Proof.
  intros Hb Hc Hinv Htab.
  pose proof (step_safe l c Hinv) as Hsafe. unfold lineSafe in Hsafe.
  destruct (step l c) as [[] c'|e c'] eqn:Hstep.
  - destruct (line_effect l c c' Hb Hc Hinv Hstep) as [Es Heff].
    split; [exact Es|]. rewrite Es.
    destruct Heff as [-> | [r [d1 [Hr [[tgt [ns [Htgt [Hns [Hids ->]]]]] | [n ->]]]]]].
    + exact Htab.
    + apply (tableAt_after_dest t0 C j c r d1 tgt ns); assumption.
    + destruct (tableAt_dest t0 C j c r d1 Hinv Htab Hr) as [Hd1 [Hs1 [Htab1 Hin]]].
      pose proof Hd1 as [Hnd1 [Hf1 _]]. pose proof (sect_below _ _ _ Hd1 Hs1) as Hlt.
      destruct (destElD_spec _ _ _ _ _ Hr) as [Hh _].
      set (k := nextId d1) in *.
      assert (tableAt t0 C j (sect c) (appendChildrenT r [forwardNode k n] (doc d1)))
        as Htab2.
      { apply (tableAt_after_dest t0 C j c r d1); try assumption.
        - right. left. apply found_inside. assumption.
        - apply inert_forwardNode.
        - intros i Hi. rewrite ids_forwardNode_new in Hi. destruct Hi as [<-|[]].
          unfold k. lia. }
      assert (NoDup (ids (appendChildrenT r [forwardNode k n] (doc d1)))) as Hnd2.
      { apply (NoDup_appendChildrenT r [forwardNode k n] d1 1); try assumption.
        - rewrite ids_forwardNode_new. constructor; [simpl; tauto | constructor].
        - intros i Hi. rewrite ids_forwardNode_new in Hi. destruct Hi as [<-|[]].
          unfold k. lia. }
      apply tableAt_append; try assumption.
      * pose proof Hs1 as [_ [se [cs [Hg [Ht _]]]]].
        destruct (getNode_shape _ _ _ Hg) as [se' [cs' [E Hse]]].
        inversion E; subst se' cs'. rewrite <- Hse.
        apply (offSpine_tag t0 C j (sect c) _ se Hnd2 Htab2).
        -- apply elems_appendChildrenT_old. apply (getNode_elems _ _ _ _ Hg).
        -- rewrite Ht. discriminate.
        -- rewrite Ht. discriminate.
      * unfold noteBlock. simpl. fold k. lia.
      * apply inert_noteBlock.
  - destruct l as [t|t|m]; simpl in Hsafe; try contradiction.
    simpl in Hb, Hc. destruct (lineType t) eqn:Hk; try contradiction.
    + destruct Hsafe as [H1 H2]. split; [exact H2|]. exists t. auto.
    + destruct Hsafe as [H1 _]. rewrite H1 in Hc. discriminate.
Qed.

(** ** Tables are children of their section *)

Lemma flat_append s t p ns :
  flatSection s t -> ~ In s (flat_map ids ns) ->
  (forall e, In e (flat_map elems ns) -> tag e <> "table") ->
  flatSection s (appendChildrenT p ns t).
Proof.
  intros Hfl Hs Hns Sec' Hg.
  rewrite getNode_appendChildrenT_old in Hg by (apply findMap_getNode_notin; assumption).
  destruct (getNode s t) as [Sec|] eqn:E; [|discriminate]. simpl in Hg.
  inversion Hg; subst Sec'. clear Hg. specialize (Hfl Sec E).
  destruct (getNode_shape _ _ _ E) as [se [cs [-> Hse]]].
  rewrite appendChildrenT_Element. unfold noNestedTables. cbn [childNodes].
  rewrite forallb_app. apply andb_true_iff. split.
  - apply (noNestedTables_append p ns se cs Hns Hfl).
  - destruct (eid se =? p); [|reflexivity]. apply forallb_forall. intros x Hx.
    destruct x as [ex xcs| |]; try reflexivity.
    unfold querySelectorAllN. rewrite descendants_Element.
    rewrite lastOfType_none; [reflexivity|].
    intros e He. apply Hns. apply in_flat_map. exists (Element ex xcs).
    split; [assumption | simpl; auto].
Qed.

(** A table without children appended to the section itself. *)
Lemma flat_table s t e :
  NoDup (ids t) -> flatSection s t -> eid e <> s ->
  flatSection s (appendChildrenT s [Element e []] t).
Proof.
  intros Hnd Hfl He Sec' Hg.
  rewrite getNode_appendChildrenT_old in Hg
    by (apply findMap_getNode_notin; simpl; intros [H|[]]; congruence).
  destruct (getNode s t) as [Sec|] eqn:E; [|discriminate]. simpl in Hg.
  inversion Hg; subst Sec'. clear Hg. specialize (Hfl Sec E).
  destruct (getNode_shape _ _ _ E) as [se [cs [-> Hse]]].
  unfold appendChildrenT. rewrite <- Hse.
  rewrite (updateNode_root _ se cs (getNode_NoDup _ _ _ E Hnd)).
  unfold noNestedTables in *. cbn [childNodes] in *. rewrite forallb_app.
  rewrite Hfl. reflexivity.
Qed.

Lemma flat_leaf s t e :
  getNode s t = Some (Element e []) -> flatSection s t.
Proof. intros He Sec Hg. rewrite He in Hg. inversion Hg; subst. reflexivity. Qed.

Lemma leaf_noTables k tg :
  tg <> "table" -> forall e, In e (flat_map elems [leaf k tg]) -> tag e <> "table".
Proof. intros H e [<-|[]]. exact H. Qed.

(** What a cell directive does to the document: it appends a cell to a
    row, or a row with a cell to a table. *)
Lemma enterCell_effect l x x' :
  enterCell l x = Return tt x' ->
  sect x' = sect x /\
  exists p tg,
    tg <> "table" /\
    (dom x' = mkDom (appendChildrenT p [leaf (nextId (dom x)) tg] (doc (dom x)))
                    (S (nextId (dom x))) \/
     exists q,
       dom x' = mkDom (appendChildrenT q [leaf (S (nextId (dom x))) tg]
                         (appendChildrenT p [leaf (nextId (dom x)) "tr"] (doc (dom x))))
                      (S (S (nextId (dom x))))).
Proof.
  unfold enterCell, bind, gets, liftD, querySelector, querySelectorAll, withNode, ret.
  destruct (getNode (sect x) (doc (dom x))) as [n|]; [|discriminate].
  destruct (hd_error (querySelectorAllN [SelLastOfType "table"] n)) as [t|]; [|discriminate].
  cbn [dom setDom sect].
  destruct (getNode (eid t) (doc (dom x))) as [T|] eqn:ET; [|discriminate].
  cbn [dom setDom sect]. rewrite ET.
  assert (forall (y : ctx),
            dom y = dom x -> sect y = sect x ->
            match
              match createAppend (eid t) "tr" (dom y) with
              | Return a d' => Return a (setDom d' y)
              | Throw e d' => Throw e (setDom d' y)
              end
            with
            | Return r y' =>
                match
                  match createAppend r (if header l then "th" else "td") (dom y') with
                  | Return a d' => Return a (setDom d' y')
                  | Throw e d' => Throw e (setDom d' y')
                  end
                with
                | Return _ y'' => Return tt y''
                | Throw e y'' => Throw e y''
                end
            | Throw e y' => Throw e y'
            end = Return tt x' ->
            sect x' = sect x /\
            exists p tg,
              tg <> "table" /\
              (dom x' = mkDom (appendChildrenT p [leaf (nextId (dom x)) tg] (doc (dom x)))
                              (S (nextId (dom x))) \/
               exists q,
                 dom x' = mkDom (appendChildrenT q [leaf (S (nextId (dom x))) tg]
                                   (appendChildrenT p [leaf (nextId (dom x)) "tr"]
                                      (doc (dom x))))
                                (S (S (nextId (dom x)))))) as Hrow.
  { intros y Hd Hy H. rewrite Hd in H. unfold createAppend at 1 in H.
    destruct (hasNode (eid t) (doc (dom x))); [|discriminate].
    cbn [dom setDom] in H. unfold createAppend in H. cbn [doc nextId] in H.
    destruct (hasNode (nextId (dom x)) _); [|discriminate].
    inversion H; subst x'. cbn [sect dom setDom]. split; [exact Hy|].
    exists (eid t), (if header l then "th" else "td").
    split; [destruct (header l); discriminate|]. right. exists (nextId (dom x)).
    rewrite !appendChildT_children. reflexivity. }
  assert (forall r (y : ctx),
            dom y = dom x -> sect y = sect x ->
            match
              match createAppend r (if header l then "th" else "td") (dom y) with
              | Return a d' => Return a (setDom d' y)
              | Throw e d' => Throw e (setDom d' y)
              end
            with
            | Return _ y'' => Return tt y''
            | Throw e y'' => Throw e y''
            end = Return tt x' ->
            sect x' = sect x /\
            exists p tg,
              tg <> "table" /\
              (dom x' = mkDom (appendChildrenT p [leaf (nextId (dom x)) tg] (doc (dom x)))
                              (S (nextId (dom x))) \/
               exists q,
                 dom x' = mkDom (appendChildrenT q [leaf (S (nextId (dom x))) tg]
                                   (appendChildrenT p [leaf (nextId (dom x)) "tr"]
                                      (doc (dom x))))
                                (S (S (nextId (dom x)))))) as Hcell.
  { intros r y Hd Hy H. rewrite Hd in H. unfold createAppend in H.
    destruct (hasNode r (doc (dom x))); [|discriminate].
    inversion H; subst x'. cbn [sect dom setDom]. split; [exact Hy|].
    exists r, (if header l then "th" else "td").
    split; [destruct (header l); discriminate|]. left.
    rewrite appendChildT_children. reflexivity. }
  destruct (hd_error (querySelectorAllN [SelLastOfType "tr"] T)) as [r0|].
  - unfold cellCountIsMultiple, throw. destruct (fltColumns t) as [z|]; [|discriminate].
    destruct (z =? 0)%Z; [discriminate|]. unfold ret. cbn [dom setDom].
    destruct (Z.rem _ z =? 0)%Z.
    + apply Hrow; reflexivity.
    + apply Hcell; reflexivity.
  - apply Hrow; reflexivity.
Qed.

Lemma flat_dest c r d1 :
  safeInv c -> flatSection (sect c) (doc (dom c)) ->
  destElD (dest c) (sect c) (dom c) = Return r d1 ->
  flatSection (sect c) (doc d1).
Proof.
  intros [Hd Hs] Hfl Hr. pose proof (sect_below _ _ _ Hd Hs) as Hlt.
  destruct (destElD_effect _ _ _ _ _ Hr) as [[-> | [tg [Htg [_ ->]]]] _]; [exact Hfl|].
  cbn [doc]. apply flat_append; [assumption | simpl; intros [H|[]]; lia |].
  apply leaf_noTables. destruct Htg as [-> | ->]; discriminate.
Qed.

(** Every line keeps the tables of the current section among its
    children. *)
Lemma flat_step l c :
  safeInv c -> flatSection (sect c) (doc (dom c)) ->
  match step l c with
  | Return _ c' => flatSection (sect c') (doc (dom c'))
  | Throw _ _ => True
  end.
Proof.
  intros Hinv Hfl. destruct (step l c) as [[] c'|e c'] eqn:Hstep; [|exact I].
  pose proof Hinv as [Hd Hs]. pose proof Hd as [Hnd [Hf [Hbody _]]].
  pose proof (sect_below _ _ _ Hd Hs) as Hlt.
  destruct (betweenCells l && negb (isCellLine l)) eqn:Hb.
  - apply andb_true_iff in Hb. destruct Hb as [Hb Hc]. apply negb_true_iff in Hc.
    destruct (line_effect l c c' Hb Hc Hinv Hstep) as [Es Heff]. rewrite Es.
    destruct Heff as [-> | [r [d1 [Hr [[tgt [ns [_ [Hns [Hids ->]]]]] | [n ->]]]]]].
    + exact Hfl.
    + pose proof (flat_dest c r d1 Hinv Hfl Hr) as Hfl1.
      destruct (destElD_returns _ _ _ Hd Hs) as [r' [d1' [S1 [Hr' [Hd1 [Hs1 _]]]]]].
      rewrite Hr in Hr'. inversion Hr'; subst r' d1'.
      pose proof (sect_below _ _ _ Hd1 Hs1) as Hlt1.
      apply flat_append; [assumption | | apply inert_noTables; assumption].
      intros H. apply Hids in H. lia.
    + pose proof (flat_dest c r d1 Hinv Hfl Hr) as Hfl1.
      destruct (destElD_returns _ _ _ Hd Hs) as [r' [d1' [S1 [Hr' [Hd1 [Hs1 _]]]]]].
      rewrite Hr in Hr'. inversion Hr'; subst r' d1'.
      pose proof (sect_below _ _ _ Hd1 Hs1) as Hlt1.
      apply flat_append; [apply flat_append | |].
      * assumption.
      * rewrite ids_forwardNode_new. simpl. intros [H|[]]. lia.
      * apply inert_noTables. apply inert_forwardNode.
      * unfold noteBlock. simpl. lia.
      * apply inert_noTables. apply inert_noteBlock.
  - destruct l as [t|t|m]; try discriminate.
    simpl in Hb. destruct (lineType t) eqn:Hk; try discriminate.
    + (* SECTION *)
      rewrite (section_run c t Hinv Hk) in Hstep. injection Hstep as Ec. subst c'.
      cbn [sect dom doc setSect setDom].
      apply (flat_leaf _ _ (aligned (align t) (newElem (nextId (dom c)) "section"))).
      pose proof (withoutEmpty_ok _ _ _ Hd Hs) as Hok.
      set (t0 := withoutEmpty (sect c) (doc (dom c))) in *.
      set (k := nextId (dom c)) in *.
      pose proof Hok as [_ [Hf0 [Hb0 _]]]. cbn [doc nextId] in Hb0.
      pose proof (new_below _ Hf0) as Hnew. cbn [doc nextId] in Hnew.
      rewrite getNode_appendChildrenT_new by (apply getNode_None; assumption).
      rewrite Hb0.
      assert ((S k =? k) = false) as Hne by (apply Nat.eqb_neq; lia).
      destruct (ruled t t0); cbn [app findMap getNode leaf newElem eid];
        rewrite ?Hne, eid_aligned; cbn [newElem eid]; rewrite Nat.eqb_refl; reflexivity.
    + (* TABLE *)
      rewrite (table_run c t Hf (sect_present _ _ _ Hs) Hk) in Hstep.
      injection Hstep as Ec. subst c'. cbn [sect dom doc setDom].
      rewrite afterReset_sect. apply flat_table; [assumption | assumption |].
      simpl. lia.
    + (* DESTINATION *)
      rewrite (destination_step t c Hk) in Hstep.
      set (c1 := setLink None (afterReset (Typed t) c)) in *.
      assert (dom c1 = dom c) as Ed by (unfold c1; simpl; apply afterReset_dom).
      assert (sect c1 = sect c) as Es by (unfold c1; simpl; apply afterReset_sect).
      destruct (destinationOf t) eqn:Hdst; try discriminate.
      * (* to a cell *)
        destruct (enterCell t c1) as [[] x'|e x'] eqn:Ecell; [|discriminate].
        injection Hstep as Ec. subst c'. cbn [sect dom setDest].
        destruct (enterCell_effect t c1 x' Ecell) as [Es' [p [tg [Htg Hdom]]]].
        rewrite Es', Es. rewrite Ed in Hdom.
        destruct Hdom as [-> | [q ->]]; cbn [doc].
        -- apply flat_append; [assumption | simpl; intros [H|[]]; lia |].
           apply leaf_noTables. assumption.
        -- apply flat_append; [apply flat_append | |].
           ++ assumption.
           ++ simpl. intros [H|[]]. lia.
           ++ apply leaf_noTables. discriminate.
           ++ simpl. intros [H|[]]. lia.
           ++ apply leaf_noTables. assumption.
      * (* to the heading *)
        assert (hasNode bodyId (doc (dom c1)) = true) as Hb1 by (rewrite Ed; exact Hbody).
        rewrite (enterHead_run c1 Hb1) in Hstep. injection Hstep as Ec. subst c'.
        cbn [sect dom doc setDest setSect setDom]. rewrite ?Ed, ?afterReset_dom.
        destruct (new_leafAt (dom c) bodyId (newElem (nextId (dom c)) "section")
                    Hbody Hf eq_refl) as [e He].
        apply (flat_leaf _ _ e). exact He.
Qed.

Lemma renderLines_flat ls : forall c,
  safeInv c -> flatSection (sect c) (doc (dom c)) ->
  match renderLines ls c with
  | Return _ c' => flatSection (sect c') (doc (dom c'))
  | Throw _ _ => True
  end.
Proof.
  induction ls as [|l ls IH]; intros c Hinv Hfl; [exact Hfl|].
  rewrite renderLines_cons. pose proof (step_safe l c Hinv) as Hs.
  pose proof (flat_step l c Hinv Hfl) as Hf. unfold lineSafe in Hs.
  destruct (step l c) as [[] c1|e c1]; [|exact I]. apply IH; assumption.
Qed.

(** In every state the render loop reaches, the tables of the current
    section are children of the section. *)
Lemma stateAfter_flat this u ls c :
  stateAfter this u ls = Some c -> flatSection (sect c) (doc (dom c)).
Proof.
  unfold stateAfter.
  pose proof (setup_outcome this (mergeOptions u) createHTMLDocument
                headOK_createHTMLDocument) as Hs.
  destruct (setup this (mergeOptions u) createHTMLDocument) as [s d|e d]; [|discriminate].
  destruct Hs as [Hinv [[e0 Hleaf] _]].
  pose proof (renderLines_flat ls (initCtx d s) Hinv (flat_leaf s (doc d) e0 Hleaf)) as H.
  destruct (renderLines ls (initCtx d s)) as [[] c'|e c']; [|discriminate].
  intros Hc. inversion Hc; subst. exact H.
Qed.

(** ** Cells in sequence, among other lines *)

Lemma isCellLine_directive l :
  isCellLine l = true -> exists t, l = Typed t /\ isCellDirective t.
Proof.
  destruct l as [t|t|m]; try discriminate. simpl.
  destruct (lineType t) eqn:Hk; try discriminate.
  destruct (destinationOf t) eqn:Hd; try discriminate.
  intros _. exists t. split; [reflexivity | split; assumption].
Qed.

Lemma cellLines_cons l ls :
  cellLines (l :: ls) = (if isCellLine l then 1 else 0) + cellLines ls.
Proof. unfold cellLines. simpl. destruct (isCellLine l); reflexivity. Qed.

Lemma cells_among_lines (t0 : ref) (C : nat) (ls : list line) : forall j c,
  1 <= C -> forallb betweenCells ls = true -> safeInv c ->
  tableAt t0 C j (sect c) (doc (dom c)) ->
  match renderLines ls c with
  | Return _ c' =>
      sect c' = sect c /\ tableAt t0 C (j + cellLines ls) (sect c') (doc (dom c'))
  | Throw e _ =>
      e = noImage /\
      exists t, In (Typed t) ls /\ lineType t = T_IMAGE /\ truthy (content t) = false
  end.
Proof.
  induction ls as [|l ls IH]; intros j c HC Hls Hinv Htab.
  - simpl. unfold cellLines. simpl. rewrite Nat.add_0_r. split; [reflexivity | exact Htab].
  - simpl in Hls. apply andb_true_iff in Hls. destruct Hls as [Hl Hls].
    rewrite renderLines_cons, cellLines_cons.
    pose proof (step_safe l c Hinv) as Hsafe. unfold lineSafe in Hsafe.
    assert (match step l c with
            | Return _ c' =>
                sect c' = sect c /\
                tableAt t0 C (j + (if isCellLine l then 1 else 0)) (sect c') (doc (dom c'))
            | Throw e _ =>
                e = noImage /\
                exists t, l = Typed t /\ lineType t = T_IMAGE /\ truthy (content t) = false
            end) as Hstep.
    { destruct (isCellLine l) eqn:Hcell.
      - destruct (isCellLine_directive l Hcell) as [t [-> Ht]].
        destruct (cell_step_mid t0 C j c t HC Ht Hinv Htab) as [c' [-> [E1 E2]]].
        split; [exact E1|]. rewrite Nat.add_1_r. exact E2.
      - rewrite Nat.add_0_r. apply table_kept; assumption. }
    destruct (step l c) as [[] c1|e c1].
    + destruct Hstep as [Es Htab1]. specialize (IH _ c1 HC Hls Hsafe Htab1).
      destruct (renderLines ls c1) as [[] c2|e c2].
      * destruct IH as [Es2 Htab2]. split; [congruence|].
        rewrite Nat.add_assoc. exact Htab2.
      * destruct IH as [He [t [Hin Ht]]]. split; [exact He|].
        exists t. split; [right; exact Hin | exact Ht].
    + destruct Hstep as [He [t [-> Ht]]]. split; [exact He|].
      exists t. split; [left; reflexivity | exact Ht].
Qed.

Lemma tableInv_tableAt t0 C j c :
  tableInv t0 C j c -> tableAt t0 C j (sect c) (doc (dom c)).
Proof.
  intros [_ [_ [se [cs [te [rows [HS [H1 [H2 [H3 [H4 [H5 H6]]]]]]]]]]]].
  exists se, cs, te, rows, []. repeat (split; [assumption|]).
  split; [constructor|]. split; assumption.
Qed.

(** C5 (as amended).  A table is declared with [C >= 1] columns in a
    state the render loop reaches, and lines follow of which [K >= 1]
    are CELL directives and none is a TABLE line, a SECTION line or a
    DESTINATION line for the heading: text, links, anchors, images,
    paragraphs, notes and returns to the body may stand between the
    cells.  When the lines return, the table has the rows of
    [layout K C]: there are [ceil (K / C)] rows, every row but the
    last has [C] cells, and the last has [K mod C] cells, or [C] when
    [C] divides [K].  The lines throw only at an IMAGE line without
    content. *)
Theorem table_row_wrapping (this : Document) (u : UserOptions) (pre : list line) (c : ctx)
        (tl : TypeLine) (C : nat) (ls : list line) :
  stateAfter this u pre = Some c ->
  lineType tl = T_TABLE -> columns tl = Z.of_nat C -> 1 <= C ->
  forallb betweenCells ls = true -> 1 <= cellLines ls ->
  match renderLines (Typed tl :: ls) c with
  | Return _ c' =>
      exists T,
        getNode (nextId (dom c)) (doc (dom c')) = Some T /\
        hasTag "table" T = true /\
        rowSizes T = layout (cellLines ls) C /\
        List.length (rowSizes T) = (cellLines ls + C - 1) / C /\
        (forall i, i + 1 < List.length (rowSizes T) -> nth i (rowSizes T) 0 = C) /\
        last (rowSizes T) 0 = (if cellLines ls mod C =? 0 then C else cellLines ls mod C)
  | Throw e _ =>
      e = noImage /\
      exists t, In (Typed t) ls /\ lineType t = T_IMAGE /\ truthy (content t) = false
  end.
Proof.
  intros Hc Hk Hcols HC Hls HK.
  pose proof (stateAfter_safe _ _ _ _ Hc) as Hinv.
  pose proof Hinv as [[Hnd [Hf _]] [_ [se [cs [HS _]]]]].
  pose proof (stateAfter_flat _ _ _ _ Hc _ HS) as Hnest.
  destruct (table_declared c tl _ C Hk Hcols HC Hf Hnd HS Hnest) as [c1 [H1 [I1 S1]]].
  pose proof (step_safe (Typed tl) c Hinv) as Hsafe. unfold lineSafe in Hsafe.
  rewrite H1 in Hsafe. rewrite renderLines_cons, H1.
  pose proof (cells_among_lines (nextId (dom c)) C ls 0 c1 HC Hls Hsafe
                (tableInv_tableAt _ _ _ _ I1)) as Hrun.
  pose proof (renderLines_safe ls c1 Hsafe) as Hs2.
  destruct (renderLines ls c1) as [[] c2|e c2]; [|exact Hrun].
  destruct Hrun as [_ Htab]. simpl in Htab. destruct Hs2 as [[Hnd2 _] _].
  destruct Htab as [se2 [cs2 [te [rows [post [HS2 [Ht0 [Htag [_ [_ [_ [Hrows Hlay]]]]]]]]]]]].
  exists (Element te rows).
  pose proof (rowSizes_regular te rows Hrows) as Hsz. rewrite Hlay in Hsz.
  split.
  - rewrite <- Ht0. apply (table_lookup_mid _ _ _ _ _ _ _ Hnd2 HS2).
  - split; [simpl; rewrite Htag; reflexivity|].
    split; [exact Hsz|]. rewrite Hsz. apply layout_spec; assumption.
Qed.

Lemma table_row_wrapping_witness :
  exists c c' T,
    stateAfter (emptyDocument []) noOptions [TEXT "a"] = Some c /\
    renderLines (TABLE 2 :: cellsDocument) c = Return tt c' /\
    getNode (nextId (dom c)) (doc (dom c')) = Some T /\
    rowSizes T = [2; 1].
Proof.
  pose (c := finalState (renderLines [TEXT "a"] startCtx)).
  assert (stateAfter (emptyDocument []) noOptions [TEXT "a"] = Some c) as Hc
      by (vm_compute; reflexivity).
  pose proof (table_row_wrapping (emptyDocument []) noOptions [TEXT "a"] c
                (mkTypeLine T_TABLE None 2 None false D_BODY false "" "" false)
                2 cellsDocument Hc eq_refl eq_refl) as H.
  specialize (H ltac:(lia) eq_refl ltac:(vm_compute; lia)).
  change (Typed (mkTypeLine T_TABLE None 2 None false D_BODY false "" "" false))
    with (TABLE 2) in H.
  destruct (renderLines (TABLE 2 :: cellsDocument) c) as [[] c'|e c'] eqn:E.
  - destruct H as [T [H1 [_ [H2 _]]]].
    exists c, c', T. split; [exact Hc|]. split; [exact E|]. split; [exact H1 | exact H2].
  - exfalso. destruct H as [_ [t [Hin [Hk Hsrc]]]]. unfold cellsDocument in Hin.
    simpl in Hin.
    repeat (destruct Hin as [Hin|Hin];
            [inversion Hin; subst t; simpl in Hk, Hsrc; discriminate|]).
    exact Hin.
Defined.

(** C5 (as stated) fails: with a DESTINATION line for the heading
    between two cells, and no TABLE or SECTION line, the second CELL
    directive throws, and the table is left with one cell where the
    layout of two cells in two columns is a row of two. *)
Lemma table_row_wrapping_counterexample :
  exists c' T,
    renderLines [TABLE 2; DESTINATION D_CELL false; DESTINATION D_HEAD false;
                 DESTINATION D_CELL false] startCtx = Throw noTable c' /\
    getNode (nextId (dom startCtx)) (doc (dom c')) = Some T /\
    rowSizes T = [1] /\
    layout 2 2 = [2].
Proof.
  eexists. eexists. split; [vm_compute; reflexivity|].
  split; [vm_compute; reflexivity|]. split; reflexivity.
Qed.
